(** * SpotiFLAC: chart extraction, file-name sanitisation and the matching run

    A shallow embedding of
      - backend/filename.go   (SanitizeFilename, SanitizeFolderPath,
                               BuildExpectedFilename),
      - backend/billboard.go  (parseBillboardHTML, parseDirectExtraction,
                               extractChartEntry, extractStat, cleanText),
      - frontend/src/components/BillboardPage.tsx (matchWithSpotify),
    together with the parts of the Go standard library these functions
    call (unicode/utf8, unicode, strings, regexp, html, strconv, fmt).

    A Go string is an immutable sequence of bytes; it is modelled as a
    list of [ascii] (eight-bit characters).  Runes are code points in [Z]. *)

From Stdlib Require Import List ZArith Lia Bool Ascii String Arith PeanoNat.
From Stdlib Require Import DecimalString Sorted.
Import ListNotations.

Local Open Scope Z_scope.

Abbreviation length := Datatypes.length (only parsing).

(** ** Bytes and strings *)

Definition bytes := list ascii.

(** A string literal of the source, as bytes. *)
Definition B (s : string) : bytes := list_ascii_of_string s.

(** The numeric value of a byte, and Go's conversion [byte(x)]. *)
Definition code (c : ascii) : Z := Z.of_N (N_of_ascii c).
Definition byte_of (z : Z) : ascii := ascii_of_N (Z.to_N (z mod 256)).

Definition beq (s t : bytes) : bool :=
  if list_eq_dec ascii_dec s t then true else false.

Definition is_empty (s : bytes) : bool :=
  match s with [] => true | _ => false end.

(** ** unicode/utf8 *)

Module utf8.

Definition RuneError : Z := 0xFFFD.
Definition RuneSelf : Z := 0x80.
Definition MaxRune : Z := 0x10FFFF.
Definition UTFMax : nat := 4.

(** The table [first] together with [acceptRanges]: what a leading byte
    of value at least [RuneSelf] announces. *)
Inductive lead : Type :=
| LeadInvalid
| Lead (size : nat) (lo hi : Z).

Definition first (c : Z) : lead :=
  if c <? 0xC2 then LeadInvalid
  else if c <? 0xE0 then Lead 2 0x80 0xBF
  else if c =? 0xE0 then Lead 3 0xA0 0xBF
  else if c <? 0xED then Lead 3 0x80 0xBF
  else if c =? 0xED then Lead 3 0x80 0x9F
  else if c <? 0xF0 then Lead 3 0x80 0xBF
  else if c =? 0xF0 then Lead 4 0x90 0xBF
  else if c <? 0xF4 then Lead 4 0x80 0xBF
  else if c =? 0xF4 then Lead 4 0x80 0x8F
  else LeadInvalid.

Definition outside (lo hi c : Z) : bool := (c <? lo) || (hi <? c).

(** [DecodeRuneInString]: the first rune of [s] and its width in bytes.
    An empty string gives [(RuneError, 0)], an ill-formed or truncated
    sequence [(RuneError, 1)]. *)
Definition DecodeRuneInString (s : bytes) : Z * nat :=
  match s with
  | [] => (RuneError, 0%nat)
  | b0 :: t =>
    let s0 := code b0 in
    if s0 <? RuneSelf then (s0, 1%nat)
    else
      match first s0 with
      | LeadInvalid => (RuneError, 1%nat)
      | Lead sz lo hi =>
        match t with
        | [] => (RuneError, 1%nat)
        | b1 :: t1 =>
          let s1 := code b1 in
          if outside lo hi s1 then (RuneError, 1%nat)
          else if (sz <=? 2)%nat then
            (Z.lor (Z.shiftl (Z.land s0 0x1F) 6) (Z.land s1 0x3F), 2%nat)
          else
            match t1 with
            | [] => (RuneError, 1%nat)
            | b2 :: t2 =>
              let s2 := code b2 in
              if outside 0x80 0xBF s2 then (RuneError, 1%nat)
              else if (sz <=? 3)%nat then
                (Z.lor (Z.lor (Z.shiftl (Z.land s0 0x0F) 12)
                              (Z.shiftl (Z.land s1 0x3F) 6))
                       (Z.land s2 0x3F), 3%nat)
              else
                match t2 with
                | [] => (RuneError, 1%nat)
                | b3 :: _ =>
                  let s3 := code b3 in
                  if outside 0x80 0xBF s3 then (RuneError, 1%nat)
                  else
                    (Z.lor (Z.lor (Z.lor (Z.shiftl (Z.land s0 0x07) 18)
                                         (Z.shiftl (Z.land s1 0x3F) 12))
                                  (Z.shiftl (Z.land s2 0x3F) 6))
                           (Z.land s3 0x3F), 4%nat)
                end
            end
        end
      end
  end.

(** [RuneStart]: the byte is not a continuation byte. *)
Definition RuneStart (b : ascii) : bool :=
  negb (Z.land (code b) 0xC0 =? 0x80).

(** How far [DecodeLastRuneInString] walks back from the byte before the
    last one: [rt] holds the bytes before the last one, nearest first.
    The result is the number of bytes before the last one that belong to
    the candidate sequence; the walk inspects at most [UTFMax - 1] bytes
    and, when none of them starts a rune, stops one byte beyond them
    (or at the start of the string). *)
Fixpoint walk_back (budget : nat) (rt : bytes) : nat :=
  match budget with
  | O => match rt with [] => 0%nat | _ :: _ => 1%nat end
  | S k =>
    match rt with
    | [] => 0%nat
    | b :: rt' => if RuneStart b then 1%nat else S (walk_back k rt')
    end
  end.

(** [DecodeLastRuneInString]: the last rune of [s] and its width. *)
Definition DecodeLastRuneInString (s : bytes) : Z * nat :=
  match rev s with
  | [] => (RuneError, 0%nat)
  | b :: rt =>
    if code b <? RuneSelf then (code b, 1%nat)
    else
      let back := walk_back (UTFMax - 1) rt in
      let cand := rev (firstn back rt) ++ [b] in
      let '(r, size) := DecodeRuneInString cand in
      if (size =? length cand)%nat then (r, size) else (RuneError, 1%nat)
  end.

(** [AppendRune] / [strings.Builder.WriteRune]: the UTF-8 encoding of
    [r]; a rune out of range or a surrogate is written as [RuneError]. *)
Definition EncodeRune (r : Z) : bytes :=
  if (0 <=? r) && (r <=? 0x7F) then [byte_of r]
  else if (0 <=? r) && (r <=? 0x7FF) then
    [byte_of (Z.lor 0xC0 (Z.shiftr r 6));
     byte_of (Z.lor 0x80 (Z.land r 0x3F))]
  else
    let r := if (r <? 0) || (MaxRune <? r) || ((0xD800 <=? r) && (r <=? 0xDFFF))
             then RuneError else r in
    if r <=? 0xFFFF then
      [byte_of (Z.lor 0xE0 (Z.shiftr r 12));
       byte_of (Z.lor 0x80 (Z.land (Z.shiftr r 6) 0x3F));
       byte_of (Z.lor 0x80 (Z.land r 0x3F))]
    else
      [byte_of (Z.lor 0xF0 (Z.shiftr r 18));
       byte_of (Z.lor 0x80 (Z.land (Z.shiftr r 12) 0x3F));
       byte_of (Z.lor 0x80 (Z.land (Z.shiftr r 6) 0x3F));
       byte_of (Z.lor 0x80 (Z.land r 0x3F))].

(** The iteration [for _, r := range s]: the runes of [s] with their
    widths, in order.  [skip] counts the bytes of the current rune that
    are still to be passed over. *)
Fixpoint range_from (skip : nat) (s : bytes) : list (Z * nat) :=
  match s with
  | [] => []
  | _ :: t =>
    match skip with
    | S k => range_from k t
    | O => let rn := DecodeRuneInString s in
           rn :: range_from (snd rn - 1) t
    end
  end.

Definition range (s : bytes) : list (Z * nat) := range_from 0 s.

Definition ill_formed (rn : Z * nat) : bool :=
  (fst rn =? RuneError) && (snd rn =? 1)%nat.

(** [ValidString]: no position of [s] decodes to an encoding error. *)
Definition ValidString (s : bytes) : bool :=
  forallb (fun rn => negb (ill_formed rn)) (range s).

End utf8.

(** ** unicode *)

Module unicode.

(** [IsControl]: the Latin-1 control characters, categories C0 and C1. *)
Definition IsControl (r : Z) : bool :=
  ((0 <=? r) && (r <=? 0x1F)) || ((0x7F <=? r) && (r <=? 0x9F)).

(** [IsSpace]: Unicode's White_Space property. *)
Definition IsSpace (r : Z) : bool :=
  if (0 <=? r) && (r <=? 0xFF) then
    ((0x09 <=? r) && (r <=? 0x0D)) || (r =? 0x20) || (r =? 0x85) || (r =? 0xA0)
  else
    (r =? 0x1680) || ((0x2000 <=? r) && (r <=? 0x200A)) || (r =? 0x2028)
    || (r =? 0x2029) || (r =? 0x202F) || (r =? 0x205F) || (r =? 0x3000).

End unicode.

(** ** strings *)

Module strings.

Fixpoint HasPrefix (s prefix : bytes) : bool :=
  match prefix, s with
  | [], _ => true
  | p :: prefix', c :: s' => Ascii.eqb c p && HasPrefix s' prefix'
  | _ :: _, [] => false
  end.

(** [Index]: the offset of the first occurrence of [substr], or -1. *)
Fixpoint Index (s substr : bytes) : Z :=
  if HasPrefix s substr then 0
  else
    match s with
    | [] => -1
    | _ :: t => let i := Index t substr in if i <? 0 then -1 else i + 1
    end.

Definition Contains (s substr : bytes) : bool := 0 <=? Index s substr.

(** The body of [ReplaceAll] for a non-empty [old]: occurrences are
    replaced from the left and do not overlap. *)
Fixpoint replace_from (skip : nat) (old new s : bytes) : bytes :=
  match s with
  | [] => []
  | c :: t =>
    match skip with
    | S k => replace_from k old new t
    | O =>
      if HasPrefix s old then new ++ replace_from (length old - 1) old new t
      else c :: replace_from 0 old new t
    end
  end.

(** With an empty [old] the replacement goes before every rune and at
    the end. *)
Fixpoint interleave (new : bytes) (widths : list nat) (s : bytes) : bytes :=
  match widths with
  | [] => new
  | w :: ws => new ++ firstn w s ++ interleave new ws (skipn w s)
  end.

Definition ReplaceAll (s old new : bytes) : bytes :=
  match old with
  | [] => interleave new (map snd (utf8.range s)) s
  | _ :: _ => replace_from 0 old new s
  end.

(** The body of [Split] for a non-empty separator; [cur] is the part
    being read, in reverse. *)
Fixpoint split_from (skip : nat) (sep : bytes) (cur : bytes) (s : bytes)
  : list bytes :=
  match s with
  | [] => [rev cur]
  | c :: t =>
    match skip with
    | S k => split_from k sep cur t
    | O =>
      if HasPrefix s sep then rev cur :: split_from (length sep - 1) sep [] t
      else split_from 0 sep (c :: cur) t
    end
  end.

(** [Split]; an empty separator splits after each UTF-8 sequence. *)
Fixpoint explode (widths : list nat) (s : bytes) : list bytes :=
  match widths with
  | [] => []
  | w :: ws => firstn w s :: explode ws (skipn w s)
  end.

Definition Split (s sep : bytes) : list bytes :=
  match sep with
  | [] => explode (map snd (utf8.range s)) s
  | _ :: _ => split_from 0 sep [] s
  end.

Fixpoint Join (elems : list bytes) (sep : bytes) : bytes :=
  match elems with
  | [] => []
  | [e] => e
  | e :: rest => e ++ sep ++ Join rest sep
  end.

(** *** Trimming *)

Definition asciiSpace (c : ascii) : bool :=
  let n := code c in
  ((0x09 <=? n) && (n <=? 0x0D)) || (n =? 0x20).

(** [TrimLeftFunc]: drop the leading runes that satisfy [f]. *)
Fixpoint trim_left_from (skip : nat) (f : Z -> bool) (s : bytes) : bytes :=
  match s with
  | [] => []
  | _ :: t =>
    match skip with
    | S k => trim_left_from k f t
    | O =>
      let rn := utf8.DecodeRuneInString s in
      if f (fst rn) then trim_left_from (snd rn - 1) f t else s
    end
  end.

Definition TrimLeftFunc (s : bytes) (f : Z -> bool) : bytes :=
  trim_left_from 0 f s.

(** [lastIndexFunc s f false], searching [s[0:i]]: the offset of the
    last rune that does not satisfy [f], if any. *)
Fixpoint last_index_not (fuel : nat) (f : Z -> bool) (s : bytes) (i : nat)
  : option nat :=
  match fuel with
  | O => None
  | S n =>
    match i with
    | O => None
    | S _ =>
      let rn := utf8.DecodeLastRuneInString (firstn i s) in
      let i' := (i - snd rn)%nat in
      if f (fst rn) then last_index_not n f s i' else Some i'
    end
  end.

(** [TrimRightFunc]: drop the trailing runes that satisfy [f]. *)
Definition TrimRightFunc (s : bytes) (f : Z -> bool) : bytes :=
  match last_index_not (length s) f s (length s) with
  | Some i =>
    if utf8.RuneSelf <=? code (nth i s zero)
    then firstn (i + snd (utf8.DecodeRuneInString (skipn i s))) s
    else firstn (i + 1) s
  | None => []
  end.

Definition TrimFunc (s : bytes) (f : Z -> bool) : bytes :=
  TrimRightFunc (TrimLeftFunc s f) f.

(** The two loops of [TrimSpace] over ASCII bytes.  Each stops at the
    first byte that is not an ASCII space and says whether that byte is
    outside ASCII. *)
Fixpoint skip_ascii_space (s : bytes) : bool * bytes :=
  match s with
  | [] => (false, [])
  | c :: t =>
    if utf8.RuneSelf <=? code c then (true, s)
    else if asciiSpace c then skip_ascii_space t
    else (false, s)
  end.

Definition TrimSpace (s : bytes) : bytes :=
  let '(high, s1) := skip_ascii_space s in
  if high then TrimFunc s1 unicode.IsSpace
  else
    let '(high', r2) := skip_ascii_space (rev s1) in
    if high' then TrimRightFunc (rev r2) unicode.IsSpace
    else rev r2.

Definition in_cutset (cutset : bytes) (c : ascii) : bool :=
  existsb (Ascii.eqb c) cutset.

Fixpoint trimLeftASCII (s : bytes) (cutset : bytes) : bytes :=
  match s with
  | [] => []
  | c :: t => if in_cutset cutset c then trimLeftASCII t cutset else s
  end.

Definition trimRightASCII (s : bytes) (cutset : bytes) : bytes :=
  rev (trimLeftASCII (rev s) cutset).

(** [Trim] for a cutset of ASCII bytes, which is what every call site
    passes: the bytes of the cutset are removed from both ends. *)
Definition Trim (s cutset : bytes) : bytes :=
  trimLeftASCII (trimRightASCII s cutset) cutset.

(** [ToValidUTF8]: every run of ill-formed bytes becomes one copy of
    [replacement]; [inrun] says that the previous byte was ill-formed. *)
Fixpoint to_valid (replacement : bytes) (inrun : bool)
         (rns : list (Z * nat)) (s : bytes) : bytes :=
  match rns with
  | [] => []
  | rn :: rns' =>
    if utf8.ill_formed rn
    then (if inrun then [] else replacement)
           ++ to_valid replacement true rns' (skipn 1 s)
    else firstn (snd rn) s
           ++ to_valid replacement false rns' (skipn (snd rn) s)
  end.

Definition ToValidUTF8 (s replacement : bytes) : bytes :=
  to_valid replacement false (utf8.range s) s.

End strings.

(** ** regexp

    The patterns of the program are concatenations of literal bytes,
    repetitions of a character class (greedy or lazy, possibly captured
    as a group) and the anchor [^].  Matching is the leftmost-first
    search of Go's [regexp]: at each offset the alternatives are tried
    in the order a backtracking matcher prefers them.  Every class of
    the program is a set of ASCII bytes or the complement of one, so a
    match starts and ends next to an ASCII byte and matching byte by
    byte agrees with matching rune by rune. *)

Module regexp.

Inductive node : Type :=
| Chr (c : ascii)
| Many (cls : ascii -> bool) (lo : nat) (hi : option nat)
       (greedy : bool) (captured : bool)
| Bol.

Definition regex := list node.

(** The literal [s] as a pattern. *)
Definition lit (s : string) : regex := map Chr (list_ascii_of_string s).

(** The length of the longest prefix of [s] made of bytes of [cls], at
    most [hi] when there is a bound. *)
Fixpoint span (cls : ascii -> bool) (hi : option nat) (s : bytes) : nat :=
  match hi with
  | Some O => O
  | _ =>
    match s with
    | [] => O
    | c :: t => if cls c then S (span cls (option_map Nat.pred hi) t) else O
    end
  end.

(** The repetition counts to try, in order of preference. *)
Definition candidates (greedy : bool) (lo n : nat) : list nat :=
  let up := seq lo (S n - lo) in
  if greedy then rev up else up.

Fixpoint first_some {A R : Type} (f : A -> option R) (l : list A) : option R :=
  match l with
  | [] => None
  | a :: l' => match f a with Some r => Some r | None => first_some f l' end
  end.

(** A match of [re] that starts at the head of [s]: the matched text,
    the captured groups and the rest of the input.  [bos] says that the
    head of [s] is the beginning of the text. *)
Fixpoint match_here (re : regex) (bos : bool) (s : bytes)
  : option (bytes * list bytes * bytes) :=
  match re with
  | [] => Some ([], [], s)
  | Chr c :: re' =>
    match s with
    | [] => None
    | b :: s' =>
      if Ascii.eqb b c then
        match match_here re' false s' with
        | Some (w, gs, rest) => Some (b :: w, gs, rest)
        | None => None
        end
      else None
    end
  | Bol :: re' => if bos then match_here re' bos s else None
  | Many cls lo hi greedy captured :: re' =>
    first_some
      (fun k =>
         match match_here re' (bos && (k =? 0)%nat) (skipn k s) with
         | Some (w, gs, rest) =>
           Some (firstn k s ++ w,
                 (if captured then [firstn k s] else []) ++ gs, rest)
         | None => None
         end)
      (candidates greedy lo (span cls hi s))
  end.

(** The text cut into unmatched bytes and successive matches. *)
Inductive seg : Type :=
| Text (c : ascii)
| Hit (whole : bytes) (groups : list bytes).

(** [skip]: bytes of the current match still to pass over; [adj]: a
    match has just ended here, where an empty match is not reported. *)
Fixpoint scan (re : regex) (skip : nat) (adj bos : bool) (s : bytes)
  : list seg :=
  match s with
  | [] =>
    match skip, match_here re bos [] with
    | O, Some (w, gs, _) => if adj then [] else [Hit w gs]
    | _, _ => []
    end
  | c :: t =>
    match skip with
    | S k => scan re k true false t
    | O =>
      match match_here re bos s with
      | Some ([], gs, _) =>
        (if adj then [] else [Hit [] gs]) ++ Text c :: scan re 0 false false t
      | Some (w, gs, _) => Hit w gs :: scan re (length w - 1) true false t
      | None => Text c :: scan re 0 false false t
      end
    end
  end.

Definition hits (l : list seg) : list (list bytes) :=
  flat_map (fun sg => match sg with
                      | Text _ => []
                      | Hit w gs => [w :: gs]
                      end) l.

(** [FindAllStringSubmatch re s n]: each match as the matched text
    followed by its groups; [None] stands for [n = -1], no limit. *)
Definition FindAllStringSubmatch (re : regex) (s : bytes) (n : option nat)
  : list (list bytes) :=
  let all := hits (scan re 0 false true s) in
  match n with
  | None => all
  | Some k => firstn k all
  end.

(** [FindStringSubmatch]: the leftmost match; the empty list stands for
    the nil slice of a failed search. *)
Definition FindStringSubmatch (re : regex) (s : bytes) : list bytes :=
  match FindAllStringSubmatch re s (Some 1%nat) with
  | m :: _ => m
  | [] => []
  end.

(** [ReplaceAllString] with a replacement that has no [$] in it. *)
Definition ReplaceAllString (re : regex) (src repl : bytes) : bytes :=
  flat_map (fun sg => match sg with
                      | Text c => [c]
                      | Hit _ _ => repl
                      end) (scan re 0 false true src).

(** *** Character classes *)

Definition any (_ : ascii) : bool := true.
Definition one_of (s : string) (c : ascii) : bool :=
  existsb (Ascii.eqb c) (list_ascii_of_string s).
Definition none_of (s : string) (c : ascii) : bool := negb (one_of s c).
(** [\s] is [[\t\n\f\r ]]. *)
Definition space (c : ascii) : bool :=
  let n := code c in
  (n =? 0x09) || (n =? 0x0A) || (n =? 0x0C) || (n =? 0x0D) || (n =? 0x20).
(** [\d] is [[0-9]]. *)
Definition digit (c : ascii) : bool :=
  let n := code c in (0x30 <=? n) && (n <=? 0x39).

(** [c*], [c+], [c*?], [(c*?)], [(c+)], [(c{lo,hi})]. *)
Definition star (cls : ascii -> bool) : node := Many cls 0 None true false.
Definition plus (cls : ascii -> bool) : node := Many cls 1 None true false.
Definition star_lazy (cls : ascii -> bool) : node := Many cls 0 None false false.
Definition star_lazy_group (cls : ascii -> bool) : node := Many cls 0 None false true.
Definition plus_group (cls : ascii -> bool) : node := Many cls 1 None true true.
Definition rep_group (cls : ascii -> bool) (lo hi : nat) : node :=
  Many cls lo (Some hi) true true.

End regexp.

(** ** backend/filename.go *)

Module filename.

Import regexp.

(** The class of the first pattern: the characters < > : | ? *, the
    backslash and the double quote (byte 0x22). *)
Definition unsafe (c : ascii) : bool :=
  one_of "<>:\|?*" c || (code c =? 0x22).

(** The body of the loop over the runes of the name: what is written to
    the builder for the rune [r]. *)
Definition written (r : Z) : bytes :=
  if (r <? 0x20) && negb (r =? 0x09) && negb (r =? 0x0A) && negb (r =? 0x0D)
  then []
  else if r =? 0x7F then []
  else if unicode.IsControl r
          && negb (r =? 0x09) && negb (r =? 0x0A) && negb (r =? 0x0D)
  then []
  else utf8.EncodeRune r.

Definition SanitizeFilename (name : bytes) : bytes :=
  let sanitized := strings.ReplaceAll name (B "/") (B " ") in
  let sanitized := ReplaceAllString [Many unsafe 1 (Some 1%nat) true false]
                                    sanitized (B " ") in
  let sanitized := flat_map (fun rn => written (fst rn)) (utf8.range sanitized) in
  let sanitized := strings.TrimSpace sanitized in
  let sanitized := strings.Trim sanitized (B ". ") in
  let sanitized := ReplaceAllString [plus space] sanitized (B " ") in
  let sanitized := ReplaceAllString [plus (one_of "_")] sanitized (B "_") in
  let sanitized := strings.Trim sanitized (B "_ ") in
  if is_empty sanitized then B "Unknown"
  else if negb (utf8.ValidString sanitized)
       then strings.ToValidUTF8 sanitized (B "_")
       else sanitized.

Definition sanitizeFolderName (name : bytes) : bytes := SanitizeFilename name.

Definition sanitizeFilename (name : bytes) : bytes := SanitizeFilename name.

(** *** SanitizeFolderPath

    [filepath.Separator] is fixed by the platform the program is built
    for (a backslash on Windows, a slash elsewhere); the development is
    parametric in it. *)

Section FolderPath.

Variable Separator : ascii.

Definition NormalizePath (folderPath : bytes) : bytes :=
  if strings.HasPrefix folderPath (B "\\")
  then B "\\" ++ strings.ReplaceAll (skipn 2 folderPath) (B "/") [Separator]
  else strings.ReplaceAll folderPath (B "/") [Separator].

(** One turn of the loop over the parts: what is appended to
    [sanitizedParts] for the part [part] at index [i]. *)
Definition appended (isUNC : bool) (i : nat) (part : bytes) : list bytes :=
  if isUNC && (i <? 2)%nat then
    (if negb (is_empty part) then [part] else [])
  else if negb isUNC && (i =? 0)%nat && (length part =? 2)%nat
          && Ascii.eqb (nth 1 part zero) ":"%char
  then [part]
  else if negb isUNC && (i =? 0)%nat && is_empty part then [part]
  else
    let sanitized := sanitizeFolderName part in
    if negb (is_empty sanitized) then [sanitized] else [].

Fixpoint sanitize_parts (isUNC : bool) (i : nat) (parts : list bytes)
  : list bytes :=
  match parts with
  | [] => []
  | part :: rest => appended isUNC i part ++ sanitize_parts isUNC (S i) rest
  end.

Definition SanitizeFolderPath (folderPath : bytes) : bytes :=
  let isUNC := strings.HasPrefix folderPath (B "\\") in
  let uncPrefix := if isUNC then B "\\" else [] in
  let workPath := if isUNC then skipn 2 folderPath else folderPath in
  let normalizedPath := strings.ReplaceAll workPath (B "/") [Separator] in
  let sep := [Separator] in
  let parts := strings.Split normalizedPath sep in
  let sanitizedParts := sanitize_parts isUNC 0 parts in
  let result := strings.Join sanitizedParts sep in
  if isUNC then uncPrefix ++ result else result.

End FolderPath.

(** *** BuildExpectedFilename *)

(** [fmt.Sprintf("%d", n)] and [fmt.Sprintf("%02d", n)]. *)
Definition Sprintf_d (n : Z) : bytes :=
  B (NilZero.string_of_int (Z.to_int n)).

Definition Sprintf_02d (n : Z) : bytes :=
  let digits := B (NilZero.string_of_uint (N.to_uint (Z.to_N (Z.abs n)))) in
  let pad := match digits with [_] => B "0" | _ => [] end in
  if n <? 0
  then B "-" ++ (match digits with [] => B "0" | _ => digits end)
  else pad ++ digits.

(** The three patterns that remove an absent track number:
    [\{track\}\.\s*], [\{track\}\s*-\s*] and [\{track\}\s*]. *)
Definition track_dot : regex := lit "{track}." ++ [star space].
Definition track_dash : regex :=
  lit "{track}" ++ [star space; Chr "-"%char; star space].
Definition track_bare : regex := lit "{track}" ++ [star space].

Definition BuildExpectedFilename
           (trackName artistName albumName albumArtist releaseDate
            filenameFormat playlistName playlistOwner : bytes)
           (includeTrackNumber : bool) (position discNumber : Z)
           (useAlbumTrackNumber : bool) : bytes :=
  let safeTitle := SanitizeFilename trackName in
  let safeArtist := SanitizeFilename artistName in
  let safeAlbum := SanitizeFilename albumName in
  let safeAlbumArtist := SanitizeFilename albumArtist in
  let safePlaylist := SanitizeFilename playlistName in
  let safeCreator := SanitizeFilename playlistOwner in
  let year := if (4 <=? length releaseDate)%nat then firstn 4 releaseDate else [] in
  let filename :=
    if strings.Contains filenameFormat (B "{") then
      let filename := filenameFormat in
      let filename := strings.ReplaceAll filename (B "{title}") safeTitle in
      let filename := strings.ReplaceAll filename (B "{artist}") safeArtist in
      let filename := strings.ReplaceAll filename (B "{album}") safeAlbum in
      let filename := strings.ReplaceAll filename (B "{album_artist}") safeAlbumArtist in
      let filename := strings.ReplaceAll filename (B "{year}") year in
      let filename := strings.ReplaceAll filename (B "{playlist}") safePlaylist in
      let filename := strings.ReplaceAll filename (B "{creator}") safeCreator in
      let filename :=
        if 0 <? discNumber
        then strings.ReplaceAll filename (B "{disc}") (Sprintf_d discNumber)
        else strings.ReplaceAll filename (B "{disc}") [] in
      if 0 <? position
      then strings.ReplaceAll filename (B "{track}") (Sprintf_02d position)
      else
        let filename := ReplaceAllString track_dot filename [] in
        let filename := ReplaceAllString track_dash filename [] in
        ReplaceAllString track_bare filename []
    else
      let filename :=
        if beq filenameFormat (B "artist-title")
        then safeArtist ++ B " - " ++ safeTitle
        else if beq filenameFormat (B "title") then safeTitle
        else safeTitle ++ B " - " ++ safeArtist in
      if includeTrackNumber && (0 <? position)
      then Sprintf_02d position ++ B ". " ++ filename
      else filename in
  filename ++ B ".flac".

End filename.

(** ** html and strconv *)

Module html.

Section Entities.

(** The tables [entity] and [entity2] of the package give the one or
    two runes of a named character reference, and zero for a name that
    is not in the table.  The development is parametric in them. *)
Variable entity : bytes -> Z.
Variable entity2 : bytes -> Z * Z.

Definition longestEntityWithoutSemicolon : nat := 6.

(** Windows-1252 replacements for the references 0x80 to 0x9F. *)
Definition replacementTable : list Z :=
  [0x20AC; 0x0081; 0x201A; 0x0192; 0x201E; 0x2026; 0x2020; 0x2021;
   0x02C6; 0x2030; 0x0160; 0x2039; 0x0152; 0x008D; 0x017D; 0x008F;
   0x0090; 0x2018; 0x2019; 0x201C; 0x201D; 0x2022; 0x2013; 0x2014;
   0x02DC; 0x2122; 0x0161; 0x203A; 0x0153; 0x009D; 0x017E; 0x0178].

(** A rune is an [int32]: arithmetic on it wraps around. *)
Definition wrap32 (z : Z) : Z := (z + 2 ^ 31) mod 2 ^ 32 - 2 ^ 31.

Definition between (lo hi : string) (c : ascii) : bool :=
  match list_ascii_of_string lo, list_ascii_of_string hi with
  | [l], [h] => (code l <=? code c) && (code c <=? code h)
  | _, _ => false
  end.

(** The value a digit adds in a numeric reference. *)
Definition digit_value (hex : bool) (c : ascii) : option Z :=
  if between "0" "9" c then Some (code c - 0x30)
  else if hex && between "a" "f" c then Some (code c - 0x61 + 10)
  else if hex && between "A" "F" c then Some (code c - 0x41 + 10)
  else None.

(** The loop over the digits of a numeric reference: the number read
    and how many bytes were passed, a closing semicolon included. *)
Fixpoint read_number (hex : bool) (x : Z) (s : bytes) : Z * nat :=
  match s with
  | [] => (x, O)
  | c :: t =>
    match digit_value hex c with
    | Some d =>
      let '(x', n) :=
        read_number hex (wrap32 ((if hex then 16 else 10) * x + d)) t in
      (x', S n)
    | None => (x, if Ascii.eqb c ";" then 1%nat else O)
    end
  end.

Definition alnum (c : ascii) : bool :=
  between "a" "z" c || between "A" "Z" c || between "0" "9" c.

(** The loop over the name of a named reference: how many bytes were
    passed, a closing semicolon included. *)
Fixpoint read_name (s : bytes) : nat :=
  match s with
  | [] => O
  | c :: t =>
    if alnum c then S (read_name t)
    else if Ascii.eqb c ";" then 1%nat else O
  end.

(** The longest proper prefix of the name, of two to six bytes, that is
    in the table: its rune and its length. *)
Fixpoint longest_prefix (j : nat) (entityName : bytes) : option (Z * nat) :=
  match j with
  | O | S O => None
  | S j' =>
    let x := entity (firstn j entityName) in
    if negb (x =? 0) then Some (x, j) else longest_prefix j' entityName
  end.

(** [unescapeEntity] on the input [s], which starts with an ampersand:
    the bytes written and the number of bytes read. *)
Definition unescapeEntity (s : bytes) : bytes * nat :=
  match s with
  | [] => ([], O)
  | amp :: t =>
    match t with
    | [] => ([amp], 1%nat)
    | c1 :: t1 =>
      if Ascii.eqb c1 "#" then
        if (length s <=? 3)%nat then ([amp], 1%nat)
        else
          let hex := match t1 with
                     | c :: _ => Ascii.eqb c "x" || Ascii.eqb c "X"
                     | [] => false
                     end in
          let '(x, n) := read_number hex 0 (if hex then skipn 1 t1 else t1) in
          let i := ((if hex then 3 else 2) + n)%nat in
          if (i <=? 3)%nat then ([amp], 1%nat)
          else
            let x :=
              if (0x80 <=? x) && (x <=? 0x9F)
              then nth (Z.to_nat (x - 0x80)) replacementTable 0
              else if (x =? 0) || ((0xD800 <=? x) && (x <=? 0xDFFF))
                      || (0x10FFFF <? x)
              then 0xFFFD
              else x in
            (utf8.EncodeRune x, i)
      else
        let n := read_name t in
        let i := S n in
        let entityName := firstn n t in
        let literal := (firstn i s, i) in
        match n with
        | O => literal
        | S _ =>
          if negb (entity entityName =? 0)
          then (utf8.EncodeRune (entity entityName), i)
          else if negb (fst (entity2 entityName) =? 0)
          then (utf8.EncodeRune (fst (entity2 entityName))
                  ++ utf8.EncodeRune (snd (entity2 entityName)), i)
          else
            match longest_prefix
                    (Nat.min (n - 1) longestEntityWithoutSemicolon)
                    entityName with
            | Some (x, j) => (utf8.EncodeRune x, S j)
            | None => literal
            end
        end
    end
  end.

(** [UnescapeString]: every character reference that starts at an
    ampersand is replaced by its runes; the output is not read again. *)
Fixpoint unescape_from (skip : nat) (s : bytes) : bytes :=
  match s with
  | [] => []
  | c :: t =>
    match skip with
    | S k => unescape_from k t
    | O =>
      if Ascii.eqb c "&" then
        let '(out, n) := unescapeEntity s in
        out ++ unescape_from (n - 1) t
      else c :: unescape_from 0 t
    end
  end.

Definition UnescapeString (s : bytes) : bytes := unescape_from 0 s.

End Entities.

End html.

Module strconv.

(** [Atoi], for a caller that drops the error: zero for a string that
    is not a decimal number, the nearest [int] when it is out of range. *)
Definition Atoi (s : bytes) : Z :=
  let '(neg, ds) :=
    match s with
    | c :: t => if Ascii.eqb c "-" then (true, t)
                else if Ascii.eqb c "+" then (false, t)
                else (false, s)
    | [] => (false, s)
    end in
  if is_empty ds || negb (forallb regexp.digit ds) then 0
  else
    let v := fold_left (fun acc c => 10 * acc + (code c - 0x30)) ds 0 in
    let v := if neg then - v else v in
    Z.max (- 2 ^ 63) (Z.min (2 ^ 63 - 1) v).

End strconv.

(** ** backend/billboard.go *)

Module billboard.

Import regexp.

Record BillboardEntry : Type := {
  Rank : Z;
  Title : bytes;
  Artist : bytes;
  LastWeekRank : Z;
  PeakRank : Z;
  WeeksOnChart : Z;
  IsNew : bool
}.

(** The double quote, which a string literal here cannot hold. *)
Definition dquote : ascii := ascii_of_nat 34.
Definition not_dquote (c : ascii) : bool := negb (Ascii.eqb c dquote).
Definition not_gt (c : ascii) : bool := none_of ">" c.

(** A class attribute that mentions [name], up to the end of its tag:
    [class=Q[^Q]*name[^Q]*Q[^>]*>] with [Q] the double quote. *)
Definition class_attr (name : string) : regex :=
  lit "class=" ++ [Chr dquote; star not_dquote] ++ lit name
      ++ [star not_dquote; Chr dquote; star not_gt; Chr ">"%char].

(** [id=Qtitle-of-a-storyQ[^>]*>]. *)
Definition title_id : regex :=
  lit "id=" ++ [Chr dquote] ++ lit "title-of-a-story"
      ++ [Chr dquote; star not_gt; Chr ">"%char].

Definition rowPattern : regex :=
  lit "<ul" ++ [star not_gt] ++ class_attr "o-chart-results-list-row"
      ++ [star_lazy_group any] ++ lit "</ul>".

Definition rankPattern : regex :=
  lit "<li" ++ [star not_gt; Chr ">"%char; star space] ++ lit "<span"
      ++ [star not_gt] ++ class_attr "c-label"
      ++ [star space; plus_group digit; star space] ++ lit "</span>".

Definition titlePattern : regex :=
  lit "<h3" ++ [star not_gt] ++ title_id
      ++ [star space; star_lazy_group any; star space] ++ lit "</h3>".

Definition artistPattern : regex :=
  title_id ++ [star_lazy any] ++ lit "</h3>" ++ [star space] ++ lit "<span"
      ++ [star not_gt] ++ class_attr "c-label"
      ++ [star space; star_lazy_group any; star space] ++ lit "</span>".

Definition artistLinkPattern : regex :=
  lit "<a" ++ [star not_gt] ++ lit "href=" ++ [Chr dquote] ++ lit "/artist/"
      ++ [star not_dquote; Chr dquote; star not_gt; Chr ">"%char;
          star space; star_lazy_group any; star space] ++ lit "</a>".

Definition directArtistPattern : regex :=
  [Bol; star space] ++ lit "<span" ++ [star not_gt] ++ class_attr "c-label"
      ++ [star space; star_lazy_group any; star space] ++ lit "</span>".

Definition directRankPattern : regex :=
  [Chr ">"%char; star space; rep_group digit 1 3; star space; Chr "<"%char].

Definition liPattern : regex :=
  lit "<li" ++ [star not_gt; Chr ">"%char; star_lazy_group any] ++ lit "</li>".

Definition numPattern : regex :=
  [Chr ">"%char; star space; plus_group digit; star space; Chr "<"%char].

Definition numPattern2 : regex := [plus_group digit].

Definition tagPattern : regex := [Chr "<"%char; star not_gt; Chr ">"%char].

Section Parser.

Variable entity : bytes -> Z.
Variable entity2 : bytes -> Z * Z.

(** [cleanText]: decode the character references, remove the tags,
    trim, and collapse the white space. *)
Definition cleanText (text : bytes) : bytes :=
  let text := html.UnescapeString entity entity2 text in
  let text := ReplaceAllString tagPattern text [] in
  let text := strings.TrimSpace text in
  ReplaceAllString [plus space] text (B " ").

(** The element [m[i]] of a submatch. *)
Definition sub (m : list bytes) (i : nat) : bytes := nth i m [].

Definition extractStat (rowContent : bytes) (liIndex : nat) : Z :=
  let liMatches := FindAllStringSubmatch liPattern rowContent None in
  if (liIndex <? length liMatches)%nat
     && (2 <=? length (nth liIndex liMatches []))%nat
  then
    let content := sub (nth liIndex liMatches []) 1 in
    let numMatches := FindStringSubmatch numPattern content in
    if (2 <=? length numMatches)%nat
    then strconv.Atoi (strings.TrimSpace (sub numMatches 1))
    else
      let numMatches2 := FindStringSubmatch numPattern2 content in
      if (2 <=? length numMatches2)%nat
      then strconv.Atoi (strings.TrimSpace (sub numMatches2 1))
      else 0
  else 0.

Definition extractChartEntry (rowContent : bytes) : BillboardEntry :=
  let rankMatches := FindStringSubmatch rankPattern rowContent in
  let rank := if (2 <=? length rankMatches)%nat
              then strconv.Atoi (strings.TrimSpace (sub rankMatches 1))
              else 0 in
  let titleMatches := FindStringSubmatch titlePattern rowContent in
  let title := if (2 <=? length titleMatches)%nat
               then cleanText (sub titleMatches 1) else [] in
  let artistMatches := FindStringSubmatch artistPattern rowContent in
  let artist := if (2 <=? length artistMatches)%nat
                then cleanText (sub artistMatches 1) else [] in
  let artist :=
    if is_empty artist then
      let artistLinkMatches := FindStringSubmatch artistLinkPattern rowContent in
      if (2 <=? length artistLinkMatches)%nat
      then cleanText (sub artistLinkMatches 1) else artist
    else artist in
  {| Rank := rank;
     Title := title;
     Artist := artist;
     LastWeekRank := extractStat rowContent 3;
     PeakRank := extractStat rowContent 4;
     WeeksOnChart := extractStat rowContent 5;
     IsNew := strings.Contains rowContent (B ">NEW<")
              || strings.Contains rowContent (B ">NEW ") |}.

(** The names collected from the artist links. *)
Definition link_artists (artistLinkMatches : list (list bytes)) : list bytes :=
  flat_map (fun m =>
              if (2 <=? length m)%nat then
                let artist := cleanText (sub m 1) in
                if negb (is_empty artist) then [artist] else []
              else [])
           artistLinkMatches.

(** The slices [htmlContent[titlePos+len(whole) : endPos]], of at most
    500 bytes, and [htmlContent[startPos : titlePos]], of at most 300. *)
Definition afterTitle (htmlContent : bytes) (titlePos : nat) (whole : bytes)
  : bytes :=
  let after := (titlePos + length whole)%nat in
  let endPos := Nat.min (after + 500) (length htmlContent) in
  firstn (endPos - after) (skipn after htmlContent).

Definition beforeTitle (htmlContent : bytes) (titlePos : nat) : bytes :=
  let startPos := (titlePos - 300)%nat in
  firstn (titlePos - startPos) (skipn startPos htmlContent).

(** One turn of the loop of [parseDirectExtraction] over the title
    matches: the entry appended for the match [titleMatch] at index [i],
    if any. *)
Definition direct_entry (htmlContent : bytes) (i : nat) (titleMatch : list bytes)
  : option BillboardEntry :=
  if (length titleMatch <? 2)%nat then None
  else
    let title := cleanText (sub titleMatch 1) in
    if is_empty title then None
    else
      let titlePos := strings.Index htmlContent (sub titleMatch 0) in
      if titlePos =? -1 then None
      else
        let titlePos := Z.to_nat titlePos in
        let afterTitle := afterTitle htmlContent titlePos (sub titleMatch 0) in
        let artistMatches := FindStringSubmatch directArtistPattern afterTitle in
        let artist := if (2 <=? length artistMatches)%nat
                      then cleanText (sub artistMatches 1) else [] in
        let artist :=
          if is_empty artist then
            let artistLinkMatches :=
              FindAllStringSubmatch artistLinkPattern afterTitle (Some 3%nat) in
            if (0 <? length artistLinkMatches)%nat
            then strings.Join (link_artists artistLinkMatches) (B ", ")
            else artist
          else artist in
        let beforeTitle := beforeTitle htmlContent titlePos in
        let rankMatches := FindAllStringSubmatch directRankPattern beforeTitle None in
        let rank0 := Z.of_nat i + 1 in
        let rank :=
          if (0 <? length rankMatches)%nat then
            let lastMatch := last rankMatches [] in
            if (2 <=? length lastMatch)%nat then
              let rank := strconv.Atoi (strings.TrimSpace (sub lastMatch 1)) in
              if (1 <=? rank) && (rank <=? 100) then rank else rank0
            else rank0
          else rank0 in
        if negb (is_empty title) && negb (is_empty artist)
        then Some {| Rank := rank; Title := title; Artist := artist;
                     LastWeekRank := 0; PeakRank := 0; WeeksOnChart := 0;
                     IsNew := false |}
        else None.

Fixpoint direct_loop (htmlContent : bytes) (i : nat)
         (titleMatches : list (list bytes)) : list BillboardEntry :=
  match titleMatches with
  | [] => []
  | titleMatch :: rest =>
    match direct_entry htmlContent i titleMatch with
    | Some entry => entry :: direct_loop htmlContent (S i) rest
    | None => direct_loop htmlContent (S i) rest
    end
  end.

Definition parseDirectExtraction (htmlContent : bytes) : list BillboardEntry :=
  direct_loop htmlContent 0
              (FindAllStringSubmatch titlePattern htmlContent None).

(** The loop of [parseBillboardHTML] over the rows. *)
Fixpoint row_entries (rows : list (list bytes)) : list BillboardEntry :=
  match rows with
  | [] => []
  | row :: rest =>
    if (length row <? 2)%nat then row_entries rest
    else
      let entry := extractChartEntry (sub row 1) in
      if negb (is_empty (Title entry)) && negb (is_empty (Artist entry))
         && (0 <? Rank entry)
      then entry :: row_entries rest
      else row_entries rest
  end.

(** [parseBillboardHTML]; its error result is always nil. *)
Definition parseBillboardHTML (htmlContent : bytes) : list BillboardEntry :=
  let rows := FindAllStringSubmatch rowPattern htmlContent None in
  if (length rows =? 0)%nat then parseDirectExtraction htmlContent
  else
    let entries := row_entries rows in
    if (length entries =? 0)%nat then parseDirectExtraction htmlContent
    else entries.

End Parser.

End billboard.

(** ** frontend/src/components/BillboardPage.tsx

    [matchWithSpotify] is an asynchronous function.  It is suspended at
    every [await] (a call of [SearchSpotify] or a [delay]); only then
    can the handler of the stop button run and set
    [stopMatchingRef.current].  The run is modelled as a function of the
    world it meets: the outcome of each search call and, for each
    suspension, whether a stop was requested while it lasted.  What the
    run does to the outside is recorded as a list of events, in order.

    Strings are held as their UTF-8 bytes. *)

Module BillboardPage.

Record BillboardEntry : Type := {
  rank : Z;
  title : bytes;
  artist : bytes
}.

(** A property that an object may lack is an [option]. *)
Record TrackMetadata : Type := {
  name : option bytes;
  artists : option bytes;
  album_name : option bytes;
  duration_ms : option Z;
  images : option bytes;
  release_date : option bytes;
  track_number : option Z;
  external_urls : option bytes;
  isrc : option bytes;
  spotify_id : option bytes;
  is_explicit : option bool
}.

(** A candidate returned by the search. *)
Record SearchTrack : Type := {
  id : option bytes;
  st_name : option bytes;
  st_album_name : option bytes;
  st_images : option bytes;
  st_duration_ms : option Z;
  st_external_urls : option bytes;
  st_is_explicit : option bool;
  st_release_date : option bytes
}.

(** The value of [results.tracks], when [results] is an object. *)
Definition search_results := option (list (option SearchTrack)).

(** How a call of [SearchSpotify] ends: the promise is fulfilled with
    a value, which may be null, or rejected with an error, given here by
    the text of [String(err)]. *)
Inductive outcome : Type :=
| Resolved (results : option search_results)
| Rejected (err : bytes).

Record world : Type := {
  answer : nat -> outcome;      (* of the n-th call of SearchSpotify *)
  stop_during : nat -> bool     (* a stop is requested during the n-th await *)
}.

Inductive status : Type :=
| StatusStopped
| StatusMatching (track total : nat)
| StatusRateLimited (waitTime : Z) (retryCount : nat)
| StatusRetry (title : bytes) (retryCount : nat)
| StatusFailed (title : bytes)
| StatusNone.

Inductive toast : Type :=
| ToastPaused (track : nat) (matched : Z)
| ToastRateLimited (waitTime : Z)
| ToastMatched (matched : Z) (total : nat).

Inductive event : Type :=
| SearchSpotify (query : bytes) (limit : Z)
| Delay (ms : Z)
| SetIsMatchingSpotify (b : bool)
| SetMatchingStatus (s : status)
| SetCurrentMatchingTrack (s : bytes)
| SetMatchingProgress (position total : nat)   (* Math.round(position / total * 100) *)
| SetMatchedCount (n : Z)
| SetMatchedIndices (s : list nat)
| SetTracks (tracks : list (option TrackMetadata))
| Toast (t : toast)
| SaveToCache.

Definition MAX_RETRIES : nat := 3.
Definition BASE_DELAY : Z := 1500.
Definition RATE_LIMIT_DELAY : Z := 10000.

(** *** The Set of matched indices, in insertion order *)

Definition has (s : list nat) (i : nat) : bool := existsb (Nat.eqb i) s.
Definition add (s : list nat) (i : nat) : list nat :=
  if has s i then s else s ++ [i].
Definition size (s : list nat) : Z := Z.of_nat (length s).
(** [new Set(iterable)]. *)
Definition new_Set (l : list nat) : list nat := fold_left add l [].

(** *** Strings *)

(** [toLowerCase] on the ASCII letters.  No other character has a lower
    case that occurs in the four words [isRateLimited] looks for. *)
Definition lower (c : ascii) : ascii :=
  if (0x41 <=? code c) && (code c <=? 0x5A) then byte_of (code c + 0x20) else c.
Definition toLowerCase (s : bytes) : bytes := map lower s.
Definition includes (s sub : bytes) : bool := strings.Contains s sub.

Definition isRateLimited (error : bytes) : bool :=
  let errorMsg := toLowerCase error in
  includes errorMsg (B "429") || includes errorMsg (B "rate")
  || includes errorMsg (B "too many") || includes errorMsg (B "quota").

(** [s.split(/[,&]|Featuring|feat\./i)[0]]: the text before the first
    separator. *)
Fixpoint first_credit (s : bytes) : bytes :=
  match s with
  | [] => []
  | c :: t =>
    if Ascii.eqb c "," || Ascii.eqb c "&"
       || strings.HasPrefix (toLowerCase s) (B "featuring")
       || strings.HasPrefix (toLowerCase s) (B "feat.")
    then []
    else c :: first_credit t
  end.

(** The white space and line terminators that [trim] removes. *)
Definition js_space (r : Z) : bool :=
  ((0x09 <=? r) && (r <=? 0x0D)) || (r =? 0x20) || (r =? 0xA0)
  || (r =? 0x1680) || ((0x2000 <=? r) && (r <=? 0x200A)) || (r =? 0x2028)
  || (r =? 0x2029) || (r =? 0x202F) || (r =? 0x205F) || (r =? 0x3000)
  || (r =? 0xFEFF).

Definition trim (s : bytes) : bytes := strings.TrimFunc s js_space.

Definition search_query (entry : BillboardEntry) : bytes :=
  let artistName := trim (first_credit (artist entry)) in
  title entry ++ B " " ++ artistName.

(** [x || empty] for a string, a number and a boolean. *)
Definition or_empty (x : option bytes) : option bytes :=
  match x with Some (c :: s) => Some (c :: s) | _ => Some [] end.
Definition or_zero (x : option Z) : option Z :=
  match x with Some z => Some z | None => Some 0 end.
Definition or_false (x : option bool) : option bool :=
  match x with Some b => Some b | None => Some false end.
Definition truthy (x : option bytes) : bool :=
  match x with Some (_ :: _) => true | _ => false end.

Definition empty_track : TrackMetadata :=
  {| name := None; artists := None; album_name := None; duration_ms := None;
     images := None; release_date := None; track_number := None;
     external_urls := None; isrc := None; spotify_id := None;
     is_explicit := None |}.

(** The object [{...old, spotify_id: m.id, ...}]. *)
Definition with_match (old : option TrackMetadata) (m : SearchTrack)
  : TrackMetadata :=
  let old := match old with Some t => t | None => empty_track end in
  {| name := name old;
     artists := artists old;
     album_name := or_empty (st_album_name m);
     duration_ms := or_zero (st_duration_ms m);
     images := or_empty (st_images m);
     release_date := or_empty (st_release_date m);
     track_number := track_number old;
     external_urls := or_empty (st_external_urls m);
     isrc := id m;
     spotify_id := id m;
     is_explicit := or_false (st_is_explicit m) |}.

(** The assignment [a[i] = x]; past the end the array grows, with holes. *)
Fixpoint assign {A : Type} (a : list (option A)) (i : nat) (x : A)
  : list (option A) :=
  match i, a with
  | O, [] => [Some x]
  | O, _ :: a' => Some x :: a'
  | S i', [] => None :: assign [] i' x
  | S i', y :: a' => y :: assign a' i' x
  end.

(** *** The run *)

Record run : Type := {
  updatedTracks : list (option TrackMetadata);
  newMatchedIndices : list nat;
  matched : Z;
  stop : bool;             (* stopMatchingRef.current *)
  calls : nat;             (* calls of SearchSpotify so far *)
  awaits : nat;            (* suspensions so far *)
  events : list event
}.

Definition emit (e : event) (st : run) : run :=
  {| updatedTracks := updatedTracks st;
     newMatchedIndices := newMatchedIndices st;
     matched := matched st;
     stop := stop st;
     calls := calls st;
     awaits := awaits st;
     events := events st ++ [e] |}.

Section Run.

Variable w : world.
Variable entries : list BillboardEntry.

(** The run is suspended and resumed. *)
Definition await (st : run) : run :=
  {| updatedTracks := updatedTracks st;
     newMatchedIndices := newMatchedIndices st;
     matched := matched st;
     stop := stop st || stop_during w (awaits st);
     calls := calls st;
     awaits := S (awaits st);
     events := events st |}.

Definition delay (ms : Z) (st : run) : run := await (emit (Delay ms) st).

(** [await SearchSpotify({ query, limit: 5 })]. *)
Definition search (query : bytes) (st : run) : outcome * run :=
  let st := emit (SearchSpotify query 5) st in
  (answer w (calls st),
   await {| updatedTracks := updatedTracks st;
            newMatchedIndices := newMatchedIndices st;
            matched := matched st;
            stop := stop st;
            calls := S (calls st);
            awaits := awaits st;
            events := events st |}).

(** The entry [i] is matched with the candidate [m]. *)
Definition record_match (i : nat) (m : SearchTrack) (st : run) : run :=
  let st :=
    {| updatedTracks := assign (updatedTracks st) i
                               (with_match (nth i (updatedTracks st) None) m);
       newMatchedIndices := add (newMatchedIndices st) i;
       matched := matched st + 1;
       stop := stop st;
       calls := calls st;
       awaits := awaits st;
       events := events st |} in
  emit (SetMatchedIndices (new_Set (newMatchedIndices st)))
       (emit (SetMatchedCount (matched st)) st).

(** The body of the [try] after the search has returned. *)
Definition on_results (i : nat) (results : option search_results) (st : run)
  : run :=
  let st :=
    match results with
    | Some (Some (matchResult :: _)) =>
      match matchResult with
      | Some m => if truthy (id m) then record_match i m st else st
      | None => st
      end
    | _ => st
    end in
  emit (SetTracks (updatedTracks st)) st.

(** The loop [while (retryCount < MAX_RETRIES && !stopMatchingRef.current)],
    entered with [retryCount = MAX_RETRIES - remaining]. *)
Fixpoint attempts (remaining : nat) (i : nat) (entry : BillboardEntry)
         (st : run) : run :=
  match remaining with
  | O => st
  | S remaining' =>
    if stop st then st
    else
      let '(result, st) := search (search_query entry) st in
      match result with
      | Resolved results => on_results i results st
      | Rejected err =>
        let retryCount := S (MAX_RETRIES - remaining) in
        if isRateLimited err then
          let waitTime := RATE_LIMIT_DELAY * Z.of_nat retryCount in
          let st := emit (SetMatchingStatus (StatusRateLimited waitTime retryCount)) st in
          let st := emit (Toast (ToastRateLimited waitTime)) st in
          attempts remaining' i entry (delay waitTime st)
        else if (retryCount <? MAX_RETRIES)%nat then
          let st := emit (SetMatchingStatus (StatusRetry (title entry) retryCount)) st in
          attempts remaining' i entry
                   (delay (BASE_DELAY * Z.of_nat retryCount) st)
        else
          attempts remaining' i entry
                   (emit (SetMatchingStatus (StatusFailed (title entry))) st)
      end
  end.

(** The loop [for (let i = startIndex; i < entries.length; i++)] over
    the entries from [i] on. *)
Fixpoint visit (rest : list BillboardEntry) (i : nat) (st : run) : run :=
  match rest with
  | [] => st
  | entry :: rest' =>
    if stop st then
      emit (Toast (ToastPaused (i + 1) (matched st)))
           (emit (SetMatchingStatus StatusStopped) st)
    else if has (newMatchedIndices st) i then visit rest' (S i) st
    else
      let st := emit (SetCurrentMatchingTrack (title entry ++ B " - " ++ artist entry)) st in
      let st := emit (SetMatchingProgress (i + 1) (length entries)) st in
      let st := emit (SetMatchingStatus (StatusMatching (i + 1) (length entries))) st in
      let st := attempts MAX_RETRIES i entry st in
      let st := if (Z.of_nat i <? Z.of_nat (length entries) - 1) && negb (stop st)
                then delay BASE_DELAY st else st in
      visit rest' (S i) st
  end.

(** [matchWithSpotify]; [matchedIndices] and [matchedCount] are the
    state of the component, read when the optional arguments are
    absent. *)
Definition matchWithSpotify
           (matchedIndices : list nat) (matchedCount : Z)
           (currentTracks : list (option TrackMetadata)) (startIndex : nat)
           (initialMatchedIndices : option (list nat))
           (initialMatchedCount : option Z) : run :=
  let st :=
    {| updatedTracks := currentTracks;
       newMatchedIndices :=
         match initialMatchedIndices with
         | Some s => new_Set s
         | None => new_Set matchedIndices
         end;
       matched := match initialMatchedCount with
                  | Some n => n
                  | None => matchedCount
                  end;
       stop := false;
       calls := 0;
       awaits := 0;
       events := [SetIsMatchingSpotify true] |} in
  let st := visit (skipn startIndex entries) startIndex st in
  let st := emit (SetIsMatchingSpotify false) st in
  let st := emit (SetCurrentMatchingTrack []) st in
  let st := emit (SetMatchingStatus StatusNone) st in
  let st := emit SaveToCache st in
  if negb (stop st) && (0 <? matched st)
  then emit (Toast (ToastMatched (matched st) (length entries))) st
  else st.

End Run.

End BillboardPage.

(** * Further functions of the source files *)

(** ** backend/billboard.go: the date of the current chart

    A [time.Time] is held as the day it falls on, counted from
    1 January 1970 (a Thursday), and the time elapsed since midnight.
    [Format] with the layout [2006-01-02] writes the civil date of the
    day; the development is parametric in it. *)

Module billboard_date.

Record Time : Type := {
  day : Z;
  clock : Z
}.

(** [Weekday]: Sunday is 0, Saturday is 6. *)
Definition Weekday (t : Time) : Z := (day t + 4) mod 7.
Definition Saturday : Z := 6.

(** [t.AddDate(0, 0, days)]. *)
Definition AddDate (t : Time) (days : Z) : Time :=
  {| day := day t + days; clock := clock t |}.

(** [t.After(u)]. *)
Definition After (t u : Time) : bool :=
  (day u <? day t) || ((day u =? day t) && (clock u <? clock t)).

Section Format.

Variable Format : Time -> bytes.

(** The operator [%] of Go truncates towards zero, as [Z.rem] does; the
    unary minus binds tighter than [%]. *)
Definition GetCurrentBillboardDate (now : Time) : bytes :=
  let daysUntilSaturday := Z.rem (Weekday now + 1) 7 in
  let daysUntilSaturday :=
    if (daysUntilSaturday =? 0) && negb (Weekday now =? Saturday)
    then 7 else daysUntilSaturday in
  let saturday := AddDate now (Z.rem (- (Weekday now + 1)) 7) in
  let saturday := if After saturday now then AddDate saturday (-7) else saturday in
  Format saturday.

End Format.

End billboard_date.

(** ** frontend/src/components/BillboardPage.tsx: the handlers

    A handler reads the state of the component as it was when the
    component was last rendered, asks for state updates and may start a
    run of [matchWithSpotify], which it does not await.  It is modelled
    as a function from the state it reads to the notices it shows, the
    state after its updates and the run it starts, if any. *)

Module BillboardPage_handlers.
Import BillboardPage.

Record state : Type := {
  isLoading : bool;
  isMatchingSpotify : bool;
  tracks : list TrackMetadata;
  billboardEntries : list BillboardEntry;
  matchedIndices : list nat;      (* a Set, in insertion order *)
  matchedCount : Z;
  selectedTracks : list bytes;
  currentPage : Z;
  chartDate : bytes
}.

(** The calls of [toast]. *)
Inductive notice : Type :=
| PleaseSelectDate
| NoChartData
| Fetched (count : nat)
| FetchFailed (message : bytes)
| AllAlreadyMatched
| Resuming (track : nat)
| Resetting
| NoMatchedSelected
| NoMatchedToDownload.

Record handled : Type := {
  notices : list notice;
  next : state;
  started : option run
}.

(** A value in a template literal. *)
Definition shown (x : option bytes) : bytes :=
  match x with Some s => s | None => B "undefined" end.

(** [getTrackKey]: the Spotify id, else the ISRC, else name and
    artists. *)
Definition getTrackKey (track : TrackMetadata) : bytes :=
  match spotify_id track with
  | Some (c :: s) => c :: s
  | _ =>
    match isrc track with
    | Some (c :: s) => c :: s
    | _ => shown (name track) ++ B "-" ++ shown (artists track)
    end
  end.

Definition isTrackMatched (track : TrackMetadata) : bool :=
  truthy (spotify_id track).

(** The track object made for a chart entry by [handleFetchChart] and
    [handleResetMatching]. *)
Definition initial_track (entry : BillboardEntry) : TrackMetadata :=
  {| name := Some (title entry);
     artists := Some (artist entry);
     album_name := Some [];
     duration_ms := Some 0;
     images := Some [];
     release_date := Some [];
     track_number := Some (rank entry);
     external_urls := Some [];
     isrc := Some [];
     spotify_id := None;
     is_explicit := None |}.

(** The entry made by [handleFetchChart] for an entry of the chart that
    the backend returns. *)
Definition chart_entry (entry : billboard.BillboardEntry) : BillboardEntry :=
  {| rank := billboard.Rank entry;
     title := billboard.Title entry;
     artist := billboard.Artist entry |}.

(** The value that [FetchBillboardHot100] resolves to, and how the call
    ends. *)
Record chart : Type := {
  date : bytes;
  entries : option (list billboard.BillboardEntry)
}.

Inductive fetched : Type :=
| FetchResolved (c : option chart)
| FetchRejected (message : option bytes).

Section Handlers.

Variable w : world.

Definition handleFetchChart (billboardDate : bytes) (result : fetched)
           (s : state) : handled :=
  if is_empty billboardDate
  then {| notices := [PleaseSelectDate]; next := s; started := None |}
  else
    let cleared (loading : bool) : state :=
      {| isLoading := loading;
         isMatchingSpotify := isMatchingSpotify s;
         tracks := [];
         billboardEntries := [];
         matchedIndices := new_Set [];
         matchedCount := 0;
         selectedTracks := [];
         currentPage := 1;
         chartDate := chartDate s |} in
    match result with
    | FetchResolved (Some {| date := d; entries := Some (e :: es) |}) =>
      let entries := map chart_entry (e :: es) in
      let initialTracks := map initial_track entries in
      {| notices := [Fetched (length initialTracks)];
         next := {| isLoading := false;
                    isMatchingSpotify := isMatchingSpotify s;
                    tracks := initialTracks;
                    billboardEntries := entries;
                    matchedIndices := new_Set [];
                    matchedCount := 0;
                    selectedTracks := [];
                    currentPage := 1;
                    chartDate := d |};
         started := Some (matchWithSpotify w entries (matchedIndices s)
                            (matchedCount s) (map Some initialTracks) 0
                            (Some []) (Some 0)) |}
    | FetchResolved _ =>
      {| notices := [NoChartData]; next := cleared false; started := None |}
    | FetchRejected message =>
      {| notices := [FetchFailed
                       (match message with
                        | Some (c :: m) => c :: m
                        | _ => B "Failed to fetch Billboard chart"
                        end)];
         next := cleared false;
         started := None |}
    end.

(** The loop of [handleResumeMatching] that looks for the first index
    that is not matched, among [i], ..., [i + n - 1]; [startIndex] is
    zero when there is none. *)
Fixpoint first_unmatched (s : list nat) (i n : nat) : nat :=
  match n with
  | O => 0%nat
  | S n' => if negb (has s i) then i else first_unmatched s (S i) n'
  end.

Definition handleResumeMatching (s : state) : handled :=
  if (length (billboardEntries s) =? 0)%nat || isMatchingSpotify s
  then {| notices := []; next := s; started := None |}
  else
    let startIndex :=
      first_unmatched (matchedIndices s) 0 (length (billboardEntries s)) in
    if Z.of_nat (length (billboardEntries s)) <=? size (matchedIndices s)
    then {| notices := [AllAlreadyMatched]; next := s; started := None |}
    else
      {| notices := [Resuming (startIndex + 1)];
         next := s;
         started := Some (matchWithSpotify w (billboardEntries s)
                            (matchedIndices s) (matchedCount s)
                            (map Some (tracks s)) startIndex None None) |}.

Definition handleResetMatching (s : state) : handled :=
  if (length (billboardEntries s) =? 0)%nat || isMatchingSpotify s
  then {| notices := []; next := s; started := None |}
  else
    let initialTracks := map initial_track (billboardEntries s) in
    {| notices := [Resetting];
       next := {| isLoading := isLoading s;
                  isMatchingSpotify := isMatchingSpotify s;
                  tracks := initialTracks;
                  billboardEntries := billboardEntries s;
                  matchedIndices := new_Set [];
                  matchedCount := 0;
                  selectedTracks := [];
                  currentPage := currentPage s;
                  chartDate := chartDate s |};
       started := Some (matchWithSpotify w (billboardEntries s)
                          (matchedIndices s) (matchedCount s)
                          (map Some initialTracks) 0 (Some []) (Some 0)) |}.

End Handlers.

(** [prev.includes(key)] for an array of strings. *)
Definition holds (l : list bytes) (key : bytes) : bool := existsb (beq key) l.

(** [Array.from(new Set(l))]: the first occurrence of each string. *)
Fixpoint unique (seen l : list bytes) : list bytes :=
  match l with
  | [] => []
  | k :: l' => if holds seen k then unique seen l'
               else k :: unique (seen ++ [k]) l'
  end.

(** The updater that [toggleTrackSelection] hands to
    [setSelectedTracks]. *)
Definition toggleTrackSelection (trackKey : bytes) (prev : list bytes)
  : list bytes :=
  if holds prev trackKey
  then filter (fun k => negb (beq k trackKey)) prev
  else prev ++ [trackKey].

(** [toggleSelectAll]: [selectedTracks] is the state the handler reads,
    [prev] the state its updater is applied to. *)
Definition selectable (trackList : list TrackMetadata) : list bytes :=
  map getTrackKey (filter isTrackMatched trackList).

Definition allSelected (trackList : list TrackMetadata)
           (selectedTracks : list bytes) : bool :=
  (0 <? length (selectable trackList))%nat
  && forallb (holds selectedTracks) (selectable trackList).

Definition toggleSelectAll (trackList : list TrackMetadata)
           (selectedTracks prev : list bytes) : list bytes :=
  let selectableTracks := selectable trackList in
  if allSelected trackList selectedTracks
  then filter (fun key => negb (holds selectableTracks key)) prev
  else unique [] (prev ++ selectableTracks).

(** What [handleDownloadSelected] and [handleDownloadAll] hand to the
    download hook: the keys (for the former), the tracks and the name
    of the folder, if any. *)
Definition folderName (billboardFolderMode : bytes) (chartDate : bytes)
  : option bytes :=
  if beq billboardFolderMode (B "billboard")
  then Some (B "Billboard Hot 100 - " ++ chartDate)
  else None.

Definition handleDownloadSelected (billboardFolderMode : bytes) (s : state)
  : sum notice (list bytes * list TrackMetadata * option bytes) :=
  let tracksToDownload :=
    filter (fun t => holds (selectedTracks s) (getTrackKey t) && isTrackMatched t)
           (tracks s) in
  if (length tracksToDownload =? 0)%nat then inl NoMatchedSelected
  else inr (map getTrackKey tracksToDownload, tracksToDownload,
            folderName billboardFolderMode (chartDate s)).

Definition handleDownloadAll (billboardFolderMode : bytes) (s : state)
  : sum notice (list TrackMetadata * option bytes) :=
  let matchedTracksList := filter isTrackMatched (tracks s) in
  if (length matchedTracksList =? 0)%nat then inl NoMatchedToDownload
  else inr (matchedTracksList, folderName billboardFolderMode (chartDate s)).

End BillboardPage_handlers.

(** ** frontend/src/components/BillboardPage.tsx: the cache

    The cache keeps one item of [localStorage] for each date.  The
    development is parametric in the coding of an item as a string; an
    item that is read back is taken to have the shape that the
    interface [CachedBillboardData] declares, as the code takes it. *)

Module BillboardPage_cache.
Import BillboardPage.

Record CachedBillboardData : Type := {
  date : bytes;
  chartDate : bytes;
  entries : list BillboardEntry;
  tracks : list TrackMetadata;
  matchedIndices : list nat;
  timestamp : Z
}.

Definition CACHE_KEY_PREFIX : bytes := B "billboard_cache_".
Definition CACHE_EXPIRY_DAYS : Z := 7.

(** [localStorage]: the string kept under each key, if any. *)
Definition Storage : Type := bytes -> option bytes.

Definition getItem (st : Storage) (key : bytes) : option bytes := st key.
Definition put (st : Storage) (key : bytes) (value : option bytes) : Storage :=
  fun k => if beq k key then value else st k.
Definition removeItem (st : Storage) (key : bytes) : Storage := put st key None.

Section Cache.

(** [JSON.parse] followed by the reading of the time stamp, [None] when
    one of them throws; [JSON.stringify]; whether [setItem] finds room
    for an item, which it throws for lack of. *)
Variable JSON_parse : bytes -> option CachedBillboardData.
Variable JSON_stringify : CachedBillboardData -> bytes.
Variable room : Storage -> bytes -> bytes -> bool.

Definition setItem (st : Storage) (key value : bytes) : option Storage :=
  if room st key value then Some (put st key (Some value)) else None.

(** [loadCachedData]: the data, if any, and the storage it leaves. *)
Definition loadCachedData (Date_now : Z) (date : bytes) (st : Storage)
  : option CachedBillboardData * Storage :=
  let key := CACHE_KEY_PREFIX ++ date in
  match getItem st key with
  | Some (c :: cached) =>
    match JSON_parse (c :: cached) with
    | Some data =>
      let expiryTime := CACHE_EXPIRY_DAYS * 24 * 60 * 60 * 1000 in
      if expiryTime <? Date_now - timestamp data
      then (None, removeItem st key)
      else (Some data, st)
    | None => (None, st)
    end
  | _ => (None, st)
  end.

Definition saveCachedData (data : CachedBillboardData) (st : Storage) : Storage :=
  let key := CACHE_KEY_PREFIX ++ date data in
  match setItem st key (JSON_stringify data) with
  | Some st' => st'
  | None => st
  end.

(** [saveToCache], and the effect that calls it when the tracks or the
    matched set change. *)
Definition saveToCache (billboardDate : bytes) (Date_now : Z)
           (s : BillboardPage_handlers.state) (st : Storage) : Storage :=
  if is_empty billboardDate
     || (length (BillboardPage_handlers.tracks s) =? 0)%nat
  then st
  else
    saveCachedData
      {| date := billboardDate;
         chartDate := BillboardPage_handlers.chartDate s;
         entries := BillboardPage_handlers.billboardEntries s;
         tracks := BillboardPage_handlers.tracks s;
         matchedIndices := BillboardPage_handlers.matchedIndices s;
         timestamp := Date_now |} st.

Definition save_on_change (billboardDate : bytes) (Date_now : Z)
           (s : BillboardPage_handlers.state) (st : Storage) : Storage :=
  if (0 <? length (BillboardPage_handlers.tracks s))%nat
     && (0 <? size (BillboardPage_handlers.matchedIndices s))
  then saveToCache billboardDate Date_now s st
  else st.

(** The effect that loads the cache when the date changes: the chart
    date it names in the notice it shows, if it shows one, the state
    after its updates and the storage it leaves. *)
Record reloaded : Type := {
  info : option bytes;
  state_after : BillboardPage_handlers.state;
  storage_after : Storage
}.

Definition load_on_change (billboardDate : bytes) (Date_now : Z)
           (s : BillboardPage_handlers.state) (st : Storage) : reloaded :=
  if is_empty billboardDate
  then {| info := None; state_after := s; storage_after := st |}
  else
    match loadCachedData Date_now billboardDate st with
    | (Some cached, st') =>
      {| info := Some (chartDate cached);
         state_after :=
           {| BillboardPage_handlers.isLoading := BillboardPage_handlers.isLoading s;
              BillboardPage_handlers.isMatchingSpotify :=
                BillboardPage_handlers.isMatchingSpotify s;
              BillboardPage_handlers.tracks := tracks cached;
              BillboardPage_handlers.billboardEntries := entries cached;
              BillboardPage_handlers.matchedIndices :=
                new_Set (matchedIndices cached);
              BillboardPage_handlers.matchedCount :=
                Z.of_nat (length (matchedIndices cached));
              BillboardPage_handlers.selectedTracks :=
                BillboardPage_handlers.selectedTracks s;
              BillboardPage_handlers.currentPage :=
                BillboardPage_handlers.currentPage s;
              BillboardPage_handlers.chartDate := chartDate cached |};
         storage_after := st' |}
    | (None, st') => {| info := None; state_after := s; storage_after := st' |}
    end.

End Cache.

End BillboardPage_cache.

(** ** The history page: the list of pages and the page shown

    Page numbers and lengths are whole numbers. *)

Module HistoryPage.

Definition ITEMS_PER_PAGE : Z := 50.

(** An item of the page list: a page number or the word [ellipsis]. *)
Inductive item : Type :=
| page (n : Z)
| ellipsis.

(** The pages pushed by [for (let i = from; i <= to; i++)]. *)
Definition pushed (from to : Z) : list item :=
  map (fun k => page (from + Z.of_nat k)) (seq 0 (Z.to_nat (to - from + 1))).

Definition getPaginationPages (current total : Z) : list item :=
  if total <=? 10
  then map (fun i => page (Z.of_nat i + 1)) (seq 0 (Z.to_nat total))
  else
    let pages := [page 1] in
    if current <=? 7
    then (pages ++ pushed 2 10) ++ [ellipsis] ++ [page total]
    else if total - 7 <=? current
    then (pages ++ [ellipsis]) ++ pushed (total - 9) total
    else pages ++ [ellipsis] ++ [page (current - 1)] ++ [page current]
               ++ [page (current + 1)] ++ [ellipsis] ++ [page total].

(** [a.slice(start, end)]: a negative index counts from the end, and
    both are brought into the array. *)
Definition slice {A : Type} (a : list A) (start end_ : Z) : list A :=
  let len := Z.of_nat (length a) in
  let k := if start <? 0 then Z.max (len + start) 0 else Z.min start len in
  let final := if end_ <? 0 then Z.max (len + end_) 0 else Z.min end_ len in
  firstn (Z.to_nat (final - k)) (skipn (Z.to_nat k) a).

(** [Math.ceil(x / y)] for integers [x] and [y]. *)
Definition ceil_div (x y : Z) : Z := - ((- x) / y).

Section Render.

Context {A : Type}.
Variable filtered : list A.

Definition totalPages : Z :=
  ceil_div (Z.of_nat (length filtered)) ITEMS_PER_PAGE.

Definition paginated (currentPage : Z) : list A :=
  let startIndex := (currentPage - 1) * ITEMS_PER_PAGE in
  slice filtered startIndex (startIndex + ITEMS_PER_PAGE).

End Render.

End HistoryPage.

(** ** frontend/src/components/DownloadQueue.tsx *)

Module DownloadQueue.

(** An integer in a template literal. *)
Definition number (n : Z) : bytes := filename.Sprintf_d n.

(** The dash shown for a download that has not started. *)
Definition dash : bytes := [byte_of 0xE2; byte_of 0x80; byte_of 0x94].

(** [formatDuration]: [Date_now] is the value of [Date.now()], in
    milliseconds; the time stamps are whole numbers of seconds.  The
    operator [%] of JavaScript takes the sign of the dividend, as
    [Z.rem] does, and [Math.floor] of a quotient is [Z.div]. *)
Definition formatDuration (Date_now : Z) (startTimestamp : Z) : bytes :=
  if startTimestamp =? 0 then dash
  else
    let now := Date_now / 1000 in
    let durationSeconds := now - startTimestamp in
    let hours := durationSeconds / 3600 in
    let minutes := Z.rem durationSeconds 3600 / 60 in
    let seconds := Z.rem durationSeconds 60 in
    if 0 <? hours
    then number hours ++ B "h " ++ number minutes ++ B "m " ++ number seconds ++ B "s"
    else if 0 <? minutes
    then number minutes ++ B "m " ++ number seconds ++ B "s"
    else number seconds ++ B "s".

End DownloadQueue.

(** ** The path utilities of the frontend

    A string of JavaScript is held as the bytes of its UTF-8 form, as
    in [BillboardPage]; the classes of the patterns hold characters of
    ASCII only, whose bytes occur in no other character. *)

Module utils.
Import regexp.

Definition backslash : ascii := ascii_of_nat 92.

(** The class of [sanitizePath] for Windows: the characters that a
    file name cannot hold there, the backslash apart. *)
Definition windows_invalid (c : ascii) : bool :=
  one_of "<>:/|?*" c || Ascii.eqb c billboard.dquote.

Definition sanitizePath (input os : bytes) : bytes :=
  let sanitized := BillboardPage.trim input in
  if beq os (B "Windows")
  then ReplaceAllString [Many windows_invalid 1 (Some 1%nat) true false]
                        sanitized (B "_")
  else ReplaceAllString (lit "/") sanitized (B "_").

(** The class [[/\\]] of [joinPath]. *)
Definition slash (c : ascii) : bool := Ascii.eqb c "/" || Ascii.eqb c backslash.

(** [p.replace(/^[/\\]+/, empty)], [p.replace(/[/\\]+$/g, empty)] and
    [p.replace(/^[/\\]+|[/\\]+$/g, empty)]: the slashes and backslashes
    at the start of [p], at its end and at both are taken away. *)
Fixpoint strip_start (p : bytes) : bytes :=
  match p with
  | [] => []
  | c :: t => if slash c then strip_start t else p
  end.
Definition strip_end (p : bytes) : bytes := rev (strip_start (rev p)).
Definition strip_both (p : bytes) : bytes := strip_end (strip_start p).

(** [a.map((p, i) => ...)] of [joinPath], from the index [i] on. *)
Fixpoint stripped (i : nat) (parts : list bytes) : list bytes :=
  match parts with
  | [] => []
  | p :: rest =>
    (if (i =? 0)%nat then strip_end p else strip_both p) :: stripped (S i) rest
  end.

(** [filter(Boolean)] on strings. *)
Definition nonempty (l : list bytes) : list bytes :=
  filter (fun p => negb (is_empty p)) l.

Definition joinPath (os : bytes) (parts : list bytes) : bytes :=
  let sep := if beq os (B "Windows") then [backslash] else B "/" in
  let filtered := nonempty parts in
  if (length filtered =? 0)%nat then []
  else strings.Join (nonempty (stripped 0 filtered)) sep.

Record Settings : Type := {
  operatingSystem : bytes;
  downloadPath : option bytes
}.

Definition buildOutputPath (settings : Settings) (folder : option bytes) : bytes :=
  let os := operatingSystem settings in
  let base := match downloadPath settings with
              | Some (c :: p) => c :: p
              | _ => []
              end in
  let sanitized := match folder with
                   | Some (c :: f) => Some (sanitizePath (c :: f) os)
                   | _ => None
                   end in
  match sanitized with
  | Some (c :: s) => joinPath os [base; c :: s]
  | _ => base
  end.

End utils.


(** ** Vocabulary of the statements about UTF-8 *)

Module utf8_spec.
Import utf8.

(** A Unicode scalar value: in range and not a surrogate. *)
Definition valid_rune (r : Z) : bool :=
  (0 <=? r) && (r <=? MaxRune) && negb ((0xD800 <=? r) && (r <=? 0xDFFF)).

(** The encoding in arithmetic. *)
Definition enc_codes (r : Z) : list Z :=
  if r <? 0x80 then [r]
  else if r <? 0x800 then [0xC0 + r / 64; 0x80 + r mod 64]
  else if r <? 0x10000 then
    [0xE0 + r / 4096; 0x80 + (r / 64) mod 64; 0x80 + r mod 64]
  else
    [0xF0 + r / 262144; 0x80 + (r / 4096) mod 64;
     0x80 + (r / 64) mod 64; 0x80 + r mod 64].

(** The bounds [acceptRanges] puts on the second byte. *)
Definition second_lo (c0 : Z) : Z :=
  if c0 =? 0xE0 then 0xA0 else if c0 =? 0xF0 then 0x90 else 0x80.
Definition second_hi (c0 : Z) : Z :=
  if c0 =? 0xED then 0x9F else if c0 =? 0xF4 then 0x8F else 0xBF.

(** The rune that [EncodeRune r] really writes. *)
Definition norm (r : Z) : Z := if valid_rune r then r else RuneError.

(** The bytes of a sequence of runes. *)
Definition enc (rs : list Z) : bytes := flat_map EncodeRune rs.

End utf8_spec.

(** ** Vocabulary of the statements about strings *)

Module strings_spec.

(** The first and the last rune of a string, as Go decodes them. *)
Definition first_rune (s : bytes) : Z := fst (utf8.DecodeRuneInString s).
Definition last_rune (s : bytes) : Z := fst (utf8.DecodeLastRuneInString s).

(** [m] is a run of consecutive bytes of [s]. *)
Definition infix (m s : bytes) : Prop := exists pre post, s = pre ++ m ++ post.

(** The byte is outside ASCII. *)
Definition high (c : ascii) : Prop := 0x80 <= code c.

(** The string is empty or begins with an ASCII byte. *)
Definition ascii_head (s : bytes) : Prop :=
  match s with [] => True | a :: _ => code a < 0x80 end.

(** The string is empty or begins with a byte that starts a rune. *)
Definition start_head (s : bytes) : Prop :=
  match s with [] => True | d :: _ => utf8.RuneStart d = true end.

End strings_spec.

(** ** Vocabulary of the statements about file names *)

Module filename_spec.
Import filename.

(** The characters that a file name must not hold, by their codes:
    < > : the double quote, the backslash, | ? and *. *)
Definition forbidden : list Z :=
  [0x3C; 0x3E; 0x3A; 0x22; 0x5C; 0x7C; 0x3F; 0x2A].

(** A byte that may stand in a file name: none of these characters,
    and no control byte. *)
Definition harmless (c : ascii) : Prop :=
  ~ In (code c) forbidden /\ 0x20 <= code c /\ code c <> 0x7F.

(** A byte outside the class of the first pattern of
    [SanitizeFilename] that is no control byte. *)
Definition safe_byte (c : ascii) : Prop :=
  unsafe c = false /\ 0x20 <= code c /\ code c <> 0x7F.

Import regexp.

(** A byte other than the slash. *)
Definition not_slash (c : ascii) : Prop := Ascii.eqb c "/" = false.

(** A rune that the loop of [SanitizeFilename] writes as it is. *)
Definition kept (r : Z) : Prop :=
  utf8_spec.valid_rune r = true /\ written r = utf8.EncodeRune r.

(** The encoding of a sequence of such runes. *)
Definition clean (s : bytes) : Prop :=
  exists rs, s = utf8_spec.enc rs /\ Forall kept rs.

(** A rune at which neither [TrimSpace] nor the trimming of dots
    removes anything: not a dot and not white space. *)
Definition plain_edge (r : Z) : bool :=
  negb (r =? 0x2E) && negb (unicode.IsSpace r).

(** The result of the last trimming step of [SanitizeFilename]. *)
Definition trimmed (name : bytes) : bytes :=
  let sanitized := strings.ReplaceAll name (B "/") (B " ") in
  let sanitized := ReplaceAllString [Many unsafe 1 (Some 1%nat) true false]
                                    sanitized (B " ") in
  let sanitized := flat_map (fun rn => written (fst rn)) (utf8.range sanitized) in
  let sanitized := strings.TrimSpace sanitized in
  let sanitized := strings.Trim sanitized (B ". ") in
  let sanitized := ReplaceAllString [plus regexp.space] sanitized (B " ") in
  let sanitized := ReplaceAllString [plus (one_of "_")] sanitized (B "_") in
  strings.Trim sanitized (B "_ ").

End filename_spec.

(** ** Vocabulary of the statements about patterns *)

Module regexp_spec.
Import regexp.

(** The text that [ReplaceAllString] writes for a segment. *)
Definition out (repl : bytes) (sg : seg) : bytes :=
  match sg with Text c => [c] | Hit _ _ => repl end.

(** A run of bytes of [cls] is replaced by [repl]; [inrun] says that the
    previous byte was in the run. *)
Fixpoint squeeze (cls : ascii -> bool) (repl : bytes) (inrun : bool) (s : bytes)
  : bytes :=
  match s with
  | [] => []
  | c :: t =>
    if cls c then (if inrun then [] else repl) ++ squeeze cls repl true t
    else c :: squeeze cls repl false t
  end.

(** No [<] of [s] has a [>] after it: [s] holds no tag. *)
Fixpoint tagless (s : bytes) : Prop :=
  match s with
  | [] => True
  | c :: t => (c = "<"%char -> ~ In ">"%char t) /\ tagless t
  end.

(** In [s] every byte of [cls] is the byte [r], and the byte after it
    is not in [cls]. *)
Fixpoint settled (cls : ascii -> bool) (r : ascii) (s : bytes) : Prop :=
  match s with
  | [] => True
  | c :: t =>
    (cls c = true ->
     c = r /\ match t with d :: _ => cls d = false | [] => True end)
    /\ settled cls r t
  end.

(** The first byte of [s], if any, is not in [cls]. *)
Definition head_out (cls : ascii -> bool) (s : bytes) : Prop :=
  match s with d :: _ => cls d = false | [] => True end.

End regexp_spec.

(** ** Vocabulary of the statements about the chart parser *)

Module parser_spec.
Import billboard regexp.

(** The invariant of a chart entry. *)
Definition valid_entry (e : BillboardEntry) : Prop :=
  Title e <> [] /\ Artist e <> [] /\ 1 <= Rank e.

(** The numbers between tags that the direct extraction finds in the
    300 bytes before the heading matched by [titleMatch]. *)
Definition rank_tokens (htmlContent : bytes) (titleMatch : list bytes)
  : list (list bytes) :=
  FindAllStringSubmatch
    directRankPattern
    (beforeTitle htmlContent
                 (Z.to_nat (strings.Index htmlContent (sub titleMatch 0))))
    None.

(** The number that a string of digits writes. *)
Definition number (digits : bytes) : Z :=
  fold_left (fun n c => 10 * n + (code c - 0x30)) digits 0.




End parser_spec.

(** ** Concrete inputs *)

Module sample.

(** A document written with apostrophes where the markup has double
    quotes: [Q s] is [s] with every apostrophe turned into a double
    quote. *)
Definition Q (s : string) : bytes :=
  map (fun c => if Ascii.eqb c "'" then billboard.dquote else c) (B s).

(** The entries of Go's table [entity] for the markup characters. *)
Definition entity (name : bytes) : Z :=
  if beq name (B "amp;") || beq name (B "amp") then 0x26
  else if beq name (B "lt;") || beq name (B "lt") then 0x3C
  else if beq name (B "gt;") || beq name (B "gt") then 0x3E
  else if beq name (B "quot;") || beq name (B "quot") then 0x22
  else if beq name (B "apos;") then 0x27
  else if beq name (B "nbsp;") || beq name (B "nbsp") then 0xA0
  else 0.

Definition entity2 (name : bytes) : Z * Z := (0, 0).




(** Two headings outside of any row, with no number before them. *)
Definition two_headings : bytes :=
  Q ("<h3 id='title-of-a-story'>A</h3><span class='c-label'>X</span>"
     ++ "<h3 id='title-of-a-story'>B</h3><span class='c-label'>Y</span>").

(** A chart of one entry and a search that finds it. *)
Definition song_a : BillboardPage.BillboardEntry :=
  {| BillboardPage.rank := 1;
     BillboardPage.title := B "Song A";
     BillboardPage.artist := B "Artist X" |}.

Definition track_a : BillboardPage.TrackMetadata :=
  {| BillboardPage.name := Some (B "Song A");
     BillboardPage.artists := Some (B "Artist X");
     BillboardPage.album_name := Some [];
     BillboardPage.duration_ms := Some 0;
     BillboardPage.images := Some [];
     BillboardPage.release_date := Some [];
     BillboardPage.track_number := Some 1;
     BillboardPage.external_urls := Some [];
     BillboardPage.isrc := Some [];
     BillboardPage.spotify_id := None;
     BillboardPage.is_explicit := None |}.

Definition candidate : BillboardPage.SearchTrack :=
  {| BillboardPage.id := Some (B "abc123");
     BillboardPage.st_name := Some (B "Song A");
     BillboardPage.st_album_name := Some (B "Album");
     BillboardPage.st_images := None;
     BillboardPage.st_duration_ms := Some 180000;
     BillboardPage.st_external_urls := None;
     BillboardPage.st_is_explicit := None;
     BillboardPage.st_release_date := Some (B "2024-05-04") |}.

Definition found : BillboardPage.outcome :=
  BillboardPage.Resolved (Some (Some [Some candidate])).

(** The search succeeds every time and nobody stops the run. *)
Definition calm : BillboardPage.world :=
  {| BillboardPage.answer := fun _ => found;
     BillboardPage.stop_during := fun _ => false |}.

(** The first call is turned away with a 429, the later ones succeed. *)
Definition too_many : bytes := B "Error: 429 Too Many Requests".

Definition throttled : BillboardPage.world :=
  {| BillboardPage.answer :=
       fun n => match n with
                | O => BillboardPage.Rejected too_many
                | S _ => found
                end;
     BillboardPage.stop_during := fun _ => false |}.

(** The state in which a fresh run enters its loop. *)
Definition fresh : BillboardPage.run :=
  {| BillboardPage.updatedTracks := [Some track_a];
     BillboardPage.newMatchedIndices := [];
     BillboardPage.matched := 0;
     BillboardPage.stop := false;
     BillboardPage.calls := 0;
     BillboardPage.awaits := 0;
     BillboardPage.events := [BillboardPage.SetIsMatchingSpotify true] |}.

End sample.

(** ** Vocabulary of the statements about the matching run *)

Module run_spec.
Import BillboardPage.

(** The waits of a run, in order, and the number of its search calls. *)
Definition delays (evs : list event) : list Z :=
  flat_map (fun e => match e with Delay ms => [ms] | _ => [] end) evs.

Definition searches (evs : list event) : nat :=
  length (filter (fun e => match e with SearchSpotify _ _ => true | _ => false end) evs).

(** The wait after the failed attempt number [attempt], in the words of
    the specification: ten seconds times the attempt number for a
    rate-limited failure, one and a half seconds times the attempt
    number for another failure while attempts remain, none otherwise. *)
Definition backoff (rateLimited : bool) (attempt : nat) : option Z :=
  if rateLimited then Some (10000 * Z.of_nat attempt)
  else if (attempt <? 3)%nat then Some (1500 * Z.of_nat attempt)
  else None.

(** The four texts that mark a rate-limited failure. *)
Definition rate_limit_marks : list bytes :=
  [B "429"; B "rate"; B "too many"; B "quota"].

(** The byte [a] is the byte [b] of a mark, or the capital letter of
    which [b] is the small one. *)
Definition same_letter (a b : ascii) : bool :=
  Ascii.eqb a b
  || ((0x61 <=? code b) && (code b <=? 0x7A) && (code a =? code b - 0x20)).

(** The text [s] begins with the mark, the case of its letters
    ignored; the text holds the mark somewhere, likewise. *)
Fixpoint starts_with (s mark : bytes) : bool :=
  match mark, s with
  | [], _ => true
  | b :: mark', a :: s' => same_letter a b && starts_with s' mark'
  | _ :: _, [] => false
  end.

Fixpoint mentions (s mark : bytes) : bool :=
  starts_with s mark
  || match s with
     | [] => false
     | _ :: s' => mentions s' mark
     end.

(** A failure is rate-limited when its text holds one of the marks,
    in whatever case. *)
Definition rate_limited (err : bytes) : bool :=
  existsb (mentions err) rate_limit_marks.

(** A byte that is no capital letter. *)
Definition no_capital (b : ascii) : bool :=
  negb ((0x41 <=? code b) && (code b <=? 0x5A)).

(** The waits that follow the failures [errs], the first of which is
    the failure of attempt number [attempt]. *)
Fixpoint backoffs (attempt : nat) (errs : list bytes) : list Z :=
  match errs with
  | [] => []
  | err :: errs' =>
    match backoff (rate_limited err) attempt with
    | Some ms => ms :: backoffs (S attempt) errs'
    | None => backoffs (S attempt) errs'
    end
  end.

(** What an observer of the published state has seen: the pairs of a
    matched count and the index set published right after it, and
    whether every call of one of the two setters belongs to such a
    pair. *)
Record view : Type := {
  pending : option Z;
  pairs : list (Z * list nat);
  paired : bool
}.

Definition observe_step (v : view) (e : event) : view :=
  match e, pending v with
  | SetMatchedCount n, None =>
    {| pending := Some n; pairs := pairs v; paired := paired v |}
  | SetMatchedCount n, Some _ =>
    {| pending := Some n; pairs := pairs v; paired := false |}
  | SetMatchedIndices s, Some n =>
    {| pending := None; pairs := pairs v ++ [(n, s)]; paired := paired v |}
  | SetMatchedIndices s, None =>
    {| pending := None; pairs := pairs v; paired := false |}
  | _, Some _ => {| pending := None; pairs := pairs v; paired := false |}
  | _, None => v
  end.

Definition observe (evs : list event) : view :=
  fold_left observe_step evs {| pending := None; pairs := []; paired := true |}.

(** Every set of the sequence includes the one before it, the first one
    includes [s0]. *)
Fixpoint grows (s0 : list nat) (sets : list (list nat)) : Prop :=
  match sets with
  | [] => True
  | s :: sets' => incl s0 s /\ grows s sets'
  end.

(** The events other than the two setters of the matched state. *)
Definition quiet (e : event) : bool :=
  match e with
  | SetMatchedCount _ | SetMatchedIndices _ => false
  | _ => true
  end.

(** What the observer has seen is consistent, with respect to the
    index set [s0] the run started from and its current set [cur]. *)
Definition view_ok (s0 cur : list nat) (v : view) : Prop :=
  paired v = true /\ pending v = None
  /\ Forall (fun p => fst p = size (snd p)) (pairs v)
  /\ grows s0 (map snd (pairs v))
  /\ incl (last (map snd (pairs v)) s0) cur.

(** The invariant of the run. *)
Definition good (s0 : list nat) (st : run) : Prop :=
  NoDup (newMatchedIndices st)
  /\ matched st = size (newMatchedIndices st)
  /\ view_ok s0 (newMatchedIndices st) (observe (events st)).

End run_spec.

(** * Vocabulary of the further properties *)

Module path_spec.

(** What [ReplaceAll s slash separator] does to one byte. *)
Definition swap (sep c : ascii) : ascii := if Ascii.eqb c "/" then sep else c.

(** A byte outside the class of the first pattern of
    [SanitizeFilename] that is no control byte and no slash. *)
Definition plain_byte (c : ascii) : Prop :=
  filename_spec.safe_byte c /\ filename_spec.not_slash c.

(** A byte that may stand in the name of a file: none of the forbidden
    characters, no control byte and no slash. *)
Definition name_byte (c : ascii) : Prop :=
  filename_spec.harmless c /\ c <> "/"%char.

End path_spec.

Module parser_more_spec.
Import regexp.

(** The classes of the captured repetitions of a pattern, in order. *)
Fixpoint group_classes (re : regex) : list (ascii -> bool) :=
  match re with
  | [] => []
  | Many cls _ _ _ true :: re' => cls :: group_classes re'
  | _ :: re' => group_classes re'
  end.

(** Every byte of [g] is in [cls]. *)
Definition within (cls : ascii -> bool) (g : bytes) : Prop :=
  Forall (fun c => cls c = true) g.

(** A tab, a line feed, a form feed, a carriage return or a space. *)
Definition layout (c : ascii) : bool :=
  existsb (Z.eqb (code c)) [0x09; 0x0A; 0x0C; 0x0D; 0x20].

(** Text as [cleanText] leaves it: no tag; every tab, line feed, form
    feed, carriage return and space in it is a space, and the byte
    after it is none of them; no white-space rune at either end. *)
Definition normal_text (t : bytes) : Prop :=
  regexp_spec.tagless t
  /\ regexp_spec.settled layout " "%char t
  /\ (t = [] \/ (unicode.IsSpace (strings_spec.first_rune t) = false
                 /\ unicode.IsSpace (strings_spec.last_rune t) = false)).

End parser_more_spec.

Module entry_spec.
Import billboard.

(** The three statistics of an entry are not negative. *)
Definition stats_nonneg (e : BillboardEntry) : Prop :=
  0 <= LastWeekRank e /\ 0 <= PeakRank e /\ 0 <= WeeksOnChart e.

End entry_spec.

Module run_more_spec.
Import BillboardPage.

(** What the run works on: the tracks, the set of matched indices and
    the matched count. *)
Definition core : Type := list (option TrackMetadata) * list nat * Z.

Definition core_of (st : run) : core :=
  (updatedTracks st, newMatchedIndices st, matched st).

(** What the loop over the indices [i], ..., [i + n - 1] does to the
    tracks, the set and the count: it stops, or it leaves the index
    alone, or it matches it with a candidate that has an id. *)
Inductive effect : nat -> nat -> core -> core -> Prop :=
| effect_done i n c : effect i n c c
| effect_skip i n c c' : effect (S i) n c c' -> effect i (S n) c c'
| effect_match i n tracks set count m c' :
    has set i = false -> truthy (id m) = true ->
    effect (S i) n
           (assign tracks i (with_match (nth i tracks None) m),
            add set i, count + 1) c' ->
    effect i (S n) (tracks, set, count) c'.

(** The number of the indices [i], ..., [i + n - 1] that are not in [s]. *)
Definition todo (s : list nat) (i n : nat) : nat :=
  length (filter (fun j => negb (has s j)) (seq i n)).

(** The track at index [j] carries a Spotify id: [isTrackMatched]. *)
Definition has_id (tracks : list (option TrackMetadata)) (j : nat) : Prop :=
  exists t, nth j tracks None = Some t /\ truthy (spotify_id t) = true.

(** The set holds exactly the indices of the tracks with an id. *)
Definition consistent (tracks : list (option TrackMetadata)) (s : list nat)
  : Prop :=
  forall j, In j s <-> has_id tracks j.

(** The fields of a track that come from the chart. *)
Definition same_labels (t t' : TrackMetadata) : Prop :=
  name t' = name t /\ artists t' = artists t
  /\ track_number t' = track_number t.

(** The suspensions in a trace: the search calls and the waits. *)
Definition suspensions (evs : list event) : nat :=
  length (filter (fun e => match e with
                           | SearchSpotify _ _ | Delay _ => true
                           | _ => false
                           end) evs).

(** The first candidate of every search has an id. *)
Definition always_found (w : world) : Prop :=
  forall n, exists m more,
    answer w n = Resolved (Some (Some (Some m :: more)))
    /\ truthy (id m) = true.

(** The counters of a run agree with its trace. *)
Definition counted (st : run) : Prop :=
  run_spec.searches (events st) = calls st
  /\ suspensions (events st) = awaits st.

(** The events that are no suspension. *)
Definition silent (e : event) : bool :=
  match e with SearchSpotify _ _ | Delay _ => false | _ => true end.

(** The counters of a run whose [K]-th suspension meets a stop request:
    between two statements, and when the attempts for an entry are
    over. *)
Definition before (K : nat) (st : run) : Prop :=
  (calls st <= K + 1)%nat
  /\ (stop st = false -> (awaits st <= K)%nat /\ (calls st <= awaits st)%nat)
  /\ (stop st = true -> (awaits st <= K + 1)%nat).

Definition after (K : nat) (st : run) : Prop :=
  (calls st <= K + 1)%nat
  /\ (stop st = false -> (awaits st <= K)%nat /\ (calls st <= awaits st)%nat)
  /\ (stop st = true -> (awaits st <= K + 2)%nat).

(** The events of a trace that come after its suspension number [K],
    counted from zero. *)
Fixpoint rest_after (K : nat) (evs : list event) : list event :=
  match evs with
  | [] => []
  | e :: evs' =>
    if silent e then rest_after K evs'
    else match K with
         | O => evs'
         | S K' => rest_after K' evs'
         end
  end.

(** No search call is made after the suspension number [K]. *)
Definition late (K : nat) (st : run) : Prop :=
  run_spec.searches (rest_after K (events st)) = 0%nat.

(** The search calls of a trace, entry by entry.  A status that
    announces the track number [track] opens the count of that track; a
    search call is counted for the track announced last, and as a stray
    call when no track has been announced.  The tracks are listed with
    the one announced last in front. *)
Record tally : Type := {
  stray : nat;
  per_track : list (nat * nat)
}.

Definition tally_step (t : tally) (e : event) : tally :=
  match e with
  | SetMatchingStatus (StatusMatching track _) =>
    {| stray := stray t; per_track := (track, 0%nat) :: per_track t |}
  | SearchSpotify _ _ =>
    match per_track t with
    | [] => {| stray := S (stray t); per_track := [] |}
    | (track, n) :: others =>
      {| stray := stray t; per_track := (track, S n) :: others |}
    end
  | _ => t
  end.

Definition tally_of (evs : list event) : tally :=
  fold_left tally_step evs {| stray := 0; per_track := [] |}.

(** A track and its count in a run that starts from the set [s0] at
    the index [start], when the loop has come to the index [i]: at most
    three calls, for an index from [start] on and below [i] that is not
    in [s0]. *)
Definition fair (s0 : list nat) (start i : nat) (p : nat * nat) : Prop :=
  (snd p <= 3)%nat
  /\ (start < fst p <= i)%nat
  /\ ~ In (fst p - 1)%nat s0.

End run_more_spec.

Module handlers_spec.
Import BillboardPage BillboardPage_handlers run_more_spec.

(** How a run that started from scratch over [entries] ends: there is
    one track for each entry, which shows the title, the artist and the
    rank of the entry; the matched count is the size of the matched
    set; and the set holds exactly the indices of the tracks that carry
    a Spotify id. *)
Definition fresh_run_ok (entries : list BillboardEntry) (r : run) : Prop :=
  length (updatedTracks r) = length entries
  /\ matched r = size (newMatchedIndices r)
  /\ consistent (updatedTracks r) (newMatchedIndices r)
  /\ forall j entry, nth_error entries j = Some entry ->
       exists t, nth j (updatedTracks r) None = Some t
                 /\ name t = Some (title entry)
                 /\ artists t = Some (artist entry)
                 /\ track_number t = Some (rank entry).

(** [k] is the key of a matched track of the list: the Spotify id of
    one of its tracks, which is not empty. *)
Definition matched_id (trackList : list TrackMetadata) (k : bytes) : Prop :=
  k <> [] /\ exists t, In t trackList /\ spotify_id t = Some k.

(** The list has a matched track, and the key of every matched track
    is selected. *)
Definition all_matched_selected (trackList : list TrackMetadata)
           (selectedTracks : list bytes) : Prop :=
  (exists k, matched_id trackList k)
  /\ forall k, matched_id trackList k -> In k selectedTracks.

End handlers_spec.

(** ** Further concrete inputs *)

Module sample_more.
Import BillboardPage BillboardPage_handlers.

(** The track of [sample.song_a] once it is matched. *)
Definition matched_track : TrackMetadata :=
  with_match (Some sample.track_a) sample.candidate.

(** A chart of two entries whose first one is matched. *)
Definition paused : state :=
  {| isLoading := false;
     isMatchingSpotify := false;
     tracks := [matched_track; sample.track_a];
     billboardEntries := [sample.song_a; sample.song_a];
     matchedIndices := [0%nat];
     matchedCount := 1;
     selectedTracks := [B "abc123"];
     currentPage := 1;
     chartDate := B "2024-05-04" |}.

(** What the backend returns for a chart of one entry. *)
Definition parsed_a : billboard.BillboardEntry :=
  {| billboard.Rank := 1;
     billboard.Title := B "Song A";
     billboard.Artist := B "Artist X";
     billboard.LastWeekRank := 2;
     billboard.PeakRank := 1;
     billboard.WeeksOnChart := 3;
     billboard.IsNew := false |}.

Definition chart_a : chart :=
  {| date := B "2024-05-04"; entries := Some [parsed_a] |}.

End sample_more.

(** ** The cache *)

Module sample_cache.
Import BillboardPage BillboardPage_cache.

(** The item kept for the state [sample_more.paused], and a coding that
    knows this item only. *)
Definition item : CachedBillboardData :=
  {| date := B "2024-05-04";
     chartDate := BillboardPage_handlers.chartDate sample_more.paused;
     entries := BillboardPage_handlers.billboardEntries sample_more.paused;
     tracks := BillboardPage_handlers.tracks sample_more.paused;
     matchedIndices := BillboardPage_handlers.matchedIndices sample_more.paused;
     timestamp := 1714780800000 |}.

Definition parse (_ : bytes) : option CachedBillboardData := Some item.
Definition stringify (_ : CachedBillboardData) : bytes := B "{}".
Definition roomy (_ : Storage) (_ _ : bytes) : bool := true.
Definition empty : Storage := fun _ => None.

End sample_cache.

(** ** The history page *)

Module history_spec.
Import HistoryPage.

(** The page numbers of a page list, in order. *)
Definition numbers (l : list item) : list Z :=
  flat_map (fun x => match x with page n => [n] | ellipsis => [] end) l.

(** The pages [1], ..., [n] of a list, one after the other. *)
Definition all_pages {A : Type} (l : list A) : list (list A) :=
  map (fun i => paginated l (Z.of_nat i + 1)) (seq 0 (Z.to_nat (totalPages l))).

End history_spec.

(** ** The download queue *)

Module queue_spec.
Import DownloadQueue.

(** A duration spelled with its hours, minutes and seconds, the leading
    parts left out when they are zero. *)
Definition spelled (h m s : Z) : bytes :=
  if 0 <? h
  then number h ++ B "h " ++ number m ++ B "m " ++ number s ++ B "s"
  else if 0 <? m then number m ++ B "m " ++ number s ++ B "s"
  else number s ++ B "s".

End queue_spec.

(** ** The path utilities *)

Module utils_spec.
Import utils.

(** The replacement of the bytes of a class by an underscore. *)
Definition under (cls : ascii -> bool) (c : ascii) : ascii :=
  if cls c then "_"%char else c.
Definition underscored (cls : ascii -> bool) (s : bytes) : bytes :=
  map (under cls) s.

(** The characters that [sanitizePath] takes out of a name for
    Windows, by their codes: < > : the double quote, the slash, | ? and
    *. *)
Definition windows_forbidden : list Z :=
  [0x3C; 0x3E; 0x3A; 0x22; 0x2F; 0x7C; 0x3F; 0x2A].

(** The number of slashes of a path. *)
Definition slashes (s : bytes) : nat :=
  length (filter (fun c => Ascii.eqb c "/") s).

End utils_spec.

Module join_spec.
Import utils.

(** A slash or a backslash. *)
Definition separator (c : ascii) : bool :=
  Ascii.eqb c "/" || Ascii.eqb c "\".

(** The path ends with a slash or a backslash. *)
Definition ends_with_slash (s : bytes) : bool :=
  match rev s with
  | c :: _ => separator c
  | [] => false
  end.

(** The part holds slashes and backslashes only. *)
Definition blank (p : bytes) : bool := forallb separator p.

End join_spec.


(** * Facts about the library model *)

(** ** Bytes and UTF-8 *)

Module bytes_facts.

Lemma is_empty_false (s : bytes) : is_empty s = false <-> s <> [].
Proof. destruct s; cbn; split; congruence. Qed.

End bytes_facts.


Module utf8_facts.
Import utf8 utf8_spec.

Lemma code_range c : 0 <= code c < 256.
Proof.
  unfold code. destruct c as [[] [] [] [] [] [] [] []]; vm_compute; split; congruence.
Qed.

Lemma code_byte_of z : code (byte_of z) = z mod 256.
Proof.
  unfold code, byte_of.
  assert (H : 0 <= z mod 256 < 256) by (apply Z.mod_pos_bound; lia).
  rewrite N_ascii_embedding.
  - rewrite Z2N.id; lia.
  - change 256%N with (Z.to_N 256). apply Z2N.inj_lt; lia.
Qed.

Lemma byte_of_code c : byte_of (code c) = c.
Proof.
  unfold byte_of, code.
  pose proof (code_range c) as H. unfold code in H.
  rewrite Z.mod_small by exact H.
  rewrite N2Z.id. apply ascii_N_embedding.
Qed.

Lemma code_inj c d : code c = code d -> c = d.
Proof.
  intro H. rewrite <- (byte_of_code c), <- (byte_of_code d), H. reflexivity.
Qed.

Lemma testbit_small lo k n :
  0 <= lo < 2 ^ k -> k <= n -> Z.testbit lo n = false.
Proof.
  intros Hlo Hn.
  destruct (Z.eq_dec lo 0) as [->|Hnz]; [apply Z.bits_0|].
  apply Z.bits_above_log2; [lia|].
  apply Z.lt_le_trans with k; [apply Z.log2_lt_pow2; lia | exact Hn].
Qed.

Lemma land_disjoint hi lo k :
  0 <= k -> 0 <= lo < 2 ^ k -> Z.land (hi * 2 ^ k) lo = 0.
Proof.
  intros Hk Hlo. apply Z.bits_inj'. intros n Hn.
  rewrite Z.land_spec, Z.bits_0.
  destruct (Z.lt_ge_cases n k) as [Hlt|Hge].
  - rewrite Z.mul_pow2_bits_low by lia. reflexivity.
  - rewrite (testbit_small lo k n) by assumption. apply andb_false_r.
Qed.

Lemma lor_disjoint hi lo k :
  0 <= k -> 0 <= lo < 2 ^ k -> Z.lor (hi * 2 ^ k) lo = hi * 2 ^ k + lo.
Proof.
  intros Hk Hlo.
  rewrite Z.add_nocarry_lxor by (apply land_disjoint; assumption).
  symmetry. apply Z.lxor_lor, land_disjoint; assumption.
Qed.

Lemma land_low x k : 0 <= k -> Z.land x (2 ^ k - 1) = x mod 2 ^ k.
Proof.
  intro Hk. rewrite <- Z.land_ones by exact Hk.
  rewrite Z.ones_equiv. f_equal; lia.
Qed.

Lemma lor_add a b k :
  0 <= k -> a mod 2 ^ k = 0 -> 0 <= b < 2 ^ k -> Z.lor a b = a + b.
Proof.
  intros Hk Ha Hb.
  assert (Hp : 0 < 2 ^ k) by (apply Z.pow_pos_nonneg; lia).
  rewrite (Z.div_mod a (2 ^ k)) by lia.
  rewrite Ha, Z.add_0_r, (Z.mul_comm (2 ^ k)).
  apply lor_disjoint; assumption.
Qed.

Lemma lor_80 x : 0 <= x < 64 -> Z.lor 0x80 x = 0x80 + x.
Proof. intro H. apply (lor_add 0x80 x 6); [lia | reflexivity | exact H]. Qed.
Lemma lor_C0 x : 0 <= x < 32 -> Z.lor 0xC0 x = 0xC0 + x.
Proof. intro H. apply (lor_add 0xC0 x 5); [lia | reflexivity | exact H]. Qed.
Lemma lor_E0 x : 0 <= x < 16 -> Z.lor 0xE0 x = 0xE0 + x.
Proof. intro H. apply (lor_add 0xE0 x 4); [lia | reflexivity | exact H]. Qed.
Lemma lor_F0 x : 0 <= x < 8 -> Z.lor 0xF0 x = 0xF0 + x.
Proof. intro H. apply (lor_add 0xF0 x 3); [lia | reflexivity | exact H]. Qed.

Ltac pow2 :=
  change (2 ^ 3) with 8 in *; change (2 ^ 4) with 16 in *;
  change (2 ^ 5) with 32 in *; change (2 ^ 6) with 64 in *;
  change (2 ^ 12) with 4096 in *; change (2 ^ 18) with 262144 in *.

Ltac divmod := pow2; Z.div_mod_to_equations; lia.

Ltac bits_to_arith :=
  repeat rewrite Z.shiftr_div_pow2 by lia;
  repeat rewrite Z.shiftl_mul_pow2 by lia;
  change 0x3F with (2 ^ 6 - 1); change 0x1F with (2 ^ 5 - 1);
  change 0x0F with (2 ^ 4 - 1); change 0x07 with (2 ^ 3 - 1);
  repeat rewrite land_low by lia; pow2.

Ltac split_cmp :=
  repeat match goal with
         | |- context [?a <? ?b] => destruct (Z.ltb_spec a b)
         | |- context [?a <=? ?b] => destruct (Z.leb_spec a b)
         | |- context [?a =? ?b] => destruct (Z.eqb_spec a b)
         | H : context [?a <? ?b] |- _ => destruct (Z.ltb_spec a b)
         | H : context [?a <=? ?b] |- _ => destruct (Z.leb_spec a b)
         | H : context [?a =? ?b] |- _ => destruct (Z.eqb_spec a b)
         end.

Ltac decide_cmp :=
  repeat match goal with
         | |- context [?a <? ?b] =>
           first [ rewrite (proj2 (Z.ltb_lt a b)) by lia
                 | rewrite (proj2 (Z.ltb_ge a b)) by lia ]
         | |- context [?a <=? ?b] =>
           first [ rewrite (proj2 (Z.leb_le a b)) by lia
                 | rewrite (proj2 (Z.leb_gt a b)) by lia ]
         | |- context [?a =? ?b] =>
           first [ rewrite (proj2 (Z.eqb_eq a b)) by lia
                 | rewrite (proj2 (Z.eqb_neq a b)) by lia ]
         end.

Lemma valid_range r : valid_rune r = true -> 0 <= r <= 0x10FFFF /\ (r < 0xD800 \/ 0xDFFF < r).
Proof.
  unfold valid_rune, MaxRune. intro Hv.
  split_cmp; cbn [andb orb negb] in *; try discriminate; lia.
Qed.

Lemma EncodeRune_codes r :
  valid_rune r = true -> map code (EncodeRune r) = enc_codes r.
Proof.
  intro Hv. apply valid_range in Hv. destruct Hv as [Hr Hs].
  unfold EncodeRune, enc_codes, MaxRune, RuneError.
  destruct (Z.ltb_spec r 0x80);
    [|destruct (Z.ltb_spec r 0x800); [|destruct (Z.ltb_spec r 0x10000)]];
    destruct Hs as [Hs|Hs];
    decide_cmp; cbn [andb orb negb]; cbv iota; decide_cmp; try lia;
    cbn [map]; rewrite ?code_byte_of; bits_to_arith;
    rewrite ?lor_80, ?lor_C0, ?lor_E0, ?lor_F0 by divmod;
    repeat match goal with
           | |- context [?x mod 256] => rewrite (Z.mod_small x 256) by divmod
           end; reflexivity.
Qed.

Ltac cmp_step :=
  match goal with
  | |- context [if ?a <? ?b then _ else _] =>
    destruct (Z.ltb_spec a b); cbv iota
  | |- context [if ?a <=? ?b then _ else _] =>
    destruct (Z.leb_spec a b); cbv iota
  | |- context [if ?a =? ?b then _ else _] =>
    destruct (Z.eqb_spec a b); cbv iota
  end.

Lemma first_spec c :
  first c =
  if (c <? 0xC2) || (0xF4 <? c) then LeadInvalid
  else if c <? 0xE0 then Lead 2 0x80 0xBF
  else if c <? 0xF0 then
         Lead 3 (if c =? 0xE0 then 0xA0 else 0x80) (if c =? 0xED then 0x9F else 0xBF)
  else Lead 4 (if c =? 0xF0 then 0x90 else 0x80) (if c =? 0xF4 then 0x8F else 0xBF).
Proof.
  unfold first. split_cmp; cbn [orb]; try reflexivity; exfalso; lia.
Qed.



Lemma decode1 b0 t :
  code b0 < 0x80 -> DecodeRuneInString (b0 :: t) = (code b0, 1%nat).
Proof.
  intro H. unfold DecodeRuneInString, RuneSelf. decide_cmp. reflexivity.
Qed.

Lemma decode2 b0 b1 t :
  0xC2 <= code b0 < 0xE0 -> 0x80 <= code b1 <= 0xBF ->
  DecodeRuneInString (b0 :: b1 :: t)
  = ((code b0 mod 32) * 64 + code b1 mod 64, 2%nat).
Proof.
  intros H0 H1. unfold DecodeRuneInString, RuneSelf, outside.
  rewrite first_spec. decide_cmp. cbn [orb]. cbv iota. decide_cmp.
  cbn [orb Nat.leb]. cbv iota. bits_to_arith.
  rewrite (lor_add _ _ 6) by divmod. reflexivity.
Qed.

Lemma decode3 b0 b1 b2 t :
  0xE0 <= code b0 < 0xF0 ->
  second_lo (code b0) <= code b1 <= second_hi (code b0) ->
  0x80 <= code b2 <= 0xBF ->
  DecodeRuneInString (b0 :: b1 :: b2 :: t)
  = ((code b0 mod 16) * 4096 + (code b1 mod 64) * 64 + code b2 mod 64, 3%nat).
Proof.
  intros H0 H1 H2. unfold DecodeRuneInString, RuneSelf, outside.
  rewrite first_spec. unfold second_lo, second_hi in H1.
  destruct (Z.eqb_spec (code b0) 0xE0); destruct (Z.eqb_spec (code b0) 0xED);
    try (exfalso; lia);
    (replace (code b0 =? 0xF0) with false in H1 by (symmetry; apply Z.eqb_neq; lia));
    (replace (code b0 =? 0xF4) with false in H1 by (symmetry; apply Z.eqb_neq; lia));
    decide_cmp; cbn [orb]; cbv iota; decide_cmp; cbn [orb Nat.leb]; cbv iota;
    bits_to_arith;
    rewrite (lor_add _ ((code b1 mod 64) * 64) 12) by divmod;
    rewrite (lor_add _ _ 6) by divmod; reflexivity.
Qed.

Lemma decode4 b0 b1 b2 b3 t :
  0xF0 <= code b0 <= 0xF4 ->
  second_lo (code b0) <= code b1 <= second_hi (code b0) ->
  0x80 <= code b2 <= 0xBF -> 0x80 <= code b3 <= 0xBF ->
  DecodeRuneInString (b0 :: b1 :: b2 :: b3 :: t)
  = ((code b0 mod 8) * 262144 + (code b1 mod 64) * 4096
     + (code b2 mod 64) * 64 + code b3 mod 64, 4%nat).
Proof.
  intros H0 H1 H2 H3. unfold DecodeRuneInString, RuneSelf, outside.
  rewrite first_spec. unfold second_lo, second_hi in H1.
  destruct (Z.eqb_spec (code b0) 0xF0); destruct (Z.eqb_spec (code b0) 0xF4);
    try (exfalso; lia);
    (replace (code b0 =? 0xE0) with false in H1 by (symmetry; apply Z.eqb_neq; lia));
    (replace (code b0 =? 0xED) with false in H1 by (symmetry; apply Z.eqb_neq; lia));
    decide_cmp; cbn [orb]; cbv iota; decide_cmp; cbn [orb Nat.leb]; cbv iota;
    bits_to_arith;
    rewrite (lor_add _ ((code b1 mod 64) * 4096) 18) by divmod;
    rewrite (lor_add _ ((code b2 mod 64) * 64) 12) by divmod;
    rewrite (lor_add _ _ 6) by divmod; reflexivity.
Qed.

Lemma decode_encode r rest :
  valid_rune r = true ->
  DecodeRuneInString (EncodeRune r ++ rest) = (r, length (EncodeRune r)).
Proof.
  intro Hv. pose proof (EncodeRune_codes r Hv) as Hc.
  unfold valid_rune, MaxRune in Hv. unfold enc_codes in Hc.
  apply andb_prop in Hv as [Hv Hs]. apply andb_prop in Hv as [Hv0 Hv1].
  apply Z.leb_le in Hv0, Hv1.
  assert (Hs' : r < 0xD800 \/ 0xDFFF < r).
  { destruct (Z.leb_spec 0xD800 r); destruct (Z.leb_spec r 0xDFFF);
      cbn in Hs; try discriminate; lia. }
  clear Hs.
  destruct (EncodeRune r) as [|b0 [|b1 [|b2 [|b3 [|b4 e]]]]];
    repeat (revert Hc; cmp_step; intro Hc); try discriminate Hc;
    cbv [map] in Hc; cbn [app length].
  - assert (code b0 = r) by congruence.
    rewrite decode1 by lia. congruence.
  - assert (code b0 = 0xC0 + r / 64) by congruence.
    assert (code b1 = 0x80 + r mod 64) by congruence.
    rewrite decode2 by divmod. f_equal. divmod.
  - assert (code b0 = 0xE0 + r / 4096) by congruence.
    assert (code b1 = 0x80 + (r / 64) mod 64) by congruence.
    assert (code b2 = 0x80 + r mod 64) by congruence.
    rewrite decode3; unfold second_lo, second_hi; [f_equal| | |]; try divmod.
    split_cmp; divmod.
  - assert (code b0 = 0xF0 + r / 262144) by congruence.
    assert (code b1 = 0x80 + (r / 4096) mod 64) by congruence.
    assert (code b2 = 0x80 + (r / 64) mod 64) by congruence.
    assert (code b3 = 0x80 + r mod 64) by congruence.
    rewrite decode4; unfold second_lo, second_hi; [f_equal| | | |]; try divmod.
    split_cmp; divmod.
Qed.
Lemma RuneStart_spec b :
  RuneStart b = negb ((0x80 <=? code b) && (code b <? 0xC0)).
Proof. destruct b as [[] [] [] [] [] [] [] []]; vm_compute; reflexivity. Qed.

Lemma EncodeRune_invalid r :
  valid_rune r = false -> EncodeRune r = EncodeRune RuneError.
Proof.
  unfold valid_rune, MaxRune. intro Hv.
  assert (H : r < 0 \/ 0x10FFFF < r \/ 0xD800 <= r <= 0xDFFF).
  { destruct (Z.leb_spec 0 r); destruct (Z.leb_spec r 0x10FFFF);
      destruct (Z.leb_spec 0xD800 r); destruct (Z.leb_spec r 0xDFFF);
      cbn in Hv; try discriminate; lia. }
  clear Hv. unfold EncodeRune, MaxRune.
  replace ((0 <=? r) && (r <=? 0x7F)) with false
    by (symmetry; apply andb_false_iff; rewrite Z.leb_gt, Z.leb_gt; lia).
  replace ((0 <=? r) && (r <=? 0x7FF)) with false
    by (symmetry; apply andb_false_iff; rewrite Z.leb_gt, Z.leb_gt; lia).
  replace ((r <? 0) || (0x10FFFF <? r) || ((0xD800 <=? r) && (r <=? 0xDFFF)))
    with true; [reflexivity|].
  symmetry. rewrite !orb_true_iff, andb_true_iff, !Z.ltb_lt, !Z.leb_le. lia.
Qed.

Lemma norm_valid r : valid_rune (norm r) = true.
Proof. unfold norm. destruct (valid_rune r) eqn:E; [exact E | reflexivity]. Qed.

Lemma EncodeRune_norm r : EncodeRune (norm r) = EncodeRune r.
Proof.
  unfold norm. destruct (valid_rune r) eqn:E; [reflexivity|].
  symmetry. apply EncodeRune_invalid, E.
Qed.



(** The shape of an encoding. *)
Lemma EncodeRune_shape r :
  valid_rune r = true ->
  (r < 0x80 /\ exists b, EncodeRune r = [b] /\ code b = r)
  \/ (0x80 <= r /\ Forall (fun c => 0x80 <= code c) (EncodeRune r)
      /\ exists b0 t, EncodeRune r = b0 :: t /\ t <> [] /\ (length t <= 3)%nat
         /\ 0xC0 <= code b0 /\ Forall (fun c => code c < 0xC0) t).
Proof.
  intro Hv. pose proof (EncodeRune_codes r Hv) as Hc.
  apply valid_range in Hv. unfold enc_codes in Hc.
  destruct (EncodeRune r) as [|b0 [|b1 [|b2 [|b3 [|b4 e]]]]];
    repeat (revert Hc; cmp_step; intro Hc); try discriminate Hc;
    cbv [map] in Hc.
  - left. split; [lia|]. exists b0. split; [reflexivity | congruence].
  - assert (code b0 = 0xC0 + r / 64) by congruence.
    assert (code b1 = 0x80 + r mod 64) by congruence.
    right. split; [lia|]. split.
    + repeat constructor; divmod.
    + exists b0, [b1]. repeat split; try discriminate; cbn; try lia; try divmod.
      repeat constructor; divmod.
  - assert (code b0 = 0xE0 + r / 4096) by congruence.
    assert (code b1 = 0x80 + (r / 64) mod 64) by congruence.
    assert (code b2 = 0x80 + r mod 64) by congruence.
    right. split; [lia|]. split.
    + repeat constructor; divmod.
    + exists b0, [b1; b2]. repeat split; try discriminate; cbn; try lia; try divmod.
      repeat constructor; divmod.
  - assert (code b0 = 0xF0 + r / 262144) by congruence.
    assert (code b1 = 0x80 + (r / 4096) mod 64) by congruence.
    assert (code b2 = 0x80 + (r / 64) mod 64) by congruence.
    assert (code b3 = 0x80 + r mod 64) by congruence.
    right. split; [lia|]. split.
    + repeat constructor; divmod.
    + exists b0, [b1; b2; b3]. repeat split; try discriminate; cbn; try lia; try divmod.
      repeat constructor; divmod.
Qed.

Lemma range_from_skip p s : range_from (length p) (p ++ s) = range_from 0 s.
Proof. induction p as [|c p IH]; [reflexivity | exact IH]. Qed.

Lemma EncodeRune_nonempty r : EncodeRune r <> [].
Proof.
  rewrite <- EncodeRune_norm.
  destruct (EncodeRune_shape (norm r) (norm_valid r))
    as [[_ [b [-> _]]] | [_ [_ [b0 [t [-> _]]]]]]; discriminate.
Qed.

Lemma range_encode r s :
  valid_rune r = true ->
  range (EncodeRune r ++ s) = (r, length (EncodeRune r)) :: range s.
Proof.
  intro Hv. pose proof (decode_encode r s Hv) as Hd.
  destruct (EncodeRune r) as [|b0 t] eqn:E; [now apply EncodeRune_nonempty in E|].
  unfold range. cbn [app range_from]. cbn [app] in Hd. rewrite Hd.
  cbn [snd length]. rewrite Nat.sub_1_r. cbn [Nat.pred].
  f_equal. apply range_from_skip.
Qed.

Lemma decode_last_encode s r :
  valid_rune r = true ->
  DecodeLastRuneInString (s ++ EncodeRune r) = (r, length (EncodeRune r)).
Proof.
  intro Hv. pose proof (decode_encode r [] Hv) as Hd. rewrite app_nil_r in Hd.
  unfold DecodeLastRuneInString. rewrite rev_app_distr.
  destruct (EncodeRune_shape r Hv)
    as [[Hr [b [E Hb]]] | [Hr [Hall [b0 [t [E [Hne [Hlen [Hb0 Ht]]]]]]]]];
    rewrite E in *.
  - cbn [rev app]. unfold RuneSelf. rewrite Hb. decide_cmp. reflexivity.
  - destruct t as [|b1 [|b2 [|b3 [|b4 t]]]]; try congruence;
      try (cbn in Hlen; lia);
      repeat match goal with
             | H : Forall _ (_ :: _) |- _ => inversion H; subst; clear H
             | H : Forall _ [] |- _ => clear H
             end;
      cbn [rev app]; unfold RuneSelf; decide_cmp;
      unfold UTFMax; cbn [Nat.sub walk_back]; rewrite ?RuneStart_spec;
      decide_cmp; cbn [andb negb]; cbv iota; cbn [firstn rev app];
      rewrite Hd; cbn [length]; rewrite Nat.eqb_refl; reflexivity.
Qed.

(** What a decoded rune can be. *)
Lemma decode_cases b0 t :
  let rn := DecodeRuneInString (b0 :: t) in
  (code b0 < 0x80 /\ rn = (code b0, 1%nat))
  \/ (0x80 <= code b0 /\ rn = (RuneError, 1%nat))
  \/ (0xC2 <= code b0 /\ 0x80 <= fst rn /\ valid_rune (fst rn) = true
      /\ (2 <= snd rn <= 4)%nat /\ (snd rn <= length (b0 :: t))%nat).
Proof.
  cbv zeta. pose proof (code_range b0) as R0.
  unfold DecodeRuneInString, RuneSelf.
  destruct (Z.ltb_spec (code b0) 0x80) as [H0|H0]; [left; auto|].
  rewrite first_spec.
  destruct ((code b0 <? 0xC2) || (0xF4 <? code b0)) eqn:E1; [right; left; auto|].
  apply orb_false_elim in E1 as [E1 E2]. apply Z.ltb_ge in E1, E2.
  destruct t as [|b1 t1].
  { destruct (code b0 <? 0xE0), (code b0 <? 0xF0); right; left; auto. }
  pose proof (code_range b1) as R1.
  assert (V : forall r, 0x80 <= r <= 0x10FFFF -> (r < 0xD800 \/ 0xDFFF < r) ->
                        valid_rune r = true).
  { intros r Hr Hs. unfold valid_rune, MaxRune.
    rewrite (proj2 (Z.leb_le 0 r)), (proj2 (Z.leb_le r 0x10FFFF)) by lia.
    destruct Hs; [rewrite (proj2 (Z.leb_gt 0xD800 r)) by lia
                 | rewrite (proj2 (Z.leb_gt r 0xDFFF)) by lia;
                   rewrite andb_false_r]; reflexivity. }
  destruct (Z.ltb_spec (code b0) 0xE0) as [H2|H2].
  { (* two bytes *)
    unfold outside.
    destruct (Z.ltb_spec (code b1) 0x80); [right; left; auto|].
    destruct (Z.ltb_spec 0xBF (code b1)); [right; left; auto|].
    cbn [orb Nat.leb]. cbv iota. right. right. cbn [fst snd length].
    bits_to_arith. rewrite (lor_add _ _ 6) by divmod.
    repeat split; try lia; try divmod. apply V; divmod. }
  destruct (Z.ltb_spec (code b0) 0xF0) as [H3|H3].
  { (* three bytes *)
    unfold outside.
    match goal with |- context [code b1 <? ?lo] =>
      destruct (Z.ltb_spec (code b1) lo) as [L|L]; [right; left; auto|] end.
    match goal with |- context [?hi <? code b1] =>
      destruct (Z.ltb_spec hi (code b1)) as [U|U]; [right; left; auto|] end.
    cbn [orb Nat.leb]. cbv iota.
    destruct t1 as [|b2 t2]; [right; left; auto|].
    pose proof (code_range b2) as R2.
    destruct (Z.ltb_spec (code b2) 0x80); [right; left; auto|].
    destruct (Z.ltb_spec 0xBF (code b2)); [right; left; auto|].
    cbn [orb]. cbv iota. right. right. cbn [fst snd length].
    bits_to_arith.
    rewrite (lor_add _ ((code b1 mod 64) * 64) 12) by divmod.
    rewrite (lor_add _ _ 6) by divmod.
    revert L U. split_cmp; intros L U;
      (repeat split; try lia; try divmod; apply V; divmod). }
  (* four bytes *)
  unfold outside.
  match goal with |- context [code b1 <? ?lo] =>
    destruct (Z.ltb_spec (code b1) lo) as [L|L]; [right; left; auto|] end.
  match goal with |- context [?hi <? code b1] =>
    destruct (Z.ltb_spec hi (code b1)) as [U|U]; [right; left; auto|] end.
  cbn [orb Nat.leb]. cbv iota.
  destruct t1 as [|b2 t2]; [right; left; auto|].
  pose proof (code_range b2) as R2.
  destruct (Z.ltb_spec (code b2) 0x80); [right; left; auto|].
  destruct (Z.ltb_spec 0xBF (code b2)); [right; left; auto|].
  cbn [orb]. cbv iota.
  destruct t2 as [|b3 t3]; [right; left; auto|].
  pose proof (code_range b3) as R3.
  destruct (Z.ltb_spec (code b3) 0x80); [right; left; auto|].
  destruct (Z.ltb_spec 0xBF (code b3)); [right; left; auto|].
  cbn [orb]. cbv iota. right. right. cbn [fst snd length].
  bits_to_arith.
  rewrite (lor_add _ ((code b1 mod 64) * 4096) 18) by divmod.
  rewrite (lor_add _ ((code b2 mod 64) * 64) 12) by divmod.
  rewrite (lor_add _ _ 6) by divmod.
  revert L U. split_cmp; intros L U;
    (repeat split; try lia; try divmod; apply V; divmod).
Qed.

Lemma decode_width s :
  s <> [] -> (1 <= snd (DecodeRuneInString s) <= length s)%nat.
Proof.
  destruct s as [|b0 t]; [congruence|]. intros _.
  destruct (decode_cases b0 t) as [[_ ->]|[[_ ->]|(_ & _ & _ & H1 & H2)]];
    cbn [snd length] in *; lia.
Qed.

Lemma decode_valid s : valid_rune (fst (DecodeRuneInString s)) = true.
Proof.
  destruct s as [|b0 t]; [reflexivity|].
  destruct (decode_cases b0 t) as [[H ->]|[[_ ->]|(_ & _ & H & _)]];
    [|reflexivity|exact H].
  cbn [fst]. pose proof (code_range b0). unfold valid_rune, MaxRune.
  decide_cmp. reflexivity.
Qed.

(** A rune below 0x80 is a byte of the string. *)
Lemma decode_ascii s :
  s <> [] -> fst (DecodeRuneInString s) < 0x80 ->
  exists c t, s = c :: t /\ code c = fst (DecodeRuneInString s).
Proof.
  destruct s as [|b0 t]; [congruence|]. intros _.
  destruct (decode_cases b0 t) as [[H ->]|[[_ ->]|(_ & H & _)]]; cbn [fst].
  - intros _. eauto.
  - unfold RuneError. lia.
  - lia.
Qed.

Lemma range_from_In skip s rn :
  In rn (range_from skip s) ->
  valid_rune (fst rn) = true
  /\ (fst rn < 0x80 -> exists c, In c s /\ code c = fst rn).
Proof.
  revert skip. induction s as [|c t IH]; intros skip H; [destruct H|].
  cbn [range_from] in H. destruct skip as [|k].
  - destruct H as [<-|H].
    + split; [apply decode_valid|]. intro Hlt.
      destruct (decode_ascii (c :: t)) as (c' & t' & E & Hc); [discriminate|exact Hlt|].
      injection E as <- <-. exists c. split; [left; reflexivity | exact Hc].
    + destruct (IH _ H) as [H1 H2]. split; [exact H1|].
      intro Hlt. destruct (H2 Hlt) as (c' & Hin & Hc). exists c'. split; [right|]; assumption.
  - destruct (IH _ H) as [H1 H2]. split; [exact H1|].
    intro Hlt. destruct (H2 Hlt) as (c' & Hin & Hc). exists c'. split; [right|]; assumption.
Qed.

(** The bytes of an encoding: the rune itself, or bytes from 0x80 on. *)
Lemma EncodeRune_bytes r :
  (0 <= r < 0x80 /\ EncodeRune r = [byte_of r])
  \/ ((r < 0 \/ 0x80 <= r) /\ Forall (fun c => 0x80 <= code c) (EncodeRune r)).
Proof.
  destruct (valid_rune r) eqn:V.
  - destruct (EncodeRune_shape r V) as [[Hr (b & E & Hb)]|[Hr [Hall _]]].
    + left. apply valid_range in V. split; [lia|].
      rewrite E, <- Hb, byte_of_code. reflexivity.
    + right. split; [lia | exact Hall].
  - right. rewrite (EncodeRune_invalid r V). split.
    + unfold valid_rune, MaxRune in V.
      destruct (Z.leb_spec 0 r); [|lia]. destruct (Z.leb_spec r 0x10FFFF); [|lia].
      destruct (Z.leb_spec 0xD800 r); [lia|]. discriminate V.
    + vm_compute. repeat constructor; discriminate.
Qed.

End utf8_facts.
(** ** strings *)

Module strings_facts.
Import strings.

Lemma ascii_eqb_true c d : Ascii.eqb c d = true <-> c = d.
Proof. apply Ascii.eqb_eq. Qed.

Lemma HasPrefix_spec s p :
  HasPrefix s p = true <-> exists post, s = p ++ post.
Proof.
  revert s. induction p as [|a p IH]; intros s.
  - split; [intros _; exists s; reflexivity | intros _; destruct s; reflexivity].
  - destruct s as [|c s]; cbn [HasPrefix].
    + split; [discriminate | intros [post H]; discriminate H].
    + rewrite andb_true_iff, Ascii.eqb_eq, IH. split.
      * intros [-> [post ->]]. exists post. reflexivity.
      * intros [post H]. injection H as -> ->. split; [reflexivity | eauto].
Qed.

Lemma Index_range s sub : -1 <= Index s sub.
Proof.
  induction s as [|c s IH]; cbn [Index];
    destruct (HasPrefix _ sub); try lia.
  destruct (Z.ltb_spec (Index s sub) 0); lia.
Qed.

Lemma Contains_spec s sub :
  Contains s sub = true <-> exists pre post, s = pre ++ sub ++ post.
Proof.
  unfold Contains. rewrite Z.leb_le.
  induction s as [|c s IH]; cbn [Index].
  - destruct (HasPrefix [] sub) eqn:E.
    + split; [intros _|lia]. apply HasPrefix_spec in E as [post E].
      exists [], post. exact E.
    + split; [lia|]. intros [pre [post H]].
      destruct pre; [|discriminate H].
      assert (HasPrefix [] sub = true) by (apply HasPrefix_spec; eauto).
      congruence.
  - destruct (HasPrefix (c :: s) sub) eqn:E.
    + split; [intros _|lia]. apply HasPrefix_spec in E as [post E].
      exists [], post. exact E.
    + destruct (Z.ltb_spec (Index s sub) 0) as [Hlt|Hge].
      * split; [lia|]. intros [pre [post H]]. destruct pre as [|a pre].
        -- assert (HasPrefix (c :: s) sub = true) by (apply HasPrefix_spec; eauto).
           congruence.
        -- injection H as _ H. exfalso.
           assert (0 <= Index s sub) by (apply IH; eauto). lia.
      * split; [intros _|lia]. destruct (proj1 IH Hge) as [pre [post ->]].
        exists (c :: pre), post. reflexivity.
Qed.

End strings_facts.

(** ** The matching run *)

Module run_facts.
Import BillboardPage run_spec.

(** *** The classification of a failure *)

Lemma lower_same_letter a b :
  no_capital b = true -> Ascii.eqb (lower a) b = same_letter a b.
Proof.
  unfold no_capital, lower, same_letter. intro Hb.
  apply negb_true_iff in Hb.
  pose proof (utf8_facts.code_range a) as Ra. pose proof (utf8_facts.code_range b) as Rb.
  destruct ((0x41 <=? code a) && (code a <=? 0x5A)) eqn:Ea.
  - apply andb_true_iff in Ea as [E1 E2]. apply Z.leb_le in E1, E2.
    assert (Hab : Ascii.eqb a b = false).
    { apply Ascii.eqb_neq. intros ->.
      rewrite (proj2 (Z.leb_le _ _) E1), (proj2 (Z.leb_le _ _) E2) in Hb.
      discriminate Hb. }
    rewrite Hab. cbn [orb].
    destruct (Ascii.eqb_spec (byte_of (code a + 32)) b) as [E|E].
    + assert (Hc : code b = code a + 32)
        by (subst b; rewrite utf8_facts.code_byte_of; apply Z.mod_small; lia).
      symmetry. rewrite !andb_true_iff, !Z.leb_le, Z.eqb_eq. lia.
    + symmetry. apply andb_false_iff. right. apply Z.eqb_neq. intro H.
      apply E. rewrite <- (utf8_facts.byte_of_code b). f_equal. lia.
  - destruct (Ascii.eqb a b); [reflexivity|]. cbn [orb]. symmetry.
    destruct (code a =? code b - 32) eqn:E; [|apply andb_false_r].
    apply Z.eqb_eq in E. rewrite andb_true_r.
    apply andb_false_iff in Ea.
    destruct (Z.leb_spec 0x61 (code b)), (Z.leb_spec (code b) 0x7A);
      try reflexivity.
    destruct Ea as [Ea|Ea]; apply Z.leb_gt in Ea; lia.
Qed.

Lemma HasPrefix_lower mark : forall s,
  forallb no_capital mark = true ->
  strings.HasPrefix (toLowerCase s) mark = starts_with s mark.
Proof.
  induction mark as [|b mark IH]; intros s Hm; [destruct s; reflexivity|].
  cbn [forallb] in Hm. apply andb_true_iff in Hm as [Hb Hm].
  destruct s as [|a s]; [reflexivity|].
  cbn [toLowerCase map strings.HasPrefix starts_with].
  rewrite (lower_same_letter a b Hb). f_equal. apply IH, Hm.
Qed.

Lemma Contains_lower mark s :
  forallb no_capital mark = true ->
  includes (toLowerCase s) mark = mentions s mark.
Proof.
  intro Hm. unfold includes, strings.Contains.
  induction s as [|a s IH].
  - cbn [toLowerCase map strings.Index mentions].
    change (strings.HasPrefix [] mark) with (strings.HasPrefix (toLowerCase []) mark).
    rewrite HasPrefix_lower by exact Hm.
    destruct (starts_with [] mark); reflexivity.
  - cbn [mentions]. rewrite <- IH, <- (HasPrefix_lower mark (a :: s) Hm).
    cbn [toLowerCase map strings.Index].
    destruct (strings.HasPrefix (lower a :: map lower s) mark); [reflexivity|].
    cbn [orb]. fold (toLowerCase s).
    pose proof (strings_facts.Index_range (toLowerCase s) mark).
    destruct (Z.ltb_spec (strings.Index (toLowerCase s) mark) 0);
      [symmetry; apply Z.leb_gt; lia|].
    rewrite (proj2 (Z.leb_le 0 (strings.Index (toLowerCase s) mark))) by lia.
    apply Z.leb_le. lia.
Qed.

Lemma isRateLimited_classified err : isRateLimited err = rate_limited err.
Proof.
  unfold isRateLimited, rate_limited, rate_limit_marks. cbv zeta.
  cbn [existsb]. rewrite !Contains_lower by reflexivity.
  destruct (mentions err (B "429")), (mentions err (B "rate")),
    (mentions err (B "too many")), (mentions err (B "quota")); reflexivity.
Qed.
(** *** The set of matched indices *)

Lemma has_In s i : has s i = true <-> In i s.
Proof.
  unfold has. rewrite existsb_exists. split.
  - intros [x [Hx E]]. apply Nat.eqb_eq in E. subst. exact Hx.
  - intro H. exists i. split; [exact H | apply Nat.eqb_refl].
Qed.

Lemma has_false s i : has s i = false <-> ~ In i s.
Proof. rewrite <- has_In. destruct (has s i); split; congruence. Qed.

Lemma add_new s i : has s i = false -> add s i = s ++ [i].
Proof. unfold add. intros ->. reflexivity. Qed.

Lemma fold_add_NoDup l : forall acc, NoDup (acc ++ l) -> fold_left add l acc = acc ++ l.
Proof.
  induction l as [|x l IH]; intros acc H; cbn [fold_left].
  - symmetry. apply app_nil_r.
  - assert (Hx : has acc x = false).
    { apply has_false. intro Hin. apply NoDup_remove_2 in H.
      apply H, in_or_app. left. exact Hin. }
    rewrite (add_new _ _ Hx), IH, <- app_assoc; [reflexivity|].
    rewrite <- app_assoc. exact H.
Qed.

Lemma new_Set_NoDup s : NoDup s -> new_Set s = s.
Proof. intro H. unfold new_Set. apply (fold_add_NoDup s []). exact H. Qed.

Lemma fold_add_inv l : forall acc,
  NoDup acc ->
  NoDup (fold_left add l acc)
  /\ forall i, In i (fold_left add l acc) <-> In i acc \/ In i l.
Proof.
  induction l as [|x l IH]; intros acc H; cbn [fold_left].
  - split; [exact H|]. intro i. cbn. tauto.
  - assert (Hadd : NoDup (add acc x) /\ forall i, In i (add acc x) <-> In i acc \/ i = x).
    { unfold add. destruct (has acc x) eqn:E.
      - split; [exact H|]. intro i. apply has_In in E. split; [tauto|].
        intros [Hi| ->]; assumption.
      - apply has_false in E. split.
        + apply NoDup_app; [exact H | repeat constructor; intros [] |].
          intros a Ha [<-|[]]. contradiction.
        + intro i. rewrite in_app_iff. cbn. split.
          * intros [Hi|[Hi|[]]]; [left; exact Hi | right; symmetry; exact Hi].
          * intros [Hi|Hi]; [left; exact Hi | right; left; symmetry; exact Hi]. }
    destruct Hadd as [Hnd Hin]. destruct (IH _ Hnd) as [H1 H2].
    split; [exact H1|]. intro i. rewrite H2, Hin. cbn. split.
    + intros [[?| ->]|?]; auto.
    + intros [?|[<-|?]]; auto.
Qed.

Lemma new_Set_spec l : NoDup (new_Set l) /\ forall i, In i (new_Set l) <-> In i l.
Proof.
  destruct (fold_add_inv l [] (NoDup_nil _)) as [H1 H2].
  split; [exact H1|]. intro i. unfold new_Set. rewrite H2. cbn. tauto.
Qed.

Lemma observe_app evs e : observe (evs ++ [e]) = observe_step (observe evs) e.
Proof. unfold observe. rewrite fold_left_app. reflexivity. Qed.

Lemma last_default {A} (l : list A) (b d d' : A) :
  last (b :: l) d = last (b :: l) d'.
Proof.
  revert b. induction l as [|a l IH]; intro b; [reflexivity|].
  change (last (a :: l) d = last (a :: l) d'). apply IH.
Qed.

Lemma grows_app s0 l s :
  grows s0 (l ++ [s]) <-> grows s0 l /\ incl (last l s0) s.
Proof.
  revert s0. induction l as [|a l IH]; intro s0; cbn [app grows].
  - cbn. tauto.
  - rewrite IH. destruct l as [|b l].
    + cbn [last]. tauto.
    + change (last (a :: b :: l) s0) with (last (b :: l) s0).
      rewrite (last_default l b a s0). tauto.
Qed.

Lemma last_app_one {A} (l : list A) (x d : A) : last (l ++ [x]) d = x.
Proof. apply last_last. Qed.

Section RunFacts.

Variable w : world.
Variable entries : list BillboardEntry.

Lemma good_emit s0 e st : quiet e = true -> good s0 st -> good s0 (emit e st).
Proof.
  intros Hq (Hnd & Hm & Hp & Hpend & Hv).
  split; [exact Hnd|]. split; [exact Hm|].
  cbn [emit events newMatchedIndices]. rewrite observe_app.
  unfold observe_step. rewrite Hpend.
  destruct e; try discriminate Hq; repeat split; tauto.
Qed.

Lemma good_await s0 st : good s0 st -> good s0 (await w st).
Proof. intro H. exact H. Qed.

Lemma good_delay s0 ms st : good s0 st -> good s0 (delay w ms st).
Proof. intro H. apply good_await, good_emit; [reflexivity | exact H]. Qed.

Lemma good_search s0 q st : good s0 st -> good s0 (snd (search w q st)).
Proof.
  intro H. cbn [search snd]. apply good_await.
  apply (good_emit s0 (SearchSpotify q 5)) in H; [|reflexivity]. exact H.
Qed.

Lemma search_indices q st :
  newMatchedIndices (snd (search w q st)) = newMatchedIndices st.
Proof. reflexivity. Qed.

Lemma good_record_match s0 i m st :
  good s0 st -> has (newMatchedIndices st) i = false ->
  good s0 (record_match i m st).
Proof.
  intros (Hnd & Hm & Hp & Hpend & Hall & Hg & Hl) Hi.
  assert (Hnd' : NoDup (newMatchedIndices st ++ [i])).
  { apply NoDup_app; [exact Hnd | repeat constructor; intros [] |].
    intros a Ha [<-|[]]. apply has_false in Hi. contradiction. }
  unfold record_match, good.
  cbn [emit events newMatchedIndices matched].
  rewrite (add_new _ _ Hi), (new_Set_NoDup _ Hnd').
  split; [exact Hnd'|]. split.
  { unfold size. rewrite length_app. cbn [length]. unfold size in Hm. lia. }
  rewrite !observe_app. unfold observe_step at 2. rewrite Hpend.
  unfold observe_step. cbn [pending pairs paired].
  unfold view_ok. cbn [pending pairs paired].
  rewrite map_app. cbn [map snd]. rewrite last_last, grows_app, Forall_app.
  repeat split; try assumption.
  - constructor; [|constructor]. cbn [fst snd]. unfold size.
    rewrite length_app. cbn [length]. unfold size in Hm. lia.
  - intros a Ha. apply in_or_app. left. apply Hl. exact Ha.
  - apply incl_refl.
Qed.

Lemma good_on_results s0 i results st :
  good s0 st -> has (newMatchedIndices st) i = false ->
  good s0 (on_results i results st).
Proof.
  intros H Hi. unfold on_results. apply good_emit; [reflexivity|].
  destruct results as [[[|[m|] ?]|]|]; try exact H.
  destruct (truthy (id m)); [apply good_record_match; assumption | exact H].
Qed.

Lemma good_attempts s0 i entry remaining : forall st,
  good s0 st -> has (newMatchedIndices st) i = false ->
  good s0 (attempts w remaining i entry st).
Proof.
  induction remaining as [|r IH]; intros st H Hi; cbn [attempts]; [exact H|].
  destruct (stop st); [exact H|].
  pose proof (good_search s0 (search_query entry) st H) as Hs.
  destruct (search w (search_query entry) st) as [result st1] eqn:E.
  assert (Hi1 : has (newMatchedIndices st1) i = false).
  { replace st1 with (snd (search w (search_query entry) st)) by (rewrite E; reflexivity).
    exact Hi. }
  cbn [snd] in Hs.
  destruct result as [results|err].
  - apply good_on_results; assumption.
  - destruct (isRateLimited err).
    + apply IH; [|exact Hi1]. apply good_delay.
      apply good_emit; [reflexivity|]. apply good_emit; [reflexivity|]. exact Hs.
    + destruct (S (MAX_RETRIES - S r) <? MAX_RETRIES)%nat.
      * apply IH; [|exact Hi1]. apply good_delay.
        apply good_emit; [reflexivity|]. exact Hs.
      * apply IH; [|exact Hi1]. apply good_emit; [reflexivity|]. exact Hs.
Qed.

Lemma good_visit s0 rest : forall i st,
  good s0 st -> good s0 (visit w entries rest i st).
Proof.
  induction rest as [|entry rest IH]; intros i st H; cbn [visit]; [exact H|].
  destruct (stop st).
  { apply good_emit; [reflexivity|]. apply good_emit; [reflexivity|]. exact H. }
  destruct (has (newMatchedIndices st) i) eqn:Hi; [apply IH; exact H|].
  apply IH.
  match goal with |- good _ (if ?c then _ else _) => destruct c end;
    [apply good_delay|];
    (apply good_attempts; [|exact Hi]);
    repeat (apply good_emit; [reflexivity|]); exact H.
Qed.

Lemma visit_all_matched rest : forall i st,
  stop st = false ->
  (forall j, (i <= j < i + length rest)%nat -> has (newMatchedIndices st) j = true) ->
  visit w entries rest i st = st.
Proof.
  induction rest as [|entry rest IH]; intros i st Hs H; cbn [visit]; [reflexivity|].
  rewrite Hs, (H i) by (cbn [length]; lia).
  apply IH; [exact Hs|]. intros j Hj. apply H. cbn [length]. lia.
Qed.

End RunFacts.

Lemma delays_emit e st :
  delays (events (emit e st))
  = delays (events st) ++ match e with Delay ms => [ms] | _ => [] end.
Proof.
  unfold delays. cbn [emit events]. rewrite flat_map_app. cbn [flat_map].
  rewrite app_nil_r. reflexivity.
Qed.

Lemma mute_emit e st :
  filter (fun e => negb (quiet e)) (events (emit e st))
  = filter (fun e => negb (quiet e)) (events st)
           ++ (if quiet e then [] else [e]).
Proof.
  cbn [emit events]. rewrite filter_app. cbn [filter].
  destruct (quiet e); reflexivity.
Qed.

Section Retry.

Variable w : world.
Variable entries : list BillboardEntry.
Hypothesis never_stopped : forall n, stop_during w n = false.

Lemma await_stop st : stop st = false -> stop (await w st) = false.
Proof. intro H. cbn [await stop]. rewrite H, never_stopped. reflexivity. Qed.

(** What [on_results] leaves alone. *)
Lemma on_results_frame i results st :
  let st' := on_results i results st in
  delays (events st') = delays (events st)
  /\ calls st' = calls st /\ stop st' = stop st.
Proof.
  unfold on_results.
  destruct results as [[[|[m|] ?]|]|]; try destruct (truthy (id m));
    rewrite ?delays_emit; cbn [emit record_match calls stop events];
    unfold delays; rewrite ?flat_map_app; cbn [flat_map];
    rewrite ?app_nil_r; auto.
Qed.

Lemma attempts_failures i entry errs : forall remaining st,
  stop st = false ->
  (remaining <= MAX_RETRIES)%nat ->
  (length errs <= remaining)%nat ->
  (forall j, (j < length errs)%nat ->
             answer w (calls st + j) = Rejected (nth j errs [])) ->
  ((length errs < remaining)%nat ->
   exists results, answer w (calls st + length errs) = Resolved results) ->
  let st' := attempts w remaining i entry st in
  delays (events st')
  = delays (events st) ++ backoffs (S (MAX_RETRIES - remaining)) errs
  /\ calls st' = (calls st + Nat.min remaining (S (length errs)))%nat
  /\ stop st' = false
  /\ ((length errs = remaining)%nat ->
      updatedTracks st' = updatedTracks st
      /\ newMatchedIndices st' = newMatchedIndices st
      /\ matched st' = matched st
      /\ filter (fun e => negb (quiet e)) (events st')
         = filter (fun e => negb (quiet e)) (events st)).
Proof.
  induction errs as [|err errs IH]; intros remaining st Hs Hmax Hlen Hans Hok.
  - destruct remaining as [|r]; cbn [attempts backoffs length].
    + cbn [Nat.min]. rewrite app_nil_r, Nat.add_0_r. intuition auto.
    + rewrite Hs. cbn [length] in Hok.
      destruct (Hok ltac:(lia)) as [results Hr]. rewrite Nat.add_0_r in Hr.
      unfold search. cbn [emit calls]. rewrite Hr.
      match goal with |- context [on_results i results ?s] =>
        pose proof (on_results_frame i results s) as (Hd & Hc & Hst) end.
      cbv zeta in *. rewrite Hd, Hc, Hst.
      cbn [await emit events calls stop awaits]. rewrite Hs, never_stopped.
      unfold delays. rewrite flat_map_app. cbn [flat_map].
      rewrite !app_nil_r. repeat split; try reflexivity; lia.
  - destruct remaining as [|r]; [cbn [length] in Hlen; lia|].
    cbn [attempts]. rewrite Hs. unfold search. cbn [emit calls].
    pose proof (Hans 0%nat ltac:(cbn [length]; lia)) as H0.
    rewrite Nat.add_0_r in H0. cbn [nth] in H0. rewrite H0.
    assert (Hk : (MAX_RETRIES - r = S (MAX_RETRIES - S r))%nat) by lia.
    cbn [backoffs]. unfold backoff.
    set (st1 := await w _).
    assert (Hst1 : stop st1 = false) by (apply await_stop; exact Hs).
    assert (Hc1 : calls st1 = S (calls st)) by reflexivity.
    assert (Hd1 : delays (events st1) = delays (events st)).
    { subst st1. cbn [await emit events]. unfold delays. rewrite flat_map_app.
      cbn [flat_map]. rewrite app_nil_r. reflexivity. }
    assert (Hm1 : filter (fun e => negb (quiet e)) (events st1)
                  = filter (fun e => negb (quiet e)) (events st)).
    { subst st1. cbn [await emit events]. rewrite filter_app. cbn [filter quiet negb].
      rewrite app_nil_r. reflexivity. }
    assert (Hans' : forall st2, calls st2 = S (calls st) ->
              forall j, (j < length errs)%nat ->
                        answer w (calls st2 + j) = Rejected (nth j errs [])).
    { intros st2 E j Hj. rewrite E.
      replace (S (calls st) + j)%nat with (calls st + S j)%nat by lia.
      apply (Hans (S j)). cbn [length]. lia. }
    assert (Hok' : forall st2, calls st2 = S (calls st) ->
              (length errs < r)%nat ->
              exists results, answer w (calls st2 + length errs) = Resolved results).
    { intros st2 E Hlt. rewrite E.
      replace (S (calls st) + length errs)%nat
        with (calls st + length (err :: errs))%nat by (cbn [length]; lia).
      apply Hok. cbn [length]. lia. }
    cbn [length] in Hlen.
    rewrite <- (isRateLimited_classified err).
    destruct (isRateLimited err).
    + match goal with |- context [attempts w r i entry ?s] => set (st2 := s) end.
      assert (Hc2 : calls st2 = S (calls st)) by reflexivity.
      destruct (IH r st2) as (Hd & Hc & Hst & Hsame);
        [apply await_stop; exact Hst1 | lia | lia
         | apply Hans'; exact Hc2 | apply Hok'; exact Hc2 |].
      cbv zeta. rewrite Hd, Hc, Hk, Hc2.
      split; [|split; [|split]].
      * subst st2. unfold delay. cbn [await events].
        rewrite !delays_emit, Hd1, !app_nil_r, <- app_assoc.
        unfold RATE_LIMIT_DELAY. reflexivity.
      * cbn [length]. lia.
      * exact Hst.
      * intro E. destruct Hsame as (H1 & H2 & H3 & H4); [cbn [length] in E; lia|].
        rewrite H1, H2, H3, H4, <- Hm1. subst st2 st1. unfold delay.
        cbn [await emit updatedTracks newMatchedIndices matched events].
        rewrite !filter_app. cbn [filter quiet negb]. rewrite !app_nil_r. auto.
    + replace (S (MAX_RETRIES - S r) <? 3)%nat
        with (S (MAX_RETRIES - S r) <? MAX_RETRIES)%nat by reflexivity.
      destruct (S (MAX_RETRIES - S r) <? MAX_RETRIES)%nat.
      * match goal with |- context [attempts w r i entry ?s] => set (st2 := s) end.
        assert (Hc2 : calls st2 = S (calls st)) by reflexivity.
        destruct (IH r st2) as (Hd & Hc & Hst & Hsame);
          [apply await_stop; exact Hst1 | lia | lia
           | apply Hans'; exact Hc2 | apply Hok'; exact Hc2 |].
        cbv zeta. rewrite Hd, Hc, Hk, Hc2.
        split; [|split; [|split]].
        -- subst st2. unfold delay. cbn [await events].
           rewrite !delays_emit, Hd1, !app_nil_r, <- app_assoc.
           unfold BASE_DELAY. reflexivity.
        -- cbn [length]. lia.
        -- exact Hst.
        -- intro E. destruct Hsame as (H1 & H2 & H3 & H4); [cbn [length] in E; lia|].
           rewrite H1, H2, H3, H4, <- Hm1. subst st2 st1. unfold delay.
           cbn [await emit updatedTracks newMatchedIndices matched events].
           rewrite !filter_app. cbn [filter quiet negb]. rewrite !app_nil_r. auto.
      * match goal with |- context [attempts w r i entry ?s] => set (st2 := s) end.
        assert (Hc2 : calls st2 = S (calls st)) by reflexivity.
        destruct (IH r st2) as (Hd & Hc & Hst & Hsame);
          [exact Hst1 | lia | lia
           | apply Hans'; exact Hc2 | apply Hok'; exact Hc2 |].
        cbv zeta. rewrite Hd, Hc, Hk, Hc2.
        split; [|split; [|split]].
        -- subst st2. rewrite !delays_emit, Hd1, !app_nil_r. reflexivity.
        -- cbn [length]. lia.
        -- exact Hst.
        -- intro E. destruct Hsame as (H1 & H2 & H3 & H4); [cbn [length] in E; lia|].
           rewrite H1, H2, H3, H4, <- Hm1. subst st2 st1.
           cbn [await emit updatedTracks newMatchedIndices matched events].
           rewrite !filter_app. cbn [filter quiet negb]. rewrite !app_nil_r. auto.
Qed.

End Retry.

End run_facts.

(** ** regexp *)

Module regexp_facts.
Import utf8 strings regexp regexp_spec bytes_facts billboard.

Lemma ReplaceAllString_out re src repl :
  ReplaceAllString re src repl = flat_map (out repl) (scan re 0 false true src).
Proof. reflexivity. Qed.

Lemma candidates_greedy lo n :
  (lo <= n)%nat -> exists l, candidates true lo n = n :: l.
Proof.
  intro H. unfold candidates.
  replace (S n - lo)%nat with (S (n - lo)) by lia.
  rewrite seq_S, rev_app_distr. cbn [rev app].
  replace (lo + (n - lo))%nat with n by lia. eauto.
Qed.

Lemma candidates_none g lo n : (n < lo)%nat -> candidates g lo n = [].
Proof.
  intro H. unfold candidates. replace (S n - lo)%nat with 0%nat by lia.
  destruct g; reflexivity.
Qed.

(** A greedy repetition at the end of a pattern takes the longest run. *)
Lemma match_here_many cls lo hi cap bos s :
  match_here [Many cls lo hi true cap] bos s
  = if (lo <=? span cls hi s)%nat
    then Some (firstn (span cls hi s) s ++ [],
               (if cap then [firstn (span cls hi s) s] else []) ++ [],
               skipn (span cls hi s) s)
    else None.
Proof.
  cbn [match_here]. destruct (Nat.leb_spec lo (span cls hi s)) as [H|H].
  - destruct (candidates_greedy lo _ H) as [l ->]. reflexivity.
  - rewrite candidates_none by exact H. reflexivity.
Qed.

Lemma span_cons cls c t :
  span cls None (c :: t) = if cls c then S (span cls None t) else 0%nat.
Proof. reflexivity. Qed.

Lemma span_one cls c t :
  span cls (Some 1%nat) (c :: t) = if cls c then 1%nat else 0%nat.
Proof. cbn. destruct (cls c), t; reflexivity. Qed.

Lemma replace_plus cls repl s :
  (forall adj bos,
      flat_map (out repl) (scan [plus cls] 0 adj bos s) = squeeze cls repl false s)
  /\ flat_map (out repl) (scan [plus cls] (span cls None s) true false s)
     = squeeze cls repl true s.
Proof.
  unfold plus. induction s as [|c t [IH0 IH1]].
  - split; [intros adj bos|]; cbn [scan span]; rewrite match_here_many;
      reflexivity.
  - assert (H0 : forall adj bos,
               flat_map (out repl)
                        (scan [Many cls 1 None true false] 0 adj bos (c :: t))
               = squeeze cls repl false (c :: t)).
    { intros adj bos. cbn [scan squeeze]. rewrite match_here_many, span_cons.
      destruct (cls c) eqn:E.
      - cbn [Nat.leb firstn app skipn length Nat.sub]. rewrite Nat.sub_0_r.
        rewrite length_app, length_firstn. cbn [length].
        rewrite Nat.add_0_r.
        assert (Hsp : (Nat.min (span cls None t) (length t) = span cls None t)).
        { clear. induction t as [|a t IH]; [reflexivity|].
          rewrite span_cons. destruct (cls a); cbn [length]; lia. }
        rewrite Hsp. cbn [flat_map out]. rewrite IH1. reflexivity.
      - cbn [Nat.leb flat_map out app]. rewrite IH0. reflexivity. }
    split; [exact H0|].
    rewrite span_cons. cbn [squeeze]. destruct (cls c) eqn:E.
    + cbn [scan app]. exact IH1.
    + specialize (H0 true false). cbn [squeeze] in H0. rewrite E in H0. exact H0.
Qed.

Lemma ReplaceAllString_plus cls src repl :
  ReplaceAllString [plus cls] src repl = squeeze cls repl false src.
Proof. rewrite ReplaceAllString_out. apply replace_plus. Qed.

Lemma replace_class cls repl s : forall adj bos,
  flat_map (out repl) (scan [Many cls 1 (Some 1%nat) true false] 0 adj bos s)
  = flat_map (fun c => if cls c then repl else [c]) s.
Proof.
  induction s as [|c t IH]; intros adj bos.
  - cbn [scan]. rewrite match_here_many. reflexivity.
  - cbn [scan flat_map]. rewrite match_here_many, span_one.
    destruct (cls c); cbn [Nat.leb firstn app length Nat.sub flat_map out];
      rewrite IH; reflexivity.
Qed.

Lemma ReplaceAllString_class cls src repl :
  ReplaceAllString [Many cls 1 (Some 1%nat) true false] src repl
  = flat_map (fun c => if cls c then repl else [c]) src.
Proof. rewrite ReplaceAllString_out. apply replace_class. Qed.

Lemma first_some_none {A R} (f : A -> option R) l :
  (forall a, In a l -> f a = None) -> first_some f l = None.
Proof.
  induction l as [|a l IH]; intro H; cbn [first_some]; [reflexivity|].
  rewrite (H a) by (left; reflexivity). apply IH. intros b Hb. apply H. right. exact Hb.
Qed.

Lemma In_skipn {A} (x : A) n l : In x (skipn n l) -> In x l.
Proof.
  revert n. induction l as [|a l IH]; intros [|n] H; cbn [skipn] in H; auto.
  right. eapply IH, H.
Qed.

Lemma In_firstn {A} (x : A) n l : In x (firstn n l) -> In x l.
Proof.
  revert n. induction l as [|a l IH]; intros [|n] H; cbn [firstn] in H;
    try destruct H as [H|H]; try contradiction.
  - left. exact H.
  - right. eapply IH, H.
Qed.

Lemma not_gt_spec c : not_gt c = false <-> c = ">"%char.
Proof.
  unfold not_gt, none_of, one_of. cbn [list_ascii_of_string existsb].
  rewrite orb_false_r, negb_false_iff. apply Ascii.eqb_eq.
Qed.

(** The tag pattern matches at a [<] that has a [>] after it, and only
    there; what it matches is not empty. *)
Lemma match_tag_none bos s :
  (forall t, s = "<"%char :: t -> ~ In ">"%char t) ->
  match_here tagPattern bos s = None.
Proof.
  intro H. unfold tagPattern, star.
  destruct s as [|b t]; [reflexivity|]. cbn [match_here].
  destruct (Ascii.eqb_spec b "<") as [->|Hb]; [|reflexivity].
  specialize (H t eq_refl).
  rewrite first_some_none; [reflexivity|].
  intros k _. cbn [match_here]. destruct (skipn k t) as [|d u] eqn:E; [reflexivity|].
  destruct (Ascii.eqb_spec d ">") as [->|Hd]; [|reflexivity].
  exfalso. apply H. apply (In_skipn _ k). rewrite E. left. reflexivity.
Qed.

Lemma span_stops cls s x :
  In x s -> cls x = false ->
  exists d u, skipn (span cls None s) s = d :: u /\ cls d = false.
Proof.
  induction s as [|c t IH]; intros Hin Hx; [destruct Hin|].
  rewrite span_cons. destruct (cls c) eqn:E.
  - destruct Hin as [->|Hin]; [congruence|]. cbn [skipn]. apply IH; assumption.
  - exists c, t. split; [reflexivity | exact E].
Qed.

Lemma match_tag_found bos t :
  In ">"%char t -> match_here tagPattern bos ("<"%char :: t) <> None.
Proof.
  intro Hin. unfold tagPattern, star. cbn [match_here]. rewrite Ascii.eqb_refl.
  destruct (candidates_greedy 0 (span not_gt None t) (Nat.le_0_l _)) as [l ->].
  cbn [first_some match_here].
  destruct (span_stops not_gt t ">"%char Hin) as (d & u & -> & Hd);
    [apply not_gt_spec; reflexivity|].
  apply not_gt_spec in Hd. subst d. rewrite Ascii.eqb_refl. discriminate.
Qed.

Lemma match_tag_some bos s w gs rest :
  match_here tagPattern bos s = Some (w, gs, rest) -> w <> [].
Proof.
  unfold tagPattern, star. destruct s as [|c t]; cbn [match_here]; [discriminate|].
  destruct (Ascii.eqb c "<"); [|discriminate].
  destruct (first_some _ _) as [[[w' gs'] rest']|]; [|discriminate].
  intro H. injection H as <- _ _. discriminate.
Qed.

(** Removing the tags leaves no tag, and adds no byte. *)
Lemma strip_tags s : forall skip adj bos,
  let o := flat_map (out []) (scan tagPattern skip adj bos s) in
  tagless o /\ forall x, In x o -> In x s.
Proof.
  induction s as [|c t IH]; intros skip adj bos.
  - cbn [scan]. rewrite match_tag_none by (intros t E; discriminate E).
    destruct skip; cbn; tauto.
  - cbn [scan]. destruct skip as [|k].
    + destruct (match_here tagPattern bos (c :: t)) as [[[w gs] rest]|] eqn:E.
      * pose proof (match_tag_some _ _ _ _ _ E) as Hw.
        destruct w as [|b w]; [congruence|].
        destruct (IH (length (b :: w) - 1)%nat true false) as [H1 H2].
        cbn [flat_map out app]. split; [exact H1|].
        intros x Hx. right. apply H2, Hx.
      * destruct (IH 0%nat false false) as [H1 H2].
        cbn [flat_map out app tagless]. split.
        -- split; [|exact H1]. intros -> Hin. apply H2 in Hin.
           apply (match_tag_found bos t Hin), E.
        -- intros x [<-|Hx]; [left; reflexivity | right; apply H2, Hx].
    + destruct (IH k true false) as [H1 H2]. split; [exact H1|].
      intros x Hx. right. apply H2, Hx.
Qed.

(** Where there is no tag, removing the tags changes nothing. *)
Lemma strip_tagless s : forall adj bos,
  tagless s -> flat_map (out []) (scan tagPattern 0 adj bos s) = s.
Proof.
  induction s as [|c t IH]; intros adj bos H.
  - cbn [scan]. rewrite match_tag_none by (intros t E; discriminate E). reflexivity.
  - destruct H as [Hc Ht]. cbn [scan].
    rewrite match_tag_none.
    + cbn [flat_map out app]. rewrite IH by exact Ht. reflexivity.
    + intros t' E. injection E as -> <-. apply Hc. reflexivity.
Qed.

Lemma tagless_app_l s u : tagless (s ++ u) -> tagless s.
Proof.
  induction s as [|c t IH]; cbn [app tagless]; [tauto|].
  intros [H1 H2]. split; [|apply IH, H2].
  intros E Hin. apply (H1 E), in_or_app. left. exact Hin.
Qed.

Lemma tagless_app_r s u : tagless (s ++ u) -> tagless u.
Proof. induction s as [|c t IH]; cbn [app tagless]; [tauto|]. intros [_ H]. auto. Qed.

Lemma squeeze_In cls repl x s : forall inrun,
  In x (squeeze cls repl inrun s) -> In x s \/ In x repl.
Proof.
  induction s as [|c t IH]; intros inrun H; cbn [squeeze] in H; [destruct H|].
  destruct (cls c).
  - apply in_app_or in H as [H|H].
    + destruct inrun; [destruct H | right; exact H].
    + destruct (IH _ H); [left; right|right]; assumption.
  - destruct H as [<-|H]; [left; left; reflexivity|].
    destruct (IH _ H); [left; right|right]; assumption.
Qed.

Lemma tagless_prepend p u : ~ In "<"%char p -> tagless u -> tagless (p ++ u).
Proof.
  induction p as [|a p IH]; intros Hp Hu; [exact Hu|].
  cbn [app tagless]. split.
  - intros ->. exfalso. apply Hp. left. reflexivity.
  - apply IH; [|exact Hu]. intro Hin. apply Hp. right. exact Hin.
Qed.

Lemma tagless_squeeze cls repl s : forall inrun,
  cls "<"%char = false -> ~ In ">"%char repl -> ~ In "<"%char repl ->
  tagless s -> tagless (squeeze cls repl inrun s).
Proof.
  induction s as [|c t IH]; intros inrun Hlt Hr1 Hr2 H; cbn [squeeze]; [exact I|].
  destruct H as [Hc Ht]. destruct (cls c) eqn:E.
  - assert (Hrest : tagless (squeeze cls repl true t)) by (apply IH; assumption).
    destruct inrun; [exact Hrest|]. apply tagless_prepend; assumption.
  - cbn [tagless]. split; [|apply IH; assumption].
    intros -> Hin. apply squeeze_In in Hin as [Hin|Hin]; [|contradiction].
    apply (Hc eq_refl), Hin.
Qed.

(** *** Runs that are already squeezed *)

Lemma squeeze_settled cls r s : forall inrun,
  cls r = true ->
  settled cls r (squeeze cls [r] inrun s)
  /\ (inrun = true -> head_out cls (squeeze cls [r] inrun s)).
Proof.
  induction s as [|c t IH]; intros inrun Hr; cbn [squeeze]; [cbn; auto|].
  destruct (cls c) eqn:E.
  - destruct (IH true Hr) as [H1 H2]. specialize (H2 eq_refl).
    destruct inrun; cbn [app]; [auto|].
    cbn [settled]. split; [|intro; discriminate]. split; [|exact H1].
    intros _. split; [reflexivity | exact H2].
  - destruct (IH false Hr) as [H1 _]. cbn [settled head_out].
    split; [|intros _; exact E]. split; [congruence | exact H1].
Qed.

Lemma settled_fixed cls r s :
  settled cls r s ->
  squeeze cls [r] false s = s
  /\ (head_out cls s -> squeeze cls [r] true s = s).
Proof.
  induction s as [|c t IH]; intro H; [auto|].
  destruct H as [Hc Ht]. destruct (IH Ht) as [IH0 IH1].
  cbn [squeeze head_out]. destruct (cls c) eqn:E.
  - destruct (Hc eq_refl) as [-> Hnext]. split.
    + cbn [app]. rewrite IH1 by exact Hnext. reflexivity.
    + intro. discriminate.
  - rewrite IH0. auto.
Qed.

Lemma settled_app_l cls r s u : settled cls r (s ++ u) -> settled cls r s.
Proof.
  induction s as [|c t IH]; cbn [app settled]; [tauto|].
  intros [H1 H2]. split; [|apply IH, H2].
  intro E. destruct (H1 E) as [-> Hn]. split; [reflexivity|].
  destruct t; [exact I | exact Hn].
Qed.

Lemma settled_app_r cls r s u : settled cls r (s ++ u) -> settled cls r u.
Proof. induction s as [|c t IH]; cbn [app settled]; [tauto|]. intros [_ H]. auto. Qed.

(** Squeezing the runs of another class keeps the settled runs. *)
Lemma squeeze_head_out cls cls' r' s :
  cls r' = false -> head_out cls s -> head_out cls (squeeze cls' [r'] false s).
Proof.
  intros Hr' H. destruct s as [|d u]; [exact I|]. cbn [squeeze].
  destruct (cls' d); [exact Hr' | exact H].
Qed.

Lemma settled_squeeze cls r cls' r' s : forall inrun,
  cls r' = false -> settled cls r s ->
  settled cls r (squeeze cls' [r'] inrun s).
Proof.
  induction s as [|c t IH]; intros inrun Hr' H; [exact I|].
  destruct H as [Hc Ht]. cbn [squeeze]. destruct (cls' c).
  - destruct inrun; cbn [app]; [apply IH; assumption|].
    cbn [settled]. split; [congruence | apply IH; assumption].
  - cbn [settled]. split; [|apply IH; assumption].
    intro E. destruct (Hc E) as [-> Hn]. split; [reflexivity|].
    apply squeeze_head_out; assumption.
Qed.

(** *** html.UnescapeString on a text without ampersand *)

Lemma unescape_no_amp entity entity2 s :
  ~ In "&"%char s -> html.UnescapeString entity entity2 s = s.
Proof.
  unfold html.UnescapeString. induction s as [|c t IH]; intro H; [reflexivity|].
  cbn [html.unescape_from].
  destruct (Ascii.eqb_spec c "&") as [->|Hc].
  - exfalso. apply H. left. reflexivity.
  - rewrite IH; [reflexivity|]. intro Hin. apply H. right. exact Hin.
Qed.

End regexp_facts.

(** ** Facts about trimming *)

Module trim_facts.
Import utf8 utf8_spec utf8_facts bytes_facts strings strings_spec.

Lemma first_bounds c sz lo hi :
  first c = Lead sz lo hi -> 0x80 <= lo /\ hi <= 0xBF /\ (2 <= sz <= 4)%nat.
Proof.
  rewrite first_spec.
  destruct ((c <? 0xC2) || (0xF4 <? c)); [discriminate|].
  destruct (c <? 0xE0); [intro H; injection H as <- <- <-; lia|].
  destruct (c <? 0xF0); intro H; injection H as <- <- <-;
    split_cmp; lia.
Qed.

Lemma outside_start lo hi d :
  0x80 <= lo -> hi <= 0xBF -> RuneStart d = true -> outside lo hi (code d) = true.
Proof.
  intros Hlo Hhi Hd. rewrite RuneStart_spec in Hd. unfold outside.
  apply negb_true_iff, andb_false_iff in Hd.
  rewrite orb_true_iff, !Z.ltb_lt.
  destruct Hd as [Hd|Hd]; [apply Z.leb_gt in Hd | apply Z.ltb_ge in Hd]; lia.
Qed.

Lemma ascii_start d : code d < 0x80 -> RuneStart d = true.
Proof.
  intro H. rewrite RuneStart_spec. apply negb_true_iff, andb_false_iff.
  left. apply Z.leb_gt. exact H.
Qed.

(** A byte outside ASCII that is not followed by a continuation byte
    does not decode. *)
Lemma decode_alone b rest :
  0x80 <= code b -> start_head rest ->
  DecodeRuneInString (b :: rest) = (RuneError, 1%nat).
Proof.
  intros Hb Hrest. unfold DecodeRuneInString, RuneSelf.
  rewrite (proj2 (Z.ltb_ge (code b) 0x80)) by exact Hb.
  destruct (first (code b)) as [|sz lo hi] eqn:F; [reflexivity|].
  destruct rest as [|d u]; [reflexivity|].
  destruct (first_bounds _ _ _ _ F) as (Hlo & Hhi & _).
  rewrite (outside_start lo hi d Hlo Hhi Hrest). reflexivity.
Qed.

(** A rune that decodes does so whatever follows it. *)
Lemma decode_extend p rest :
  p <> [] -> DecodeRuneInString p <> (RuneError, 1%nat) ->
  DecodeRuneInString (p ++ rest) = DecodeRuneInString p.
Proof.
  destruct p as [|b0 t]; [congruence|]. intros _.
  unfold DecodeRuneInString. cbn [app].
  destruct (code b0 <? RuneSelf); [reflexivity|].
  destruct (first (code b0)) as [|sz lo hi]; [reflexivity|].
  destruct t as [|b1 t1]; [congruence|]. cbn [app].
  destruct (outside lo hi (code b1)); [reflexivity|].
  destruct (sz <=? 2)%nat; [reflexivity|].
  destruct t1 as [|b2 t2]; [congruence|]. cbn [app].
  destruct (outside 0x80 0xBF (code b2)); [reflexivity|].
  destruct (sz <=? 3)%nat; [reflexivity|].
  destruct t2 as [|b3 t3]; [congruence|]. cbn [app].
  reflexivity.
Qed.

(** What follows the bytes outside ASCII at the head of a string does
    not matter, as long as it is ASCII. *)
Lemma decode_ascii_tail b h rest rest' :
  0x80 <= code b -> ascii_head rest -> ascii_head rest' ->
  DecodeRuneInString (b :: h ++ rest) = DecodeRuneInString (b :: h ++ rest').
Proof.
  intros Hb Hr Hr'.
  assert (Hout : forall lo hi x, 0x80 <= lo -> ascii_head x ->
                   match x with
                   | [] => True
                   | a :: _ => outside lo hi (code a) = true
                   end).
  { intros lo hi [|a x] Hlo Ha; [exact I|]. cbn [ascii_head] in Ha.
    unfold outside. apply orb_true_iff. left. apply Z.ltb_lt. lia. }
  unfold DecodeRuneInString.
  destruct (code b <? RuneSelf); [reflexivity|].
  destruct (first (code b)) as [|sz lo hi] eqn:F; [reflexivity|].
  destruct (first_bounds _ _ _ _ F) as (Hlo & _ & _).
  destruct h as [|b1 h1]; cbn [app].
  { pose proof (Hout lo hi rest Hlo Hr) as H1.
    pose proof (Hout lo hi rest' Hlo Hr') as H2.
    destruct rest, rest'; try rewrite H1; try rewrite H2; reflexivity. }
  destruct (outside lo hi (code b1)); [reflexivity|].
  destruct (sz <=? 2)%nat; [reflexivity|].
  destruct h1 as [|b2 h2]; cbn [app].
  { pose proof (Hout 0x80 0xBF rest ltac:(lia) Hr) as H1.
    pose proof (Hout 0x80 0xBF rest' ltac:(lia) Hr') as H2.
    destruct rest, rest'; try rewrite H1; try rewrite H2; reflexivity. }
  destruct (outside 0x80 0xBF (code b2)); [reflexivity|].
  destruct (sz <=? 3)%nat; [reflexivity|].
  destruct h2 as [|b3 h3]; cbn [app].
  { pose proof (Hout 0x80 0xBF rest ltac:(lia) Hr) as H1.
    pose proof (Hout 0x80 0xBF rest' ltac:(lia) Hr') as H2.
    destruct rest, rest'; try rewrite H1; try rewrite H2; reflexivity. }
  reflexivity.
Qed.

(** The first rune of a prefix: the first rune of the string, or an
    encoding error. *)
Lemma decode_prefix p rest :
  p <> [] ->
  DecodeRuneInString p = DecodeRuneInString (p ++ rest)
  \/ DecodeRuneInString p = (RuneError, 1%nat).
Proof.
  intro Hp.
  destruct (Z.eq_dec (fst (DecodeRuneInString p)) RuneError) as [E1|E1];
    [destruct (Nat.eq_dec (snd (DecodeRuneInString p)) 1) as [E2|E2]|].
  - right. destruct (DecodeRuneInString p). cbn [fst snd] in *. congruence.
  - left. symmetry. apply decode_extend; [exact Hp|].
    intro H. rewrite H in E2. apply E2. reflexivity.
  - left. symmetry. apply decode_extend; [exact Hp|].
    intro H. rewrite H in E1. apply E1. reflexivity.
Qed.


Lemma walk_back_le n rt : (walk_back n rt <= length rt)%nat.
Proof.
  revert rt. induction n as [|k IH]; intros [|b rt]; cbn [walk_back length]; try lia.
  destruct (RuneStart b); [lia|]. specialize (IH rt). lia.
Qed.

Lemma snoc_cases (u : bytes) : u = [] \/ exists u0 b, u = u0 ++ [b].
Proof.
  destruct (rev u) as [|b rt] eqn:E.
  - left. apply (f_equal (@rev ascii)) in E. rewrite rev_involutive in E. exact E.
  - right. exists (rev rt), b.
    apply (f_equal (@rev ascii)) in E. rewrite rev_involutive in E. exact E.
Qed.

(** The last rune is the rune decoded from a suffix of the string that
    it fills, or an encoding error at a byte outside ASCII. *)
Lemma decode_last_cases u :
  u <> [] ->
  (exists pre cand, u = pre ++ cand /\ cand <> []
     /\ DecodeLastRuneInString u = DecodeRuneInString cand
     /\ snd (DecodeRuneInString cand) = length cand)
  \/ (DecodeLastRuneInString u = (RuneError, 1%nat)
      /\ exists u0 b, u = u0 ++ [b] /\ 0x80 <= code b).
Proof.
  intro Hu. destruct (snoc_cases u) as [->|(u0 & b & ->)]; [congruence|].
  unfold DecodeLastRuneInString. rewrite rev_unit.
  destruct (Z.ltb_spec (code b) RuneSelf) as [Hb|Hb].
  - left. exists u0, [b]. repeat split; [discriminate| |].
    + unfold DecodeRuneInString. rewrite (proj2 (Z.ltb_lt _ _) Hb). reflexivity.
    + unfold DecodeRuneInString. rewrite (proj2 (Z.ltb_lt _ _) Hb). reflexivity.
  - set (back := walk_back (UTFMax - 1) (rev u0)).
    cbv zeta.
    destruct (DecodeRuneInString (rev (firstn back (rev u0)) ++ [b]))
      as [r size] eqn:D.
    destruct (Nat.eqb_spec size (length (rev (firstn back (rev u0)) ++ [b])))
      as [E|E].
    + left. exists (rev (skipn back (rev u0))), (rev (firstn back (rev u0)) ++ [b]).
      repeat split.
      * rewrite app_assoc, <- rev_app_distr, firstn_skipn, rev_involutive.
        reflexivity.
      * intro H. apply app_eq_nil in H as [_ H]. discriminate.
      * symmetry. exact D.
      * rewrite D. exact E.
    + right. split; [reflexivity|]. exists u0, b. split; [reflexivity|].
      unfold RuneSelf in Hb. exact Hb.
Qed.

Lemma decode_last_width u :
  u <> [] -> (1 <= snd (DecodeLastRuneInString u) <= length u)%nat.
Proof.
  intro Hu.
  destruct (decode_last_cases u Hu) as [(pre & cand & -> & Hc & -> & E)|[-> _]].
  - rewrite E, length_app. destruct cand; [congruence|]. cbn [length]. lia.
  - destruct u; [congruence|]. cbn [snd length]. lia.
Qed.

(** Where the last rune of [u] starts, the forward decoder finds a rune
    of the same width, whatever rune follows [u]. *)
Lemma decode_last_forward u rest :
  u <> [] -> start_head rest ->
  let rn := DecodeLastRuneInString u in
  let i := (length u - snd rn)%nat in
  (if RuneSelf <=? code (nth i (u ++ rest) zero)
   then (i + snd (DecodeRuneInString (skipn i (u ++ rest))))%nat
   else (i + 1)%nat) = length u
  /\ (fst rn <> RuneError -> RuneStart (nth i (u ++ rest) zero) = true).
Proof.
  intros Hu Hrest. cbv zeta.
  destruct (decode_last_cases u Hu)
    as [(pre & cand & -> & Hc & -> & E)|[-> (u0 & b & -> & Hb)]].
  - rewrite E, length_app, Nat.add_sub, <- app_assoc.
    rewrite app_nth2, Nat.sub_diag by lia.
    rewrite skipn_app, skipn_all, Nat.sub_diag. cbn [app skipn].
    destruct cand as [|c0 t]; [congruence|]. cbn [app nth].
    destruct (decode_cases c0 t) as [[H0 D]|[[H0 D]|(H0 & _ & _ & _ & _)]].
    + unfold RuneSelf.
      rewrite (proj2 (Z.leb_gt _ _)) by lia.
      split; [|intros _; apply ascii_start; exact H0].
      rewrite D in E. cbn [snd] in E. rewrite <- E. reflexivity.
    + unfold RuneSelf. rewrite (proj2 (Z.leb_le _ _)) by lia.
      split; [|rewrite D; cbn [fst]; congruence].
      rewrite D in E. cbn [snd length] in E.
      destruct t; [|discriminate]. cbn [app length].
      rewrite decode_alone by assumption. reflexivity.
    + unfold RuneSelf. rewrite (proj2 (Z.leb_le _ _)) by lia.
      split.
      * change (c0 :: t ++ rest) with ((c0 :: t) ++ rest).
        destruct (decode_prefix (c0 :: t) rest ltac:(discriminate)) as [P|P].
        -- rewrite <- P, E. reflexivity.
        -- rewrite P in E. cbn [snd length] in E.
           destruct t; [|discriminate]. cbn [app length].
           rewrite decode_alone by (assumption || lia). reflexivity.
      * intros _. rewrite RuneStart_spec.
        rewrite (proj2 (Z.ltb_ge (code c0) 0xC0)) by lia.
        rewrite andb_false_r. reflexivity.
  - cbn [fst snd]. rewrite length_app. cbn [length].
    rewrite Nat.add_sub, <- app_assoc.
    rewrite app_nth2, Nat.sub_diag by lia.
    rewrite skipn_app, skipn_all, Nat.sub_diag. cbn [app skipn nth].
    unfold RuneSelf. rewrite (proj2 (Z.leb_le _ _)) by lia.
    rewrite decode_alone by assumption. split; [reflexivity | congruence].
Qed.


(** *** TrimLeftFunc and TrimRightFunc *)

Lemma trim_left_from_suffix f s : forall skip,
  exists pre, s = pre ++ trim_left_from skip f s.
Proof.
  induction s as [|c t IH]; intro skip; [exists []; reflexivity|].
  cbn [trim_left_from]. destruct skip as [|k].
  - destruct (f (fst (DecodeRuneInString (c :: t)))).
    + destruct (IH (snd (DecodeRuneInString (c :: t)) - 1)%nat) as [pre H].
      exists (c :: pre). cbn [app]. f_equal. exact H.
    + exists []. reflexivity.
  - destruct (IH k) as [pre H]. exists (c :: pre). cbn [app]. f_equal. exact H.
Qed.

Lemma trim_left_from_head f s : forall skip,
  trim_left_from skip f s = []
  \/ f (first_rune (trim_left_from skip f s)) = false.
Proof.
  induction s as [|c t IH]; intro skip; [left; reflexivity|].
  cbn [trim_left_from]. destruct skip as [|k]; [|apply IH].
  destruct (f (fst (DecodeRuneInString (c :: t)))) eqn:E; [apply IH|].
  right. exact E.
Qed.

Lemma TrimLeftFunc_fixed f s :
  f (first_rune s) = false -> TrimLeftFunc s f = s.
Proof.
  unfold TrimLeftFunc, first_rune. destruct s as [|c t]; [reflexivity|].
  intro H. cbn [trim_left_from]. rewrite H. reflexivity.
Qed.

Lemma skipn_nth (s : bytes) i :
  (i < length s)%nat -> skipn i s = nth i s zero :: skipn (S i) s.
Proof.
  revert i. induction s as [|c t IH]; intros i H; [cbn [length] in H; lia|].
  destruct i as [|i]; [reflexivity|].
  cbn [skipn nth]. cbn [length] in H. rewrite IH by lia. reflexivity.
Qed.

Lemma firstn_if (c : bool) a b (s : bytes) :
  (if c then firstn a s else firstn b s) = firstn (if c then a else b) s.
Proof. destruct c; reflexivity. Qed.

Section TrimRight.

Variable f : Z -> bool.
Hypothesis f_error : f RuneError = false.

Lemma last_index_not_spec s : forall fuel i i',
  (i <= fuel)%nat -> (i <= length s)%nat -> start_head (skipn i s) ->
  last_index_not fuel f s i = Some i' ->
  exists i2, (i2 <= length s)%nat /\ i2 <> 0%nat /\ start_head (skipn i2 s)
    /\ i' = (i2 - snd (DecodeLastRuneInString (firstn i2 s)))%nat
    /\ f (fst (DecodeLastRuneInString (firstn i2 s))) = false.
Proof.
  induction fuel as [|n IH]; intros i i' Hfuel Hlen Hstart; [discriminate|].
  cbn [last_index_not]. destruct i as [|j]; [discriminate|].
  set (u := firstn (S j) s).
  assert (Hu : u <> []).
  { intro E. apply (f_equal (@length ascii)) in E. subst u.
    rewrite length_firstn in E. cbn [length] in E. lia. }
  assert (Lu : length u = S j) by (subst u; rewrite length_firstn; lia).
  pose proof (decode_last_width u Hu) as W. rewrite Lu in W.
  destruct (f (fst (DecodeLastRuneInString u))) eqn:E.
  - intro H. apply IH in H; [exact H|lia|lia|].
    destruct (decode_last_forward u (skipn (S j) s) Hu Hstart) as [_ RS].
    subst u. rewrite firstn_skipn in RS. rewrite length_firstn in RS.
    rewrite Nat.min_l in RS by lia.
    rewrite skipn_nth by lia. cbn [start_head]. apply RS.
    intro R. fold (firstn (S j) s) in R. rewrite R, f_error in E. discriminate.
  - intro H. injection H as <-. exists (S j).
    repeat split; try assumption. discriminate.
Qed.

Lemma TrimRightFunc_spec s :
  (exists post, s = TrimRightFunc s f ++ post
                /\ (TrimRightFunc s f = [] \/ start_head post))
  /\ (TrimRightFunc s f = [] \/ f (last_rune (TrimRightFunc s f)) = false).
Proof.
  unfold TrimRightFunc.
  destruct (last_index_not (length s) f s (length s)) as [i'|] eqn:L;
    [|split; [exists s; split; [reflexivity | left; reflexivity]
             | left; reflexivity]].
  apply last_index_not_spec in L;
    [|lia|lia|rewrite skipn_all; exact I].
  destruct L as (i2 & Hlen & Hnz & Hstart & -> & Hf).
  set (u := firstn i2 s) in *.
  assert (Hu : u <> []).
  { intro E. apply (f_equal (@length ascii)) in E. subst u.
    rewrite length_firstn in E. cbn [length] in E. lia. }
  assert (Lu : length u = i2) by (subst u; rewrite length_firstn; lia).
  destruct (decode_last_forward u (skipn i2 s) Hu Hstart) as [F _].
  subst u. rewrite firstn_skipn, Lu in F.
  rewrite !firstn_if.
  rewrite F. split.
  - exists (skipn i2 s). split; [symmetry; apply firstn_skipn | right; exact Hstart].
  - right. exact Hf.
Qed.

End TrimRight.

Lemma TrimRightFunc_fixed f s :
  s <> [] -> f (last_rune s) = false -> TrimRightFunc s f = s.
Proof.
  intros Hs Hf. unfold TrimRightFunc, last_rune in *.
  pose proof (decode_last_width s Hs) as W.
  destruct (length s) as [|n] eqn:L; [destruct s; [congruence|discriminate]|].
  cbn [last_index_not]. rewrite <- L, firstn_all, Hf.
  destruct (decode_last_forward s [] Hs I) as [F _].
  rewrite app_nil_r in F.
  rewrite !firstn_if.
  rewrite F. apply firstn_all.
Qed.

Lemma TrimFunc_spec f s :
  f RuneError = false ->
  infix (TrimFunc s f) s
  /\ (TrimFunc s f = []
      \/ (f (first_rune (TrimFunc s f)) = false
          /\ f (last_rune (TrimFunc s f)) = false)).
Proof.
  intro Hf. unfold TrimFunc, TrimLeftFunc.
  destruct (trim_left_from_suffix f s 0) as [pre Hpre].
  pose proof (trim_left_from_head f s 0) as Hhead.
  set (q := trim_left_from 0 f s) in *.
  destruct (TrimRightFunc_spec f Hf q) as [[post [Hpost _]] Hlast].
  set (p := TrimRightFunc q f) in *.
  split.
  - exists pre, post. rewrite Hpre at 1. rewrite Hpost at 1. reflexivity.
  - destruct Hlast as [E|Hlast]; [left; exact E|].
    destruct p as [|c t] eqn:Ep; [left; reflexivity|]. right.
    split; [|exact Hlast].
    destruct Hhead as [E|Hhead]; [rewrite E in Hpost; discriminate|].
    unfold first_rune in *.
    destruct (decode_prefix (c :: t) post ltac:(discriminate)) as [P|P].
    + rewrite P, <- Hpost. exact Hhead.
    + rewrite P. exact Hf.
Qed.

(** *** TrimSpace *)

Lemma asciiSpace_IsSpace c :
  code c < 0x80 -> unicode.IsSpace (code c) = asciiSpace c.
Proof.
  intro H. pose proof (code_range c). unfold unicode.IsSpace, asciiSpace.
  cbv zeta.
  rewrite (proj2 (Z.leb_le 0 (code c))), (proj2 (Z.leb_le (code c) 0xFF)) by lia.
  cbv [andb].
  rewrite (proj2 (Z.eqb_neq (code c) 0x85)) by lia.
  rewrite (proj2 (Z.eqb_neq (code c) 0xA0)) by lia.
  rewrite !orb_false_r. reflexivity.
Qed.

Lemma skip_ascii_space_spec s :
  let '(h, s1) := skip_ascii_space s in
  (exists pre, s = pre ++ s1 /\ Forall (fun c => code c < 0x80) pre)
  /\ match s1 with
     | [] => h = false
     | c :: _ =>
       if h then 0x80 <= code c
       else code c < 0x80 /\ asciiSpace c = false
     end.
Proof.
  induction s as [|c t IH]; cbn [skip_ascii_space].
  - split; [exists []; split; [reflexivity | constructor] | reflexivity].
  - unfold RuneSelf. destruct (Z.leb_spec 0x80 (code c)) as [H|H].
    + split; [exists []; split; [reflexivity | constructor] | exact H].
    + destruct (asciiSpace c) eqn:E.
      * destruct (skip_ascii_space t) as [h s1].
        destruct IH as [[pre [IH Hpre]] R].
        split; [|exact R]. exists (c :: pre).
        split; [cbn [app]; f_equal; exact IH | constructor; assumption].
      * split; [exists []; split; [reflexivity | constructor]
               | split; [exact H | exact E]].
Qed.

Lemma decode_head_ascii c t :
  code c < 0x80 -> DecodeRuneInString (c :: t) = (code c, 1%nat).
Proof.
  intro H. unfold DecodeRuneInString, RuneSelf.
  rewrite (proj2 (Z.ltb_lt _ _) H). reflexivity.
Qed.

Lemma decode_last_ascii u c :
  code c < 0x80 -> DecodeLastRuneInString (u ++ [c]) = (code c, 1%nat).
Proof.
  intro H. unfold DecodeLastRuneInString, RuneSelf. rewrite rev_unit.
  rewrite (proj2 (Z.ltb_lt _ _) H). reflexivity.
Qed.

Lemma IsSpace_error : unicode.IsSpace RuneError = false.
Proof. reflexivity. Qed.

(** [TrimSpace] returns a run of bytes of its argument that is empty or
    begins and ends with a rune that is not white space. *)
Lemma TrimSpace_spec s :
  infix (TrimSpace s) s
  /\ (TrimSpace s = []
      \/ (unicode.IsSpace (first_rune (TrimSpace s)) = false
          /\ unicode.IsSpace (last_rune (TrimSpace s)) = false)).
Proof.
  unfold TrimSpace.
  pose proof (skip_ascii_space_spec s) as H1.
  destruct (skip_ascii_space s) as [h s1]. destruct H1 as [[pre [Hpre _]] H1].
  destruct h.
  - destruct (TrimFunc_spec unicode.IsSpace s1 IsSpace_error)
      as [(a & b & Hin) Hends].
    split; [|exact Hends].
    exists (pre ++ a), b. rewrite Hpre, Hin at 1. rewrite <- app_assoc. reflexivity.
  - pose proof (skip_ascii_space_spec (rev s1)) as H2.
    destruct (skip_ascii_space (rev s1)) as [h2 r2].
    destruct H2 as [[pre2 [Hpre2 _]] H2].
    assert (Hs1 : s1 = rev r2 ++ rev pre2).
    { rewrite <- rev_app_distr, <- Hpre2, rev_involutive. reflexivity. }
    destruct h2.
    + destruct (TrimRightFunc_spec unicode.IsSpace IsSpace_error (rev r2))
        as [[post [Hpost _]] Hlast].
      set (p := TrimRightFunc (rev r2) unicode.IsSpace) in *.
      split.
      * exists pre, (post ++ rev pre2).
        rewrite Hpre, Hs1 at 1. rewrite Hpost at 1.
        rewrite <- app_assoc. reflexivity.
      * destruct Hlast as [E|Hlast]; [left; exact E|].
        destruct p as [|c t] eqn:Ep; [left; reflexivity|]. right.
        split; [|exact Hlast].
        rewrite Hpost in Hs1. cbn [app] in Hs1. rewrite Hs1 in H1.
        destruct H1 as [Hc Hsp]. unfold first_rune.
        rewrite decode_head_ascii by exact Hc. cbn [fst].
        rewrite asciiSpace_IsSpace by exact Hc. exact Hsp.
    + split.
      * exists pre, (rev pre2). rewrite Hpre at 1. rewrite Hs1 at 1. reflexivity.
      * destruct r2 as [|d r2']; [left; reflexivity|]. right.
        destruct H2 as [Hd Hsd]. cbn [rev] in *.
        split.
        -- destruct (rev r2' ++ [d]) as [|c t] eqn:E.
           { apply app_eq_nil in E as [_ E]. discriminate. }
           rewrite Hs1 in H1. cbn [app] in H1. destruct H1 as [Hc Hsp].
           unfold first_rune. rewrite decode_head_ascii by exact Hc. cbn [fst].
           rewrite asciiSpace_IsSpace by exact Hc. exact Hsp.
        -- unfold last_rune. rewrite decode_last_ascii by exact Hd. cbn [fst].
           rewrite asciiSpace_IsSpace by exact Hd. exact Hsd.
Qed.

(** [TrimSpace] leaves alone a string that begins and ends with a rune
    that is not white space. *)
Lemma TrimSpace_fixed s :
  unicode.IsSpace (first_rune s) = false ->
  unicode.IsSpace (last_rune s) = false ->
  TrimSpace s = s.
Proof.
  intros Hfirst Hlast. destruct s as [|c t] eqn:Es; [reflexivity|].
  rewrite <- Es in *. assert (Hs : s <> []) by (rewrite Es; discriminate).
  unfold TrimSpace. rewrite Es at 1. cbn [skip_ascii_space]. unfold RuneSelf.
  destruct (Z.leb_spec 0x80 (code c)) as [Hc|Hc].
  - rewrite <- Es. unfold TrimFunc.
    rewrite TrimLeftFunc_fixed by exact Hfirst.
    apply TrimRightFunc_fixed; assumption.
  - assert (Hsp : asciiSpace c = false).
    { rewrite <- asciiSpace_IsSpace by exact Hc.
      unfold first_rune in Hfirst. rewrite Es in Hfirst.
      rewrite decode_head_ascii in Hfirst by exact Hc. exact Hfirst. }
    rewrite Hsp, <- Es.
    destruct (snoc_cases s) as [E|(u0 & d & E)]; [congruence|].
    rewrite E at 1. rewrite rev_unit. cbn [skip_ascii_space]. unfold RuneSelf.
    destruct (Z.leb_spec 0x80 (code d)) as [Hd|Hd].
    + rewrite <- rev_unit, <- E, rev_involutive.
      apply TrimRightFunc_fixed; assumption.
    + assert (Hsd : asciiSpace d = false).
      { rewrite <- asciiSpace_IsSpace by exact Hd.
        unfold last_rune in Hlast. rewrite E in Hlast.
        rewrite decode_last_ascii in Hlast by exact Hd. exact Hlast. }
      rewrite Hsd, <- rev_unit, <- E, rev_involutive. reflexivity.
Qed.


(** *** Collapsing runs of an ASCII class keeps the runes at both ends *)

Lemma walk_back_start n x a y a' y' :
  RuneStart a = true -> RuneStart a' = true ->
  walk_back n (x ++ a :: y) = walk_back n (x ++ a' :: y').
Proof.
  intros Ha Ha'. revert x. induction n as [|k IH]; intros [|h x]; cbn [app walk_back].
  - reflexivity.
  - reflexivity.
  - rewrite Ha, Ha'. reflexivity.
  - destruct (RuneStart h); [reflexivity|]. f_equal. apply IH.
Qed.

Lemma walk_back_start_le n x a y :
  RuneStart a = true -> (walk_back n (x ++ a :: y) <= length x + 1)%nat.
Proof.
  intro Ha. rewrite (walk_back_start n x a y a [] Ha Ha).
  pose proof (walk_back_le n (x ++ [a])) as H. rewrite length_app in H.
  cbn [length] in H. exact H.
Qed.

(** The last rune of a string after an ASCII byte does not depend on
    that byte nor on what precedes it. *)
Lemma decode_last_after_ascii p a q a' v :
  code a < 0x80 -> code a' < 0x80 -> v <> [] ->
  DecodeLastRuneInString (p ++ a :: v) = DecodeLastRuneInString (q ++ a' :: v).
Proof.
  intros Ha Ha' Hv. destruct (snoc_cases v) as [->|(x & b & ->)]; [congruence|].
  assert (R : forall p a, rev (p ++ a :: x ++ [b]) = b :: rev x ++ a :: rev p).
  { intros p1 a1. rewrite rev_app_distr. cbn [rev]. rewrite rev_app_distr.
    cbn [rev app]. rewrite <- !app_assoc. reflexivity. }
  unfold DecodeLastRuneInString. rewrite !R.
  destruct (code b <? RuneSelf); [reflexivity|].
  pose proof (ascii_start a Ha) as Sa. pose proof (ascii_start a' Ha') as Sa'.
  rewrite (walk_back_start (UTFMax - 1) (rev x) a (rev p) a' (rev q) Sa Sa').
  pose proof (walk_back_start_le (UTFMax - 1) (rev x) a' (rev q) Sa') as Hle.
  set (back := walk_back (UTFMax - 1) (rev x ++ a' :: rev q)) in *.
  cbv zeta.
  destruct (Nat.le_gt_cases back (length (rev x))) as [Hin|Hout].
  - rewrite !firstn_app.
    replace (back - length (rev x))%nat with 0%nat by lia.
    reflexivity.
  - assert (E : back = (length (rev x) + 1)%nat) by lia.
    rewrite E, !firstn_app, !(firstn_all2 (n := (length (rev x) + 1)%nat) (rev x)) by lia.
    replace (length (rev x) + 1 - length (rev x))%nat with 1%nat by lia.
    cbn [firstn]. rewrite !rev_app_distr. cbn [rev app].
    rewrite !decode_head_ascii by assumption.
    cbn [length]. rewrite length_app. cbn [length].
    rewrite Nat.add_1_r. reflexivity.
Qed.

Section Squeeze.

Import regexp_spec.

Variable cls : ascii -> bool.
Variable r : ascii.
Hypothesis cls_ascii : forall c, cls c = true -> code c < 0x80.
Hypothesis r_ascii : code r < 0x80.

Lemma cls_high c : 0x80 <= code c -> cls c = false.
Proof.
  intro H. destruct (cls c) eqn:E; [|reflexivity].
  apply cls_ascii in E. lia.
Qed.

Lemma squeeze_high_prefix h rest b :
  Forall high h -> h <> [] ->
  squeeze cls [r] b (h ++ rest) = h ++ squeeze cls [r] false rest.
Proof.
  intros Hh. revert b. induction Hh as [|c h Hc Hh IH]; intros b Hne; [congruence|].
  cbn [app squeeze]. rewrite (cls_high c Hc). f_equal.
  destruct h as [|c' h']; [reflexivity|]. apply IH. discriminate.
Qed.

Lemma squeeze_high_suffix pre hs : forall b,
  Forall high hs ->
  squeeze cls [r] b (pre ++ hs) = squeeze cls [r] b pre ++ hs.
Proof.
  induction pre as [|c t IH]; intros b Hh.
  - cbn [app squeeze]. destruct hs as [|c hs']; [reflexivity|].
    rewrite <- (app_nil_r (c :: hs')) at 1.
    rewrite squeeze_high_prefix by (assumption || discriminate).
    cbn [squeeze]. apply app_nil_r.
  - cbn [app squeeze]. destruct (cls c).
    + rewrite IH by exact Hh. rewrite app_assoc. reflexivity.
    + rewrite IH by exact Hh. reflexivity.
Qed.

Lemma squeeze_snoc_out u d : forall b,
  cls d = false -> squeeze cls [r] b (u ++ [d]) = squeeze cls [r] b u ++ [d].
Proof.
  induction u as [|c t IH]; intros b Hd; cbn [app squeeze].
  - rewrite Hd. reflexivity.
  - destruct (cls c); rewrite IH by exact Hd;
      [rewrite app_assoc|]; reflexivity.
Qed.

Lemma squeeze_ascii_head rest :
  ascii_head rest -> ascii_head (squeeze cls [r] false rest).
Proof.
  destruct rest as [|c t]; [intros _; exact I|]. cbn [ascii_head squeeze].
  intro Hc. destruct (cls c); cbn [app ascii_head]; assumption.
Qed.

Lemma squeeze_ascii_last u : forall b a,
  code a < 0x80 ->
  (squeeze cls [r] b (u ++ [a]) = [] /\ b = true)
  \/ exists q a', squeeze cls [r] b (u ++ [a]) = q ++ [a'] /\ code a' < 0x80.
Proof.
  induction u as [|c t IH]; intros b a Ha; cbn [app squeeze].
  - destruct (cls a).
    + destruct b; [left; split; reflexivity|].
      right. exists [], r. split; [reflexivity | exact r_ascii].
    + right. exists [], a. split; [reflexivity | exact Ha].
  - destruct (cls c).
    + destruct (IH true a Ha) as [[E _]|(q & a' & E & Ha')]; rewrite E.
      * destruct b; [left; split; reflexivity|].
        right. exists [], r. split; [reflexivity | exact r_ascii].
      * right. exists ((if b then [] else [r]) ++ q), a'.
        split; [rewrite app_assoc; reflexivity | exact Ha'].
    + destruct (IH false a Ha) as [[_ E]|(q & a' & E & Ha')]; [discriminate|].
      rewrite E. right. exists (c :: q), a'. split; [reflexivity | exact Ha'].
Qed.

Lemma high_prefix (t : bytes) :
  exists h rest, t = h ++ rest /\ Forall high h /\ ascii_head rest.
Proof.
  induction t as [|c t (h & rest & -> & Hh & Hr)].
  - exists [], []. repeat split. constructor.
  - destruct (Z.le_gt_cases 0x80 (code c)) as [Hc|Hc].
    + exists (c :: h), rest. repeat split; [constructor; assumption | exact Hr].
    + exists [], (c :: h ++ rest). repeat split; [constructor|].
      cbn [ascii_head]. lia.
Qed.

Lemma high_suffix (t : bytes) :
  exists pre hs, t = pre ++ hs /\ Forall high hs
    /\ (pre = [] \/ exists p0 a, pre = p0 ++ [a] /\ code a < 0x80).
Proof.
  induction t as [|c t (pre & hs & -> & Hh & Hp)].
  - exists [], []. repeat split; [constructor | left; reflexivity].
  - destruct Hp as [->|(p0 & a & -> & Ha)].
    + destruct (Z.le_gt_cases 0x80 (code c)) as [Hc|Hc].
      * exists [], (c :: hs). repeat split; [constructor; assumption | left; reflexivity].
      * exists [c], hs. repeat split; [exact Hh|]. right. exists [], c.
        split; [reflexivity | lia].
    + exists (c :: p0 ++ [a]), hs. repeat split; [exact Hh|]. right.
      exists (c :: p0), a. split; [reflexivity | exact Ha].
Qed.

(** The first rune survives when the first byte is not in the class. *)
Lemma squeeze_first_rune t :
  head_out cls t ->
  DecodeRuneInString (squeeze cls [r] false t) = DecodeRuneInString t.
Proof.
  destruct t as [|c t]; [reflexivity|]. cbn [head_out squeeze]. intros ->.
  destruct (Z.le_gt_cases 0x80 (code c)) as [Hc|Hc].
  - destruct (high_prefix t) as (h & rest & -> & Hh & Hr).
    assert (E : squeeze cls [r] false (h ++ rest)
                = h ++ squeeze cls [r] false rest).
    { destruct h as [|c' h']; [reflexivity|].
      apply squeeze_high_prefix; [exact Hh | discriminate]. }
    rewrite E. apply decode_ascii_tail;
      [exact Hc | apply squeeze_ascii_head; exact Hr | exact Hr].
  - rewrite !decode_head_ascii by lia. reflexivity.
Qed.

(** The last rune survives when the last byte is not in the class. *)
Lemma squeeze_last_rune t :
  head_out cls (rev t) ->
  DecodeLastRuneInString (squeeze cls [r] false t) = DecodeLastRuneInString t.
Proof.
  intro Hlast. destruct (high_suffix t) as (pre & hs & -> & Hh & Hp).
  rewrite squeeze_high_suffix by exact Hh.
  destruct Hp as [->|(p0 & a & -> & Ha)]; [reflexivity|].
  destruct hs as [|c hs'].
  - rewrite !app_nil_r in *. rewrite rev_unit in Hlast. cbn [head_out] in Hlast.
    rewrite squeeze_snoc_out by exact Hlast.
    rewrite !decode_last_ascii by exact Ha. reflexivity.
  - destruct (squeeze_ascii_last p0 false a Ha) as [[_ E]|(q & a' & E & Ha')];
      [discriminate|].
    rewrite E, <- !app_assoc. cbn [app].
    apply decode_last_after_ascii; [exact Ha' | exact Ha | discriminate].
Qed.

End Squeeze.

Lemma space_ascii c : regexp.space c = true -> code c < 0x80.
Proof.
  unfold regexp.space. cbv zeta. rewrite !orb_true_iff, !Z.eqb_eq. lia.
Qed.

Lemma space_IsSpace c : regexp.space c = true -> unicode.IsSpace (code c) = true.
Proof.
  intro H. rewrite asciiSpace_IsSpace by (apply space_ascii; exact H).
  revert H. unfold regexp.space, asciiSpace. cbv zeta.
  rewrite !orb_true_iff, !andb_true_iff, !Z.eqb_eq, !Z.leb_le. lia.
Qed.

(** A string that begins and ends with a rune that is not white space
    has no byte of [\s] at either end. *)
Lemma ends_out t :
  unicode.IsSpace (first_rune t) = false ->
  unicode.IsSpace (last_rune t) = false ->
  regexp_spec.head_out regexp.space t
  /\ regexp_spec.head_out regexp.space (rev t).
Proof.
  intros Hf Hl. split.
  - destruct t as [|c t']; [exact I|]. cbn [regexp_spec.head_out].
    destruct (regexp.space c) eqn:E; [|reflexivity].
    unfold first_rune in Hf.
    rewrite decode_head_ascii in Hf by (apply space_ascii; exact E).
    cbn [fst] in Hf. rewrite space_IsSpace in Hf by exact E. discriminate.
  - destruct (snoc_cases t) as [->|(u & d & ->)]; [exact I|].
    rewrite rev_unit. cbn [regexp_spec.head_out].
    destruct (regexp.space d) eqn:E; [|reflexivity].
    unfold last_rune in Hl.
    rewrite decode_last_ascii in Hl by (apply space_ascii; exact E).
    cbn [fst] in Hl. rewrite space_IsSpace in Hl by exact E. discriminate.
Qed.

End trim_facts.

(** ** File names *)

Module filename_facts.
Import utf8 utf8_spec bytes_facts utf8_facts strings regexp regexp_spec regexp_facts filename filename_spec.

Lemma unsafe_spec c :
  unsafe c = true ->
  In (code c) [0x3C; 0x3E; 0x3A; 0x5C; 0x7C; 0x3F; 0x2A; 0x22].
Proof.
  destruct c as [[] [] [] [] [] [] [] []]; vm_compute; intro H;
    try discriminate H; tauto.
Qed.

(** The class of the first pattern holds every forbidden character. *)
Lemma unsafe_forbidden c : In (code c) forbidden -> unsafe c = true.
Proof.
  unfold forbidden. cbn [In]. intro H.
  assert (E : exists z, In z [0x3C; 0x3E; 0x3A; 0x22; 0x5C; 0x7C; 0x3F; 0x2A]
                        /\ c = byte_of z).
  { exists (code c). split; [cbn [In]; tauto | symmetry; apply byte_of_code]. }
  destruct E as (z & Hz & ->). cbn [In] in Hz.
  repeat (destruct Hz as [<-|Hz]; [reflexivity|]). destruct Hz.
Qed.

Lemma safe_harmless c : safe_byte c -> harmless c.
Proof.
  intros (H1 & H2 & H3). split; [|split; assumption].
  intro Hin. apply unsafe_forbidden in Hin. congruence.
Qed.

Lemma space_spec c :
  regexp.space c = true <-> In (code c) [0x09; 0x0A; 0x0C; 0x0D; 0x20].
Proof.
  unfold regexp.space. rewrite !orb_true_iff, !Z.eqb_eq. cbn [In]. intuition lia.
Qed.

Lemma unsafe_high c : 0x80 <= code c -> unsafe c = false.
Proof.
  intro H. destruct (unsafe c) eqn:E; [|reflexivity].
  apply unsafe_spec in E. cbn [In] in E. lia.
Qed.

(** *** What each step keeps *)

Lemma replace_from_Forall (P : ascii -> Prop) old new s : forall skip,
  Forall P s -> Forall P new -> Forall P (replace_from skip old new s).
Proof.
  induction s as [|c t IH]; intros skip Hs Hn; cbn [replace_from]; [constructor|].
  inversion Hs; subst. destruct skip; [|apply IH; assumption].
  destruct (HasPrefix (c :: t) old).
  - apply Forall_app. split; [exact Hn | apply IH; assumption].
  - constructor; [assumption | apply IH; assumption].
Qed.

Lemma Forall_firstn {A} (P : A -> Prop) n l : Forall P l -> Forall P (firstn n l).
Proof.
  revert n. induction l as [|a l IH]; intros [|n] H; cbn [firstn]; try constructor;
    inversion H; subst; auto.
Qed.

Lemma Forall_skipn {A} (P : A -> Prop) n l : Forall P l -> Forall P (skipn n l).
Proof.
  revert n. induction l as [|a l IH]; intros [|n] H; cbn [skipn]; auto.
  inversion H; subst; auto.
Qed.

Lemma Forall_rev_iff {A} (P : A -> Prop) l : Forall P (rev l) <-> Forall P l.
Proof.
  rewrite !Forall_forall. split; intros H x Hx; apply H.
  - apply (proj1 (in_rev l x)), Hx.
  - apply (proj2 (in_rev l x)), Hx.
Qed.

Lemma trim_left_from_Forall (P : ascii -> Prop) f s : forall skip,
  Forall P s -> Forall P (trim_left_from skip f s).
Proof.
  induction s as [|c t IH]; intros skip H; cbn [trim_left_from]; [constructor|].
  inversion H; subst. destruct skip; [|apply IH; assumption].
  destruct (f _); [apply IH; assumption | exact H].
Qed.

Lemma TrimRightFunc_Forall (P : ascii -> Prop) f s :
  Forall P s -> Forall P (TrimRightFunc s f).
Proof.
  intro H. unfold TrimRightFunc. destruct (last_index_not _ _ _ _); [|constructor].
  destruct (_ <=? _); apply Forall_firstn, H.
Qed.

Lemma skip_ascii_space_Forall (P : ascii -> Prop) s :
  Forall P s -> Forall P (snd (skip_ascii_space s)).
Proof.
  induction s as [|c t IH]; intro H; cbn [skip_ascii_space]; [constructor|].
  inversion H; subst.
  destruct (_ <=? _); [exact H|]. destruct (asciiSpace c); [apply IH; assumption | exact H].
Qed.

Lemma TrimSpace_Forall (P : ascii -> Prop) s :
  Forall P s -> Forall P (TrimSpace s).
Proof.
  intro H. unfold TrimSpace.
  pose proof (skip_ascii_space_Forall P s H) as H1.
  destruct (skip_ascii_space s) as [high s1]. cbn [snd] in H1.
  destruct high.
  - apply TrimRightFunc_Forall, trim_left_from_Forall, H1.
  - assert (H2 : Forall P (snd (skip_ascii_space (rev s1))))
      by (apply skip_ascii_space_Forall, Forall_rev_iff, H1).
    destruct (skip_ascii_space (rev s1)) as [high' r2]. cbn [snd] in H2.
    destruct high'; [apply TrimRightFunc_Forall|]; apply Forall_rev_iff, H2.
Qed.

Lemma trimLeftASCII_Forall (P : ascii -> Prop) cutset s :
  Forall P s -> Forall P (trimLeftASCII s cutset).
Proof.
  induction s as [|c t IH]; intro H; cbn [trimLeftASCII]; [constructor|].
  inversion H; subst. destruct (in_cutset cutset c); auto.
Qed.

Lemma Trim_Forall (P : ascii -> Prop) cutset s :
  Forall P s -> Forall P (Trim s cutset).
Proof.
  intro H. unfold Trim, trimRightASCII.
  apply trimLeftASCII_Forall, Forall_rev_iff, trimLeftASCII_Forall,
    Forall_rev_iff, H.
Qed.

Lemma squeeze_Forall (P : ascii -> Prop) cls repl s : forall inrun,
  Forall (fun c => cls c = false -> P c) s -> Forall P repl ->
  Forall P (squeeze cls repl inrun s).
Proof.
  induction s as [|c t IH]; intros inrun H Hr; cbn [squeeze]; [constructor|].
  inversion H; subst. destruct (cls c) eqn:E.
  - apply Forall_app. split; [destruct inrun; [constructor | exact Hr]|].
    apply IH; assumption.
  - constructor; [auto | apply IH; assumption].
Qed.


Lemma to_valid_Forall (P : ascii -> Prop) repl rns : forall inrun s,
  Forall P s -> Forall P repl -> Forall P (to_valid repl inrun rns s).
Proof.
  induction rns as [|rn rns IH]; intros inrun s Hs Hr; cbn [to_valid]; [constructor|].
  destruct (ill_formed rn); apply Forall_app; split.
  - destruct inrun; [constructor | exact Hr].
  - apply IH; [apply Forall_skipn, Hs | exact Hr].
  - apply Forall_firstn, Hs.
  - apply IH; [apply Forall_skipn, Hs | exact Hr].
Qed.

Lemma ToValidUTF8_nonempty s repl :
  s <> [] -> repl <> [] -> ToValidUTF8 s repl <> [].
Proof.
  intros Hs Hr. unfold ToValidUTF8, range.
  destruct s as [|c t]; [congruence|]. cbn [range_from to_valid].
  destruct (ill_formed _).
  - cbn [app]. destruct repl; [congruence | discriminate].
  - pose proof (decode_width (c :: t) Hs) as Hw.
    destruct (snd (DecodeRuneInString (c :: t))) as [|n]; [lia|]. discriminate.
Qed.

(** The bytes written for a rune read from [s]. *)
Lemma written_bytes s rn :
  Forall (fun c => unsafe c = false) s -> In rn (range s) ->
  Forall (fun c => unsafe c = false
                   /\ (0x20 <= code c \/ regexp.space c = true)
                   /\ code c <> 0x7F) (written (fst rn)).
Proof.
  intros Hs Hin. destruct (range_from_In _ _ _ Hin) as [_ Hascii].
  set (r := fst rn) in *. unfold written.
  destruct ((r <? 0x20) && negb (r =? 0x09) && negb (r =? 0x0A) && negb (r =? 0x0D))
    eqn:E1; [constructor|].
  destruct (Z.eqb_spec r 0x7F) as [E2|E2]; [constructor|].
  destruct (unicode.IsControl r && _ && _ && _); [constructor|].
  destruct (EncodeRune_bytes r) as [[Hr ->]|[Hr Hhigh]].
  - destruct (Hascii ltac:(lia)) as (c & Hc & Hcode).
    rewrite <- Hcode, byte_of_code. constructor; [|constructor].
    rewrite Forall_forall in Hs. split; [apply Hs, Hc|]. split; [|lia].
    rewrite Hcode. destruct (Z.ltb_spec r 0x20); [|left; lia].
    right. apply space_spec. rewrite Hcode. cbn [In].
    cbn [andb] in E1.
    destruct (Z.eqb_spec r 9), (Z.eqb_spec r 10), (Z.eqb_spec r 13);
      cbn in E1; try discriminate; lia.
  - eapply Forall_impl; [|exact Hhigh]. cbv beta. intros c Hc.
    split; [apply unsafe_high, Hc|]. split; lia.
Qed.

Lemma unknown_safe : Forall safe_byte (B "Unknown").
Proof. repeat constructor; try discriminate; vm_compute; congruence. Qed.

Lemma SanitizeFilename_trimmed name :
  SanitizeFilename name =
  if is_empty (trimmed name) then B "Unknown"
  else if negb (utf8.ValidString (trimmed name))
       then strings.ToValidUTF8 (trimmed name) (B "_")
       else trimmed name.
Proof. reflexivity. Qed.

Lemma trimmed_safe name : Forall safe_byte (trimmed name).
Proof.
  unfold trimmed. cbv zeta.
  apply Trim_Forall. rewrite !ReplaceAllString_plus.
  apply squeeze_Forall; [|repeat constructor; try discriminate; vm_compute; congruence].
  apply Forall_forall. intros c Hc _. revert c Hc. apply Forall_forall.
  apply squeeze_Forall; [|repeat constructor; try discriminate; vm_compute; congruence].
  apply Forall_impl
    with (P := fun c => unsafe c = false
                        /\ (0x20 <= code c \/ regexp.space c = true)
                        /\ code c <> 0x7F).
  { intros c (H1 & H2 & H3) Hsp. repeat split; try assumption.
    destruct H2 as [H2|H2]; [exact H2 | congruence]. }
  apply Trim_Forall, TrimSpace_Forall.
  apply Forall_flat_map. apply Forall_forall. intros rn Hin.
  eapply written_bytes; [|exact Hin].
  rewrite ReplaceAllString_class. apply Forall_flat_map, Forall_forall.
  intros c _. destruct (unsafe c) eqn:E; repeat constructor. exact E.
Qed.

Lemma SanitizeFilename_nonempty name : SanitizeFilename name <> [].
Proof.
  rewrite SanitizeFilename_trimmed.
  destruct (is_empty (trimmed name)) eqn:E; [discriminate|].
  apply is_empty_false in E.
  destruct (negb _); [|exact E].
  apply ToValidUTF8_nonempty; [exact E | discriminate].
Qed.

Lemma sanitize_parts_later parts : forall i,
  (2 <= i)%nat ->
  sanitize_parts true i parts = map SanitizeFilename parts.
Proof.
  induction parts as [|p parts IH]; intros i Hi; cbn [sanitize_parts map];
    [reflexivity|].
  rewrite IH by lia. unfold appended.
  replace (i <? 2)%nat with false by (symmetry; apply Nat.ltb_ge; exact Hi).
  cbn [andb negb]. unfold sanitizeFolderName.
  pose proof (SanitizeFilename_nonempty p) as Hne.
  apply is_empty_false in Hne. rewrite Hne. reflexivity.
Qed.

End filename_facts.

(** ** Facts about the strings that the sanitizer writes *)

Module clean_facts.
Import utf8 utf8_spec utf8_facts bytes_facts strings strings_spec regexp regexp_spec.
Import filename filename_spec regexp_facts trim_facts filename_facts.

Lemma clean_nil : clean [].
Proof. exists []. split; [reflexivity | constructor]. Qed.

Lemma clean_app a b : clean a -> clean b -> clean (a ++ b).
Proof.
  intros (ra & -> & Ha) (rb & -> & Hb). exists (ra ++ rb).
  split; [unfold enc; rewrite flat_map_app; reflexivity|].
  apply Forall_app. split; assumption.
Qed.

Lemma clean_rune r : kept r -> clean (EncodeRune r).
Proof.
  intro H. exists [r]. split; [cbn; rewrite app_nil_r; reflexivity|].
  constructor; [exact H | constructor].
Qed.

Lemma written_cases r : written r = [] \/ written r = EncodeRune r.
Proof.
  unfold written.
  destruct (_ && _ && _ && _); [left; reflexivity|].
  destruct (r =? 0x7F); [left; reflexivity|].
  destruct (_ && _ && _ && _); [left; reflexivity|].
  right. reflexivity.
Qed.

Lemma clean_written r : valid_rune r = true -> clean (written r).
Proof.
  intro Hv. destruct (written_cases r) as [E|E].
  - rewrite E. apply clean_nil.
  - rewrite E. apply clean_rune. split; assumption.
Qed.

(** What the loop over the runes writes is clean. *)
Lemma clean_loop s : clean (flat_map (fun rn => written (fst rn)) (range s)).
Proof.
  assert (H : Forall (fun rn => valid_rune (fst rn) = true) (range s)).
  { apply Forall_forall. intros rn Hin. apply (range_from_In 0 s rn Hin). }
  induction H as [|rn l Hrn _ IH]; [apply clean_nil|].
  cbn [flat_map]. apply clean_app; [apply clean_written, Hrn | exact IH].
Qed.

Lemma length_one_ascii r :
  valid_rune r = true -> length (EncodeRune r) = 1%nat -> r < 0x80.
Proof.
  intros Hv Hl.
  destruct (EncodeRune_shape r Hv) as [[Hr _]|[_ [_ (b0 & t & E & Hne & _)]]];
    [exact Hr|].
  rewrite E in Hl. destruct t; [congruence | discriminate].
Qed.

Lemma range_enc rs :
  Forall (fun r => valid_rune r = true) rs ->
  range (enc rs) = map (fun r => (r, length (EncodeRune r))) rs.
Proof.
  induction 1 as [|r rs Hr _ IH]; [reflexivity|].
  cbn [enc flat_map map]. rewrite range_encode by exact Hr.
  f_equal. exact IH.
Qed.

Lemma kept_valid rs : Forall kept rs -> Forall (fun r => valid_rune r = true) rs.
Proof. apply Forall_impl. intros r [H _]. exact H. Qed.

(** A clean string is valid, and the loop writes it back as it is. *)
Lemma clean_valid s : clean s -> ValidString s = true.
Proof.
  intros (rs & -> & H). unfold ValidString.
  rewrite range_enc by (apply kept_valid, H).
  rewrite forallb_forall. intros rn Hin. apply in_map_iff in Hin as (r & <- & Hr).
  rewrite Forall_forall in H. destruct (H r Hr) as [Hv _].
  unfold ill_formed. cbn [fst snd].
  destruct (Nat.eqb_spec (length (EncodeRune r)) 1) as [E|E];
    [|rewrite andb_false_r; reflexivity].
  apply (length_one_ascii r Hv) in E.
  rewrite (proj2 (Z.eqb_neq r RuneError)) by (unfold RuneError; lia).
  reflexivity.
Qed.

Lemma clean_fixed s :
  clean s -> flat_map (fun rn => written (fst rn)) (range s) = s.
Proof.
  intros (rs & -> & H). rewrite range_enc by (apply kept_valid, H).
  rewrite flat_map_concat_map, map_map. cbn [fst].
  rewrite <- flat_map_concat_map. unfold enc.
  induction H as [|r rs [_ Hr] _ IH]; [reflexivity|].
  cbn [flat_map]. rewrite Hr, IH. reflexivity.
Qed.

(** *** Cutting a clean string *)

Lemma snoc_cases' {A} (u : list A) : u = [] \/ exists u0 b, u = u0 ++ [b].
Proof.
  induction u as [|a u IH] using rev_ind; [left; reflexivity|].
  right. exists u, a. reflexivity.
Qed.

Lemma clean_after_ascii pre s :
  Forall (fun c => code c < 0x80) pre -> clean (pre ++ s) -> clean s.
Proof.
  induction 1 as [|c pre Hc _ IH]; [intro H; exact H|].
  intros (rs & E & H). destruct H as [|r rs Hr Hrs]; [discriminate|].
  cbn [enc flat_map app] in E.
  destruct (EncodeRune_bytes r) as [[_ Er]|[_ Hhigh]].
  - rewrite Er in E. cbn [app] in E. injection E as _ E.
    apply IH. exists rs. split; [exact E | exact Hrs].
  - destruct (EncodeRune r) as [|b0 t] eqn:Er; [now apply EncodeRune_nonempty in Er|].
    cbn [app] in E. injection E as E0 _. subst b0.
    inversion Hhigh as [|? ? Hb _]; subst. lia.
Qed.

Lemma clean_before_ascii post : forall p,
  Forall (fun c => code c < 0x80) post -> clean (p ++ post) -> clean p.
Proof.
  induction post as [|d post IH] using rev_ind; intros p Hpost.
  { rewrite app_nil_r. intro H; exact H. }
  apply Forall_app in Hpost as [Hpost Hd]. inversion Hd as [|? ? Hd' _]; subst.
  intros (rs & E & H).
  destruct (snoc_cases' rs) as [->|(rs' & r & ->)].
  { cbn in E. apply app_eq_nil in E as [_ E].
    apply app_eq_nil in E as [_ E]. discriminate. }
  apply Forall_app in H as [Hrs Hr]. inversion Hr as [|? ? Hr' _]; subst.
  unfold enc in E. rewrite flat_map_app in E. cbn [flat_map] in E.
  rewrite app_nil_r in E.
  destruct (EncodeRune_bytes r) as [[_ Er]|[_ Hhigh]].
  - rewrite Er in E. rewrite app_assoc in E. apply app_inj_tail in E as [E _].
    apply IH; [exact Hpost|]. exists rs'. split; [exact E | exact Hrs].
  - destruct (snoc_cases' (EncodeRune r)) as [Er|(t & x & Er)];
      [now apply EncodeRune_nonempty in Er|].
    rewrite Er in E, Hhigh. rewrite !app_assoc in E.
    apply app_inj_tail in E as [_ E]. subst x.
    apply Forall_app in Hhigh as [_ Hx]. inversion Hx; subst. lia.
Qed.

Lemma clean_before_start rs : forall p post,
  Forall kept rs -> enc rs = p ++ post -> start_head post -> clean p.
Proof.
  induction rs as [|r rs IH]; intros p post H E Hpost.
  { symmetry in E. apply app_eq_nil in E as [-> _]. apply clean_nil. }
  inversion H as [|? ? Hr Hrs]; subst. cbn [enc flat_map] in E.
  apply app_eq_app in E as [m [[E1 E2]|[E1 E2]]].
  - (* the cut is inside the encoding of [r] *)
    destruct m as [|x m].
    { rewrite app_nil_r in E1. rewrite <- E1. apply clean_rune, Hr. }
    destruct p as [|c p]; [apply clean_nil|]. exfalso.
    subst post. cbn [app start_head] in Hpost.
    destruct Hr as [Hv _].
    destruct (EncodeRune_shape r Hv)
      as [[_ (b & Eb & _)]|[_ [Hhigh (b0 & t & Eb & _ & _ & _ & Ht)]]];
      rewrite Eb in E1.
    + cbn [app] in E1. injection E1 as _ E1. destruct p; discriminate.
    + rewrite Eb in Hhigh. cbn [app] in E1. injection E1 as _ E1. subst t.
      inversion Hhigh as [|? ? _ Hhigh']; subst.
      apply Forall_app in Ht as [_ Ht]. apply Forall_app in Hhigh' as [_ Hh].
      inversion Ht; subst. inversion Hh; subst.
      rewrite RuneStart_spec in Hpost.
      rewrite (proj2 (Z.leb_le 0x80 (code x))), (proj2 (Z.ltb_lt (code x) 0xC0))
        in Hpost by assumption.
      discriminate.
  - subst p. apply clean_app; [apply clean_rune, Hr|].
    apply (IH m post Hrs E2 Hpost).
Qed.

(** *** The steps of the sanitizer keep a clean string clean *)

Lemma trim_left_from_skip f t u :
  trim_left_from (length t) f (t ++ u) = trim_left_from 0 f u.
Proof.
  induction t as [|c t IH]; [reflexivity|].
  cbn [length app trim_left_from]. exact IH.
Qed.

Lemma clean_TrimLeftFunc f s : clean s -> clean (TrimLeftFunc s f).
Proof.
  intros (rs & -> & H). unfold TrimLeftFunc.
  induction H as [|r rs Hr Hrs IH]; [apply clean_nil|].
  cbn [enc flat_map]. fold (enc rs).
  pose proof (decode_encode r (enc rs) (proj1 Hr)) as D.
  destruct (EncodeRune r) as [|b0 t] eqn:Er; [now apply EncodeRune_nonempty in Er|].
  cbn [app trim_left_from]. cbn [app] in D. rewrite D. cbn [fst snd length].
  destruct (f r).
  - rewrite Nat.sub_1_r. cbn [Nat.pred]. rewrite trim_left_from_skip. exact IH.
  - change (b0 :: t ++ enc rs) with ((b0 :: t) ++ enc rs). rewrite <- Er.
    apply clean_app; [apply clean_rune, Hr|]. exists rs. split; [reflexivity | exact Hrs].
Qed.

Lemma clean_TrimRightFunc f s :
  f RuneError = false -> clean s -> clean (TrimRightFunc s f).
Proof.
  intros Hf (rs & E & H).
  destruct (TrimRightFunc_spec f Hf s) as [(post & Hs & [Hp|Hp]) _].
  - rewrite Hp. apply clean_nil.
  - apply (clean_before_start rs _ post H); [rewrite <- E; exact Hs | exact Hp].
Qed.

Lemma clean_TrimSpace s : clean s -> clean (TrimSpace s).
Proof.
  intro H. unfold TrimSpace.
  pose proof (skip_ascii_space_spec s) as H1.
  destruct (skip_ascii_space s) as [h s1]. destruct H1 as [(pre & -> & Hpre) _].
  apply clean_after_ascii in H; [|exact Hpre].
  destruct h.
  - apply clean_TrimRightFunc; [reflexivity|]. apply clean_TrimLeftFunc, H.
  - pose proof (skip_ascii_space_spec (rev s1)) as H2.
    destruct (skip_ascii_space (rev s1)) as [h2 r2].
    destruct H2 as [(pre2 & Hpre2 & Hascii) _].
    assert (Hs1 : s1 = rev r2 ++ rev pre2).
    { rewrite <- rev_app_distr, <- Hpre2, rev_involutive. reflexivity. }
    rewrite Hs1 in H. apply clean_before_ascii in H;
      [|apply Forall_rev_iff; exact Hascii].
    destruct h2; [apply clean_TrimRightFunc; [reflexivity | exact H] | exact H].
Qed.

Section Cutset.

Variable cutset : bytes.
Hypothesis cutset_ascii : Forall (fun c => code c < 0x80) cutset.

Lemma in_cutset_ascii c : in_cutset cutset c = true -> code c < 0x80.
Proof.
  unfold in_cutset. rewrite existsb_exists. intros (x & Hx & E).
  apply Ascii.eqb_eq in E. subst x.
  rewrite Forall_forall in cutset_ascii. apply cutset_ascii, Hx.
Qed.

Lemma trimLeftASCII_spec s :
  (exists pre, s = pre ++ trimLeftASCII s cutset
               /\ Forall (fun c => in_cutset cutset c = true) pre)
  /\ head_out (in_cutset cutset) (trimLeftASCII s cutset).
Proof.
  induction s as [|c t [(pre & E & Hpre) Hhead]]; cbn [trimLeftASCII].
  - split; [exists []; split; [reflexivity | constructor] | exact I].
  - destruct (in_cutset cutset c) eqn:Ec.
    + split; [|exact Hhead]. exists (c :: pre).
      split; [cbn [app]; f_equal; exact E | constructor; assumption].
    + split; [exists []; split; [reflexivity | constructor] | exact Ec].
Qed.

Lemma head_out_suffix cls (pre m : bytes) :
  m <> [] -> head_out cls (rev (pre ++ m)) -> head_out cls (rev m).
Proof.
  intros Hm. rewrite rev_app_distr.
  destruct (snoc_cases m) as [->|(u & d & ->)]; [congruence|].
  rewrite rev_unit. cbn [app head_out]. intro H; exact H.
Qed.

(** [Trim] returns a run of bytes of its argument; bytes of the cutset
    come before and after it, and none is at its ends. *)
Lemma Trim_spec s :
  (exists pre post, s = pre ++ Trim s cutset ++ post
     /\ Forall (fun c => in_cutset cutset c = true) pre
     /\ Forall (fun c => in_cutset cutset c = true) post)
  /\ head_out (in_cutset cutset) (Trim s cutset)
  /\ head_out (in_cutset cutset) (rev (Trim s cutset)).
Proof.
  unfold Trim, trimRightASCII.
  destruct (trimLeftASCII_spec (rev s)) as [(rpost & E1 & Hpost) Hlast].
  set (u := trimLeftASCII (rev s) cutset) in *.
  destruct (trimLeftASCII_spec (rev u)) as [(pre & E2 & Hpre) Hhead].
  set (m := trimLeftASCII (rev u) cutset) in *.
  split; [|split; [exact Hhead|]].
  - exists pre, (rev rpost). repeat split;
      [|exact Hpre|apply Forall_rev_iff; exact Hpost].
    rewrite app_assoc, <- E2, <- rev_app_distr, <- E1, rev_involutive. reflexivity.
  - clearbody m. destruct (list_eq_dec ascii_dec m []) as [->|Hm]; [exact I|].
    apply (head_out_suffix _ pre m Hm).
    rewrite <- E2, rev_involutive. exact Hlast.
Qed.

Lemma trimLeftASCII_fixed s :
  head_out (in_cutset cutset) s -> trimLeftASCII s cutset = s.
Proof.
  destruct s as [|c t]; [reflexivity|]. cbn [head_out trimLeftASCII].
  intros ->. reflexivity.
Qed.

Lemma Trim_fixed s :
  head_out (in_cutset cutset) s -> head_out (in_cutset cutset) (rev s) ->
  Trim s cutset = s.
Proof.
  intros Hh Hl. unfold Trim, trimRightASCII.
  rewrite (trimLeftASCII_fixed (rev s)) by exact Hl.
  rewrite rev_involutive. apply trimLeftASCII_fixed, Hh.
Qed.

Lemma Trim_infix s : infix (Trim s cutset) s.
Proof.
  destruct (Trim_spec s) as [(pre & post & E & _) _]. exists pre, post. exact E.
Qed.

Lemma clean_Trim s : clean s -> clean (Trim s cutset).
Proof.
  intro H. destruct (Trim_spec s) as [(pre & post & E & Hpre & Hpost) _].
  rewrite E in H.
  apply clean_after_ascii in H;
    [|eapply Forall_impl; [|exact Hpre]; exact in_cutset_ascii].
  apply clean_before_ascii in H;
    [exact H | eapply Forall_impl; [|exact Hpost]; exact in_cutset_ascii].
Qed.

End Cutset.

Section Squeeze.

Variable cls : ascii -> bool.
Variable r : ascii.
Hypothesis cls_ascii : forall c, cls c = true -> code c < 0x80.
Hypothesis r_clean : clean [r].

Lemma clean_squeeze s : forall b, clean s -> clean (squeeze cls [r] b s).
Proof.
  intros b (rs & -> & H). revert b.
  induction H as [|r0 rs Hr Hrs IH]; intro b; [apply clean_nil|].
  cbn [enc flat_map]. fold (enc rs).
  destruct (EncodeRune_bytes r0) as [[_ Er]|[_ Hhigh]].
  - pose proof (clean_rune r0 Hr) as C0. rewrite Er in *. cbn [app squeeze].
    destruct (cls (byte_of r0)).
    + apply clean_app; [destruct b; [apply clean_nil | exact r_clean] | apply IH].
    + apply (clean_app [byte_of r0]); [exact C0 | apply IH].
  - rewrite (squeeze_high_prefix cls r cls_ascii);
      [|exact Hhigh | intro E; now apply EncodeRune_nonempty in E].
    apply clean_app; [apply clean_rune, Hr | apply IH].
Qed.

End Squeeze.

(** *** The result of the last trimming step *)

Lemma replace_single x new s :
  replace_from 0 [x] new s
  = flat_map (fun c => if Ascii.eqb c x then new else [c]) s.
Proof.
  induction s as [|c t IH]; [reflexivity|].
  cbn [replace_from flat_map HasPrefix length Nat.sub].
  destruct t; rewrite andb_true_r; destruct (Ascii.eqb c x); rewrite IH; reflexivity.
Qed.

Lemma flat_map_fixed (cls : ascii -> bool) repl s :
  Forall (fun c => cls c = false) s ->
  flat_map (fun c => if cls c then repl else [c]) s = s.
Proof.
  induction 1 as [|c t Hc _ IH]; [reflexivity|].
  cbn [flat_map]. rewrite Hc, IH. reflexivity.
Qed.

(** A byte written for a rune read from [s] is a byte of [s] or a byte
    outside ASCII. *)
Lemma written_Forall (P : ascii -> Prop) s rn :
  (forall c, 0x80 <= code c -> P c) ->
  Forall P s -> In rn (range s) -> Forall P (written (fst rn)).
Proof.
  intros Hhigh Hs Hin. destruct (range_from_In _ _ _ Hin) as [Hv Hascii].
  destruct (written_cases (fst rn)) as [->| ->]; [constructor|].
  destruct (EncodeRune_bytes (fst rn)) as [[Hr ->]|[_ Hh]].
  - destruct (Hascii ltac:(lia)) as (c & Hc & Hcode).
    rewrite <- Hcode, byte_of_code. constructor; [|constructor].
    rewrite Forall_forall in Hs. apply Hs, Hc.
  - eapply Forall_impl; [|exact Hh]. exact Hhigh.
Qed.

Lemma trimmed_no_slash name : Forall not_slash (trimmed name).
Proof.
  unfold trimmed. cbv zeta.
  apply Trim_Forall. rewrite !ReplaceAllString_plus.
  apply squeeze_Forall; [|repeat constructor].
  apply Forall_forall. intros c Hc _. revert c Hc. apply Forall_forall.
  apply squeeze_Forall; [|repeat constructor].
  apply Forall_forall. intros c Hc _. revert c Hc. apply Forall_forall.
  apply Trim_Forall, TrimSpace_Forall.
  apply Forall_flat_map. apply Forall_forall. intros rn Hin.
  eapply written_Forall; [| |exact Hin].
  { intros c Hc. unfold not_slash. apply Ascii.eqb_neq. intros ->.
    vm_compute in Hc. apply Hc. reflexivity. }
  rewrite ReplaceAllString_class. apply Forall_flat_map, Forall_forall.
  intros c Hc. destruct (unsafe c); [repeat constructor|].
  revert c Hc. apply Forall_forall.
  unfold ReplaceAll, B. cbn [list_ascii_of_string]. rewrite replace_single.
  apply Forall_flat_map, Forall_forall. intros c _.
  destruct (Ascii.eqb c "/") eqn:E; repeat constructor. exact E.
Qed.

Lemma dot_space_ascii : Forall (fun c => code c < 0x80) (B ". ").
Proof. repeat constructor. Qed.

Lemma underscore_space_ascii : Forall (fun c => code c < 0x80) (B "_ ").
Proof. repeat constructor. Qed.

Lemma underscore_ascii c : one_of "_" c = true -> code c < 0x80.
Proof.
  unfold one_of. cbn [list_ascii_of_string existsb]. rewrite orb_false_r.
  intro H. apply Ascii.eqb_eq in H. subst c. reflexivity.
Qed.

Lemma clean_byte c :
  0x20 <= code c < 0x7F -> clean [c].
Proof.
  intro H. rewrite <- (byte_of_code c).
  assert (E : EncodeRune (code c) = [byte_of (code c)]).
  { unfold EncodeRune. rewrite (proj2 (Z.leb_le 0 (code c))) by lia.
    rewrite (proj2 (Z.leb_le (code c) 0x7F)) by lia. reflexivity. }
  rewrite <- E. apply clean_rune. split.
  - unfold valid_rune, MaxRune.
    rewrite (proj2 (Z.leb_le 0 (code c))), (proj2 (Z.leb_le (code c) 0x10FFFF)),
      (proj2 (Z.leb_gt 0xD800 (code c))) by lia.
    reflexivity.
  - unfold written, unicode.IsControl.
    rewrite (proj2 (Z.ltb_ge (code c) 0x20)), (proj2 (Z.eqb_neq (code c) 0x7F)),
      (proj2 (Z.leb_gt (code c) 0x1F)), (proj2 (Z.leb_gt 0x7F (code c))) by lia.
    rewrite andb_false_r. reflexivity.
Qed.

Lemma trimmed_clean name : clean (trimmed name).
Proof.
  unfold trimmed. cbv zeta. rewrite !ReplaceAllString_plus.
  apply (clean_Trim _ underscore_space_ascii).
  apply (clean_squeeze _ "_"%char underscore_ascii);
    [apply clean_byte; vm_compute; split; congruence|].
  apply (clean_squeeze _ " "%char space_ascii);
    [apply clean_byte; vm_compute; split; congruence|].
  apply (clean_Trim _ dot_space_ascii). apply clean_TrimSpace. apply clean_loop.
Qed.

Lemma settled_infix cls r m s : infix m s -> settled cls r s -> settled cls r m.
Proof.
  intros (pre & post & ->) H.
  apply settled_app_r in H. apply settled_app_l in H. exact H.
Qed.

Lemma trimmed_settled name :
  settled regexp.space " "%char (trimmed name)
  /\ settled (one_of "_") "_"%char (trimmed name).
Proof.
  unfold trimmed. cbv zeta. rewrite !ReplaceAllString_plus.
  change (B " ") with [" "%char]. change (B "_") with ["_"%char].
  split; (eapply settled_infix; [apply Trim_infix|]).
  - apply settled_squeeze; [reflexivity|]. apply squeeze_settled. reflexivity.
  - apply squeeze_settled. reflexivity.
Qed.

Lemma plain_edge_first s :
  plain_edge (first_rune s) = true -> head_out (in_cutset (B ". ")) s.
Proof.
  destruct s as [|c t]; [intros _; exact I|]. cbn [head_out]. intro H.
  destruct (in_cutset (B ". ") c) eqn:E; [|reflexivity].
  pose proof (in_cutset_ascii _ dot_space_ascii c E) as Hc.
  unfold first_rune in H. rewrite decode_head_ascii in H by exact Hc.
  cbn [fst] in H. unfold in_cutset in E. cbn in E.
  rewrite orb_false_r in E. apply orb_true_iff in E.
  destruct E as [E|E]; apply Ascii.eqb_eq in E; subst c; discriminate H.
Qed.

Lemma plain_edge_last s :
  plain_edge (last_rune s) = true -> head_out (in_cutset (B ". ")) (rev s).
Proof.
  destruct (snoc_cases s) as [->|(u & c & ->)]; [intros _; exact I|].
  rewrite rev_unit. cbn [head_out]. intro H.
  destruct (in_cutset (B ". ") c) eqn:E; [|reflexivity].
  pose proof (in_cutset_ascii _ dot_space_ascii c E) as Hc.
  unfold last_rune in H. rewrite decode_last_ascii in H by exact Hc.
  cbn [fst] in H. unfold in_cutset in E. cbn in E.
  rewrite orb_false_r in E. apply orb_true_iff in E.
  destruct E as [E|E]; apply Ascii.eqb_eq in E; subst c; discriminate H.
Qed.

Lemma plain_edge_spec r :
  plain_edge r = true -> unicode.IsSpace r = false.
Proof.
  unfold plain_edge. intro H. apply andb_true_iff in H as [_ H].
  apply negb_true_iff in H. exact H.
Qed.

End clean_facts.

(** ** Facts about paths *)

Module path_facts.
Import utf8 strings strings_spec regexp regexp_spec bytes_facts strings_facts.
Import filename filename_spec path_spec.
Import regexp_facts trim_facts filename_facts clean_facts.

Lemma ReplaceAll_slash sep s :
  ReplaceAll s (B "/") [sep] = map (swap sep) s.
Proof.
  unfold ReplaceAll, B. cbn [list_ascii_of_string]. rewrite replace_single.
  induction s as [|c t IH]; [reflexivity|].
  cbn [flat_map map]. rewrite IH. unfold swap. destruct (Ascii.eqb c "/"); reflexivity.
Qed.

Lemma swap_swap sep c : swap sep (swap sep c) = swap sep c.
Proof.
  unfold swap. destruct (Ascii.eqb c "/") eqn:E; [|rewrite E; reflexivity].
  destruct (Ascii.eqb sep "/"); reflexivity.
Qed.

Lemma HasPrefix_two a b s :
  HasPrefix s [a; b] = true -> s = a :: b :: skipn 2 s.
Proof.
  destruct s as [|c [|d t]]; cbn [HasPrefix]; try discriminate.
  - rewrite andb_false_r. discriminate.
  - destruct t; rewrite andb_true_r; intro H; apply andb_true_iff in H as [H1 H2];
      apply Ascii.eqb_eq in H1, H2; subst; reflexivity.
Qed.

Lemma HasPrefix_cons2 a b t : HasPrefix (a :: b :: t) [a; b] = true.
Proof. cbn [HasPrefix]. rewrite !Ascii.eqb_refl. destruct t; reflexivity. Qed.

Lemma HasPrefix_single c t x : HasPrefix (c :: t) [x] = Ascii.eqb c x.
Proof. cbn [HasPrefix]. destruct t; apply andb_true_r. Qed.

Lemma split_no_sep x e : forall cur rest,
  ~ In x e ->
  split_from 0 [x] cur (e ++ rest) = split_from 0 [x] (rev e ++ cur) rest.
Proof.
  induction e as [|c e IH]; intros cur rest H; [reflexivity|].
  cbn [app split_from]. rewrite HasPrefix_single.
  destruct (Ascii.eqb c x) eqn:E.
  { apply Ascii.eqb_eq in E. subst c. exfalso. apply H. left. reflexivity. }
  rewrite IH by (intro H'; apply H; right; exact H').
  cbn [rev]. rewrite <- app_assoc. reflexivity.
Qed.

Lemma split_sep x cur rest :
  split_from 0 [x] cur (x :: rest) = rev cur :: split_from 0 [x] [] rest.
Proof.
  cbn [split_from]. rewrite HasPrefix_single, Ascii.eqb_refl. reflexivity.
Qed.

(** Splitting what was joined gives the parts back, when no part holds
    the separator. *)
Lemma Split_Join x parts :
  parts <> [] -> Forall (fun e => ~ In x e) parts ->
  Split (Join parts [x]) [x] = parts.
Proof.
  intros Hne H. unfold Split.
  induction H as [|e parts He Hparts IH]; [congruence|].
  destruct parts as [|e' r].
  - cbn [Join]. rewrite <- (app_nil_r e) at 1. rewrite split_no_sep by exact He.
    cbn [split_from]. rewrite app_nil_r, rev_involutive. reflexivity.
  - change (Join (e :: e' :: r) [x]) with (e ++ x :: Join (e' :: r) [x]).
    rewrite split_no_sep by exact He. rewrite split_sep.
    rewrite app_nil_r, rev_involutive. f_equal. apply IH. discriminate.
Qed.

Lemma split_from_parts x s : forall cur,
  ~ In x cur -> Forall (fun e => ~ In x e) (split_from 0 [x] cur s).
Proof.
  induction s as [|c t IH]; intros cur H; cbn [split_from].
  - constructor; [|constructor]. intro H'. apply in_rev in H'. exact (H H').
  - rewrite HasPrefix_single. destruct (Ascii.eqb c x) eqn:E.
    + constructor; [intro H'; apply in_rev in H'; exact (H H')|].
      apply IH. intros [].
    + apply IH. intros [H'|H']; [|exact (H H')].
      subst c. rewrite Ascii.eqb_refl in E. discriminate.
Qed.

Lemma Split_parts x s : Forall (fun e => ~ In x e) (Split s [x]).
Proof. apply split_from_parts. intros []. Qed.

Lemma Split_nonempty x s : Split s [x] <> [].
Proof.
  change (Split s [x]) with (split_from 0 [x] [] s).
  assert (H : forall cur, split_from 0 [x] cur s <> []); [|apply H].
  induction s as [|c t IH]; intro cur; cbn [split_from]; [discriminate|].
  rewrite HasPrefix_single. destruct (Ascii.eqb c x); [discriminate | apply IH].
Qed.

Lemma SanitizeFilename_all_safe name : Forall safe_byte (SanitizeFilename name).
Proof.
  rewrite SanitizeFilename_trimmed.
  destruct (is_empty (trimmed name)); [exact unknown_safe|].
  destruct (negb _); [|apply trimmed_safe].
  apply to_valid_Forall; [apply trimmed_safe|].
  repeat constructor; try discriminate; vm_compute; congruence.
Qed.

Lemma SanitizeFilename_not_slash name : Forall not_slash (SanitizeFilename name).
Proof.
  rewrite SanitizeFilename_trimmed.
  destruct (is_empty (trimmed name)); [repeat constructor|].
  destruct (negb _); [|apply trimmed_no_slash].
  apply to_valid_Forall; [apply trimmed_no_slash | repeat constructor].
Qed.

(** A sanitized name holds neither a slash nor a backslash. *)
Lemma SanitizeFilename_no_separator x name :
  x = "/"%char \/ x = "\"%char -> ~ In x (SanitizeFilename name).
Proof.
  intros Hx Hin. destruct Hx as [-> | ->].
  - pose proof (SanitizeFilename_not_slash name) as H.
    rewrite Forall_forall in H. specialize (H _ Hin). discriminate H.
  - pose proof (SanitizeFilename_all_safe name) as H.
    rewrite Forall_forall in H. destruct (H _ Hin) as [H1 _]. discriminate H1.
Qed.

Lemma appended_later i part :
  (1 <= i)%nat -> appended false i part = [SanitizeFilename part].
Proof.
  intro Hi. unfold appended, sanitizeFolderName. cbn [andb negb].
  destruct i as [|i]; [lia|]. cbn [Nat.eqb andb].
  pose proof (SanitizeFilename_nonempty part) as H.
  destruct (SanitizeFilename part); [congruence | reflexivity].
Qed.

Lemma sanitize_parts_tail parts : forall i,
  (1 <= i)%nat -> sanitize_parts false i parts = map SanitizeFilename parts.
Proof.
  induction parts as [|p rest IH]; intros i Hi; [reflexivity|].
  cbn [sanitize_parts map]. rewrite appended_later by exact Hi.
  rewrite IH by lia. reflexivity.
Qed.

Lemma appended_first part :
  appended false 0 part = [part] \/ appended false 0 part = [SanitizeFilename part].
Proof.
  unfold appended, sanitizeFolderName. cbn [andb negb Nat.eqb Nat.ltb].
  destruct (_ && _); [left; reflexivity|].
  destruct (is_empty part); [left; reflexivity|].
  right. pose proof (SanitizeFilename_nonempty part) as H.
  destruct (SanitizeFilename part); [congruence | reflexivity].
Qed.

(** *** File names *)

Lemma digit_plain c : regexp.digit c = true -> plain_byte c.
Proof.
  unfold regexp.digit. cbv zeta. intro H. apply andb_true_iff in H as [H1 H2].
  apply Z.leb_le in H1, H2.
  assert (E : c = byte_of (code c)) by (symmetry; apply utf8_facts.byte_of_code).
  assert (In (code c) [48; 49; 50; 51; 52; 53; 54; 55; 56; 57]) as Hin
    by (cbn [In]; lia).
  rewrite E. cbn [In] in Hin.
  repeat (destruct Hin as [<-|Hin];
          [repeat split; vm_compute; congruence|]).
  destruct Hin.
Qed.

Lemma uint_digits u : Forall (fun c => regexp.digit c = true) (B (NilZero.string_of_uint u)).
Proof.
  assert (H : forall d, Forall (fun c => regexp.digit c = true)
                         (B (NilEmpty.string_of_uint d))).
  { unfold B. induction d; cbn [NilEmpty.string_of_uint list_ascii_of_string];
      constructor; solve [reflexivity | assumption]. }
  destruct u; try apply H. repeat constructor.
Qed.

Lemma Sprintf_02d_plain n : 0 < n -> Forall plain_byte (Sprintf_02d n).
Proof.
  intro Hn. unfold Sprintf_02d. cbv zeta.
  rewrite (proj2 (Z.ltb_ge n 0)) by lia.
  apply Forall_app. split.
  - destruct (B _) as [|? [|? ?]]; repeat constructor; vm_compute; congruence.
  - eapply Forall_impl; [|apply uint_digits]. exact digit_plain.
Qed.

Lemma plain_name_byte c : plain_byte c -> name_byte c.
Proof.
  intros [H1 H2]. split; [apply safe_harmless, H1|].
  intros ->. discriminate H2.
Qed.

Lemma SanitizeFilename_plain name : Forall plain_byte (SanitizeFilename name).
Proof.
  pose proof (SanitizeFilename_all_safe name) as H1.
  pose proof (SanitizeFilename_not_slash name) as H2.
  rewrite Forall_forall in *. intros c Hc. split; [apply H1 | apply H2]; exact Hc.
Qed.

Lemma literal_plain (s : string) :
  forallb (fun c => negb (unsafe c) && (0x20 <=? code c) && negb (code c =? 0x7F)
                    && negb (Ascii.eqb c "/")) (B s) = true ->
  Forall plain_byte (B s).
Proof.
  rewrite forallb_forall. intro H. apply Forall_forall. intros c Hc.
  specialize (H c Hc). rewrite !andb_true_iff, !negb_true_iff in H.
  destruct H as [[[H1 H2] H3] H4]. apply Z.leb_le in H2. apply Z.eqb_neq in H3.
  repeat split; assumption.
Qed.

End path_facts.

(** ** Facts about matches and the chart parser *)

Module parser_facts.
Import utf8 strings strings_spec regexp regexp_spec bytes_facts strings_facts.
Import billboard parser_more_spec regexp_facts trim_facts filename_facts.

Lemma first_some_Some {A R} (f : A -> option R) l r :
  first_some f l = Some r -> exists a, In a l /\ f a = Some r.
Proof.
  induction l as [|a l IH]; cbn [first_some]; [discriminate|].
  destruct (f a) eqn:E.
  - intro H. injection H as <-. exists a. split; [left; reflexivity | exact E].
  - intro H. destruct (IH H) as (b & Hb & Eb). exists b. split; [right|]; assumption.
Qed.

Lemma candidates_le g lo n k : In k (candidates g lo n) -> (k <= n)%nat.
Proof.
  unfold candidates. intro H.
  assert (H' : In k (seq lo (S n - lo)))
    by (destruct g; [apply in_rev in H|]; exact H).
  apply in_seq in H'. lia.
Qed.

Lemma span_within cls s : forall hi k,
  (k <= span cls hi s)%nat -> within cls (firstn k s).
Proof.
  induction s as [|c t IH]; intros hi k Hk.
  - rewrite firstn_nil. constructor.
  - destruct k as [|k]; [constructor|].
    assert (E : cls c = true /\ (k <= span cls (option_map Nat.pred hi) t)%nat).
    { destruct hi as [[|h]|]; cbn [span] in Hk; try lia;
        destruct (cls c); first [lia | split; [reflexivity | lia]]. }
    destruct E as [Ec Hk']. cbn [firstn]. constructor; [exact Ec|].
    apply (IH _ _ Hk').
Qed.

(** A match is a prefix of the input, and each captured group is made
    of bytes of its class. *)
Lemma match_here_sound re : forall bos s w gs rest,
  match_here re bos s = Some (w, gs, rest) ->
  s = w ++ rest /\ Forall2 within (group_classes re) gs.
Proof.
  induction re as [|nd re IH]; intros bos s w gs rest; cbn [match_here].
  - intro H. injection H as <- <- <-. split; [reflexivity | constructor].
  - destruct nd as [c|cls lo hi greedy captured|].
    + destruct s as [|b s']; [discriminate|].
      destruct (Ascii.eqb b c); [|discriminate].
      destruct (match_here re false s') as [[[w' gs'] rest']|] eqn:E; [|discriminate].
      intro H. injection H as <- <- <-.
      destruct (IH _ _ _ _ _ E) as [-> Hg]. split; [reflexivity | exact Hg].
    + intro H. apply first_some_Some in H as (k & Hk & H).
      destruct (match_here re (bos && (k =? 0)%nat) (skipn k s))
        as [[[w' gs'] rest']|] eqn:E; [|discriminate].
      injection H as <- <- <-.
      destruct (IH _ _ _ _ _ E) as [Hs Hg]. split.
      * rewrite <- app_assoc, <- Hs. symmetry. apply firstn_skipn.
      * apply candidates_le in Hk. pose proof (span_within cls s hi k Hk) as Hw.
        cbn [group_classes]. destruct captured; cbn [app];
          [constructor; assumption | exact Hg].
    + destruct bos; [|discriminate]. intro H.
      destruct (IH _ _ _ _ _ H) as [Hs Hg]. split; assumption.
Qed.

(** Every reported match comes from a match at some position. *)
Lemma scan_hits re s : forall skip adj bos m,
  In m (hits (scan re skip adj bos s)) ->
  exists w gs, m = w :: gs /\ Forall2 within (group_classes re) gs.
Proof.
  induction s as [|c t IH]; intros skip adj bos m; cbn [scan].
  - destruct skip; [|intros []].
    destruct (match_here re bos []) as [[[w gs] rest]|] eqn:E; [|intros []].
    destruct adj; [intros []|]. cbn [hits flat_map app].
    intros [<-|[]]. exists w, gs. split; [reflexivity|].
    apply (match_here_sound _ _ _ _ _ _ E).
  - destruct skip as [|k]; [|apply IH].
    destruct (match_here re bos (c :: t)) as [[[w gs] rest]|] eqn:E.
    + pose proof (proj2 (match_here_sound _ _ _ _ _ _ E)) as Hg.
      destruct w as [|b w].
      * unfold hits. rewrite flat_map_app. intro H. apply in_app_or in H as [H|H].
        -- destruct adj; [destruct H|]. cbn in H. destruct H as [<-|[]].
           exists [], gs. split; [reflexivity | exact Hg].
        -- cbn [flat_map app] in H. apply (IH _ _ _ _ H).
      * cbn [hits flat_map app]. intros [<-|H].
        -- exists (b :: w), gs. split; [reflexivity | exact Hg].
        -- apply (IH _ _ _ _ H).
    + cbn [hits flat_map app]. apply IH.
Qed.

Lemma FindAll_groups re s n m :
  In m (FindAllStringSubmatch re s n) ->
  exists w gs, m = w :: gs /\ Forall2 within (group_classes re) gs.
Proof.
  unfold FindAllStringSubmatch. intro H.
  assert (H' : In m (hits (scan re 0 false true s)))
    by (destruct n; [apply In_firstn in H|]; exact H).
  apply (scan_hits _ _ _ _ _ _ H').
Qed.

Lemma Find_groups re s :
  FindStringSubmatch re s = []
  \/ exists w gs, FindStringSubmatch re s = w :: gs
                  /\ Forall2 within (group_classes re) gs.
Proof.
  unfold FindStringSubmatch.
  destruct (FindAllStringSubmatch re s (Some 1%nat)) as [|m l] eqn:E;
    [left; reflexivity|]. right.
  apply (FindAll_groups re s (Some 1%nat) m). rewrite E. left. reflexivity.
Qed.

(** [Atoi] of a string of digits is not negative. *)
Lemma Atoi_digits s : within digit s -> 0 <= strconv.Atoi s.
Proof.
  intro H. unfold strconv.Atoi.
  assert (Hfold : forall ds acc, within digit ds -> 0 <= acc ->
            0 <= fold_left (fun acc c => 10 * acc + (code c - 0x30)) ds acc).
  { induction ds as [|d ds IH]; intros acc Hd Hacc; [exact Hacc|].
    inversion Hd as [|? ? Hd0 Hds]; subst. cbn [fold_left]. apply IH; [exact Hds|].
    unfold digit in Hd0. cbv zeta in Hd0. apply andb_true_iff in Hd0 as [Hd0 _].
    apply Z.leb_le in Hd0. lia. }
  destruct s as [|c t].
  - cbn. lia.
  - inversion H as [|? ? Hc Ht]; subst.
    assert (Ec : Ascii.eqb c "-" = false).
    { apply Ascii.eqb_neq. intros ->. discriminate Hc. }
    assert (Ec' : Ascii.eqb c "+" = false).
    { apply Ascii.eqb_neq. intros ->. discriminate Hc. }
    rewrite Ec, Ec'.
    destruct (is_empty (c :: t) || negb (forallb digit (c :: t))); [lia|].
    specialize (Hfold (c :: t) 0 H ltac:(lia)).
    cbv zeta. apply Z.max_le_iff. right. apply Z.min_glb; [lia | exact Hfold].
Qed.

Lemma group_number re s :
  group_classes re = [digit] ->
  0 <= (if (2 <=? length (FindStringSubmatch re s))%nat
        then strconv.Atoi (strings.TrimSpace (sub (FindStringSubmatch re s) 1))
        else 0).
Proof.
  intro Hre. destruct (Find_groups re s) as [->|(w & gs & -> & Hg)]; [cbn; lia|].
  rewrite Hre in Hg. inversion Hg as [|? g ? gs' Hd Hnil]; subst.
  inversion Hnil; subst. cbn [length Nat.leb sub nth].
  apply Atoi_digits. apply TrimSpace_Forall. exact Hd.
Qed.

Section Parser.

Variable entity : bytes -> Z.
Variable entity2 : bytes -> Z * Z.

Lemma extractStat_nonneg rowContent liIndex :
  0 <= extractStat rowContent liIndex.
Proof.
  unfold extractStat. cbv zeta.
  destruct (_ && _); [|lia].
  set (content := sub _ 1).
  pose proof (group_number numPattern content eq_refl) as H1.
  pose proof (group_number numPattern2 content eq_refl) as H2.
  destruct (2 <=? length (FindStringSubmatch numPattern content))%nat;
    [exact H1 | exact H2].
Qed.

(** The class of the white-space pattern holds the five layout
    characters, and nothing else. *)
Lemma space_layout c : space c = layout c.
Proof.
  unfold space, layout. cbv zeta. cbn [existsb].
  destruct (code c =? 9), (code c =? 10), (code c =? 12), (code c =? 13),
    (code c =? 32); reflexivity.
Qed.

Lemma settled_ext (cls cls' : ascii -> bool) r s :
  (forall c, cls c = cls' c) -> settled cls r s -> settled cls' r s.
Proof.
  intro E. induction s as [|c t IH]; [exact (fun H => H)|].
  cbn [settled]. intros [H1 H2]. split; [|apply IH, H2].
  rewrite <- E. intro Hc. destruct (H1 Hc) as [-> Hn]. split; [reflexivity|].
  destruct t as [|d t']; [exact I|]. rewrite <- E. exact Hn.
Qed.

(** What [cleanText] returns is normal text. *)
Lemma cleanText_normal text : normal_text (cleanText entity entity2 text).
Proof.
  unfold cleanText. rewrite ReplaceAllString_plus.
  set (s1 := html.UnescapeString entity entity2 text).
  rewrite (ReplaceAllString_out tagPattern).
  destruct (strip_tags s1 0 false true) as [Htag _].
  destruct (TrimSpace_spec (flat_map (out []) (scan tagPattern 0 false true s1)))
    as [(pre & post & Hin) Hends].
  set (t := TrimSpace _) in *.
  assert (Ht : tagless t).
  { rewrite Hin in Htag. apply tagless_app_r in Htag.
    apply tagless_app_l in Htag. exact Htag. }
  change (B " ") with [" "%char]. repeat split.
  - apply tagless_squeeze; try reflexivity; try exact Ht;
      cbn; intros [H|[]]; discriminate.
  - apply (settled_ext space layout _ _ space_layout).
    apply squeeze_settled. reflexivity.
  - destruct Hends as [->|[Hf Hl]]; [left; reflexivity|]. right.
    destruct (ends_out t Hf Hl) as [Oh Ol]. unfold first_rune, last_rune in *.
    rewrite (squeeze_first_rune space " "%char space_ascii) by (exact Oh || reflexivity).
    rewrite (squeeze_last_rune space " "%char space_ascii) by (exact Ol || reflexivity).
    split; assumption.
Qed.

Lemma normal_nil : normal_text [].
Proof. repeat split; try exact I. left. reflexivity. Qed.

End Parser.

End parser_facts.

(** ** Further facts about the matching run *)

Module run_more_facts.
Import BillboardPage run_spec run_more_spec run_facts.

Lemma nth_assign_same {A} (a : list (option A)) : forall i x,
  nth i (assign a i x) None = Some x.
Proof.
  induction a as [|y a IH]; intros i x.
  - induction i as [|i IHi]; [reflexivity|]. cbn [assign nth]. exact IHi.
  - destruct i as [|i]; [reflexivity|]. cbn [assign nth]. apply IH.
Qed.

Lemma nth_assign_other {A} (a : list (option A)) : forall i j x,
  j <> i -> nth j (assign a i x) None = nth j a None.
Proof.
  induction a as [|y a IH]; intros i j x Hne.
  - revert j Hne. induction i as [|i IHi]; intros j Hne.
    + destruct j as [|[|j]]; [congruence | reflexivity | reflexivity].
    + destruct j as [|j]; [reflexivity|]. cbn [assign nth].
      rewrite IHi by congruence. destruct j; reflexivity.
  - destruct i as [|i], j as [|j]; try reflexivity; [congruence|].
    cbn [assign nth]. apply IH. congruence.
Qed.

Lemma length_assign {A} (a : list (option A)) : forall i x,
  (i < length a)%nat -> length (assign a i x) = length a.
Proof.
  induction a as [|y a IH]; intros i x Hi; [cbn [length] in Hi; lia|].
  destruct i as [|i]; [reflexivity|]. cbn [assign length].
  rewrite IH by (cbn [length] in Hi; lia). reflexivity.
Qed.

Lemma has_add s i j : has (add s i) j = has s j || Nat.eqb j i.
Proof.
  unfold add. destruct (has s i) eqn:E.
  - destruct (Nat.eqb_spec j i) as [->|]; [rewrite E|rewrite orb_false_r]; reflexivity.
  - unfold has. rewrite existsb_app. cbn [existsb]. rewrite orb_false_r. reflexivity.
Qed.

Lemma In_add s i j : In j (add s i) <-> In j s \/ j = i.
Proof.
  rewrite <- !has_In, has_add, orb_true_iff, Nat.eqb_eq. reflexivity.
Qed.

Section RunMore.

Variable w : world.
Variable entries : list BillboardEntry.

Lemma core_emit e st : core_of (emit e st) = core_of st.
Proof. reflexivity. Qed.

Lemma core_delay ms st : core_of (delay w ms st) = core_of st.
Proof. reflexivity. Qed.

Lemma core_search q st : core_of (snd (search w q st)) = core_of st.
Proof. reflexivity. Qed.

(** One entry: the tracks, the set and the count are left alone, or the
    entry is matched with a candidate that has an id. *)
Lemma attempts_outcome i entry remaining : forall st,
  let st' := attempts w remaining i entry st in
  core_of st' = core_of st
  \/ exists m, truthy (id m) = true
       /\ core_of st'
          = (assign (updatedTracks st) i
                    (with_match (nth i (updatedTracks st) None) m),
             add (newMatchedIndices st) i, matched st + 1).
Proof.
  induction remaining as [|r IH]; intro st; cbn [attempts]; [left; reflexivity|].
  destruct (stop st); [left; reflexivity|].
  pose proof (core_search (search_query entry) st) as Hc.
  destruct (search w (search_query entry) st) as [result st1]. cbn [snd] in Hc.
  assert (Hfrom : forall st2,
            core_of st2 = core_of st1 ->
            core_of (attempts w r i entry st2) = core_of st
            \/ exists m, truthy (id m) = true
                 /\ core_of (attempts w r i entry st2)
                    = (assign (updatedTracks st) i
                              (with_match (nth i (updatedTracks st) None) m),
                       add (newMatchedIndices st) i, matched st + 1)).
  { intros st2 E. rewrite Hc in E. unfold core_of in E. injection E as E1 E2 E3.
    destruct (IH st2) as [H|(m & Hm & H)].
    - left. rewrite H. unfold core_of. congruence.
    - right. exists m. split; [exact Hm|]. rewrite H. congruence. }
  destruct result as [results|err].
  - unfold on_results. rewrite core_emit.
    unfold core_of in Hc. injection Hc as E1 E2 E3.
    destruct results as [[[|[m|] ?]|]|]; try (left; unfold core_of; congruence).
    destruct (truthy (id m)) eqn:Hm; [|left; unfold core_of; congruence].
    right. exists m. split; [exact Hm|].
    unfold record_match. rewrite !core_emit. unfold core_of.
    cbn [updatedTracks newMatchedIndices matched]. congruence.
  - destruct (isRateLimited err); [apply Hfrom; reflexivity|].
    destruct (_ <? _)%nat; apply Hfrom; reflexivity.
Qed.

Lemma visit_effect rest : forall i st,
  effect i (length rest) (core_of st) (core_of (visit w entries rest i st)).
Proof.
  induction rest as [|entry rest IH]; intros i st; cbn [visit length];
    [apply effect_done|].
  destruct (stop st); [rewrite !core_emit; apply effect_done|].
  destruct (has (newMatchedIndices st) i) eqn:Hi; [apply effect_skip, IH|].
  match goal with
  | |- context [attempts w MAX_RETRIES i entry ?s] => set (st1 := s)
  end.
  assert (E1 : core_of st1 = core_of st) by reflexivity.
  pose proof (attempts_outcome i entry MAX_RETRIES st1) as Ho. cbv zeta in Ho.
  set (st2 := attempts w MAX_RETRIES i entry st1) in *.
  match goal with
  | |- context [visit w entries rest (S i) ?s] => set (st3 := s)
  end.
  assert (E3 : core_of st3 = core_of st2)
    by (subst st3; destruct (_ && _); reflexivity).
  specialize (IH (S i) st3). rewrite E3 in IH.
  destruct Ho as [Ho|(m & Hm & Ho)].
  - apply effect_skip. rewrite <- E1, <- Ho. exact IH.
  - rewrite Ho in IH.
    unfold core_of at 1. apply (effect_match i _ _ _ _ m); [exact Hi | exact Hm|].
    exact IH.
Qed.

End RunMore.

(** *** What the effect of a run keeps *)

Lemma effect_frame i n c c' :
  effect i n c c' ->
  forall j, (j < i)%nat \/ In j (snd (fst c)) \/ (i + n <= j)%nat ->
            nth j (fst (fst c')) None = nth j (fst (fst c)) None.
Proof.
  induction 1 as [| i n c c' _ IH | i n tr se ct m c' Hi Hm _ IH]; intros j Hj.
  - reflexivity.
  - apply IH.
    destruct Hj as [Hj|[Hj|Hj]]; [left; lia | right; left; exact Hj | right; right; lia].
  - cbn [fst snd] in *.
    assert (Hne : j <> i).
    { intros ->. destruct Hj as [Hj|[Hj|Hj]]; try lia.
      apply has_In in Hj. congruence. }
    rewrite IH; [apply nth_assign_other, Hne|].
    destruct Hj as [Hj|[Hj|Hj]]; [left; lia | right; left | right; right; lia].
    apply In_add. left. exact Hj.
Qed.

Lemma with_match_labels t m : same_labels t (with_match (Some t) m).
Proof. repeat split. Qed.

Lemma same_labels_trans t t' t'' :
  same_labels t t' -> same_labels t' t'' -> same_labels t t''.
Proof. unfold same_labels. intros (A & B & C) (A' & B' & C'). repeat split; congruence. Qed.

Lemma effect_labels i n c c' :
  effect i n c c' ->
  forall j t, nth j (fst (fst c)) None = Some t ->
              exists t', nth j (fst (fst c')) None = Some t' /\ same_labels t t'.
Proof.
  induction 1 as [| i n c c' _ IH | i n tr se ct m c' Hi Hm _ IH]; intros j t Hj.
  - exists t. split; [exact Hj | repeat split].
  - apply IH, Hj.
  - cbn [fst snd] in *. destruct (Nat.eq_dec j i) as [->|Hne].
    + rewrite Hj in IH.
      destruct (IH i (with_match (Some t) m) (nth_assign_same _ _ _))
        as (t' & Ht' & Hl).
      exists t'. split; [exact Ht'|].
      eapply same_labels_trans; [apply with_match_labels | exact Hl].
    + apply IH. rewrite nth_assign_other by exact Hne. exact Hj.
Qed.

Lemma effect_length i n c c' :
  effect i n c c' ->
  n = 0%nat \/ (i + n <= length (fst (fst c)))%nat ->
  length (fst (fst c')) = length (fst (fst c)).
Proof.
  induction 1 as [| i n c c' _ IH | i n tr se ct m c' Hi Hm _ IH]; intro Hlen.
  - reflexivity.
  - apply IH. right. lia.
  - cbn [fst snd] in *.
    rewrite IH; rewrite length_assign by lia; [reflexivity | right; lia].
Qed.

Lemma effect_consistent i n c c' :
  effect i n c c' ->
  consistent (fst (fst c)) (snd (fst c)) ->
  consistent (fst (fst c')) (snd (fst c')).
Proof.
  induction 1 as [| i n c c' _ IH | i n tr se ct m c' Hi Hm _ IH]; intro Hc.
  - exact Hc.
  - apply IH, Hc.
  - apply IH. cbn [fst snd] in *. intro j. rewrite In_add. unfold has_id.
    destruct (Nat.eq_dec j i) as [->|Hne].
    + rewrite nth_assign_same. split; [intros _|intros _; right; reflexivity].
      eexists. split; [reflexivity|]. exact Hm.
    + rewrite nth_assign_other by exact Hne. rewrite (Hc j). unfold has_id.
      split; [intros [H|H]; [exact H | congruence] | intro H; left; exact H].
Qed.

Lemma effect_range i n c c' :
  effect i n c c' ->
  incl (snd (fst c)) (snd (fst c'))
  /\ forall j, In j (snd (fst c')) ->
               In j (snd (fst c)) \/ (i <= j < i + n)%nat.
Proof.
  induction 1 as [| i n c c' _ IH | i n tr se ct m c' Hi Hm _ IH].
  - split; [apply incl_refl | intros j Hj; left; exact Hj].
  - destruct IH as [IH1 IH2]. split; [exact IH1|].
    intros j Hj. destruct (IH2 j Hj) as [H|H]; [left; exact H | right; lia].
  - cbn [fst snd] in *. destruct IH as [IH1 IH2]. split.
    + intros j Hj. apply IH1, In_add. left. exact Hj.
    + intros j Hj. destruct (IH2 j Hj) as [H|H]; [|right; lia].
      apply In_add in H as [H| ->]; [left; exact H | right; lia].
Qed.

(** The effect of a whole run. *)
Lemma run_effect w entries matchedIndices matchedCount currentTracks startIndex
      initialMatchedIndices initialMatchedCount :
  effect startIndex (length entries - startIndex)
         (currentTracks,
          new_Set (match initialMatchedIndices with
                   | Some s => s | None => matchedIndices end),
          match initialMatchedCount with
          | Some n => n | None => matchedCount end)
         (core_of (matchWithSpotify w entries matchedIndices matchedCount
                     currentTracks startIndex
                     initialMatchedIndices initialMatchedCount)).
Proof.
  unfold matchWithSpotify.
  match goal with
  | |- context [visit w entries ?r startIndex ?s] =>
    pose proof (visit_effect w entries r startIndex s) as H
  end.
  rewrite length_skipn in H. cbv zeta.
  match goal with |- context [if ?c then _ else _] => destruct c end;
    rewrite ?core_emit;
    destruct initialMatchedIndices, initialMatchedCount; exact H.
Qed.

End run_more_facts.

(** ** The counters of the matching run *)

Module run_count_facts.
Import BillboardPage run_spec run_more_spec run_facts run_more_facts.

Lemma todo_skip s i n :
  has s i = true -> todo s i (S n) = todo s (S i) n.
Proof. intro H. unfold todo. cbn [seq filter]. rewrite H. reflexivity. Qed.

Lemma todo_take s i n :
  has s i = false -> todo s i (S n) = S (todo s (S i) n).
Proof. intro H. unfold todo. cbn [seq filter]. rewrite H. reflexivity. Qed.

Lemma todo_add s i k n : (i < k)%nat -> todo (add s i) k n = todo s k n.
Proof.
  intro Hk. unfold todo. f_equal. apply filter_ext_in. intros j Hj.
  apply in_seq in Hj. rewrite has_add.
  rewrite (proj2 (Nat.eqb_neq j i)) by lia. rewrite orb_false_r. reflexivity.
Qed.

Section Counts.

Variable w : world.
Variable entries : list BillboardEntry.

Lemma counted_emit e st : silent e = true -> counted st -> counted (emit e st).
Proof.
  intros He [H1 H2]. unfold counted, searches, suspensions in *.
  cbn [emit events calls awaits]. rewrite !filter_app, !length_app, H1, H2.
  destruct e; try discriminate He; cbn [filter length]; split; lia.
Qed.

Lemma counted_delay ms st : counted st -> counted (delay w ms st).
Proof.
  intros [H1 H2]. unfold counted, searches, suspensions in *.
  cbn [delay await emit events calls awaits].
  rewrite !filter_app, !length_app, H1, H2. cbn [filter length]. split; lia.
Qed.

Lemma counted_search q st : counted st -> counted (snd (search w q st)).
Proof.
  intros [H1 H2]. unfold counted, searches, suspensions in *.
  cbn [search snd await emit events calls awaits].
  rewrite !filter_app, !length_app, H1, H2. cbn [filter length]. split; lia.
Qed.

Lemma counted_on_results i results st :
  counted st -> counted (on_results i results st).
Proof.
  intro H. unfold on_results. apply counted_emit; [reflexivity|].
  destruct results as [[[|[m|] ?]|]|]; try exact H.
  destruct (truthy (id m)); [|exact H].
  unfold record_match. apply counted_emit; [reflexivity|].
  apply counted_emit; [reflexivity|]. exact H.
Qed.

Lemma counted_attempts i entry remaining : forall st,
  counted st -> counted (attempts w remaining i entry st).
Proof.
  induction remaining as [|r IH]; intros st H; cbn [attempts]; [exact H|].
  destruct (stop st); [exact H|].
  pose proof (counted_search (search_query entry) st H) as Hs.
  destruct (search w (search_query entry) st) as [result st1]. cbn [snd] in Hs.
  destruct result as [results|err]; [apply counted_on_results, Hs|].
  destruct (isRateLimited err); [|destruct (_ <? _)%nat];
    apply IH; try apply counted_delay;
    repeat (apply counted_emit; [reflexivity|]); exact Hs.
Qed.

Lemma counted_visit rest : forall i st,
  counted st -> counted (visit w entries rest i st).
Proof.
  induction rest as [|entry rest IH]; intros i st H; cbn [visit]; [exact H|].
  destruct (stop st); [repeat (apply counted_emit; [reflexivity|]); exact H|].
  destruct (has (newMatchedIndices st) i); [apply IH, H|].
  apply IH.
  match goal with |- counted (if ?c then _ else _) => destruct c end;
    [apply counted_delay|];
    apply counted_attempts;
    repeat (apply counted_emit; [reflexivity|]); exact H.
Qed.

Lemma counted_run mI mC tracks start init initCount :
  counted (matchWithSpotify w entries mI mC tracks start init initCount).
Proof.
  unfold matchWithSpotify. cbv zeta.
  match goal with |- counted (if ?c then _ else _) => destruct c end;
    repeat (apply counted_emit; [reflexivity|]);
    apply counted_visit; split; reflexivity.
Qed.

(** *** At most three calls for an entry *)

Lemma attempts_calls i entry remaining : forall st,
  (calls (attempts w remaining i entry st) <= calls st + remaining)%nat.
Proof.
  induction remaining as [|r IH]; intro st; cbn [attempts]; [lia|].
  destruct (stop st); [lia|].
  assert (Hc : calls (snd (search w (search_query entry) st)) = S (calls st))
    by reflexivity.
  destruct (search w (search_query entry) st) as [result st1]. cbn [snd] in Hc.
  assert (Hfrom : forall st2, calls st2 = calls st1 ->
            (calls (attempts w r i entry st2) <= calls st + S r)%nat).
  { intros st2 E. specialize (IH st2). lia. }
  destruct result as [results|err].
  - assert (E : calls (on_results i results st1) = calls st1).
    { unfold on_results. cbn [emit calls].
      destruct results as [[[|[m|] ?]|]|]; try reflexivity.
      destruct (truthy (id m)); reflexivity. }
    lia.
  - destruct (isRateLimited err); [|destruct (_ <? _)%nat];
      apply Hfrom; reflexivity.
Qed.

Lemma visit_calls rest : forall i st,
  (calls (visit w entries rest i st)
   <= calls st + 3 * todo (newMatchedIndices st) i (length rest))%nat.
Proof.
  induction rest as [|entry rest IH]; intros i st; cbn [visit length]; [lia|].
  destruct (stop st); [cbn [emit calls]; lia|].
  destruct (has (newMatchedIndices st) i) eqn:Hi.
  { rewrite todo_skip by exact Hi. apply IH. }
  rewrite todo_take by exact Hi.
  match goal with
  | |- context [attempts w MAX_RETRIES i entry ?s] => set (st1 := s)
  end.
  pose proof (attempts_calls i entry MAX_RETRIES st1) as Hc.
  pose proof (attempts_outcome w i entry MAX_RETRIES st1) as Ho. cbv zeta in Ho.
  set (st2 := attempts w MAX_RETRIES i entry st1) in *.
  match goal with
  | |- context [visit w entries rest (S i) ?s] => set (st3 := s)
  end.
  assert (E3 : calls st3 = calls st2 /\ newMatchedIndices st3 = newMatchedIndices st2)
    by (subst st3; destruct (_ && _); split; reflexivity).
  destruct E3 as [Ec Es]. specialize (IH (S i) st3). rewrite Ec, Es in IH.
  assert (Et : todo (newMatchedIndices st2) (S i) (length rest)
               = todo (newMatchedIndices st) (S i) (length rest)).
  { destruct Ho as [Ho|(m & _ & Ho)]; unfold core_of in Ho;
      injection Ho as _ Hs _; rewrite Hs; [reflexivity|].
    apply todo_add. lia. }
  rewrite Et in IH. change (calls st1) with (calls st) in Hc.
  unfold MAX_RETRIES in Hc. lia.
Qed.

(** *** The stop is honoured *)

Section Stop.

Variable K : nat.
Hypothesis stop_at_K : stop_during w K = true.

Lemma before_after st : before K st -> after K st.
Proof.
  intros (H1 & H2 & H3). split; [exact H1|]. split; [exact H2|].
  intro H. specialize (H3 H). lia.
Qed.

Lemma attempts_stopped i entry remaining st :
  stop st = true -> attempts w remaining i entry st = st.
Proof. intro H. destruct remaining; cbn [attempts]; [|rewrite H]; reflexivity. Qed.

(** A suspension of a run that is not stopped. *)
Lemma before_await st :
  before K st -> stop st = false -> before K (await w st).
Proof.
  intros (H1 & H2 & _) Hs. destruct (H2 Hs) as [Ha Hc].
  unfold before. cbn [await calls awaits stop]. rewrite Hs. cbn [orb].
  split; [lia|]. split; intro H; [|lia].
  assert (awaits st <> K) by congruence. lia.
Qed.

(** One more suspension of a run that has just been stopped. *)
Lemma after_await st : before K st -> after K (await w st).
Proof.
  intros Hb. destruct (stop st) eqn:Hs.
  - destruct Hb as (H1 & _ & H3). specialize (H3 Hs).
    unfold after. cbn [await calls awaits stop]. rewrite Hs. cbn [orb].
    split; [lia|]. split; intro H; [discriminate | lia].
  - apply before_after, before_await; assumption.
Qed.

Lemma before_search q st :
  before K st -> stop st = false -> before K (snd (search w q st)).
Proof.
  intros (H1 & H2 & _) Hs. destruct (H2 Hs) as [Ha Hc].
  unfold before. cbn [search snd await emit calls awaits stop]. rewrite Hs.
  cbn [orb]. split; [lia|]. split; intro H; [|lia].
  assert (awaits st <> K) by congruence. lia.
Qed.

Lemma before_on_results i results st :
  before K st -> before K (on_results i results st).
Proof.
  intro H. unfold on_results, before in *. cbn [emit calls awaits stop].
  destruct results as [[[|[m|] ?]|]|]; try exact H.
  destruct (truthy (id m)); exact H.
Qed.

Lemma after_attempts i entry remaining : forall st,
  before K st -> after K (attempts w remaining i entry st).
Proof.
  induction remaining as [|r IH]; intros st H; cbn [attempts];
    [apply before_after, H|].
  destruct (stop st) eqn:Hs; [apply before_after, H|].
  pose proof (before_search (search_query entry) st H Hs) as Hb.
  destruct (search w (search_query entry) st) as [result st1]. cbn [snd] in Hb.
  destruct result as [results|err];
    [apply before_after, before_on_results, Hb|].
  assert (Hnext : forall st2,
            after K st2 -> (stop st2 = false -> before K st2) ->
            after K (attempts w r i entry st2)).
  { intros st2 Ha Hb2. destruct (stop st2) eqn:Hs2.
    - rewrite attempts_stopped by exact Hs2. exact Ha.
    - apply IH, Hb2. reflexivity. }
  assert (Hdelay : forall ms st2,
            before K st2 -> after K (attempts w r i entry (delay w ms st2))).
  { intros ms st2 Hb2. apply Hnext.
    - unfold delay. apply after_await. exact Hb2.
    - unfold delay. intro Hs2.
      assert (Hs3 : stop (emit (Delay ms) st2) = false).
      { cbn [await stop] in Hs2. apply orb_false_iff in Hs2 as [Hs2 _]. exact Hs2. }
      apply before_await; [exact Hb2 | exact Hs3]. }
  destruct (isRateLimited err); [apply Hdelay; exact Hb|].
  destruct (_ <? _)%nat; [apply Hdelay; exact Hb|].
  apply Hnext; [apply before_after; exact Hb | intros _; exact Hb].
Qed.

Lemma after_visit_stopped rest i st :
  stop st = true -> after K st -> after K (visit w entries rest i st).
Proof.
  intros Hs H. destruct rest; cbn [visit]; [exact H|]. rewrite Hs. exact H.
Qed.

Lemma after_visit rest : forall i st,
  before K st -> after K (visit w entries rest i st).
Proof.
  induction rest as [|entry rest IH]; intros i st H; cbn [visit];
    [apply before_after, H|].
  destruct (stop st) eqn:Hs; [apply before_after, H|].
  destruct (has (newMatchedIndices st) i); [apply IH, H|].
  match goal with
  | |- context [attempts w MAX_RETRIES i entry ?s] => set (st1 := s)
  end.
  assert (H1 : before K st1) by exact H.
  pose proof (after_attempts i entry MAX_RETRIES st1 H1) as H2.
  set (st2 := attempts w MAX_RETRIES i entry st1) in *.
  destruct (stop st2) eqn:Hs2.
  - rewrite andb_false_r. apply after_visit_stopped; assumption.
  - assert (Hb2 : before K st2).
    { destruct H2 as (A & B & _). split; [exact A|]. split; [exact B|].
      congruence. }
    rewrite andb_true_r. apply IH.
    destruct (_ <? _); [|exact Hb2].
    unfold delay.
    destruct (stop (await w (emit (Delay BASE_DELAY) st2))) eqn:Hs3.
    + destruct Hb2 as (A & B & _). destruct (B Hs2) as [Ba Bc].
      unfold before. rewrite Hs3. cbn [await emit calls awaits stop] in *.
      split; [lia|]. split; intro H'; [discriminate | lia].
    + apply before_await; [exact Hb2 | exact Hs2].
Qed.

End Stop.

End Counts.

End run_count_facts.

(** ** The run that nothing disturbs *)

Module run_found_facts.
Import BillboardPage run_spec run_more_spec run_facts run_more_facts run_count_facts.

Section Found.

Variable w : world.
Variable entries : list BillboardEntry.
Hypothesis never_stopped : forall n, stop_during w n = false.
Hypothesis found : always_found w.

Lemma attempts_found i entry remaining st :
  stop st = false ->
  let st' := attempts w (S remaining) i entry st in
  stop st' = false /\ calls st' = S (calls st)
  /\ newMatchedIndices st' = add (newMatchedIndices st) i
  /\ matched st' = matched st + 1.
Proof.
  intros Hs. cbn [attempts]. rewrite Hs.
  cbn [search emit calls]. destruct (found (calls st)) as (m & more & -> & Hm).
  unfold on_results. rewrite Hm. unfold record_match.
  cbn [emit await stop calls newMatchedIndices matched updatedTracks].
  rewrite Hs, never_stopped. repeat split.
Qed.

Lemma visit_found rest : forall i st,
  stop st = false ->
  let st' := visit w entries rest i st in
  stop st' = false
  /\ calls st' = (calls st + todo (newMatchedIndices st) i (length rest))%nat
  /\ matched st'
     = matched st + Z.of_nat (todo (newMatchedIndices st) i (length rest))
  /\ forall j, In j (newMatchedIndices st')
               <-> In j (newMatchedIndices st) \/ (i <= j < i + length rest)%nat.
Proof.
  induction rest as [|entry rest IH]; intros i st Hs; cbn [visit length].
  - cbv zeta. unfold todo. cbn [seq filter length].
    repeat split; try assumption; try lia.
    + intro H. left. exact H.
    + intros [H|H]; [exact H | lia].
  - rewrite Hs. destruct (has (newMatchedIndices st) i) eqn:Hi.
    + destruct (IH (S i) st Hs) as (A & B & C & D). cbv zeta.
      rewrite todo_skip by exact Hi.
      split; [exact A|]. split; [exact B|]. split; [exact C|].
      intro j. rewrite D. apply has_In in Hi. split.
      * intros [H|H]; [left; exact H | right; lia].
      * intros [H|H]; [left; exact H|].
        destruct (Nat.eq_dec j i) as [->|]; [left; exact Hi | right; lia].
    + match goal with
      | |- context [attempts w MAX_RETRIES i entry ?s] => set (st1 := s)
      end.
      assert (Hs1 : stop st1 = false) by exact Hs.
      destruct (attempts_found i entry 2 st1 Hs1) as (A2 & B2 & C2 & D2).
      change (attempts w 3 i entry st1) with (attempts w MAX_RETRIES i entry st1)
        in A2, B2, C2, D2.
      set (st2 := attempts w MAX_RETRIES i entry st1) in *.
      match goal with
      | |- context [visit w entries rest (S i) ?s] => set (st3 := s)
      end.
      assert (E3 : stop st3 = false /\ calls st3 = calls st2
                   /\ newMatchedIndices st3 = newMatchedIndices st2
                   /\ matched st3 = matched st2).
      { subst st3. destruct (_ && _); [|repeat split; exact A2].
        unfold delay. cbn [await emit stop calls newMatchedIndices matched].
        rewrite A2, never_stopped. repeat split. }
      destruct E3 as (A3 & B3 & C3 & D3).
      destruct (IH (S i) st3 A3) as (A & B & C & D). cbv zeta.
      rewrite C3, C2 in B, C, D. change (newMatchedIndices st1)
        with (newMatchedIndices st) in B, C, D.
      rewrite todo_add in B, C by lia. rewrite todo_take by exact Hi.
      change (calls st1) with (calls st) in B2.
      change (matched st1) with (matched st) in D2.
      split; [exact A|]. split; [lia|]. split; [lia|].
      intro j. rewrite D, In_add. split.
      * intros [[H|H]|H]; [left; exact H | right; lia | right; lia].
      * intros [H|H]; [left; left; exact H|].
        destruct (Nat.eq_dec j i) as [->|]; [left; right; reflexivity | right; lia].
Qed.

End Found.

End run_found_facts.

(** ** Facts about the handlers *)

Module handler_facts.
Import BillboardPage BillboardPage_handlers run_spec run_more_spec handlers_spec.
Import run_facts run_more_facts run_count_facts.

Lemma beq_true (s t : bytes) : beq s t = true <-> s = t.
Proof. unfold beq. destruct (list_eq_dec ascii_dec s t); split; congruence. Qed.

Lemma holds_In l k : holds l k = true <-> In k l.
Proof.
  unfold holds. rewrite existsb_exists. split.
  - intros (x & Hx & E). apply beq_true in E. subst. exact Hx.
  - intro H. exists k. split; [exact H | apply beq_true; reflexivity].
Qed.

Lemma holds_false l k : holds l k = false <-> ~ In k l.
Proof.
  rewrite <- holds_In. destruct (holds l k); split; congruence.
Qed.

Lemma unique_spec l : forall seen,
  NoDup (unique seen l)
  /\ forall k, In k (unique seen l) <-> In k l /\ ~ In k seen.
Proof.
  induction l as [|x l IH]; intro seen; cbn [unique].
  - split; [constructor|]. intro k. cbn [In]. tauto.
  - destruct (holds seen x) eqn:E.
    + destruct (IH seen) as [H1 H2]. split; [exact H1|].
      intro k. rewrite H2. apply holds_In in E. cbn [In]. split.
      * intros [A B]. split; [right; exact A | exact B].
      * intros [[->|A] B]; [contradiction | split; assumption].
    + destruct (IH (seen ++ [x])) as [H1 H2]. apply holds_false in E. split.
      * constructor; [|exact H1]. rewrite H2. intros [_ H]. apply H.
        apply in_or_app. right. left. reflexivity.
      * intro k. cbn [In]. rewrite H2. split.
        -- intros [->|[A B]]; [split; [left; reflexivity | exact E]|].
           split; [right; exact A|]. intro H. apply B, in_or_app. left. exact H.
        -- intros [[->|A] B]; [left; reflexivity|].
           destruct (list_eq_dec ascii_dec x k) as [->|Hne]; [left; reflexivity|].
           right. split; [exact A|]. intro H. apply in_app_or in H as [H|[H|[]]];
             [exact (B H) | exact (Hne H)].
Qed.

(** The keys that [toggleSelectAll] works on are the Spotify ids of the
    tracks that have one. *)
Lemma selectable_spec trackList k :
  In k (selectable trackList) <-> matched_id trackList k.
Proof.
  unfold selectable, matched_id, getTrackKey, isTrackMatched, truthy.
  rewrite in_map_iff. split.
  - intros (t & Hk & Ht). apply filter_In in Ht as [Ht Hm].
    destruct (spotify_id t) as [[|c s]|] eqn:E; try discriminate.
    subst k. split; [discriminate|]. exists t. split; [exact Ht | exact E].
  - intros (Hk & t & Ht & E). exists t. rewrite E.
    destruct k as [|c s]; [contradiction|]. split; [reflexivity|].
    apply filter_In. split; [exact Ht|]. rewrite E. reflexivity.
Qed.

Lemma allSelected_spec trackList selectedTracks :
  allSelected trackList selectedTracks = true
  <-> all_matched_selected trackList selectedTracks.
Proof.
  unfold allSelected, all_matched_selected.
  rewrite andb_true_iff, forallb_forall, Nat.ltb_lt. split.
  - intros [Hl Hall]. split.
    + destruct (selectable trackList) as [|k l] eqn:E;
        [cbn [length] in Hl; lia|].
      exists k. apply selectable_spec. rewrite E. left. reflexivity.
    + intros k Hk. apply holds_In, Hall, selectable_spec, Hk.
  - intros [(k & Hk) Hall]. split.
    + apply selectable_spec in Hk.
      destruct (selectable trackList); [destruct Hk | cbn [length]; lia].
    + intros k' Hk'. apply holds_In, Hall, selectable_spec, Hk'.
Qed.

Lemma first_unmatched_spec s n : forall i,
  (exists j, (i <= j < i + n)%nat /\ has s j = false) ->
  let start := first_unmatched s i n in
  (i <= start < i + n)%nat /\ has s start = false
  /\ forall j, (i <= j < start)%nat -> has s j = true.
Proof.
  induction n as [|n IH]; intros i (j & Hj & Hs); [lia|].
  cbn [first_unmatched]. destruct (has s i) eqn:Hi; cbn [negb].
  - destruct (IH (S i)) as (A & B & C).
    { exists j. split; [|exact Hs].
      destruct (Nat.eq_dec j i) as [->|]; [congruence | lia]. }
    cbv zeta. split; [lia|]. split; [exact B|].
    intros k Hk. destruct (Nat.eq_dec k i) as [->|]; [exact Hi | apply C; lia].
  - cbv zeta. split; [lia|]. split; [exact Hi|]. intros k Hk. lia.
Qed.

(** A set with fewer elements than the chart has entries misses an
    index of the chart. *)
Lemma some_unmatched s n :
  NoDup s -> (length s < n)%nat ->
  exists j, (0 <= j < 0 + n)%nat /\ has s j = false.
Proof.
  intros Hnd Hlen.
  destruct (existsb (fun j => negb (has s j)) (seq 0 n)) eqn:E.
  - apply existsb_exists in E as (j & Hj & Hs). apply in_seq in Hj.
    exists j. split; [lia|]. apply negb_true_iff in Hs. exact Hs.
  - exfalso.
    assert (Hincl : incl (seq 0 n) s).
    { intros j Hj. apply has_In.
      destruct (has s j) eqn:Hs; [reflexivity|].
      assert (existsb (fun j => negb (has s j)) (seq 0 n) = true).
      { apply existsb_exists. exists j. split; [exact Hj|]. rewrite Hs. reflexivity. }
      congruence. }
    apply NoDup_incl_length in Hincl; [|apply seq_NoDup].
    rewrite length_seq in Hincl. lia.
Qed.

Section Fresh.

Variable w : world.

Lemma nth_initial entries j entry :
  nth_error entries j = Some entry ->
  nth j (map Some (map initial_track entries)) None = Some (initial_track entry).
Proof.
  revert j. induction entries as [|e es IH]; intros [|j] H; try discriminate.
  - injection H as <-. reflexivity.
  - cbn [map nth]. apply IH. exact H.
Qed.

Lemma initial_no_id entries j : ~ has_id (map Some (map initial_track entries)) j.
Proof.
  intros (t & Ht & Hid). revert j Ht.
  induction entries as [|e es IH]; intros [|j] Ht; cbn [map nth] in Ht;
    try discriminate.
  - injection Ht as <-. discriminate Hid.
  - exact (IH j Ht).
Qed.

(** A run from scratch. *)
Lemma fresh_run entries mI mC :
  fresh_run_ok entries
    (matchWithSpotify w entries mI mC (map Some (map initial_track entries)) 0
                      (Some []) (Some 0)).
Proof.
  set (r := matchWithSpotify _ _ _ _ _ _ _ _).
  pose proof (run_effect w entries mI mC (map Some (map initial_track entries)) 0
                (Some []) (Some 0)) as He.
  fold r in He. cbv beta iota in He.
  split; [|split; [|split]].
  - pose proof (effect_length _ _ _ _ He) as HL.
    unfold core_of in HL. cbn [fst] in HL.
    rewrite HL by (right; rewrite !length_map; lia).
    rewrite !length_map. reflexivity.
  - assert (H0 : good []
              {| updatedTracks := map Some (map initial_track entries);
                 newMatchedIndices := new_Set [];
                 matched := 0;
                 stop := false; calls := 0; awaits := 0;
                 events := [SetIsMatchingSpotify true] |}).
    { split; [constructor|]. split; [reflexivity|].
      cbn [newMatchedIndices events]. vm_compute observe.
      unfold view_ok. cbn [paired pending pairs map last].
      repeat split; [constructor | apply incl_refl]. }
    assert (H : good [] r).
    { subst r. unfold matchWithSpotify.
      match goal with |- good _ (if ?c then _ else _) => destruct c end;
        repeat (apply good_emit; [reflexivity|]);
        apply good_visit; exact H0. }
    apply H.
  - pose proof (effect_consistent _ _ _ _ He) as HC.
    unfold core_of in HC. cbn [fst snd] in HC. apply HC.
    intro j. split; [intros [] | intro H; exact (initial_no_id entries j H)].
  - intros j entry Hj.
    pose proof (effect_labels _ _ _ _ He j (initial_track entry)) as HL.
    unfold core_of in HL. cbn [fst] in HL.
    destruct (HL (nth_initial _ _ _ Hj)) as (t & Ht & Hn & Ha & Hk).
    exists t. split; [exact Ht|]. rewrite Hn, Ha, Hk. repeat split.
Qed.

End Fresh.

End handler_facts.

(** ** Facts about the page list and the pages *)

Module history_facts.
Import HistoryPage history_spec.

Lemma numbers_pages {I : Type} (f : I -> Z) (l : list I) :
  numbers (map (fun i => page (f i)) l) = map f l.
Proof.
  induction l as [|k l IH]; [reflexivity|]. cbn. f_equal. exact IH.
Qed.

Lemma pushed_numbers from to :
  numbers (pushed from to)
  = map (fun k => from + Z.of_nat k) (seq 0 (Z.to_nat (to - from + 1))).
Proof. apply numbers_pages. Qed.

Lemma sorted_from (f : nat -> Z) n : forall i,
  (forall a b, (a < b)%nat -> f a < f b) ->
  StronglySorted Z.lt (map f (seq i n)).
Proof.
  induction n as [|n IH]; intros i Hf; [constructor|].
  cbn [seq map]. constructor; [apply IH, Hf|].
  apply Forall_forall. intros x Hx. apply in_map_iff in Hx.
  destruct Hx as (k & <- & Hk). apply in_seq in Hk. apply Hf. lia.
Qed.

Lemma sorted_app (l1 l2 : list Z) :
  StronglySorted Z.lt l1 -> StronglySorted Z.lt l2 ->
  (forall x y, In x l1 -> In y l2 -> x < y) ->
  StronglySorted Z.lt (l1 ++ l2).
Proof.
  induction l1 as [|a l1 IH]; intros H1 H2 H; [exact H2|].
  cbn [app]. inversion H1; subst. constructor.
  - apply IH; [assumption|assumption|]. intros x y Hx Hy. apply H; [right|]; assumption.
  - apply Forall_app. split; [assumption|].
    apply Forall_forall. intros y Hy. apply H; [left; reflexivity | exact Hy].
Qed.

Lemma in_pushed from to n :
  In (page n) (pushed from to) <-> from <= n <= to.
Proof.
  unfold pushed. rewrite in_map_iff. split.
  - intros (k & E & Hk). injection E as <-. apply in_seq in Hk. lia.
  - intro H. exists (Z.to_nat (n - from)). split; [f_equal; lia|].
    apply in_seq. lia.
Qed.

End history_facts.

Module history_slice_facts.
Import HistoryPage history_spec.

Lemma slice_inside {A : Type} (a : list A) start end_ :
  0 <= start <= end_ ->
  slice a start end_
  = firstn (Z.to_nat (end_ - start)) (skipn (Z.to_nat start) a).
Proof.
  intro H. unfold slice. cbv zeta.
  destruct (start <? 0) eqn:E1; [apply Z.ltb_lt in E1; lia|].
  destruct (end_ <? 0) eqn:E2; [apply Z.ltb_lt in E2; lia|].
  destruct (Z.le_gt_cases (Z.of_nat (length a)) start) as [L|L].
  - rewrite (skipn_all2 (n := Z.to_nat start)) by lia.
    rewrite (skipn_all2 (n := Z.to_nat (Z.min _ _))) by lia.
    rewrite !firstn_nil. reflexivity.
  - rewrite (Z.min_l start) by lia.
    destruct (Z.le_gt_cases end_ (Z.of_nat (length a))) as [L2|L2].
    + rewrite Z.min_l by lia. reflexivity.
    + rewrite Z.min_r by lia.
      rewrite !firstn_all2; [reflexivity| |]; rewrite length_skipn; lia.
Qed.

Lemma firstn_plus {A : Type} (l : list A) b : forall a,
  firstn (a + b) l = firstn a l ++ firstn b (skipn a l).
Proof.
  induction l as [|x l IH]; intro a.
  - rewrite skipn_nil, !firstn_nil. reflexivity.
  - destruct a as [|a]; [reflexivity|]. cbn [Nat.add firstn skipn app].
    f_equal. apply IH.
Qed.

Lemma chunks {A : Type} (l : list A) k n :
  List.concat (map (fun i => firstn k (skipn (k * i) l)) (seq 0 n))
  = firstn (k * n) l.
Proof.
  induction n as [|n IH]; [rewrite Nat.mul_0_r; reflexivity|].
  rewrite seq_S, map_app, List.concat_app, IH. cbn [map List.concat Nat.add].
  rewrite app_nil_r, Nat.mul_succ_r. symmetry. apply firstn_plus.
Qed.

Lemma paginated_chunk {A : Type} (l : list A) p :
  1 <= p ->
  paginated l p = firstn 50 (skipn (50 * Z.to_nat (p - 1)) l).
Proof.
  intro H. unfold paginated, ITEMS_PER_PAGE. cbv zeta.
  rewrite slice_inside by lia. f_equal; [f_equal; lia|]. f_equal. lia.
Qed.

Lemma totalPages_spec {A : Type} (l : list A) :
  Z.of_nat (length l) <= 50 * totalPages l < Z.of_nat (length l) + 50.
Proof.
  unfold totalPages, ceil_div, ITEMS_PER_PAGE.
  pose proof (Z.div_mod (- Z.of_nat (length l)) 50 ltac:(lia)).
  pose proof (Z.mod_pos_bound (- Z.of_nat (length l)) 50 ltac:(lia)). lia.
Qed.

End history_slice_facts.

(** ** Facts about the cache *)

Module cache_facts.
Import BillboardPage_cache.

Lemma beq_refl s : beq s s = true.
Proof. apply handler_facts.beq_true. reflexivity. Qed.

Lemma key_differs d1 d2 :
  d1 <> d2 -> beq (CACHE_KEY_PREFIX ++ d1) (CACHE_KEY_PREFIX ++ d2) = false.
Proof.
  intro H. destruct (beq _ _) eqn:E; [|reflexivity].
  apply handler_facts.beq_true in E. apply app_inv_head in E. contradiction.
Qed.

Section Codec.

Variable JSON_parse : bytes -> option CachedBillboardData.
Variable JSON_stringify : CachedBillboardData -> bytes.
Variable room : Storage -> bytes -> bytes -> bool.

Lemma load_saved data st now :
  JSON_stringify data <> [] ->
  JSON_parse (JSON_stringify data) = Some data ->
  room st (CACHE_KEY_PREFIX ++ date data) (JSON_stringify data) = true ->
  let key := CACHE_KEY_PREFIX ++ date data in
  let saved := put st key (Some (JSON_stringify data)) in
  saveCachedData JSON_stringify room data st = saved
  /\ loadCachedData JSON_parse now (date data) saved
     = if 604800000 <? now - timestamp data
       then (None, removeItem saved key)
       else (Some data, saved).
Proof.
  intros Hne Hparse Hroom key saved.
  split; [unfold saveCachedData, setItem; cbv zeta; rewrite Hroom; reflexivity|].
  unfold loadCachedData, getItem. cbv zeta. fold key.
  assert (G : saved key = Some (JSON_stringify data))
    by (unfold saved, put; rewrite beq_refl; reflexivity).
  rewrite G. destruct (JSON_stringify data) as [|c v]; [contradiction|].
  rewrite Hparse. reflexivity.
Qed.

Lemma put_other st d v other :
  other <> d ->
  put st (CACHE_KEY_PREFIX ++ d) v (CACHE_KEY_PREFIX ++ other)
  = st (CACHE_KEY_PREFIX ++ other).
Proof. intro H. unfold put. rewrite (key_differs other d H). reflexivity. Qed.

End Codec.

End cache_facts.

(** ** Facts about the path utilities *)

Module utils_facts.
Import utf8 strings regexp utils utils_spec.
Import utf8_spec strings_spec utf8_facts trim_facts.

(** Replacing each match of a one-byte pattern. *)
Lemma match_class cls bos c t :
  match_here [Many cls 1 (Some 1%nat) true false] bos (c :: t)
  = if cls c then Some ([c], [], t) else None.
Proof.
  cbn [match_here span option_map Nat.pred].
  assert (Z : span cls (Some 0%nat) t = 0%nat) by (destruct t; reflexivity).
  rewrite Z. destruct (cls c); reflexivity.
Qed.

Lemma match_chr x bos c t :
  match_here [Chr x] bos (c :: t)
  = if Ascii.eqb c x then Some ([c], [], t) else None.
Proof. cbn [match_here]. destruct (Ascii.eqb c x); reflexivity. Qed.

Lemma scan_one (re : regex) (cls : ascii -> bool) (s : bytes) :
  (forall bos c t, match_here re bos (c :: t)
                   = if cls c then Some ([c], @nil bytes, t) else None) ->
  (forall bos, match_here re bos [] = None) ->
  forall adj bos,
  flat_map (fun sg => match sg with Text c => [c] | Hit _ _ => B "_" end)
           (scan re 0 adj bos s)
  = underscored cls s.
Proof.
  intros Hm Hn. induction s as [|c t IH]; intros adj bos.
  - cbn [scan]. rewrite Hn. reflexivity.
  - cbn [scan]. rewrite Hm. unfold underscored, under. cbn [map].
    destruct (cls c); cbn [flat_map length Nat.sub app]; rewrite IH; reflexivity.
Qed.

Lemma sanitizePath_spec input os :
  sanitizePath input os
  = underscored (if beq os (B "Windows") then windows_invalid
                 else fun c => Ascii.eqb c "/")
                (BillboardPage.trim input).
Proof.
  unfold sanitizePath, ReplaceAllString. cbv zeta.
  destruct (beq os (B "Windows")); apply scan_one;
    solve [intros; apply match_class | intros; apply match_chr | reflexivity].
Qed.

(** A map that sends the bytes of ASCII to bytes of ASCII and keeps the
    others does not change what decodes at the start or at the end of a
    text that begins or ends outside ASCII. *)
Section AsciiMap.

Variable g : ascii -> ascii.
Hypothesis g_low : forall c, code c < 0x80 -> code (g c) < 0x80.
Hypothesis g_high : forall c, 0x80 <= code c -> g c = c.

Lemma outside_map lo hi b :
  0x80 <= lo ->
  outside lo hi (code (g b)) = outside lo hi (code b)
  /\ (outside lo hi (code b) = false -> g b = b).
Proof.
  intro Hlo. destruct (Z.lt_ge_cases (code b) 0x80) as [L|L].
  - pose proof (g_low b L) as L'. unfold outside.
    rewrite (proj2 (Z.ltb_lt (code b) lo)), (proj2 (Z.ltb_lt (code (g b)) lo)) by lia.
    split; [reflexivity | discriminate].
  - rewrite (g_high b L). split; reflexivity.
Qed.

Lemma decode_map s :
  DecodeRuneInString (map g s)
  = match s with
    | [] => (RuneError, 0%nat)
    | c :: _ => if code c <? 0x80 then (code (g c), 1%nat)
                else DecodeRuneInString s
    end.
Proof.
  destruct s as [|b0 t]; [reflexivity|]. cbn [map].
  destruct (code b0 <? 0x80) eqn:E0.
  - apply Z.ltb_lt in E0. apply decode_head_ascii, g_low, E0.
  - pose proof E0 as E0'. apply Z.ltb_ge in E0'. rewrite (g_high b0 E0').
    unfold DecodeRuneInString, RuneSelf. rewrite E0.
    destruct (first (code b0)) as [|sz lo hi] eqn:F; [reflexivity|].
    destruct (first_bounds _ _ _ _ F) as (Hlo & _ & _).
    destruct t as [|b1 t1]; [reflexivity|]. cbn [map]. cbv zeta.
    destruct (outside_map lo hi b1 Hlo) as [O1 G1]. rewrite O1.
    destruct (outside lo hi (code b1)); [reflexivity|]. rewrite (G1 eq_refl).
    destruct (sz <=? 2)%nat; [reflexivity|].
    destruct t1 as [|b2 t2]; [reflexivity|]. cbn [map].
    destruct (outside_map 0x80 0xBF b2 ltac:(lia)) as [O2 G2]. rewrite O2.
    destruct (outside 0x80 0xBF (code b2)); [reflexivity|]. rewrite (G2 eq_refl).
    destruct (sz <=? 3)%nat; [reflexivity|].
    destruct t2 as [|b3 t3]; [reflexivity|]. cbn [map].
    destruct (outside_map 0x80 0xBF b3 ltac:(lia)) as [O3 G3]. rewrite O3.
    destruct (outside 0x80 0xBF (code b3)); [reflexivity|]. rewrite (G3 eq_refl).
    reflexivity.
Qed.

Lemma RuneStart_map b : RuneStart (g b) = RuneStart b.
Proof.
  destruct (Z.lt_ge_cases (code b) 0x80) as [L|L].
  - rewrite !ascii_start; [reflexivity | exact L | apply g_low, L].
  - rewrite (g_high b L). reflexivity.
Qed.

Lemma walk_back_map k : forall rt, walk_back k (map g rt) = walk_back k rt.
Proof.
  induction k as [|k IH]; intros [|b rt]; try reflexivity.
  cbn [map walk_back]. rewrite RuneStart_map, IH. reflexivity.
Qed.

Lemma decode_last_map s :
  DecodeLastRuneInString (map g s)
  = match rev s with
    | [] => (RuneError, 0%nat)
    | c :: _ => if code c <? 0x80 then (code (g c), 1%nat)
                else DecodeLastRuneInString s
    end.
Proof.
  unfold DecodeLastRuneInString. rewrite <- map_rev.
  destruct (rev s) as [|b rt]; [reflexivity|]. cbn [map]. unfold RuneSelf.
  destruct (code b <? 0x80) eqn:E.
  - apply Z.ltb_lt in E. rewrite (proj2 (Z.ltb_lt _ _) (g_low b E)). reflexivity.
  - pose proof E as E'. apply Z.ltb_ge in E'. rewrite (g_high b E'), E.
    cbv zeta. rewrite walk_back_map, firstn_map, <- map_rev.
    set (pre := rev (firstn (walk_back (UTFMax - 1) rt) rt)).
    replace (map g pre ++ [b]) with (map g (pre ++ [b]))
      by (rewrite map_app; cbn [map]; rewrite (g_high b E'); reflexivity).
    rewrite decode_map, length_map.
    destruct (pre ++ [b]) as [|c0 ct] eqn:Ec; [reflexivity|].
    destruct (code c0 <? 0x80) eqn:E0; [|reflexivity].
    rewrite decode_head_ascii by (apply Z.ltb_lt; exact E0).
    destruct ct as [|c1 ct]; [|reflexivity].
    destruct pre as [|p0 [|p1 pre]]; cbn [app] in Ec; try discriminate.
    injection Ec as <-. congruence.
Qed.

End AsciiMap.

(** The classes of [sanitizePath] hold bytes of ASCII only, and not the
    underscore. *)
Lemma windows_invalid_ascii c : windows_invalid c = true -> code c < 0x80.
Proof.
  unfold windows_invalid, one_of. cbn [list_ascii_of_string existsb].
  intro H. repeat (apply orb_true_iff in H; destruct H as [H|H]);
    try discriminate; apply Ascii.eqb_eq in H; subst c; reflexivity.
Qed.

Lemma windows_invalid_forbidden c :
  In (code c) windows_forbidden -> windows_invalid c = true.
Proof.
  unfold windows_forbidden. intro H.
  assert (E : exists z, In z [0x3C; 0x3E; 0x3A; 0x22; 0x2F; 0x7C; 0x3F; 0x2A]
                        /\ c = byte_of z).
  { exists (code c). split; [exact H | symmetry; apply byte_of_code]. }
  destruct E as (z & Hz & ->). cbn [In] in Hz.
  repeat (destruct Hz as [<-|Hz]; [reflexivity|]). destruct Hz.
Qed.

Lemma js_space_error : BillboardPage.js_space RuneError = false.
Proof. reflexivity. Qed.

Section Underscored.

Variable cls : ascii -> bool.
Hypothesis cls_ascii : forall c, cls c = true -> code c < 0x80.
Hypothesis cls_underscore : cls "_"%char = false.

Lemma under_low c : code c < 0x80 -> code (under cls c) < 0x80.
Proof. intro H. unfold under. destruct (cls c); [reflexivity | exact H]. Qed.

Lemma under_high c : 0x80 <= code c -> under cls c = c.
Proof.
  intro H. unfold under. destruct (cls c) eqn:E; [|reflexivity].
  apply cls_ascii in E. lia.
Qed.

Lemma underscored_free s : Forall (fun c => cls c = false) (underscored cls s).
Proof.
  apply Forall_forall. intros c Hc. apply in_map_iff in Hc.
  destruct Hc as (d & <- & _). unfold under. destruct (cls d) eqn:E; assumption.
Qed.

Lemma underscored_twice s : underscored cls (underscored cls s) = underscored cls s.
Proof.
  unfold underscored. rewrite map_map. apply map_ext. intro c. unfold under.
  destruct (cls c) eqn:E; [rewrite cls_underscore | rewrite E]; reflexivity.
Qed.

Lemma under_not_space c :
  code c < 0x80 -> BillboardPage.js_space (code c) = false ->
  BillboardPage.js_space (code (under cls c)) = false.
Proof. intros _ H. unfold under. destruct (cls c); [reflexivity | exact H]. Qed.

Lemma trim_underscored s :
  BillboardPage.trim (underscored cls (BillboardPage.trim s))
  = underscored cls (BillboardPage.trim s).
Proof.
  unfold BillboardPage.trim at 1.
  destruct (TrimFunc_spec BillboardPage.js_space s js_space_error) as [_ H].
  fold (BillboardPage.trim s) in H.
  destruct H as [->|[Hf Hl]]; [reflexivity|].
  set (t := BillboardPage.trim s) in *. clearbody t.
  unfold underscored, TrimFunc. rewrite TrimLeftFunc_fixed.
  - destruct (list_eq_dec ascii_dec t []) as [->|Ht]; [reflexivity|].
    apply TrimRightFunc_fixed.
    + intro E. apply map_eq_nil in E. contradiction.
    + unfold last_rune in *.
      rewrite (decode_last_map (under cls) under_low under_high).
      destruct (snoc_cases t) as [->|(u & b & ->)]; [contradiction|].
      rewrite rev_unit. destruct (code b <? 0x80) eqn:E; [|exact Hl].
      apply Z.ltb_lt in E. rewrite decode_last_ascii in Hl by exact E.
      cbn [fst] in *. apply under_not_space; assumption.
  - unfold first_rune in *.
    rewrite (decode_map (under cls) under_low under_high).
    destruct t as [|c t]; [reflexivity|].
    destruct (code c <? 0x80) eqn:E; [|exact Hf].
    apply Z.ltb_lt in E. rewrite decode_head_ascii in Hf by exact E.
    cbn [fst] in *. apply under_not_space; assumption.
Qed.

End Underscored.

End utils_facts.

Module join_facts.
Import strings utils utils_spec join_spec.

(** The class of [joinPath] holds the slash and the backslash, and
    nothing else. *)
Lemma slash_separator c : slash c = separator c.
Proof. reflexivity. Qed.

Lemma strip_start_cases p :
  (strip_start p = [] /\ blank p = true)
  \/ (exists c t, strip_start p = c :: t /\ separator c = false
                  /\ blank p = false).
Proof.
  induction p as [|c t IH]; [left; split; reflexivity|].
  cbn [strip_start blank forallb]. rewrite slash_separator.
  destruct (separator c) eqn:E.
  - exact IH.
  - right. exists c, t. repeat split. exact E.
Qed.

Lemma strip_start_suffix p : exists pre, p = pre ++ strip_start p.
Proof.
  induction p as [|c t [pre IH]]; [exists []; reflexivity|].
  cbn [strip_start]. destruct (slash c); [|exists []; reflexivity].
  exists (c :: pre). cbn [app]. f_equal. exact IH.
Qed.

Lemma blank_rev p : blank (rev p) = blank p.
Proof.
  unfold blank. destruct (forallb separator p) eqn:E.
  - rewrite forallb_forall in *. intros x Hx. apply E, in_rev, Hx.
  - destruct (forallb separator (rev p)) eqn:E'; [|reflexivity].
    rewrite <- E. symmetry. rewrite forallb_forall in *.
    intros x Hx. apply E'. rewrite <- in_rev. exact Hx.
Qed.

Lemma blank_app p q : blank (p ++ q) = blank p && blank q.
Proof. apply forallb_app. Qed.

Lemma strip_end_cases p :
  (strip_end p = [] /\ blank p = true)
  \/ (strip_end p <> [] /\ ends_with_slash (strip_end p) = false
      /\ blank p = false).
Proof.
  unfold strip_end, ends_with_slash. rewrite rev_involutive.
  destruct (strip_start_cases (rev p)) as [[E B]|(c & t & E & Hc & B)];
    rewrite blank_rev in B; rewrite E.
  - left. split; [reflexivity | exact B].
  - right. split; [|split; [exact Hc | exact B]].
    intro H. apply (f_equal (@rev ascii)) in H. rewrite rev_involutive in H.
    discriminate.
Qed.

Lemma strip_end_prefix p : exists post, p = strip_end p ++ post.
Proof.
  unfold strip_end. destruct (strip_start_suffix (rev p)) as [pre H].
  exists (rev pre). rewrite <- rev_app_distr, <- H. symmetry. apply rev_involutive.
Qed.

Lemma strip_both_cases p :
  (strip_both p = [] /\ blank p = true)
  \/ (strip_both p <> [] /\ ends_with_slash (strip_both p) = false
      /\ blank p = false).
Proof.
  unfold strip_both.
  destruct (strip_start_cases p) as [[E B]|(c & t & E & Hc & B)].
  - rewrite E. left. split; [reflexivity | exact B].
  - destruct (strip_end_cases (strip_start p)) as [[E' B']|(N & S & _)].
    + rewrite E in B'. cbn [blank forallb] in B'. rewrite Hc in B'. discriminate.
    + right. split; [exact N | split; [exact S | exact B]].
Qed.

Lemma stripped_cases parts : forall i,
  Forall (fun q => q <> [] /\ ends_with_slash q = false)
         (nonempty (stripped i parts))
  /\ (nonempty (stripped i parts) = [] <-> forallb blank parts = true).
Proof.
  induction parts as [|p rest IH]; intro i.
  - split; [constructor | split; reflexivity].
  - destruct (IH (S i)) as [F N]. cbn [stripped forallb].
    set (q := if (i =? 0)%nat then strip_end p else strip_both p).
    assert (C : (q = [] /\ blank p = true)
                \/ (q <> [] /\ ends_with_slash q = false /\ blank p = false)).
    { subst q. destruct (i =? 0)%nat; [apply strip_end_cases | apply strip_both_cases]. }
    unfold nonempty in *. cbn [filter].
    destruct C as [[-> B]|(Hq & Hs & B)]; rewrite B.
    + cbn [is_empty negb andb]. split; [exact F | exact N].
    + destruct q as [|c q'] eqn:Eq; [contradiction|]. cbn [is_empty negb andb].
      split; [constructor; [split; assumption | exact F]|].
      split; discriminate.
Qed.

Lemma ends_app p q : q <> [] -> ends_with_slash (p ++ q) = ends_with_slash q.
Proof.
  intro H. unfold ends_with_slash. rewrite rev_app_distr.
  destruct (rev q) as [|c t] eqn:E; [|reflexivity].
  apply (f_equal (@rev ascii)) in E. rewrite rev_involutive in E. contradiction.
Qed.

Lemma Join_ends l sep :
  Forall (fun q => q <> [] /\ ends_with_slash q = false) l ->
  ends_with_slash (Join l sep) = false /\ (l <> [] -> Join l sep <> []).
Proof.
  induction 1 as [|q l [Hq Hs] _ IH]; [split; [reflexivity | congruence]|].
  cbn [Join]. destruct l as [|q' l'].
  - split; [exact Hs | intros _; exact Hq].
  - destruct IH as [IH1 IH2]. specialize (IH2 ltac:(discriminate)).
    split.
    + rewrite !ends_app; [exact IH1 | exact IH2|].
      intro E. apply app_eq_nil in E. destruct E as [_ E]. contradiction.
    + intros _ E. apply app_eq_nil in E. destruct E as [E _]. contradiction.
Qed.

Lemma nonempty_blank parts : forallb blank (nonempty parts) = forallb blank parts.
Proof.
  induction parts as [|p rest IH]; [reflexivity|].
  unfold nonempty in *. cbn [filter forallb].
  destruct p as [|c p]; cbn [is_empty negb]; [exact IH|].
  cbn [forallb]. rewrite IH. reflexivity.
Qed.

End join_facts.

Module output_facts.
Import strings utils utils_spec join_spec join_facts.

Lemma slashes_app p q : slashes (p ++ q) = (slashes p + slashes q)%nat.
Proof. unfold slashes. rewrite filter_app, length_app. reflexivity. Qed.

Lemma slashes_strip_start p : (slashes (strip_start p) <= slashes p)%nat.
Proof.
  destruct (strip_start_suffix p) as [pre H]. rewrite H at 2.
  rewrite slashes_app. lia.
Qed.

Lemma slashes_strip_end p : (slashes (strip_end p) <= slashes p)%nat.
Proof.
  destruct (strip_end_prefix p) as [post H]. rewrite H at 2.
  rewrite slashes_app. lia.
Qed.

Lemma slashes_strip_both p : (slashes (strip_both p) <= slashes p)%nat.
Proof.
  unfold strip_both. pose proof (slashes_strip_end (strip_start p)).
  pose proof (slashes_strip_start p). lia.
Qed.

Lemma slashes_underscored s :
  slashes (underscored (fun c => Ascii.eqb c "/") s) = 0%nat.
Proof.
  induction s as [|c t IH]; [reflexivity|].
  unfold slashes, underscored in *. cbn [map filter]. unfold under at 1.
  destruct (Ascii.eqb c "/") eqn:E; cbn [Ascii.eqb Bool.eqb andb]; [exact IH|].
  rewrite E. exact IH.
Qed.

Lemma slashes_Join_two a b :
  (slashes (Join (nonempty [a; b]) (B "/")) <= slashes a + slashes b + 1)%nat.
Proof.
  unfold nonempty. cbn [filter].
  destruct a as [|x a], b as [|y b]; cbn [is_empty negb Join];
    rewrite ?slashes_app; change (slashes (B "/")) with 1%nat;
    change (slashes []) with 0%nat; lia.
Qed.

End output_facts.

(** ** Facts about the ranks of the chart parser *)

Module rank_facts.
Import utf8 strings strings_spec regexp billboard parser_spec parser_more_spec.
Import bytes_facts trim_facts parser_facts.








Section Parser.

Variable entity : bytes -> Z.
Variable entity2 : bytes -> Z * Z.






End Parser.

End rank_facts.

(** ** Facts about the trace of the matching run *)

Module trace_facts.
Import BillboardPage run_spec run_more_spec.
Import run_facts run_more_facts run_count_facts.

(** *** The events after a suspension *)

Lemma suspensions_cons e evs :
  suspensions (e :: evs)
  = ((if silent e then 0 else 1) + suspensions evs)%nat.
Proof. unfold suspensions. destruct e; reflexivity. Qed.

Lemma rest_after_snoc e evs : forall K,
  rest_after K (evs ++ [e])
  = if (suspensions evs <=? K)%nat then [] else rest_after K evs ++ [e].
Proof.
  induction evs as [|x evs IH]; intro K.
  - cbn [app rest_after]. destruct (silent e); [reflexivity|].
    destruct K; reflexivity.
  - cbn [app rest_after]. rewrite suspensions_cons.
    destruct (silent x).
    + rewrite IH. reflexivity.
    + destruct K as [|K']; [reflexivity|]. rewrite IH. reflexivity.
Qed.

Lemma suspensions_rest_after evs : forall K,
  suspensions (rest_after K evs) = (suspensions evs - S K)%nat.
Proof.
  induction evs as [|x evs IH]; intro K; [reflexivity|].
  cbn [rest_after]. rewrite suspensions_cons.
  destruct (silent x); [rewrite IH; reflexivity|].
  destruct K as [|K']; [cbn; lia|]. rewrite IH. cbn. lia.
Qed.

Section Stop.

Variable w : world.
Variable entries : list BillboardEntry.
Variable K : nat.
Hypothesis stop_at_K : stop_during w K = true.

Lemma late_emit e st :
  (match e with SearchSpotify _ _ => false | _ => true end) = true ->
  late K st -> late K (emit e st).
Proof.
  intros He H. unfold late in *. cbn [emit events]. rewrite rest_after_snoc.
  destruct (_ <=? _)%nat; [reflexivity|].
  unfold searches in *. rewrite filter_app, length_app, H.
  destruct e; try discriminate He; reflexivity.
Qed.

Lemma late_await st : late K st -> late K (await w st).
Proof. exact (fun H => H). Qed.

Lemma late_delay ms st : late K st -> late K (delay w ms st).
Proof. intro H. unfold delay. apply late_await, late_emit; [reflexivity | exact H]. Qed.

Lemma late_search q st :
  counted st -> before K st -> stop st = false ->
  late K (snd (search w q st)).
Proof.
  intros [_ Hc] (_ & Hb & _) Hs. destruct (Hb Hs) as [Ha _].
  unfold late. cbn [search snd await emit events]. rewrite rest_after_snoc.
  rewrite Hc. rewrite (proj2 (Nat.leb_le _ _) Ha). reflexivity.
Qed.

Lemma late_on_results i results st : late K st -> late K (on_results i results st).
Proof.
  intro H. unfold on_results. apply late_emit; [reflexivity|].
  destruct results as [[[|[m|] ?]|]|]; try exact H.
  destruct (truthy (id m)); [|exact H].
  unfold record_match. apply late_emit; [reflexivity|].
  apply late_emit; [reflexivity|]. exact H.
Qed.

Lemma late_attempts i entry remaining : forall st,
  counted st -> before K st -> late K st ->
  late K (attempts w remaining i entry st).
Proof.
  induction remaining as [|r IH]; intros st Hc Hb Hl; cbn [attempts]; [exact Hl|].
  destruct (stop st) eqn:Hs; [exact Hl|].
  pose proof (before_search w K stop_at_K (search_query entry) st Hb Hs) as Hb1.
  pose proof (counted_search w (search_query entry) st Hc) as Hc1.
  pose proof (late_search (search_query entry) st Hc Hb Hs) as Hl1.
  destruct (search w (search_query entry) st) as [result st1].
  cbn [snd] in Hb1, Hc1, Hl1.
  destruct result as [results|err]; [apply late_on_results, Hl1|].
  assert (Hnext : forall st2,
            counted st2 -> late K st2 -> (stop st2 = false -> before K st2) ->
            late K (attempts w r i entry st2)).
  { intros st2 Hc2 Hl2 Hb2. destruct (stop st2) eqn:Hs2.
    - rewrite (attempts_stopped w) by exact Hs2. exact Hl2.
    - apply IH; [exact Hc2 | apply Hb2; reflexivity | exact Hl2]. }
  assert (Hdelay : forall ms st2,
            counted st2 -> before K st2 -> late K st2 ->
            late K (attempts w r i entry (delay w ms st2))).
  { intros ms st2 Hc2 Hb2 Hl2. apply Hnext.
    - apply counted_delay, Hc2.
    - apply late_delay, Hl2.
    - unfold delay. intro Hs2.
      assert (Hs3 : stop (emit (Delay ms) st2) = false).
      { cbn [await stop] in Hs2. apply orb_false_iff in Hs2 as [Hs2 _]. exact Hs2. }
      apply (before_await w K stop_at_K); [exact Hb2 | exact Hs3]. }
  destruct (isRateLimited err).
  - apply Hdelay.
    + repeat (apply counted_emit; [reflexivity|]). exact Hc1.
    + exact Hb1.
    + repeat (apply late_emit; [reflexivity|]). exact Hl1.
  - destruct (_ <? _)%nat.
    + apply Hdelay.
      * repeat (apply counted_emit; [reflexivity|]). exact Hc1.
      * exact Hb1.
      * repeat (apply late_emit; [reflexivity|]). exact Hl1.
    + apply Hnext.
      * repeat (apply counted_emit; [reflexivity|]). exact Hc1.
      * repeat (apply late_emit; [reflexivity|]). exact Hl1.
      * intros _. exact Hb1.
Qed.

Lemma before_attempts i entry remaining st :
  before K st -> stop (attempts w remaining i entry st) = false ->
  before K (attempts w remaining i entry st).
Proof.
  intros Hb Hs.
  destruct (after_attempts w K stop_at_K i entry remaining st Hb) as (A & B & _).
  split; [exact A|]. split; [exact B|]. congruence.
Qed.

Lemma late_visit_stopped rest i st :
  stop st = true -> late K st -> late K (visit w entries rest i st).
Proof.
  intros Hs H. destruct rest; cbn [visit]; [exact H|]. rewrite Hs.
  repeat (apply late_emit; [reflexivity|]). exact H.
Qed.

Lemma late_visit rest : forall i st,
  counted st -> before K st -> late K st ->
  late K (visit w entries rest i st).
Proof.
  induction rest as [|entry rest IH]; intros i st Hc Hb Hl; cbn [visit];
    [exact Hl|].
  destruct (stop st) eqn:Hs;
    [repeat (apply late_emit; [reflexivity|]); exact Hl|].
  destruct (has (newMatchedIndices st) i); [apply IH; assumption|].
  match goal with
  | |- context [attempts w MAX_RETRIES i entry ?s] => set (st1 := s)
  end.
  assert (Hc1 : counted st1)
    by (subst st1; repeat (apply counted_emit; [reflexivity|]); exact Hc).
  assert (Hb1 : before K st1) by exact Hb.
  assert (Hl1 : late K st1)
    by (subst st1; repeat (apply late_emit; [reflexivity|]); exact Hl).
  pose proof (late_attempts i entry MAX_RETRIES st1 Hc1 Hb1 Hl1) as Hl2.
  pose proof (counted_attempts w i entry MAX_RETRIES st1 Hc1) as Hc2.
  set (st2 := attempts w MAX_RETRIES i entry st1) in *.
  destruct (stop st2) eqn:Hs2.
  - rewrite andb_false_r. apply late_visit_stopped; assumption.
  - pose proof (before_attempts i entry MAX_RETRIES st1 Hb1 Hs2) as Hb2.
    fold st2 in Hb2. rewrite andb_true_r.
    destruct (_ <? _); [|apply IH; assumption].
    set (st3 := delay w BASE_DELAY st2).
    assert (Hc3 : counted st3) by (apply counted_delay, Hc2).
    assert (Hl3 : late K st3) by (apply late_delay, Hl2).
    destruct (stop st3) eqn:Hs3.
    + apply late_visit_stopped; assumption.
    + apply IH; [exact Hc3 | | exact Hl3].
      subst st3. unfold delay in *.
      apply (before_await w K stop_at_K); [exact Hb2 | exact Hs2].
Qed.

Lemma late_run mI mC tracks start init initCount :
  late K (matchWithSpotify w entries mI mC tracks start init initCount).
Proof.
  unfold matchWithSpotify. cbv zeta.
  match goal with |- late K (if ?c then _ else _) => destruct c end;
    repeat (apply late_emit; [reflexivity|]);
    (apply late_visit;
     [split; reflexivity
     | split; [cbn [calls]; lia|];
       split; intro E; [cbn [calls awaits]; lia | discriminate E]
     | reflexivity]).
Qed.

End Stop.

(** *** The search calls, entry by entry *)

(** Every search call of a trace is counted once. *)
Lemma tally_total evs : forall t,
  let t' := fold_left tally_step evs t in
  (stray t' + list_sum (map snd (per_track t'))
   = stray t + list_sum (map snd (per_track t)) + searches evs)%nat.
Proof.
  induction evs as [|e evs IH]; intro t; cbn [fold_left]; [cbn; lia|].
  cbv zeta in *. rewrite IH. unfold searches. cbn [filter].
  destruct e as [q l|ms|b|s|s|p n|n|s|tr|t0|]; cbn [tally_step length]; try lia.
  - destruct (per_track t) as [|[track n] others];
      cbn [stray per_track map snd]; unfold list_sum; cbn [fold_right]; lia.
  - destruct s; cbn [stray per_track map snd]; unfold list_sum;
      cbn [fold_right]; lia.
Qed.

Lemma tally_emit e st :
  tally_of (events (emit e st)) = tally_step (tally_of (events st)) e.
Proof. unfold tally_of. cbn [emit events]. apply fold_left_app. Qed.

Section Tally.

Variable w : world.
Variable entries : list BillboardEntry.

Lemma tally_on_results i results st :
  tally_of (events (on_results i results st)) = tally_of (events st).
Proof.
  unfold on_results. rewrite tally_emit. cbn [tally_step].
  destruct results as [[[|[m|] ?]|]|]; try reflexivity.
  destruct (truthy (id m)); [|reflexivity].
  unfold record_match. rewrite !tally_emit. reflexivity.
Qed.

(** The attempts for the track announced last add at most [remaining]
    calls to its count. *)
Lemma attempts_tally i entry track remaining : forall st n others s,
  tally_of (events st) = {| stray := s; per_track := (track, n) :: others |} ->
  exists n', (n' <= n + remaining)%nat
    /\ tally_of (events (attempts w remaining i entry st))
       = {| stray := s; per_track := (track, n') :: others |}.
Proof.
  induction remaining as [|r IH]; intros st n others s H; cbn [attempts].
  - exists n. split; [lia | exact H].
  - destruct (stop st); [exists n; split; [lia | exact H]|].
    assert (H1 : tally_of (events (snd (search w (search_query entry) st)))
                 = {| stray := s; per_track := (track, S n) :: others |}).
    { cbn [search snd await events].
      rewrite tally_emit, H. reflexivity. }
    destruct (search w (search_query entry) st) as [result st1]. cbn [snd] in H1.
    destruct result as [results|err].
    + exists (S n). split; [lia|]. rewrite tally_on_results. exact H1.
    + assert (Hnext : forall st2,
                tally_of (events st2) = tally_of (events st1) ->
                exists n', (n' <= n + S r)%nat
                  /\ tally_of (events (attempts w r i entry st2))
                     = {| stray := s; per_track := (track, n') :: others |}).
      { intros st2 E. rewrite H1 in E.
        destruct (IH st2 (S n) others s E) as (n' & Hn & Ht).
        exists n'. split; [lia | exact Ht]. }
      destruct (isRateLimited err); [|destruct (_ <? _)%nat];
        apply Hnext; unfold delay; cbn [await events];
        rewrite !tally_emit; reflexivity.
Qed.

Section Run.

Variable s0 : list nat.
Variable start : nat.

Lemma fair_later i j p : (i <= j)%nat -> fair s0 start i p -> fair s0 start j p.
Proof. intros Hij (A & B & C). split; [exact A|]. split; [lia | exact C]. Qed.

Lemma visit_tally rest : forall i st l,
  (start <= i)%nat ->
  incl s0 (newMatchedIndices st) ->
  tally_of (events st) = {| stray := 0; per_track := l |} ->
  Forall (fair s0 start i) l ->
  StronglySorted gt (map fst l) ->
  exists l',
    tally_of (events (visit w entries rest i st))
    = {| stray := 0; per_track := l' |}
    /\ Forall (fair s0 start (i + length rest)) l'
    /\ StronglySorted gt (map fst l').
Proof.
  induction rest as [|entry rest IH]; intros i st l Hi Hs0 Ht Hf Hs;
    cbn [visit length].
  - exists l. split; [exact Ht|]. split; [|exact Hs].
    rewrite Nat.add_0_r. exact Hf.
  - assert (Hf' : Forall (fair s0 start (i + S (length rest))) l).
    { eapply Forall_impl; [|exact Hf]. intro p. apply fair_later. lia. }
    destruct (stop st).
    { exists l. split; [|split; [exact Hf' | exact Hs]].
      rewrite !tally_emit, Ht. reflexivity. }
    destruct (has (newMatchedIndices st) i) eqn:Hhas.
    { destruct (IH (S i) st l) as (l' & A & B & C);
        [lia | exact Hs0 | exact Ht
         | eapply Forall_impl; [|exact Hf]; intro p; apply fair_later; lia
         | exact Hs |].
      exists l'. split; [exact A|]. split; [|exact C].
      replace (i + S (length rest))%nat with (S i + length rest)%nat by lia.
      exact B. }
    match goal with
    | |- context [attempts w MAX_RETRIES i entry ?s] => set (st1 := s)
    end.
    assert (H1 : tally_of (events st1)
                 = {| stray := 0; per_track := (i + 1, 0)%nat :: l |}).
    { subst st1. rewrite !tally_emit, Ht. reflexivity. }
    destruct (attempts_tally i entry (i + 1)%nat MAX_RETRIES st1 0%nat l 0%nat H1)
      as (n' & Hn & H2).
    pose proof (attempts_outcome w i entry MAX_RETRIES st1) as Ho. cbv zeta in Ho.
    set (st2 := attempts w MAX_RETRIES i entry st1) in *.
    match goal with
    | |- context [visit w entries rest (S i) ?s] => set (st3 := s)
    end.
    assert (E3 : tally_of (events st3) = tally_of (events st2)
                 /\ newMatchedIndices st3 = newMatchedIndices st2).
    { subst st3. destruct (_ && _); [|split; reflexivity].
      unfold delay. cbn [await events newMatchedIndices].
      rewrite tally_emit. split; reflexivity. }
    destruct E3 as [Et Es].
    assert (Hs2 : incl s0 (newMatchedIndices st3)).
    { rewrite Es. destruct Ho as [Ho|(m & _ & Ho)]; unfold core_of in Ho;
        injection Ho as _ Hset _; rewrite Hset.
      - exact Hs0.
      - intros j Hj. apply In_add. left. apply Hs0, Hj. }
    assert (Hnot : ~ In i s0).
    { intro Hin. apply Hs0 in Hin. apply has_In in Hin.
      change (newMatchedIndices st1) with (newMatchedIndices st) in *.
      congruence. }
    destruct (IH (S i) st3 ((i + 1, n')%nat :: l)) as (l' & A & B & C).
    + lia.
    + exact Hs2.
    + rewrite Et. exact H2.
    + constructor.
      * split; [cbn [snd]; unfold MAX_RETRIES in Hn; lia|].
        split; [cbn [fst]; lia|]. cbn [fst].
        replace (i + 1 - 1)%nat with i by lia. exact Hnot.
      * eapply Forall_impl; [|exact Hf]. intro p. apply fair_later. lia.
    + cbn [map fst]. constructor; [exact Hs|].
      apply Forall_map. eapply Forall_impl; [|exact Hf].
      intros p (_ & B & _). cbn. lia.
    + exists l'. split; [exact A|]. split; [|exact C].
      replace (i + S (length rest))%nat with (S i + length rest)%nat by lia.
      exact B.
Qed.

End Run.

Lemma run_tally mI mC tracks start init initCount :
  let s0 := new_Set (match init with Some s => s | None => mI end) in
  let t := tally_of (events (matchWithSpotify w entries mI mC tracks start
                                              init initCount)) in
  stray t = 0%nat
  /\ Forall (fair s0 start (length entries)) (per_track t)
  /\ StronglySorted gt (map fst (per_track t)).
Proof.
  intros s0 t. subst t. unfold matchWithSpotify. cbv zeta.
  match goal with
  | |- context [visit w entries ?r start ?s] =>
    destruct (visit_tally s0 start r start s []) as (l & A & B & C)
  end.
  - lia.
  - cbn [newMatchedIndices]. subst s0. destruct init; apply incl_refl.
  - reflexivity.
  - constructor.
  - constructor.
  - assert (B' : Forall (fair s0 start (length entries)) l).
    { destruct (Nat.le_gt_cases start (length entries)) as [L|L].
      - rewrite length_skipn in B.
        replace (start + (length entries - start))%nat with (length entries) in B
          by lia. exact B.
      - eapply Forall_impl; [|exact B]. intros p (_ & H & _).
        rewrite length_skipn in H. lia. }
    match goal with |- context [if ?c then _ else _] => destruct c end;
      rewrite !tally_emit, A; cbn [tally_step stray per_track];
      (split; [reflexivity|]); split; assumption.
Qed.

End Tally.

End trace_facts.

(** * The matching run: claims C6, C7 and C10 *)

Module run_claims.
Import BillboardPage run_spec run_facts strings_facts.

Lemma grows_last s0 sets : grows s0 sets -> incl s0 (last sets s0).
Proof.
  revert s0. induction sets as [|s sets IH]; intros s0 H.
  - apply incl_refl.
  - destruct H as [H1 H2]. apply IH in H2.
    destruct sets as [|s' sets]; [exact H1|].
    change (last (s :: s' :: sets) s0) with (last (s' :: sets) s0).
    rewrite (last_default sets s' s0 s). eapply incl_tran; eassumption.
Qed.

(** C6: a failed search is classified as rate-limited exactly when the
    text of the error holds 429, rate, too many or quota, the case of
    the letters ignored.  When the
    search for an entry fails [length errs] times in a row (three times
    at most, then succeeds if fewer than three), the run waits after
    the failure number k for 10000 ms times k if it is rate-limited and
    for 1500 ms times k if it is not and k is below three, makes at most
    three calls, and goes on with the next index; after three failures
    the tracks, the matched set and the matched count are as before. *)
Theorem retry_policy w entries i entry rest st errs :
  (forall n, stop_during w n = false) ->
  stop st = false ->
  has (newMatchedIndices st) i = false ->
  (length errs <= 3)%nat ->
  (forall j, (j < length errs)%nat ->
             answer w (calls st + j) = Rejected (nth j errs [])) ->
  ((length errs < 3)%nat ->
   exists results, answer w (calls st + length errs) = Resolved results) ->
  (forall err, isRateLimited err = rate_limited err)
  /\ exists st',
      visit w entries (entry :: rest) i st = visit w entries rest (S i) st'
      /\ delays (events st')
         = delays (events st) ++ backoffs 1 errs
             ++ (if Z.of_nat i <? Z.of_nat (length entries) - 1
                 then [BASE_DELAY] else [])
      /\ calls st' = (calls st + Nat.min 3 (S (length errs)))%nat
      /\ ((length errs = 3)%nat ->
          updatedTracks st' = updatedTracks st
          /\ newMatchedIndices st' = newMatchedIndices st
          /\ matched st' = matched st).
Proof.
  intros Hquiet Hs Hi Hlen Hans Hok. split; [exact isRateLimited_classified|].
  cbn [visit]. rewrite Hs, Hi.
  match goal with |- context [attempts w MAX_RETRIES i entry ?s] => set (st1 := s) end.
  destruct (attempts_failures w Hquiet i entry errs MAX_RETRIES st1)
    as (Hd & Hc & Hst & Hsame); try assumption; try reflexivity; try lia.
  rewrite Hst. cbn [negb]. rewrite andb_true_r.
  eexists. split; [reflexivity|].
  assert (Hd1 : delays (events st1) = delays (events st)).
  { subst st1. rewrite !delays_emit, !app_nil_r. reflexivity. }
  change (S (MAX_RETRIES - MAX_RETRIES)) with 1%nat in Hd.
  destruct (Z.of_nat i <? Z.of_nat (length entries) - 1).
  - unfold delay. cbn [await events calls updatedTracks newMatchedIndices matched].
    rewrite delays_emit, Hd, Hd1, <- app_assoc.
    cbn [emit calls updatedTracks newMatchedIndices matched].
    split; [reflexivity|]. split; [exact Hc|].
    intro E. destruct (Hsame E) as (H1 & H2 & H3 & _). auto.
  - rewrite Hd, Hd1, app_nil_r.
    split; [reflexivity|]. split; [exact Hc|].
    intro E. destruct (Hsame E) as (H1 & H2 & H3 & _). auto.
Qed.


(** C6, at the run where the first search is turned away with a 429 and
    the second succeeds: one wait of 10000 ms, two calls, and the entry
    is matched; and a failure whose text says QUOTA in capitals is
    rate-limited. *)
Lemma retry_policy_witness :
  isRateLimited (B "QUOTA exceeded") = true
  /\ exists st',
    visit sample.throttled [sample.song_a] [sample.song_a] 0 sample.fresh
    = visit sample.throttled [sample.song_a] [] 1 st'
    /\ delays (events st') = [10000]
    /\ calls st' = 2%nat
    /\ newMatchedIndices st' = [0%nat] /\ matched st' = 1.
Proof.
  destruct (retry_policy sample.throttled [sample.song_a] 0 sample.song_a []
                         sample.fresh [sample.too_many])
    as [Hcls (st' & Hv & Hd & Hc & _)].
  - intro n. reflexivity.
  - reflexivity.
  - reflexivity.
  - cbn [length]. lia.
  - intros [|j] Hj; [reflexivity | cbn [length] in Hj; lia].
  - intros _. eexists. reflexivity.
  - split; [rewrite Hcls; reflexivity|].
    exists st'. split; [exact Hv|]. split; [exact Hd|]. split; [exact Hc|].
    cbn [visit] in Hv. vm_compute in Hv. rewrite <- Hv. split; reflexivity.
Defined.

(** C7: when the set of matched indices the run starts from holds every
    index of the chart, the run makes no search call and no wait, and
    ends with the matched count and the set it started with. *)
Theorem fully_matched_run_is_idle
        w entries matchedIndices matchedCount currentTracks startIndex
        initialMatchedIndices initialMatchedCount :
  let s0 := new_Set (match initialMatchedIndices with
                     | Some s => s | None => matchedIndices end) in
  let n0 := match initialMatchedCount with
            | Some n => n | None => matchedCount end in
  (forall i, (i < length entries)%nat -> In i s0) ->
  let st := matchWithSpotify w entries matchedIndices matchedCount
                             currentTracks startIndex
                             initialMatchedIndices initialMatchedCount in
  searches (events st) = 0%nat /\ calls st = 0%nat
  /\ delays (events st) = [] /\ matched st = n0 /\ newMatchedIndices st = s0.
Proof.
  intros s0 n0 Hall st. subst st. unfold matchWithSpotify.
  rewrite visit_all_matched.
  - destruct initialMatchedIndices, initialMatchedCount; subst s0 n0;
      cbn [emit stop matched events newMatchedIndices calls negb andb];
      match goal with |- context [if ?c then _ else _] => destruct c end;
      cbn [emit stop matched events newMatchedIndices calls app filter length
           searches delays flat_map]; auto.
  - reflexivity.
  - intros j Hj. rewrite length_skipn in Hj. apply has_In.
    destruct initialMatchedIndices; apply Hall; lia.
Qed.

Lemma fully_matched_run_is_idle_witness :
  let st := matchWithSpotify sample.calm [sample.song_a] [] 0
                             [Some sample.track_a] 0 (Some [0%nat]) (Some 1) in
  searches (events st) = 0%nat /\ calls st = 0%nat
  /\ delays (events st) = [] /\ matched st = 1 /\ newMatchedIndices st = [0%nat].
Proof.
  apply (fully_matched_run_is_idle sample.calm [sample.song_a] [] 0
           [Some sample.track_a] 0 (Some [0%nat]) (Some 1)).
  intros i Hi. cbn [length] in Hi. assert (i = 0%nat) by lia. subst i.
  vm_compute. left. reflexivity.
Defined.

(** C10: when a run starts with a matched count equal to the size of
    its set of matched indices, every call of one of the two setters of
    the matched state belongs to a pair that publishes a count and then
    a set of that size, every published set includes the one published
    before it and the set the run started from, and the run ends with a
    count equal to the size of its set, which includes the initial one. *)
Theorem published_count_is_set_size
        w entries matchedIndices matchedCount currentTracks startIndex
        initialMatchedIndices initialMatchedCount :
  let s0 := new_Set (match initialMatchedIndices with
                     | Some s => s | None => matchedIndices end) in
  let n0 := match initialMatchedCount with
            | Some n => n | None => matchedCount end in
  n0 = size s0 ->
  let st := matchWithSpotify w entries matchedIndices matchedCount
                             currentTracks startIndex
                             initialMatchedIndices initialMatchedCount in
  let v := observe (events st) in
  paired v = true /\ pending v = None
  /\ Forall (fun p => fst p = size (snd p)) (pairs v)
  /\ grows s0 (map snd (pairs v))
  /\ matched st = size (newMatchedIndices st)
  /\ incl s0 (newMatchedIndices st).
Proof.
  intros s0 n0 Hn st v.
  assert (H : good s0 st).
  { assert (H0 : good s0
              {| updatedTracks := currentTracks;
                 newMatchedIndices := s0;
                 matched := n0;
                 stop := false; calls := 0; awaits := 0;
                 events := [SetIsMatchingSpotify true] |}).
    { split; [apply new_Set_spec|]. split; [exact Hn|].
      cbn [newMatchedIndices events]. vm_compute observe.
      unfold view_ok. cbn [paired pending pairs map last].
      repeat split; [constructor | apply incl_refl]. }
    subst st. unfold matchWithSpotify.
    destruct initialMatchedIndices, initialMatchedCount; subst s0 n0;
      cbv beta iota in H0;
      match goal with |- good _ (if ?c then _ else _) => destruct c end;
      repeat (apply good_emit; [reflexivity|]);
      apply good_visit; exact H0. }
  destruct H as (Hnd & Hm & Hp & Hpend & Hall & Hg & Hl).
  repeat split; try assumption.
  eapply incl_tran; [apply grows_last; exact Hg | exact Hl].
Qed.

Lemma published_count_is_set_size_witness :
  let st := matchWithSpotify sample.calm [sample.song_a] [] 0
                             [Some sample.track_a] 0 (Some []) (Some 0) in
  let v := observe (events st) in
  paired v = true /\ pending v = None
  /\ Forall (fun p => fst p = size (snd p)) (pairs v)
  /\ grows [] (map snd (pairs v))
  /\ matched st = size (newMatchedIndices st)
  /\ incl [] (newMatchedIndices st).
Proof.
  apply (published_count_is_set_size sample.calm [sample.song_a] [] 0
           [Some sample.track_a] 0 (Some []) (Some 0)).
  reflexivity.
Defined.

End run_claims.

(** * The chart parser: claims C1 and C5 *)

Module parser_claims.
Import billboard regexp parser_spec bytes_facts rank_facts.

Section Parser.

Variable entity : bytes -> Z.
Variable entity2 : bytes -> Z * Z.

Lemma row_entries_valid rows :
  Forall valid_entry (row_entries entity entity2 rows).
Proof.
  induction rows as [|row rows IH]; cbn [row_entries]; [constructor|].
  destruct (length row <? 2)%nat; [exact IH|].
  destruct (negb (is_empty (Title _)) && negb (is_empty (Artist _)) && (0 <? Rank _))
           eqn:E; [|exact IH].
  constructor; [|exact IH].
  apply andb_prop in E as [E Hr]. apply andb_prop in E as [Ht Ha].
  apply negb_true_iff, is_empty_false in Ht, Ha. apply Z.ltb_lt in Hr.
  repeat split; [exact Ht | exact Ha | lia].
Qed.

(** An entry of the direct extraction: its title and artist are not
    empty; its rank is a number from 1 to 100, or the index of its
    heading plus one, and it is the latter when no number was found. *)
Lemma direct_entry_inv htmlContent i titleMatch e :
  direct_entry entity entity2 htmlContent i titleMatch = Some e ->
  Title e <> [] /\ Artist e <> []
  /\ (1 <= Rank e <= 100 \/ Rank e = Z.of_nat i + 1)
  /\ (rank_tokens htmlContent titleMatch = [] -> Rank e = Z.of_nat i + 1).
Proof.
  unfold direct_entry, rank_tokens.
  destruct (length titleMatch <? 2)%nat; [discriminate|].
  destruct (is_empty (cleanText entity entity2 (sub titleMatch 1))) eqn:Ht;
    [discriminate|].
  destruct (strings.Index htmlContent (sub titleMatch 0) =? -1); [discriminate|].
  cbv zeta.
  match goal with
  | |- (if negb false && negb (is_empty ?a) then Some ?e' else None) = Some e -> _ =>
    destruct (is_empty a) eqn:Ha; cbn [negb andb]; [discriminate|];
      intro H; injection H as <-
  end.
  apply is_empty_false in Ht, Ha.
  split; [exact Ht|]. split; [exact Ha|]. cbn [Rank]. split.
  - repeat match goal with
           | |- context [if ?c then _ else _] => destruct c eqn:?
           end; lia.
  - intro H. unfold FindAllStringSubmatch in H. rewrite H. reflexivity.
Qed.

Lemma direct_loop_valid htmlContent titleMatches : forall i,
  Forall valid_entry (direct_loop entity entity2 htmlContent i titleMatches).
Proof.
  induction titleMatches as [|m ms IH]; intro i; cbn [direct_loop]; [constructor|].
  destruct (direct_entry entity entity2 htmlContent i m) eqn:E; [|apply IH].
  constructor; [|apply IH].
  destruct (direct_entry_inv _ _ _ _ E) as (Ht & Ha & Hr & _).
  repeat split; [exact Ht | exact Ha | lia].
Qed.

(** C1: every entry that the chart parser returns, from the rows or
    from the direct extraction, has a title and an artist that are not
    empty and a rank of at least one. *)
Theorem parsed_entries_valid htmlContent :
  Forall valid_entry (parseBillboardHTML entity entity2 htmlContent)
  /\ Forall valid_entry (parseDirectExtraction entity entity2 htmlContent).
Proof.
  assert (Hd : Forall valid_entry (parseDirectExtraction entity entity2 htmlContent))
    by apply direct_loop_valid.
  split; [|exact Hd]. unfold parseBillboardHTML.
  destruct (length _ =? 0)%nat; [exact Hd|].
  destruct (length _ =? 0)%nat; [exact Hd|]. apply row_entries_valid.
Qed.


End Parser.



End parser_claims.

(** * The text normalizer: claim C3 *)

Module text_claims.
Import utf8 strings strings_spec regexp regexp_spec billboard regexp_facts trim_facts.

Section CleanText.

Variable entity : bytes -> Z.
Variable entity2 : bytes -> Z * Z.

Lemma tagless_infix m s : infix m s -> tagless s -> tagless m.
Proof.
  intros (pre & post & ->) H.
  apply tagless_app_r in H. apply tagless_app_l in H. exact H.
Qed.

(** C3, amended: [cleanText] leaves its own result alone whenever the
    decoding of character references does, and so whenever the result
    holds no ampersand ([unescape_no_amp]). *)
Theorem cleanText_idempotent_without_references text :
  html.UnescapeString entity entity2 (cleanText entity entity2 text)
  = cleanText entity entity2 text ->
  cleanText entity entity2 (cleanText entity entity2 text)
  = cleanText entity entity2 text.
Proof.
  intro Hdec. set (y := cleanText entity entity2 text) in *.
  assert (Hy : exists t, y = squeeze space (B " ") false t
                 /\ tagless t
                 /\ (t = [] \/ (unicode.IsSpace (first_rune t) = false
                                /\ unicode.IsSpace (last_rune t) = false))).
  { subst y. unfold cleanText. rewrite ReplaceAllString_plus.
    set (s1 := html.UnescapeString entity entity2 text).
    rewrite (ReplaceAllString_out tagPattern).
    destruct (strip_tags s1 0 false true) as [Htag _].
    destruct (TrimSpace_spec (flat_map (out []) (scan tagPattern 0 false true s1)))
      as [Hin Hends].
    eexists. split; [reflexivity|]. split; [|exact Hends].
    eapply tagless_infix; [exact Hin | exact Htag]. }
  destruct Hy as (t & Ey & Htag & Hends).
  assert (Hstrip : ReplaceAllString tagPattern y [] = y).
  { rewrite ReplaceAllString_out. apply strip_tagless.
    rewrite Ey. apply tagless_squeeze; try reflexivity; try exact Htag.
    - cbn. intros [H|[]]. discriminate.
    - cbn. intros [H|[]]. discriminate. }
  assert (Htrim : TrimSpace y = y).
  { destruct Hends as [->|[Hf Hl]]; [rewrite Ey; reflexivity|].
    destruct (ends_out t Hf Hl) as [Oh Ol].
    apply TrimSpace_fixed; unfold first_rune, last_rune in *; rewrite Ey.
    - change (B " ") with [" "%char].
      rewrite (squeeze_first_rune space " "%char space_ascii) by (exact Oh || reflexivity).
      exact Hf.
    - change (B " ") with [" "%char].
      rewrite (squeeze_last_rune space " "%char space_ascii) by (exact Ol || reflexivity).
      exact Hl. }
  assert (Hsq : ReplaceAllString [plus space] y (B " ") = y).
  { rewrite ReplaceAllString_plus. change (B " ") with [" "%char].
    apply settled_fixed. rewrite Ey. change (B " ") with [" "%char].
    apply squeeze_settled. reflexivity. }
  unfold cleanText at 1. fold y.
  rewrite Hdec, Hstrip, Htrim, Hsq.
  reflexivity.
Qed.

End CleanText.

(** C3: the claim fails as stated; a character reference that decodes to the
    start of another one is decoded once by each pass. *)
Lemma cleanText_not_idempotent :
  cleanText sample.entity sample.entity2
    (cleanText sample.entity sample.entity2 (B "&#38;#60;"))
  <> cleanText sample.entity sample.entity2 (B "&#38;#60;").
Proof. vm_compute. discriminate. Qed.

Lemma cleanText_idempotent_without_references_witness :
  cleanText sample.entity sample.entity2
    (cleanText sample.entity sample.entity2 (B " <b>Tom &amp;   Jerry</b> "))
  = B "Tom & Jerry".
Proof.
  rewrite (cleanText_idempotent_without_references
             sample.entity sample.entity2 (B " <b>Tom &amp;   Jerry</b> "));
    vm_compute; reflexivity.
Defined.

End text_claims.

(** * File names: claims C2, C4, C8 and C9 *)

Module filename_claims.
Import utf8 strings strings_spec regexp regexp_spec bytes_facts.
Import filename filename_spec regexp_facts trim_facts filename_facts clean_facts.

(** C8: the result of [SanitizeFilename] is never empty and holds none
    of the characters < > : double quote, backslash, | ? * and no
    control byte (no byte below 0x20 and not 0x7F). *)
Theorem SanitizeFilename_safe name :
  SanitizeFilename name <> [] /\ Forall harmless (SanitizeFilename name).
Proof.
  split; [apply SanitizeFilename_nonempty|].
  apply (Forall_impl harmless safe_harmless).
  rewrite SanitizeFilename_trimmed.
  destruct (is_empty (trimmed name)); [exact unknown_safe|].
  destruct (negb _); [|apply trimmed_safe].
  apply to_valid_Forall; [apply trimmed_safe|].
  repeat constructor; try discriminate; vm_compute; congruence.
Qed.

(** C4, amended: for a path that begins with two backslashes, the
    segments at the first two positions after that prefix are kept byte
    for byte (an empty one is dropped), once every slash has become the
    separator; every later segment is passed through
    [SanitizeFilename]. *)
Theorem unc_first_two_positions_kept Separator folderPath :
  strings.HasPrefix folderPath (B "\\") = true ->
  let parts := strings.Split
                 (strings.ReplaceAll (skipn 2 folderPath) (B "/") [Separator])
                 [Separator] in
  SanitizeFolderPath Separator folderPath
  = B "\\" ++ strings.Join
                (filter (fun part => negb (is_empty part)) (firstn 2 parts)
                 ++ map SanitizeFilename (skipn 2 parts))
                [Separator].
Proof.
  intros Hunc parts. unfold SanitizeFolderPath. rewrite Hunc. cbv zeta.
  fold parts. f_equal. f_equal.
  destruct parts as [|p0 [|p1 rest]]; cbn [sanitize_parts firstn skipn filter map];
    unfold appended; cbn [andb Nat.ltb Nat.leb];
    rewrite ?sanitize_parts_later by lia;
    repeat match goal with |- context [is_empty ?p] => destruct (is_empty p) end;
    reflexivity.
Qed.

Lemma unc_first_two_positions_kept_witness :
  SanitizeFolderPath "\"%char (B "\\host\share\a:b/c")
  = B "\\host\share\a b\c".
Proof.
  rewrite (unc_first_two_positions_kept "\"%char (B "\\host\share\a:b/c"));
    [|reflexivity].
  vm_compute. reflexivity.
Defined.

(** C4: a path of three backslashes, host and share begins with a
    double separator, and its second segment that is not empty, the
    share, is not kept as it is; and where the separator is the slash, a
    path that begins with two slashes has both of them rewritten. *)
Lemma unc_share_not_always_kept :
  (strings.HasPrefix (B "\\\host\sha:re") (B "\\") = true
   /\ filter (fun part => negb (is_empty part))
             (strings.Split (skipn 2 (B "\\\host\sha:re")) (B "\"))
      = [B "host"; B "sha:re"]
   /\ SanitizeFolderPath "\"%char (B "\\\host\sha:re") = B "\\host\sha re")
  /\ (strings.HasPrefix (B "//host/sha:re") (B "//") = true
      /\ SanitizeFolderPath "/"%char (B "//host/sha:re")
         = B "/Unknown/host/sha re").
Proof. repeat split; vm_compute; reflexivity. Qed.

(** C9: with the template [{disc} - {title}] and no disc number the
    connector after the placeholder stays in the file name; with the
    template [{track} - {title}] and no track number it is removed. *)
Theorem absent_disc_keeps_its_connector :
  BuildExpectedFilename (B "Song") (B "Artist") (B "Album") (B "Artist")
                        (B "2024-05-04") (B "{disc} - {title}") [] []
                        false 0 0 false
  = B " - Song.flac"
  /\ BuildExpectedFilename (B "Song") (B "Artist") (B "Album") (B "Artist")
                           (B "2024-05-04") (B "{track} - {title}") [] []
                           false 0 0 false
     = B "Song.flac".
Proof. split; vm_compute; reflexivity. Qed.

(** C2, amended: sanitizing a sanitized name changes nothing when the
    name neither begins nor ends with a dot or a white-space rune. *)
Theorem SanitizeFilename_idempotent_between_plain_edges name :
  plain_edge (first_rune (SanitizeFilename name)) = true ->
  plain_edge (last_rune (SanitizeFilename name)) = true ->
  SanitizeFilename (SanitizeFilename name) = SanitizeFilename name.
Proof.
  rewrite (SanitizeFilename_trimmed name).
  destruct (is_empty (trimmed name)) eqn:Ee; [intros _ _; vm_compute; reflexivity|].
  apply is_empty_false in Ee.
  pose proof (trimmed_clean name) as Hclean.
  rewrite (clean_valid _ Hclean). cbn [negb].
  pose proof (trimmed_safe name) as Hsafe.
  pose proof (trimmed_no_slash name) as Hslash.
  destruct (trimmed_settled name) as [Hsp Hun].
  assert (Hends : head_out (in_cutset (B "_ ")) (trimmed name)
                  /\ head_out (in_cutset (B "_ ")) (rev (trimmed name))).
  { unfold trimmed. cbv zeta. apply Trim_spec. }
  set (t := trimmed name) in *. clearbody t. intros Hfirst Hlast.
  assert (E1 : ReplaceAll t (B "/") (B " ") = t).
  { unfold ReplaceAll, B. cbn [list_ascii_of_string]. rewrite replace_single.
    apply (flat_map_fixed (fun c => Ascii.eqb c "/")), Hslash. }
  assert (E2 : ReplaceAllString [Many unsafe 1 (Some 1%nat) true false] t (B " ") = t).
  { rewrite ReplaceAllString_class. apply flat_map_fixed.
    eapply Forall_impl; [|exact Hsafe]. intros c [H _]. exact H. }
  assert (E3 : flat_map (fun rn => written (fst rn)) (range t) = t)
    by (apply clean_fixed, Hclean).
  assert (E4 : TrimSpace t = t)
    by (apply TrimSpace_fixed; apply plain_edge_spec; assumption).
  assert (E5 : Trim t (B ". ") = t)
    by (apply Trim_fixed; [apply plain_edge_first | apply plain_edge_last]; assumption).
  assert (E6 : ReplaceAllString [plus regexp.space] t (B " ") = t).
  { rewrite ReplaceAllString_plus. apply (settled_fixed _ " "%char), Hsp. }
  assert (E7 : ReplaceAllString [plus (one_of "_")] t (B "_") = t).
  { rewrite ReplaceAllString_plus. apply (settled_fixed _ "_"%char), Hun. }
  assert (E8 : Trim t (B "_ ") = t) by (apply Trim_fixed; apply Hends).
  assert (Et : trimmed t = t).
  { unfold trimmed. cbv zeta. rewrite E1, E2, E3, E4, E5, E6, E7, E8. reflexivity. }
  rewrite SanitizeFilename_trimmed, Et.
  destruct t as [|c t']; [congruence|]. cbn [is_empty].
  rewrite (clean_valid _ Hclean). reflexivity.
Qed.

(** C2: the claim fails as stated; the dot that the last trimming step
    uncovers is removed by the next application only. *)
Lemma SanitizeFilename_not_idempotent :
  SanitizeFilename (SanitizeFilename (B "a._")) <> SanitizeFilename (B "a._").
Proof. vm_compute. discriminate. Qed.

Lemma SanitizeFilename_idempotent_between_plain_edges_witness :
  SanitizeFilename (SanitizeFilename (B " AC/DC: Back  in__Black. "))
  = SanitizeFilename (B " AC/DC: Back  in__Black. ").
Proof.
  apply (SanitizeFilename_idempotent_between_plain_edges
           (B " AC/DC: Back  in__Black. "));
    vm_compute; reflexivity.
Defined.

End filename_claims.

(** * Further properties of the handlers *)

Module handler_extras.
Import BillboardPage BillboardPage_handlers run_spec run_more_spec handlers_spec.
Import run_facts run_more_facts run_count_facts handler_facts.

(** X16: [handleResumeMatching] starts a run only when the chart is not
    empty, no run is going on and the matched set is smaller than the
    chart; the run then starts at the first index of the chart that is
    not in the matched set, with the tracks, the set and the count of
    the state. *)
Theorem resume_starts_at_the_first_unmatched_index w s r :
  NoDup (matchedIndices s) ->
  started (handleResumeMatching w s) = Some r ->
  exists startIndex,
    (startIndex < length (billboardEntries s))%nat
    /\ has (matchedIndices s) startIndex = false
    /\ (forall j, (j < startIndex)%nat -> has (matchedIndices s) j = true)
    /\ r = matchWithSpotify w (billboardEntries s) (matchedIndices s)
             (matchedCount s) (map Some (tracks s)) startIndex None None.
Proof.
  intros Hnd. unfold handleResumeMatching.
  destruct (_ || _); [discriminate|]. cbv zeta.
  destruct (Z.leb_spec (Z.of_nat (length (billboardEntries s)))
                       (size (matchedIndices s))) as [Hall|Hsome];
    [discriminate|].
  cbn [started]. intro H. injection H as <-.
  unfold size in Hsome.
  destruct (first_unmatched_spec (matchedIndices s)
              (length (billboardEntries s)) 0) as (A & B & C).
  { apply some_unmatched; [exact Hnd | lia]. }
  eexists. split; [|split; [exact B|split; [|reflexivity]]].
  - lia.
  - intros j Hj. apply C. lia.
Qed.

(** X17: the run that [handleResetMatching] starts ends with one track
    for each entry of the chart, showing the title, the artist and the
    rank of the entry, with a matched count equal to the size of the
    matched set, and with exactly the indices of the tracks that carry
    a Spotify id in that set. *)
Theorem reset_run_ends_consistent w s r :
  started (handleResetMatching w s) = Some r ->
  fresh_run_ok (billboardEntries s) r.
Proof.
  unfold handleResetMatching. destruct (_ || _); [discriminate|].
  cbn [started]. intro H. injection H as <-. apply fresh_run.
Qed.

(** X18: the run that [handleFetchChart] starts works on the entries of
    the chart that the backend returned, in their order, and ends like
    the run of a reset: one track for each entry with its title, artist
    and rank, a matched count equal to the size of the matched set, and
    exactly the indices of the tracks with a Spotify id in that set. *)
Theorem fetch_run_ends_consistent w billboardDate result s r :
  started (handleFetchChart w billboardDate result s) = Some r ->
  exists c es,
    result = FetchResolved (Some c) /\ entries c = Some es /\ es <> []
    /\ billboardEntries (next (handleFetchChart w billboardDate result s))
       = map chart_entry es
    /\ fresh_run_ok (map chart_entry es) r.
Proof.
  unfold handleFetchChart. destruct (is_empty billboardDate); [discriminate|].
  destruct result as [[[d [[|e es]|]]|]|message]; try discriminate.
  cbn [started next billboardEntries]. intro H. injection H as <-.
  exists {| date := d; entries := Some (e :: es) |}, (e :: es).
  split; [reflexivity|]. split; [reflexivity|]. split; [discriminate|].
  split; [reflexivity|]. apply fresh_run.
Qed.

Lemma resume_starts_at_the_first_unmatched_index_witness :
  exists startIndex,
    (startIndex < length (billboardEntries sample_more.paused))%nat
    /\ has (matchedIndices sample_more.paused) startIndex = false
    /\ (forall j, (j < startIndex)%nat ->
                  has (matchedIndices sample_more.paused) j = true)
    /\ matchWithSpotify sample.calm (billboardEntries sample_more.paused)
         (matchedIndices sample_more.paused) (matchedCount sample_more.paused)
         (map Some (tracks sample_more.paused)) 1 None None
       = matchWithSpotify sample.calm (billboardEntries sample_more.paused)
           (matchedIndices sample_more.paused) (matchedCount sample_more.paused)
           (map Some (tracks sample_more.paused)) startIndex None None.
Proof.
  apply (resume_starts_at_the_first_unmatched_index sample.calm sample_more.paused).
  - apply NoDup_cons; [intros [] | apply NoDup_nil].
  - reflexivity.
Defined.

Lemma reset_run_ends_consistent_witness :
  fresh_run_ok (billboardEntries sample_more.paused)
    (matchWithSpotify sample.calm (billboardEntries sample_more.paused)
       (matchedIndices sample_more.paused) (matchedCount sample_more.paused)
       (map Some (map initial_track (billboardEntries sample_more.paused))) 0
       (Some []) (Some 0)).
Proof.
  apply (reset_run_ends_consistent sample.calm sample_more.paused). reflexivity.
Defined.

Lemma fetch_run_ends_consistent_witness :
  exists c es,
    FetchResolved (Some sample_more.chart_a) = FetchResolved (Some c)
    /\ entries c = Some es /\ es <> []
    /\ billboardEntries
         (next (handleFetchChart sample.calm (B "2024-05-04")
                  (FetchResolved (Some sample_more.chart_a)) sample_more.paused))
       = map chart_entry es
    /\ fresh_run_ok (map chart_entry es)
         (matchWithSpotify sample.calm (map chart_entry [sample_more.parsed_a])
            (matchedIndices sample_more.paused) (matchedCount sample_more.paused)
            (map Some (map initial_track (map chart_entry [sample_more.parsed_a])))
            0 (Some []) (Some 0)).
Proof.
  apply (fetch_run_ends_consistent sample.calm (B "2024-05-04")
           (FetchResolved (Some sample_more.chart_a)) sample_more.paused).
  reflexivity.
Defined.

(** ** The selection and the downloads *)

Lemma beq_false (s t : bytes) : beq s t = false <-> s <> t.
Proof. unfold beq. destruct (list_eq_dec ascii_dec s t); split; congruence. Qed.

(** X19: [toggleTrackSelection] flips the membership of the key and of
    no other one, and it keeps a selection free of duplicates. *)
Theorem toggle_flips_one_key trackKey prev :
  NoDup prev ->
  NoDup (toggleTrackSelection trackKey prev)
  /\ forall k, In k (toggleTrackSelection trackKey prev)
               <-> if beq k trackKey then ~ In trackKey prev else In k prev.
Proof.
  intro Hnd. unfold toggleTrackSelection.
  destruct (holds prev trackKey) eqn:E.
  - apply holds_In in E. split; [apply NoDup_filter, Hnd|].
    intro k. rewrite filter_In.
    destruct (beq k trackKey) eqn:Ek; cbn [negb].
    + split; [intros [_ H]; discriminate | intro H; contradiction].
    + split; [intros [H _]; exact H | intro H; split; [exact H | reflexivity]].
  - apply holds_false in E. split.
    + apply NoDup_app; [exact Hnd | repeat constructor; intros [] |].
      intros k Hk [<-|[]]. exact (E Hk).
    + intro k. rewrite in_app_iff. cbn [In].
      destruct (beq k trackKey) eqn:Ek.
      * apply beq_true in Ek. subst k.
        split; [intros _; exact E | intros _; right; left; reflexivity].
      * apply beq_false in Ek.
        split; [intros [H|[H|[]]]; [exact H | congruence] | intro H; left; exact H].
Qed.

Lemma toggle_flips_one_key_witness :
  NoDup (toggleTrackSelection (B "b") [B "a"; B "b"])
  /\ forall k, In k (toggleTrackSelection (B "b") [B "a"; B "b"])
               <-> if beq k (B "b") then ~ In (B "b") [B "a"; B "b"]
                   else In k [B "a"; B "b"].
Proof.
  apply (toggle_flips_one_key (B "b") [B "a"; B "b"]).
  apply NoDup_cons; [intros [H|[]]; discriminate H|].
  apply NoDup_cons; [intros [] | apply NoDup_nil].
Defined.

(** X20: when the list has a matched track and the keys of all its
    matched tracks are selected, [toggleSelectAll] removes these keys
    from the selection; otherwise it adds them all.  The key of a
    matched track is its Spotify id.  The other keys stay as they are,
    and a selection free of duplicates stays so. *)
Theorem select_all_adds_or_removes_the_matched_keys trackList selectedTracks prev :
  NoDup prev ->
  NoDup (toggleSelectAll trackList selectedTracks prev)
  /\ (all_matched_selected trackList selectedTracks ->
      forall k, In k (toggleSelectAll trackList selectedTracks prev)
                <-> In k prev /\ ~ matched_id trackList k)
  /\ (~ all_matched_selected trackList selectedTracks ->
      forall k, In k (toggleSelectAll trackList selectedTracks prev)
                <-> In k prev \/ matched_id trackList k).
Proof.
  intro Hnd. unfold toggleSelectAll. cbv zeta.
  pose proof (allSelected_spec trackList selectedTracks) as Hall.
  destruct (allSelected trackList selectedTracks).
  - split; [apply NoDup_filter, Hnd|]. split.
    + intros _ k. rewrite filter_In, negb_true_iff, holds_false, selectable_spec.
      reflexivity.
    + intro H. exfalso. apply H, Hall. reflexivity.
  - destruct (unique_spec (prev ++ selectable trackList) []) as [H1 H2].
    split; [exact H1|]. split.
    + intro H. apply Hall in H. discriminate H.
    + intros _ k. rewrite H2, in_app_iff, selectable_spec. cbn [In]. tauto.
Qed.

Lemma select_all_adds_or_removes_the_matched_keys_witness :
  In (B "x") (toggleSelectAll (tracks sample_more.paused) [] [B "x"])
  <-> In (B "x") [B "x"] \/ matched_id (tracks sample_more.paused) (B "x").
Proof.
  refine (proj2 (proj2 (select_all_adds_or_removes_the_matched_keys
                          (tracks sample_more.paused) [] [B "x"] _)) _ (B "x")).
  - apply NoDup_cons; [intros [] | apply NoDup_nil].
  - intros [[k Hk] H]. exact (H k Hk).
Defined.

Lemma matched_key t :
  isTrackMatched t = true -> Some (getTrackKey t) = spotify_id t.
Proof.
  unfold isTrackMatched, truthy, getTrackKey.
  destruct (spotify_id t) as [[|c s]|]; try discriminate. reflexivity.
Qed.

(** X21: the download handlers hand no track without a Spotify id to
    the download hook: [handleDownloadSelected] hands over the matched
    tracks whose key is selected, each key being the Spotify id of its
    track, and [handleDownloadAll] every matched track; both report
    an error instead when there is no such track. *)
Theorem downloads_take_matched_tracks_only billboardFolderMode s :
  match handleDownloadSelected billboardFolderMode s with
  | inl e => e = NoMatchedSelected
             /\ Forall (fun t => isTrackMatched t = false
                                 \/ ~ In (getTrackKey t) (selectedTracks s))
                       (tracks s)
  | inr (keys, ts, _) =>
    ts <> []
    /\ ts = filter (fun t => holds (selectedTracks s) (getTrackKey t)) 
                   (filter isTrackMatched (tracks s))
    /\ map Some keys = map spotify_id ts
  end
  /\ match handleDownloadAll billboardFolderMode s with
     | inl e => e = NoMatchedToDownload
                /\ Forall (fun t => isTrackMatched t = false) (tracks s)
     | inr (ts, _) => ts <> [] /\ ts = filter isTrackMatched (tracks s)
     end.
Proof.
  split.
  - unfold handleDownloadSelected. cbv zeta.
    set (ts := filter _ (tracks s)).
    assert (Ets : ts = filter (fun t => holds (selectedTracks s) (getTrackKey t))
                              (filter isTrackMatched (tracks s))).
    { subst ts. induction (tracks s) as [|t l IH]; [reflexivity|].
      cbn [filter]. destruct (isTrackMatched t); cbn [filter];
        [rewrite andb_true_r | rewrite andb_false_r];
        [destruct (holds _ _)|]; rewrite IH; reflexivity. }
    destruct ts as [|t0 ts'] eqn:E; cbn [length Nat.eqb].
    + split; [reflexivity|]. apply Forall_forall. intros t Ht.
      destruct (isTrackMatched t) eqn:Em; [|left; reflexivity]. right.
      intro Hin. apply holds_In in Hin.
      assert (In t (filter (fun t => holds (selectedTracks s) (getTrackKey t)
                                     && isTrackMatched t) (tracks s))).
      { apply filter_In. split; [exact Ht|]. rewrite Hin, Em. reflexivity. }
      fold ts in H. rewrite E in H. exact H.
    + split; [discriminate|]. split; [exact Ets|].
      rewrite map_map. apply map_ext_in. intros t Ht.
      apply matched_key. rewrite Ets in Ht.
      apply filter_In in Ht as [Ht _]. apply filter_In in Ht as [_ Ht]. exact Ht.
  - unfold handleDownloadAll. cbv zeta.
    destruct (filter isTrackMatched (tracks s)) as [|t0 ts'] eqn:E;
      cbn [length Nat.eqb].
    + split; [reflexivity|]. apply Forall_forall. intros t Ht.
      destruct (isTrackMatched t) eqn:Em; [|reflexivity].
      assert (In t (filter isTrackMatched (tracks s)))
        by (apply filter_In; split; assumption).
      rewrite E in H. destruct H.
    + split; [discriminate | reflexivity].
Qed.

End handler_extras.

(** * Further properties of the chart parser *)

Module parser_extras.
Import utf8 strings strings_spec regexp regexp_spec bytes_facts strings_facts.
Import billboard parser_more_spec entry_spec.
Import regexp_facts trim_facts filename_facts parser_facts.

Section Parser.

Variable entity : bytes -> Z.
Variable entity2 : bytes -> Z * Z.

Lemma extractChartEntry_stats rowContent :
  stats_nonneg (extractChartEntry entity entity2 rowContent).
Proof. repeat split; apply extractStat_nonneg. Qed.

Lemma direct_entry_shape htmlContent i titleMatch e :
  direct_entry entity entity2 htmlContent i titleMatch = Some e ->
  Title e = cleanText entity entity2 (sub titleMatch 1)
  /\ LastWeekRank e = 0 /\ PeakRank e = 0 /\ WeeksOnChart e = 0
  /\ (1 <= Rank e <= 100 \/ Rank e = Z.of_nat i + 1).
Proof.
  unfold direct_entry.
  destruct (length titleMatch <? 2)%nat; [discriminate|].
  destruct (is_empty (cleanText entity entity2 (sub titleMatch 1))); [discriminate|].
  destruct (strings.Index htmlContent (sub titleMatch 0) =? -1); [discriminate|].
  cbv zeta.
  match goal with
  | |- (if ?c then Some ?e' else None) = Some e -> _ =>
    destruct c; [|discriminate]; intro H; injection H as <-
  end.
  cbn [Title LastWeekRank PeakRank WeeksOnChart Rank].
  repeat split.
  repeat match goal with
         | |- context [if ?c then _ else _] => destruct c eqn:?
         end; lia.
Qed.

Lemma row_entries_shape rows e :
  In e (row_entries entity entity2 rows) ->
  exists rowContent, e = extractChartEntry entity entity2 rowContent.
Proof.
  induction rows as [|row rows IH]; cbn [row_entries]; [intros []|].
  destruct (length row <? 2)%nat; [exact IH|].
  destruct (_ && _ && _); [|exact IH].
  intros [<-|H]; [eexists; reflexivity | exact (IH H)].
Qed.

Lemma direct_loop_shape htmlContent titleMatches e : forall i,
  In e (direct_loop entity entity2 htmlContent i titleMatches) ->
  exists j titleMatch,
    (i <= j < i + length titleMatches)%nat
    /\ direct_entry entity entity2 htmlContent j titleMatch = Some e.
Proof.
  induction titleMatches as [|m ms IH]; intro i; cbn [direct_loop]; [intros []|].
  assert (Hrest : In e (direct_loop entity entity2 htmlContent (S i) ms) ->
                  exists j titleMatch,
                    (i <= j < i + length (m :: ms))%nat
                    /\ direct_entry entity entity2 htmlContent j titleMatch = Some e).
  { intro H. destruct (IH _ H) as (j & tm & Hj & E). exists j, tm.
    split; [cbn [length]; lia | exact E]. }
  destruct (direct_entry entity entity2 htmlContent i m) eqn:E; [|exact Hrest].
  intros [<-|H]; [|exact (Hrest H)].
  exists i, m. split; [cbn [length]; lia | exact E].
Qed.

(** X5: the parser returns no negative number: [extractStat] and the
    rank read by [extractChartEntry] are at least zero, and so are the
    three statistics of every entry of the chart. *)
Theorem parser_numbers_are_not_negative htmlContent rowContent liIndex :
  0 <= extractStat rowContent liIndex
  /\ 0 <= Rank (extractChartEntry entity entity2 rowContent)
  /\ Forall stats_nonneg (parseBillboardHTML entity entity2 htmlContent).
Proof.
  split; [apply extractStat_nonneg|]. split.
  - unfold extractChartEntry. cbv zeta. cbn [Rank].
    apply (group_number rankPattern rowContent). reflexivity.
  - assert (Hd : Forall stats_nonneg
                   (parseDirectExtraction entity entity2 htmlContent)).
    { apply Forall_forall. intros e He.
      apply direct_loop_shape in He as (j & tm & _ & E).
      destruct (direct_entry_shape _ _ _ _ E) as (_ & H1 & H2 & H3 & _).
      unfold stats_nonneg. rewrite H1, H2, H3. lia. }
    unfold parseBillboardHTML.
    destruct (length _ =? 0)%nat; [exact Hd|].
    destruct (length _ =? 0)%nat; [exact Hd|].
    apply Forall_forall. intros e He.
    apply row_entries_shape in He as (row & ->). apply extractChartEntry_stats.
Qed.

(** X6: the title of every entry of the chart is normal text: it holds
    no tag; every tab, line feed, form feed, carriage return and space
    in it is a single space, followed by a byte that is none of them;
    and it neither begins nor ends with a white-space rune.  (Other
    white space, a vertical tab for one, is kept where it is inside
    the title.) *)
Theorem titles_are_normal_text htmlContent :
  Forall (fun e => normal_text (Title e))
         (parseBillboardHTML entity entity2 htmlContent).
Proof.
  assert (Hd : Forall (fun e => normal_text (Title e))
                 (parseDirectExtraction entity entity2 htmlContent)).
  { apply Forall_forall. intros e He.
    apply direct_loop_shape in He as (j & tm & _ & E).
    destruct (direct_entry_shape _ _ _ _ E) as (-> & _).
    apply cleanText_normal. }
  unfold parseBillboardHTML.
  destruct (length _ =? 0)%nat; [exact Hd|].
  destruct (length _ =? 0)%nat; [exact Hd|].
  apply Forall_forall. intros e He.
  apply row_entries_shape in He as (row & ->).
  unfold extractChartEntry. cbv zeta. cbn [Title].
  destruct (2 <=? _)%nat; [apply cleanText_normal | apply normal_nil].
Qed.

(** X7: a rank given by the direct extraction is at least one and at
    most one hundred, or at most the number of headings when there are
    more than a hundred. *)
Theorem direct_ranks_are_bounded htmlContent :
  let headings := FindAllStringSubmatch titlePattern htmlContent None in
  Forall (fun e => 1 <= Rank e <= Z.max 100 (Z.of_nat (length headings)))
         (parseDirectExtraction entity entity2 htmlContent).
Proof.
  intro headings. apply Forall_forall. intros e He.
  apply direct_loop_shape in He as (j & tm & Hj & E). fold headings in Hj.
  destruct (direct_entry_shape _ _ _ _ E) as (_ & _ & _ & _ & Hr).
  lia.
Qed.

End Parser.

End parser_extras.

(** * Further properties: the date of the current chart *)

Module date_extras.
Import billboard_date.

(** X8: the date that [GetCurrentBillboardDate] formats is the Saturday
    on or before the current day: it is a Saturday, it is not after now
    and at most six days before it. *)
Theorem current_chart_date_is_last_saturday Format now :
  exists back,
    0 <= back <= 6
    /\ Weekday (AddDate now (- back)) = Saturday
    /\ After (AddDate now (- back)) now = false
    /\ GetCurrentBillboardDate Format now = Format (AddDate now (- back)).
Proof.
  unfold GetCurrentBillboardDate. cbv zeta.
  pose proof (Z.mod_pos_bound (day now + 4) 7 ltac:(lia)) as Hw.
  fold (Weekday now) in Hw.
  set (w := Weekday now) in *.
  exists ((w + 1) mod 7).
  assert (Hrem : Z.rem (- (w + 1)) 7 = - ((w + 1) mod 7)).
  { rewrite Z.rem_opp_l by lia. rewrite Z.rem_mod_nonneg by lia. reflexivity. }
  rewrite Hrem.
  pose proof (Z.mod_pos_bound (w + 1) 7 ltac:(lia)) as Hb.
  assert (Hafter : After (AddDate now (- ((w + 1) mod 7))) now = false).
  { unfold After, AddDate. cbn [day clock].
    rewrite (proj2 (Z.ltb_ge _ _)) by lia. rewrite Z.ltb_irrefl, andb_false_r.
    reflexivity. }
  rewrite Hafter. repeat split; try lia; try assumption.
  unfold Weekday, AddDate, Saturday. cbn [day].
  subst w. unfold Weekday in *.
  assert (E : (day now + - (((day now + 4) mod 7 + 1) mod 7) + 4) mod 7 = 6).
  { pose proof (Z.div_mod (day now + 4) 7 ltac:(lia)) as D.
    set (q := (day now + 4) / 7) in *. set (r := (day now + 4) mod 7) in *.
    replace (day now + - ((r + 1) mod 7) + 4) with (7 * q + (r - (r + 1) mod 7)) by lia.
    assert (Hr : r = 0 \/ r = 1 \/ r = 2 \/ r = 3 \/ r = 4 \/ r = 5 \/ r = 6) by lia.
    clearbody r q.
    destruct Hr as [->|[->|[->|[->|[->|[->| ->]]]]]];
      cbn [Z.add Z.modulo]; rewrite Z.add_comm, Z.mul_comm, Z.mod_add by lia;
      reflexivity. }
  exact E.
Qed.

End date_extras.

(** * Further properties of the file-name functions *)

Module path_extras.
Import utf8 strings strings_spec regexp regexp_spec bytes_facts strings_facts.
Import filename filename_spec path_spec.
Import regexp_facts trim_facts filename_facts clean_facts path_facts.

(** X1: [NormalizePath] is idempotent, whatever the separator of the
    platform. *)
Theorem NormalizePath_idempotent Separator folderPath :
  NormalizePath Separator (NormalizePath Separator folderPath)
  = NormalizePath Separator folderPath.
Proof.
  unfold NormalizePath. rewrite !ReplaceAll_slash.
  destruct (HasPrefix folderPath (B "\\")) eqn:E.
  - change (B "\\" ++ map (swap Separator) (skipn 2 folderPath))
      with ("\"%char :: "\"%char :: map (swap Separator) (skipn 2 folderPath)).
    change (B "\\") with ["\"%char; "\"%char].
    rewrite HasPrefix_cons2. cbn [skipn app].
    rewrite map_map.
    do 2 f_equal. apply map_ext. intro c. apply swap_swap.
  - destruct (HasPrefix (map (swap Separator) folderPath) (B "\\")) eqn:E'.
    + apply HasPrefix_two in E'. rewrite E' at 2.
      change (B "\\") with ["\"%char; "\"%char]. cbn [app]. do 2 f_equal.
      rewrite !skipn_map, map_map.
      apply map_ext. intro c. apply swap_swap.
    + rewrite map_map. apply map_ext. intro c. apply swap_swap.
Qed.

(** X2: on a platform whose separator is not the slash, the normalized
    path holds no slash, and it has the length of the path. *)
Theorem NormalizePath_no_slash Separator folderPath :
  Separator <> "/"%char ->
  ~ In "/"%char (NormalizePath Separator folderPath)
  /\ length (NormalizePath Separator folderPath) = length folderPath.
Proof.
  intro Hsep.
  assert (Hmap : forall s, ~ In "/"%char (map (swap Separator) s)).
  { intros s H. apply in_map_iff in H as (c & Hc & _). unfold swap in Hc.
    destruct (Ascii.eqb c "/") eqn:E; [congruence|].
    apply Ascii.eqb_neq in E. congruence. }
  unfold NormalizePath. rewrite !ReplaceAll_slash.
  destruct (HasPrefix folderPath (B "\\")) eqn:E.
  - split.
    + intro H. apply in_app_or in H as [H|H]; [|exact (Hmap _ H)].
      cbn in H. destruct H as [H|[H|[]]]; discriminate.
    + apply HasPrefix_two in E. rewrite E at 2. cbn [length app B list_ascii_of_string].
      rewrite length_map. reflexivity.
  - split; [apply Hmap | apply length_map].
Qed.

Lemma NormalizePath_no_slash_witness :
  ~ In "/"%char (NormalizePath "\"%char (B "\\host/share/a"))
  /\ length (NormalizePath "\"%char (B "\\host/share/a")) = length (B "\\host/share/a").
Proof.
  apply (NormalizePath_no_slash "\"%char (B "\\host/share/a")). discriminate.
Defined.

(** X3: for a path that does not begin with two backslashes, on a
    platform whose separator is the slash or the backslash, the result
    of [SanitizeFolderPath] has as many segments as the normalized path,
    and each segment after the first is the sanitized form of the
    corresponding one: no segment is dropped, an empty one becomes
    [Unknown]. *)
Theorem plain_path_keeps_every_segment Separator folderPath :
  HasPrefix folderPath (B "\\") = false ->
  Separator = "/"%char \/ Separator = "\"%char ->
  let parts := Split (NormalizePath Separator folderPath) [Separator] in
  let out := Split (SanitizeFolderPath Separator folderPath) [Separator] in
  length out = length parts
  /\ skipn 1 out = map SanitizeFilename (skipn 1 parts).
Proof.
  intros Hunc Hsep. unfold NormalizePath, SanitizeFolderPath. rewrite Hunc.
  cbv zeta.
  set (parts := Split (ReplaceAll folderPath (B "/") [Separator]) [Separator]).
  pose proof (Split_parts Separator
                (ReplaceAll folderPath (B "/") [Separator])) as Hparts.
  pose proof (Split_nonempty Separator
                (ReplaceAll folderPath (B "/") [Separator])) as Hne.
  fold parts in Hparts, Hne.
  destruct parts as [|p0 rest]; [congruence|].
  cbn [sanitize_parts]. rewrite sanitize_parts_tail by lia.
  inversion Hparts as [|? ? Hp0 Hrest]; subst.
  assert (E : exists f, appended false 0 p0 = [f] /\ ~ In Separator f).
  { destruct (appended_first p0) as [-> | ->]; eexists; split; try reflexivity.
    - exact Hp0.
    - apply SanitizeFilename_no_separator, Hsep. }
  destruct E as (f & -> & Hf). cbn [app].
  rewrite Split_Join.
  - cbn [length skipn]. rewrite length_map. split; reflexivity.
  - discriminate.
  - constructor; [exact Hf|]. apply Forall_forall. intros e He.
    apply in_map_iff in He as (q & <- & _).
    apply SanitizeFilename_no_separator, Hsep.
Qed.

Lemma plain_path_keeps_every_segment_witness :
  length (Split (SanitizeFolderPath "/"%char (B "music//AC:DC/")) ["/"%char])
  = length (Split (NormalizePath "/"%char (B "music//AC:DC/")) ["/"%char])
  /\ skipn 1 (Split (SanitizeFolderPath "/"%char (B "music//AC:DC/")) ["/"%char])
     = map SanitizeFilename
           (skipn 1 (Split (NormalizePath "/"%char (B "music//AC:DC/")) ["/"%char])).
Proof.
  apply (plain_path_keeps_every_segment "/"%char (B "music//AC:DC/"));
    [reflexivity | left; reflexivity].
Defined.

(** X4: with a format that holds no brace (the formats [artist-title],
    [title] and the default), the file name that [BuildExpectedFilename]
    returns holds none of the characters < > : double quote, backslash,
    | ? *, no control byte and no slash, whatever the names and the
    track number are. *)
Theorem legacy_format_name_is_plain
        trackName artistName albumName albumArtist releaseDate filenameFormat
        playlistName playlistOwner includeTrackNumber position discNumber
        useAlbumTrackNumber :
  strings.Contains filenameFormat (B "{") = false ->
  Forall name_byte
         (BuildExpectedFilename trackName artistName albumName albumArtist
            releaseDate filenameFormat playlistName playlistOwner
            includeTrackNumber position discNumber useAlbumTrackNumber).
Proof.
  intro H. apply (Forall_impl name_byte plain_name_byte).
  unfold BuildExpectedFilename. cbv zeta. rewrite H.
  apply Forall_app. split; [|apply literal_plain; reflexivity].
  assert (Hname :
    Forall plain_byte
      (if beq filenameFormat (B "artist-title")
       then SanitizeFilename artistName ++ B " - " ++ SanitizeFilename trackName
       else if beq filenameFormat (B "title") then SanitizeFilename trackName
       else SanitizeFilename trackName ++ B " - " ++ SanitizeFilename artistName)).
  { destruct (beq filenameFormat (B "artist-title"));
      [|destruct (beq filenameFormat (B "title"))];
      rewrite ?Forall_app; repeat split;
      try apply SanitizeFilename_plain; apply literal_plain; reflexivity. }
  destruct (includeTrackNumber && (0 <? position)) eqn:E; [|exact Hname].
  apply andb_true_iff in E as [_ E]. apply Z.ltb_lt in E.
  rewrite !Forall_app. repeat split;
    [apply Sprintf_02d_plain, E | apply literal_plain; reflexivity | exact Hname].
Qed.

Lemma legacy_format_name_is_plain_witness :
  Forall name_byte
         (BuildExpectedFilename (B "Back/In:Black") (B "AC/DC") (B "") (B "")
            (B "1980") (B "artist-title") (B "") (B "") true 7 0 false).
Proof.
  apply legacy_format_name_is_plain. reflexivity.
Defined.

End path_extras.

(** * Further properties of the matching run *)

Module run_extras.
Import BillboardPage run_spec run_more_spec run_facts run_more_facts.

Section Run.

Variable w : world.
Variable entries : list BillboardEntry.
Variables (matchedIndices : list nat) (matchedCount : Z).
Variable currentTracks : list (option TrackMetadata).
Variable startIndex : nat.
Variables (initialMatchedIndices : option (list nat))
          (initialMatchedCount : option Z).

(** X9: a run leaves alone every track before its start index, every
    track whose index is in the set it starts from, and every track
    past the end of the chart. *)
Theorem run_leaves_other_tracks_alone j :
  let s0 := new_Set (match initialMatchedIndices with
                     | Some s => s | None => matchedIndices end) in
  let st := matchWithSpotify w entries matchedIndices matchedCount
              currentTracks startIndex
              initialMatchedIndices initialMatchedCount in
  (j < startIndex)%nat \/ In j s0 \/ (length entries <= j)%nat ->
  nth j (updatedTracks st) None = nth j currentTracks None.
Proof.
  intros s0 st Hj.
  pose proof (run_effect w entries matchedIndices matchedCount currentTracks
                startIndex initialMatchedIndices initialMatchedCount) as E.
  apply (effect_frame _ _ _ _ E j). cbn [fst snd].
  destruct Hj as [Hj|[Hj|Hj]]; [left; exact Hj | right; left; exact Hj|].
  destruct (Nat.lt_ge_cases j startIndex); [left; assumption | right; right; lia].
Qed.

(** X10: when there is a track for every entry, a run keeps the number
    of the tracks, and each track keeps its name, its artists and its
    track number, matched or not. *)
Theorem run_keeps_the_chart_fields :
  let st := matchWithSpotify w entries matchedIndices matchedCount
              currentTracks startIndex
              initialMatchedIndices initialMatchedCount in
  (length entries <= length currentTracks)%nat ->
  length (updatedTracks st) = length currentTracks
  /\ forall j t, nth j currentTracks None = Some t ->
       exists t', nth j (updatedTracks st) None = Some t' /\ same_labels t t'.
Proof.
  intros st Hlen.
  pose proof (run_effect w entries matchedIndices matchedCount currentTracks
                startIndex initialMatchedIndices initialMatchedCount) as E.
  split.
  - apply (effect_length _ _ _ _ E). cbn [fst]. lia.
  - apply (effect_labels _ _ _ _ E).
Qed.

(** X11: when the set a run starts from holds exactly the indices of
    the tracks that carry a Spotify id, the set it ends with does so
    too: an index is in the matched set exactly when [isTrackMatched]
    holds of its track. *)
Theorem run_keeps_set_and_ids_consistent :
  let s0 := new_Set (match initialMatchedIndices with
                     | Some s => s | None => matchedIndices end) in
  let st := matchWithSpotify w entries matchedIndices matchedCount
              currentTracks startIndex
              initialMatchedIndices initialMatchedCount in
  consistent currentTracks s0 ->
  consistent (updatedTracks st) (newMatchedIndices st).
Proof.
  intros s0 st.
  pose proof (run_effect w entries matchedIndices matchedCount currentTracks
                startIndex initialMatchedIndices initialMatchedCount) as E.
  apply (effect_consistent _ _ _ _ E).
Qed.

(** X12: every index that a run adds to the matched set is an index of
    the chart, not below the start index. *)
Theorem run_adds_indices_of_the_chart_only j :
  let s0 := new_Set (match initialMatchedIndices with
                     | Some s => s | None => matchedIndices end) in
  let st := matchWithSpotify w entries matchedIndices matchedCount
              currentTracks startIndex
              initialMatchedIndices initialMatchedCount in
  In j (newMatchedIndices st) ->
  In j s0 \/ (startIndex <= j < length entries)%nat.
Proof.
  intros s0 st Hj.
  pose proof (run_effect w entries matchedIndices matchedCount currentTracks
                startIndex initialMatchedIndices initialMatchedCount) as E.
  destruct (proj2 (effect_range _ _ _ _ E) j Hj) as [H|H];
    [left; exact H | right; lia].
Qed.

End Run.

Lemma run_leaves_other_tracks_alone_witness :
  nth 0 (updatedTracks (matchWithSpotify sample.calm [sample.song_a; sample.song_a]
                          [] 0 [Some sample.track_a; Some sample.track_a] 1
                          (Some []) (Some 0))) None
  = Some sample.track_a.
Proof.
  apply (run_leaves_other_tracks_alone sample.calm [sample.song_a; sample.song_a]
           [] 0 [Some sample.track_a; Some sample.track_a] 1 (Some []) (Some 0) 0).
  left. lia.
Defined.

Lemma run_keeps_the_chart_fields_witness :
  let st := matchWithSpotify sample.calm [sample.song_a] [] 0
                             [Some sample.track_a] 0 (Some []) (Some 0) in
  length (updatedTracks st) = 1%nat
  /\ forall j t, nth j [Some sample.track_a] None = Some t ->
       exists t', nth j (updatedTracks st) None = Some t' /\ same_labels t t'.
Proof.
  apply (run_keeps_the_chart_fields sample.calm [sample.song_a] [] 0
           [Some sample.track_a] 0 (Some []) (Some 0)).
  cbn [length]. lia.
Defined.

Lemma run_keeps_set_and_ids_consistent_witness :
  let st := matchWithSpotify sample.calm [sample.song_a] [] 0
                             [Some sample.track_a] 0 (Some []) (Some 0) in
  consistent (updatedTracks st) (newMatchedIndices st).
Proof.
  apply (run_keeps_set_and_ids_consistent sample.calm [sample.song_a] [] 0
           [Some sample.track_a] 0 (Some []) (Some 0)).
  intro j. cbn. split; [intros []|].
  intros (t & Ht & Hid). destruct j as [|[|j]]; cbn in Ht; try discriminate.
  injection Ht as <-. discriminate Hid.
Defined.

Lemma run_adds_indices_of_the_chart_only_witness :
  In 0%nat [] \/ (0 <= 0 < 1)%nat.
Proof.
  apply (run_adds_indices_of_the_chart_only sample.calm [sample.song_a] [] 0
           [Some sample.track_a] 0 (Some []) (Some 0) 0).
  vm_compute. left. reflexivity.
Defined.

End run_extras.

Module run_count_extras.
Import BillboardPage run_spec run_more_spec run_facts run_more_facts.
Import run_count_facts run_found_facts trace_facts.

Section Run.

Variable w : world.
Variable entries : list BillboardEntry.
Variables (matchedIndices : list nat) (matchedCount : Z).
Variable currentTracks : list (option TrackMetadata).
Variable startIndex : nat.
Variables (initialMatchedIndices : option (list nat))
          (initialMatchedCount : option Z).

(** X13: every search call of a run is made for an entry that the run
    has announced with the status [matching track k of n], k being the
    index of the entry plus one.  An entry is announced once at most;
    its index is not below the start index, is an index of the chart
    and is not in the set the run starts from; and at most three search
    calls are made for it.  Hence the run makes at most three calls
    times the number of such indices. *)
Theorem run_calls_at_most_thrice_per_unmatched_entry :
  let s0 := new_Set (match initialMatchedIndices with
                     | Some s => s | None => matchedIndices end) in
  let st := matchWithSpotify w entries matchedIndices matchedCount
              currentTracks startIndex
              initialMatchedIndices initialMatchedCount in
  let t := tally_of (events st) in
  stray t = 0%nat
  /\ searches (events st) = list_sum (map snd (per_track t))
  /\ Forall (fun p => (snd p <= 3)%nat
                      /\ (startIndex < fst p <= length entries)%nat
                      /\ ~ In (fst p - 1)%nat s0)
            (per_track t)
  /\ NoDup (map fst (per_track t))
  /\ (searches (events st)
      <= 3 * todo s0 startIndex (length entries - startIndex))%nat.
Proof.
  intros s0 st t.
  destruct (run_tally w entries matchedIndices matchedCount currentTracks
              startIndex initialMatchedIndices initialMatchedCount)
    as (A & B & C).
  fold s0 st t in A, B, C.
  split; [exact A|]. split; [|split; [exact B|split]].
  - pose proof (tally_total (events st) {| stray := 0; per_track := [] |}) as T.
    cbv zeta in T. fold (tally_of (events st)) in T. fold t in T.
    rewrite A in T. cbn in T. lia.
  - clear - C. induction C as [|a l Hs IH Ha]; constructor; [|exact IH].
    intro Hin. rewrite Forall_forall in Ha. specialize (Ha a Hin). lia.
  - destruct (counted_run w entries matchedIndices matchedCount currentTracks
                startIndex initialMatchedIndices initialMatchedCount) as [Hc _].
    fold st in Hc. rewrite Hc. clear Hc.
    subst st s0. unfold matchWithSpotify. cbv zeta.
    match goal with
    | |- context [visit w entries ?r startIndex ?s] =>
      pose proof (visit_calls w entries r startIndex s) as H
    end.
    rewrite length_skipn in H. cbn [calls newMatchedIndices] in H.
    match goal with |- context [if ?c then _ else _] => destruct c end;
      cbn [emit calls]; destruct initialMatchedIndices; exact H.
Qed.

(** X14: when a stop is requested during the suspension number [K] of a
    run (its suspensions are its search calls and its waits, counted
    from zero), the trace of the run holds no search call after that
    suspension and one wait at most; in all it holds at most [K + 1]
    search calls and [K + 2] suspensions. *)
Theorem run_honours_the_stop K :
  let st := matchWithSpotify w entries matchedIndices matchedCount
              currentTracks startIndex
              initialMatchedIndices initialMatchedCount in
  stop_during w K = true ->
  searches (rest_after K (events st)) = 0%nat
  /\ (suspensions (rest_after K (events st)) <= 1)%nat
  /\ (searches (events st) <= K + 1)%nat
  /\ (suspensions (events st) <= K + 2)%nat.
Proof.
  intros st HK.
  assert (Hbounds : (searches (events st) <= K + 1)%nat
                    /\ (suspensions (events st) <= K + 2)%nat).
  { destruct (counted_run w entries matchedIndices matchedCount currentTracks
                startIndex initialMatchedIndices initialMatchedCount) as [Hc Ha].
    fold st in Hc, Ha. rewrite Hc, Ha. clear Hc Ha.
    assert (H : after K st).
    { subst st. unfold matchWithSpotify. cbv zeta.
      match goal with
      | |- context [visit w entries ?r startIndex ?s] =>
        pose proof (after_visit w entries K HK r startIndex s) as H
      end.
      match goal with |- context [if ?c then _ else _] => destruct c end;
        apply H; (split; [cbn [calls]; lia|]);
        (split; intro E; [cbn [calls awaits]; lia | discriminate E]). }
    destruct H as (A & B & C). split; [exact A|].
    destruct (stop st); [apply C; reflexivity|].
    destruct (B eq_refl). lia. }
  split; [|split; [|exact Hbounds]].
  - exact (late_run w entries K HK matchedIndices matchedCount currentTracks
             startIndex initialMatchedIndices initialMatchedCount).
  - rewrite suspensions_rest_after. destruct Hbounds as [_ H]. lia.
Qed.

(** X15: when nobody stops the run and the first candidate of every
    search has an id, the run makes one search call for each index from
    the start index on that is not matched yet, matches each of them,
    and ends with every index of the chart from the start index on in
    its set. *)
Theorem undisturbed_run_matches_every_entry :
  let s0 := new_Set (match initialMatchedIndices with
                     | Some s => s | None => matchedIndices end) in
  let n0 := match initialMatchedCount with
            | Some n => n | None => matchedCount end in
  let st := matchWithSpotify w entries matchedIndices matchedCount
              currentTracks startIndex
              initialMatchedIndices initialMatchedCount in
  (forall n, stop_during w n = false) ->
  always_found w ->
  searches (events st) = todo s0 startIndex (length entries - startIndex)
  /\ matched st
     = n0 + Z.of_nat (todo s0 startIndex (length entries - startIndex))
  /\ forall j, In j (newMatchedIndices st)
               <-> In j s0 \/ (startIndex <= j < length entries)%nat.
Proof.
  intros s0 n0 st Hquiet Hfound.
  destruct (counted_run w entries matchedIndices matchedCount currentTracks
              startIndex initialMatchedIndices initialMatchedCount) as [Hc _].
  fold st in Hc. rewrite Hc. clear Hc.
  subst st s0 n0. unfold matchWithSpotify. cbv zeta.
  match goal with
  | |- context [visit w entries ?r startIndex ?s] =>
    destruct (visit_found w entries Hquiet Hfound r startIndex s eq_refl)
      as (A & B & C & D)
  end.
  rewrite length_skipn in B, C, D. cbn [calls matched newMatchedIndices] in B, C, D.
  match goal with |- context [if ?c then _ else _] => destruct c end;
    cbn [emit calls matched newMatchedIndices];
    destruct initialMatchedIndices, initialMatchedCount;
    (split; [exact B|]); (split; [exact C|]);
    intro j; rewrite D; split; (intros [H|H]; [left; exact H | right; lia]).
Qed.

End Run.

(** The counts of a run of two entries whose first search is turned
    away: two calls for the first track, one for the second. *)
Example tally_of_a_throttled_run :
  per_track (tally_of (events
      (matchWithSpotify sample.throttled [sample.song_a; sample.song_a] [] 0
         [Some sample.track_a; Some sample.track_a] 0 (Some []) (Some 0))))
  = [(2, 1); (1, 2)]%nat.
Proof. vm_compute. reflexivity. Qed.

(** A run whose first search is turned away: its suspension number 1
    is the wait before the second attempt, and the stop comes during
    that wait. *)
Lemma run_honours_the_stop_witness :
  let w := {| answer := answer sample.throttled;
              stop_during := fun n => Nat.eqb n 1 |} in
  let st := matchWithSpotify w [sample.song_a; sample.song_a] [] 0
              [Some sample.track_a; Some sample.track_a] 0 (Some []) (Some 0) in
  searches (rest_after 1 (events st)) = 0%nat
  /\ (suspensions (rest_after 1 (events st)) <= 1)%nat
  /\ (searches (events st) <= 1 + 1)%nat
  /\ (suspensions (events st) <= 1 + 2)%nat.
Proof.
  apply (run_honours_the_stop
           {| answer := answer sample.throttled;
              stop_during := fun n => Nat.eqb n 1 |}
           [sample.song_a; sample.song_a] [] 0
           [Some sample.track_a; Some sample.track_a] 0 (Some []) (Some 0) 1).
  reflexivity.
Defined.

Lemma undisturbed_run_matches_every_entry_witness :
  let st := matchWithSpotify sample.calm [sample.song_a; sample.song_a] [] 0
              [Some sample.track_a; Some sample.track_a] 0 (Some []) (Some 0) in
  searches (events st) = 2%nat /\ matched st = 2
  /\ forall j, In j (newMatchedIndices st) <-> In j [] \/ (0 <= j < 2)%nat.
Proof.
  apply (undisturbed_run_matches_every_entry sample.calm
           [sample.song_a; sample.song_a] [] 0
           [Some sample.track_a; Some sample.track_a] 0 (Some []) (Some 0)).
  - intro n. reflexivity.
  - intro n. exists sample.candidate, []. split; reflexivity.
Defined.

End run_count_extras.

(** * Further properties: the cache, the pages, the durations and the paths *)

Module history_extras.
Import HistoryPage history_spec history_facts history_slice_facts.

Ltac sorted_list :=
  repeat first [apply SSorted_nil | apply SSorted_cons
               | apply Forall_nil | apply Forall_cons]; lia.

(** X22: for a current page between 1 and the number of pages, the
    page list of [getPaginationPages] shows the first page, the last
    page, the current page and the pages next to it; its page numbers
    increase strictly, and it has twelve items at most. *)
Theorem page_list_shows_the_pages_around current total :
  1 <= current <= total ->
  let l := getPaginationPages current total in
  In (page 1) l /\ In (page total) l /\ In (page current) l
  /\ (1 < current -> In (page (current - 1)) l)
  /\ (current < total -> In (page (current + 1)) l)
  /\ StronglySorted Z.lt (numbers l)
  /\ (length l <= 12)%nat.
Proof.
  intros H l. subst l. unfold getPaginationPages.
  destruct (total <=? 10) eqn:E10.
  - apply Z.leb_le in E10.
    assert (Hin : forall n, 1 <= n <= total ->
              In (page n) (map (fun i => page (Z.of_nat i + 1)) (seq 0 (Z.to_nat total)))).
    { intros n Hn. apply in_map_iff. exists (Z.to_nat (n - 1)).
      split; [f_equal; lia | apply in_seq; lia]. }
    repeat match goal with |- _ /\ _ => split end;
      try (apply Hin; lia); try (intro; apply Hin; lia).
    + rewrite (numbers_pages (fun i => Z.of_nat i + 1)).
      apply sorted_from. intros; lia.
    + rewrite length_map, length_seq. lia.
  - apply Z.leb_gt in E10. cbv zeta.
    destruct (current <=? 7) eqn:E7; [apply Z.leb_le in E7|apply Z.leb_gt in E7].
    + assert (Hin : forall n, 1 <= n <= 10 ->
                In (page n) (([page 1] ++ pushed 2 10) ++ [ellipsis] ++ [page total])).
      { intros n Hn. apply in_or_app. left.
        destruct (Z.eq_dec n 1) as [->|]; [left; reflexivity|].
        right. apply in_pushed. lia. }
      repeat match goal with |- _ /\ _ => split end;
        try (apply Hin; lia); try (intro; apply Hin; lia).
      * apply in_or_app. right. right. left. reflexivity.
      * change (StronglySorted Z.lt [1; 2; 3; 4; 5; 6; 7; 8; 9; 10; total]).
        sorted_list.
      * change (12 <= 12)%nat. lia.
    + destruct (total - 7 <=? current) eqn:ET;
        [apply Z.leb_le in ET|apply Z.leb_gt in ET].
      * assert (Hin : forall n, total - 9 <= n <= total ->
                  In (page n) (([page 1] ++ [ellipsis]) ++ pushed (total - 9) total)).
        { intros n Hn. apply in_or_app. right. apply in_pushed. lia. }
        repeat match goal with |- _ /\ _ => split end;
          try (apply Hin; lia); try (intro; apply Hin; lia).
        -- left. reflexivity.
        -- change (numbers (([page 1] ++ [ellipsis]) ++ pushed (total - 9) total))
             with (1 :: numbers (pushed (total - 9) total)).
           rewrite pushed_numbers. constructor.
           ++ apply sorted_from. intros; lia.
           ++ apply Forall_forall. intros x Hx. apply in_map_iff in Hx.
              destruct Hx as (k & <- & _). lia.
        -- rewrite length_app. unfold pushed. rewrite length_map, length_seq.
           cbn [length app]. lia.
      * cbn [app]. repeat match goal with |- _ /\ _ => split end.
        -- left. reflexivity.
        -- do 6 right. left. reflexivity.
        -- do 3 right. left. reflexivity.
        -- intros _. do 2 right. left. reflexivity.
        -- intros _. do 4 right. left. reflexivity.
        -- change (StronglySorted Z.lt
                     [1; current - 1; current; current + 1; total]).
           sorted_list.
        -- change (7 <= 12)%nat. lia.
Qed.

Lemma page_list_shows_the_pages_around_witness :
  let l := getPaginationPages 8 20 in
  In (page 1) l /\ In (page 20) l /\ In (page 8) l
  /\ (1 < 8 -> In (page (8 - 1)) l)
  /\ (8 < 20 -> In (page (8 + 1)) l)
  /\ StronglySorted Z.lt (numbers l)
  /\ (length l <= 12)%nat.
Proof. apply (page_list_shows_the_pages_around 8 20). lia. Defined.

(** X23: the pages of the history cut the list into consecutive pieces:
    the pages from 1 to [totalPages], one after the other, give the
    list back; each of them holds at least one item and fifty at most,
    and every later page is empty. *)
Theorem pages_partition_the_list {A : Type} (l : list A) :
  List.concat (all_pages l) = l
  /\ (forall p, 1 <= p <= totalPages l ->
        paginated l p <> [] /\ (length (paginated l p) <= 50)%nat)
  /\ (forall p, totalPages l < p -> paginated l p = []).
Proof.
  pose proof (totalPages_spec l) as T. split; [|split].
  - unfold all_pages.
    rewrite (map_ext_in _ (fun i => firstn 50 (skipn (50 * i) l))).
    + rewrite chunks. apply firstn_all2. lia.
    + intros i _. rewrite paginated_chunk by lia. do 3 f_equal. lia.
  - intros p Hp. rewrite paginated_chunk by lia. split.
    + intro E. apply (f_equal (@length A)) in E.
      rewrite length_firstn, length_skipn in E. cbn [length] in E. lia.
    + rewrite length_firstn. lia.
  - intros p Hp.
    destruct (Z.le_gt_cases 1 p) as [P|P].
    + rewrite paginated_chunk by lia. rewrite skipn_all2 by lia. reflexivity.
    + unfold paginated, slice, ITEMS_PER_PAGE. cbv zeta.
      assert (Z.of_nat (length l) = 0) as -> by lia.
      destruct l; [|cbn [length] in T; lia]. rewrite skipn_nil, firstn_nil. reflexivity.
Qed.

End history_extras.

Module queue_extras.
Import DownloadQueue queue_spec.

(** X24: for a download that started (a time stamp other than zero) and
    not after the present time, [formatDuration] spells the whole
    seconds elapsed as hours, minutes below sixty and seconds below
    sixty that add up to them, leaving out the hours, or the hours and
    the minutes, when they are zero. *)
Theorem duration_is_split_into_hours_minutes_seconds Date_now startTimestamp :
  startTimestamp <> 0 ->
  startTimestamp * 1000 <= Date_now ->
  exists h m s,
    0 <= h /\ 0 <= m < 60 /\ 0 <= s < 60
    /\ 3600 * h + 60 * m + s = Date_now / 1000 - startTimestamp
    /\ formatDuration Date_now startTimestamp = spelled h m s.
Proof.
  intros Hz Hle. unfold formatDuration.
  destruct (startTimestamp =? 0) eqn:E; [apply Z.eqb_eq in E; contradiction|].
  cbv zeta. set (d := Date_now / 1000 - startTimestamp).
  assert (Hd : 0 <= d).
  { subst d. assert (startTimestamp <= Date_now / 1000); [|lia].
    apply Z.div_le_lower_bound; lia. }
  rewrite !Z.rem_mod_nonneg by lia.
  exists (d / 3600), (d mod 3600 / 60), (d mod 60).
  pose proof (Z.div_mod d 3600 ltac:(lia)).
  pose proof (Z.mod_pos_bound d 3600 ltac:(lia)).
  pose proof (Z.div_mod (d mod 3600) 60 ltac:(lia)).
  pose proof (Z.mod_pos_bound (d mod 3600) 60 ltac:(lia)).
  pose proof (Z.mod_pos_bound d 60 ltac:(lia)).
  assert (M : (d mod 3600) mod 60 = d mod 60).
  { pose proof (Z.mod_pos_bound (d mod 3600) 60 ltac:(lia)).
    apply (Z.mod_unique_pos d 60 (60 * (d / 3600) + d mod 3600 / 60)); lia. }
  split; [lia|]. split; [lia|]. split; [lia|]. split; [lia|].
  unfold spelled. reflexivity.
Qed.

Lemma duration_is_split_into_hours_minutes_seconds_witness :
  exists h m s,
    0 <= h /\ 0 <= m < 60 /\ 0 <= s < 60
    /\ 3600 * h + 60 * m + s = 7384999 / 1000 - 1
    /\ formatDuration 7384999 1 = spelled h m s.
Proof.
  apply (duration_is_split_into_hours_minutes_seconds 7384999 1); lia.
Defined.

End queue_extras.

Module cache_extras.
Import BillboardPage BillboardPage_cache cache_facts.

Section Cache.

Variable JSON_parse : bytes -> option CachedBillboardData.
Variable JSON_stringify : CachedBillboardData -> bytes.
Variable room : Storage -> bytes -> bytes -> bool.

(** X25: when an item is saved (its coding is not empty, can be read
    back, and the storage has room for it), [loadCachedData] for its
    date returns it and leaves the storage alone as long as the item is
    at most seven days old; after that it returns nothing and removes
    the item.  The items of the other dates stay as they were. *)
Theorem saved_chart_is_loaded_for_seven_days data st now :
  JSON_stringify data <> [] ->
  JSON_parse (JSON_stringify data) = Some data ->
  room st (CACHE_KEY_PREFIX ++ date data) (JSON_stringify data) = true ->
  let saved := saveCachedData JSON_stringify room data st in
  let loaded := loadCachedData JSON_parse now (date data) saved in
  (now - timestamp data <= 7 * 86400000 ->
     fst loaded = Some data /\ snd loaded = saved)
  /\ (7 * 86400000 < now - timestamp data ->
     fst loaded = None
     /\ getItem (snd loaded) (CACHE_KEY_PREFIX ++ date data) = None)
  /\ forall other, other <> date data ->
       getItem (snd loaded) (CACHE_KEY_PREFIX ++ other)
       = getItem st (CACHE_KEY_PREFIX ++ other).
Proof.
  intros Hne Hparse Hroom saved loaded. subst loaded saved.
  destruct (load_saved JSON_parse JSON_stringify room data st now Hne Hparse Hroom)
    as [-> ->].
  destruct (604800000 <? now - timestamp data) eqn:T;
    [apply Z.ltb_lt in T|apply Z.ltb_ge in T]; cbn [fst snd].
  - split; [intro; lia|]. split.
    + intros _. split; [reflexivity|]. unfold removeItem, getItem, put.
      rewrite beq_refl. reflexivity.
    + intros other Ho. unfold removeItem, getItem.
      rewrite !put_other by exact Ho. reflexivity.
  - split; [intros _; split; reflexivity|]. split; [intro; lia|].
    intros other Ho. unfold getItem. apply put_other. exact Ho.
Qed.

(** X26: a state saved by [saveToCache] (a date, at least one track, a
    matched set without duplicates) and loaded again within seven days
    gives back its tracks, its entries, its chart date and its matched
    set, with a matched count equal to the size of that set. *)
Theorem saved_state_is_restored billboardDate s s0 st saved_at now :
  let data :=
    {| date := billboardDate;
       chartDate := BillboardPage_handlers.chartDate s;
       entries := BillboardPage_handlers.billboardEntries s;
       tracks := BillboardPage_handlers.tracks s;
       matchedIndices := BillboardPage_handlers.matchedIndices s;
       timestamp := saved_at |} in
  billboardDate <> [] ->
  BillboardPage_handlers.tracks s <> [] ->
  NoDup (BillboardPage_handlers.matchedIndices s) ->
  JSON_stringify data <> [] ->
  JSON_parse (JSON_stringify data) = Some data ->
  room st (CACHE_KEY_PREFIX ++ billboardDate) (JSON_stringify data) = true ->
  now - saved_at <= 7 * 86400000 ->
  let s' := state_after
              (load_on_change JSON_parse billboardDate now s0
                 (saveToCache JSON_stringify room billboardDate saved_at s st)) in
  BillboardPage_handlers.tracks s' = BillboardPage_handlers.tracks s
  /\ BillboardPage_handlers.billboardEntries s'
     = BillboardPage_handlers.billboardEntries s
  /\ BillboardPage_handlers.chartDate s' = BillboardPage_handlers.chartDate s
  /\ BillboardPage_handlers.matchedIndices s'
     = BillboardPage_handlers.matchedIndices s
  /\ BillboardPage_handlers.matchedCount s'
     = size (BillboardPage_handlers.matchedIndices s).
Proof.
  intros data Hd Ht Hnd Hne Hparse Hroom Hage s'. subst s'.
  unfold saveToCache, load_on_change.
  destruct billboardDate as [|c d]; [contradiction|].
  destruct (BillboardPage_handlers.tracks s) as [|t ts] eqn:Et; [contradiction|].
  cbn [is_empty length Nat.eqb orb]. fold data.
  destruct (load_saved JSON_parse JSON_stringify room data st now Hne Hparse Hroom)
    as [E1 E2].
  change (date data) with (c :: d) in E1, E2. rewrite E1, E2.
  rewrite (proj2 (Z.ltb_ge _ _)) by (cbn [timestamp data]; lia).
  cbn -[new_Set]. rewrite (run_facts.new_Set_NoDup _ Hnd).
  repeat split; reflexivity.
Qed.

End Cache.

Lemma saved_chart_is_loaded_for_seven_days_witness :
  fst (loadCachedData sample_cache.parse 1714780801000 (date sample_cache.item)
         (saveCachedData sample_cache.stringify sample_cache.roomy
            sample_cache.item sample_cache.empty))
  = Some sample_cache.item.
Proof.
  refine (proj1 (proj1 (saved_chart_is_loaded_for_seven_days
                          sample_cache.parse sample_cache.stringify
                          sample_cache.roomy sample_cache.item
                          sample_cache.empty 1714780801000 _ _ _) _)).
  - discriminate.
  - reflexivity.
  - reflexivity.
  - vm_compute. discriminate.
Defined.

Lemma saved_state_is_restored_witness :
  BillboardPage_handlers.matchedCount
    (state_after
       (load_on_change sample_cache.parse (B "2024-05-04") 1714780801000
          sample_more.paused
          (saveToCache sample_cache.stringify sample_cache.roomy
             (B "2024-05-04") 1714780800000 sample_more.paused
             sample_cache.empty)))
  = 1.
Proof.
  refine (proj2 (proj2 (proj2 (proj2
            (saved_state_is_restored
               sample_cache.parse sample_cache.stringify sample_cache.roomy
               (B "2024-05-04") sample_more.paused sample_more.paused
               sample_cache.empty 1714780800000 1714780801000
               _ _ _ _ _ _ _))))).
  - discriminate.
  - discriminate.
  - apply NoDup_cons; [intros [] | apply NoDup_nil].
  - discriminate.
  - reflexivity.
  - reflexivity.
  - vm_compute. discriminate.
Defined.

End cache_extras.

Module utils_extras.
Import strings utils utils_spec utils_facts join_spec join_facts output_facts.

(** X27: [sanitizePath] is idempotent; its result holds no slash, and
    for Windows none of the characters < > : double quote, slash, | ? *
    either. *)
Theorem sanitizePath_is_idempotent input os :
  sanitizePath (sanitizePath input os) os = sanitizePath input os
  /\ ~ In "/"%char (sanitizePath input os)
  /\ Forall (fun c => ~ In (code c) windows_forbidden)
            (sanitizePath input (B "Windows")).
Proof.
  assert (A : forall c, Ascii.eqb c "/" = true -> code c < 0x80)
    by (intros c H; apply Ascii.eqb_eq in H; subst c; reflexivity).
  split; [|split].
  - rewrite !sanitizePath_spec. destruct (beq os (B "Windows")).
    + rewrite (trim_underscored _ windows_invalid_ascii).
      apply (underscored_twice _ eq_refl).
    + rewrite (trim_underscored _ A).
      apply (underscored_twice (fun c => Ascii.eqb c "/") eq_refl).
  - rewrite sanitizePath_spec. intro Hin.
    destruct (beq os (B "Windows")).
    + pose proof (underscored_free windows_invalid eq_refl
                    (BillboardPage.trim input)) as F.
      rewrite Forall_forall in F. specialize (F _ Hin). discriminate F.
    + pose proof (underscored_free (fun c => Ascii.eqb c "/") eq_refl
                    (BillboardPage.trim input)) as F.
      rewrite Forall_forall in F. specialize (F _ Hin). discriminate F.
  - rewrite sanitizePath_spec.
    change (beq (B "Windows") (B "Windows")) with true. cbv iota.
    eapply Forall_impl;
      [|apply (underscored_free windows_invalid eq_refl)].
    cbv beta. intros c Hc Hin. apply windows_invalid_forbidden in Hin.
    congruence.
Qed.

(** X28: the path that [joinPath] returns never ends with a slash or a
    backslash, and it is empty exactly when every part holds slashes and
    backslashes only. *)
Theorem joinPath_never_ends_with_a_slash os parts :
  ends_with_slash (joinPath os parts) = false
  /\ (joinPath os parts = [] <-> forallb blank parts = true).
Proof.
  unfold joinPath. cbv zeta.
  set (sep := if beq os (B "Windows") then [backslash] else B "/").
  destruct (length (nonempty parts) =? 0)%nat eqn:L.
  - split; [reflexivity|]. split; [|reflexivity]. intros _.
    apply Nat.eqb_eq, length_zero_iff_nil in L.
    rewrite <- nonempty_blank, L. reflexivity.
  - destruct (stripped_cases (nonempty parts) 0) as [F N].
    destruct (Join_ends _ sep F) as [E1 E2]. split; [exact E1|].
    rewrite nonempty_blank in N. rewrite <- N. split.
    + intro J. destruct (nonempty (stripped 0 (nonempty parts))); [reflexivity|].
      exfalso. apply E2; [discriminate | exact J].
    + intros ->. reflexivity.
Qed.

(** X29: on a system other than Windows the folder given to
    [buildOutputPath] adds one level to the download path at most: the
    result has at most one slash more than the download path. *)
Theorem folder_adds_one_level_at_most settings folder :
  beq (operatingSystem settings) (B "Windows") = false ->
  (slashes (buildOutputPath settings folder)
   <= slashes (match downloadPath settings with
               | Some base => base
               | None => []
               end) + 1)%nat.
Proof.
  intro Hos. unfold buildOutputPath. cbv zeta.
  set (base := match downloadPath settings with
               | Some (c :: p) => c :: p
               | _ => []
               end).
  assert (Hb : (match downloadPath settings with
                | Some b => b | None => [] end) = base).
  { subst base. destruct (downloadPath settings) as [[|c p]|]; reflexivity. }
  rewrite Hb. clear Hb.
  destruct folder as [[|c f]|]; try lia.
  rewrite sanitizePath_spec, Hos.
  pose proof (slashes_underscored (BillboardPage.trim (c :: f))) as Z.
  destruct (underscored _ _) as [|c' s'] eqn:E; [lia|].
  unfold joinPath. cbv zeta. rewrite Hos.
  destruct base as [|x base'].
  - cbn [nonempty filter is_empty negb length Nat.eqb stripped].
    pose proof (slashes_strip_end (c' :: s')).
    destruct (strip_end (c' :: s')) as [|y q]; cbn [filter is_empty negb Join]; lia.
  - cbn [nonempty filter is_empty negb length Nat.eqb stripped].
    pose proof (slashes_Join_two (strip_end (x :: base')) (strip_both (c' :: s'))) as J.
    unfold nonempty in J. cbn [filter] in J.
    pose proof (slashes_strip_end (x :: base')).
    pose proof (slashes_strip_both (c' :: s')). lia.
Qed.

Lemma folder_adds_one_level_at_most_witness :
  (slashes (buildOutputPath {| operatingSystem := B "linux";
                               downloadPath := Some (B "/music") |}
                            (Some (B "a/b")))
   <= slashes (B "/music") + 1)%nat.
Proof.
  apply (folder_adds_one_level_at_most
           {| operatingSystem := B "linux"; downloadPath := Some (B "/music") |}
           (Some (B "a/b"))).
  reflexivity.
Defined.

End utils_extras.

